(** * Vehicle mapping core of dora-examples: a shallow embedding

    The Python sources under [examples/vehicle-mapping/src] are embedded as
    Rocq functions, one module per source file:

    - [Linalg]: the numpy operations the sources use on 3-vectors, 4x4
      matrices and point arrays;
    - [Rounded]: the float operations whose rounding is kept apart from
      their exact values (see Numbers below);
    - [SimpleICP]: [simple_icp.py], class [SimpleICPOdometry];
    - [IcpOdometryOp]: [operators/icp_odometry_op.py], class [Operator];
    - [WaypointExtractor]: [waypoint_extractor.py];
    - [WaypointExtractorOp]: [operators/waypoint_extractor_op.py];
    - [LoopDetector]: [loop_detector.py], classes [LoopDetector] and
      [ScanContextDetector];
    - [LoopDetectorBinary64]: [ScanContextDetector._compute_similarity] on
      binary64 numbers;
    - [PoseGraph]: [pose_graph.py], class [PoseGraphOptimizer];
    - [PoseGraphStats], [KissICPRunner], [LoopVerifier], [ScanContextDb],
      [WaypointStats], [WaypointExtractorEvents]: the statistics, the
      relative pose of [kiss_icp_runner.py], the ICP check of loop
      candidates, the descriptor database, the quaternion conversions and
      the event handler of the waypoint operator.

    Numbers.  The sources compute in float64.  The embedding reads every float
    as a real number ([R]) and a float operation as the exact operation, so
    [np.linalg.norm] is a genuine square root and [np.arctan2] a genuine
    angle; overflow and NaN are outside the model.  Rounding is made explicit
    where it decides what the code does:
    - the distance of a point from a chord in the two Douglas-Peucker
      routines, which decides where the recursion splits and whether it
      ends, is computed by the operations [computed_line_unit] and
      [computed_line_distance] of the class [Rounding]; their exact values
      are [WaypointExtractor.line_unit_of] and
      [WaypointExtractor.line_distance], and
      [WaypointExtractor.exact_arithmetic] is the instance without rounding;
    - [.astype(np.float32)] and arrow's float32 arrays, through which both
      operators send their outputs, are the operation [astype_float32] of
      the same class;
    - [.astype(int)] converts to int64, and a value outside the range of
      int64 gives the least int64;
    - [LoopDetectorBinary64] evaluates the similarity of two descriptors in
      binary64 itself (the primitive floats of the kernel), to run the code
      on inputs where rounding shows.

    Errors.  A Python exception (IndexError on a list, ValueError of
    [np.vstack] on an empty list, LinAlgError of [np.linalg.inv]) is the value
    [None] of an [option]; code that cannot raise is a total function.

    External libraries.  Open3D (voxel down-sampling, normal estimation, ICP
    registration) and GTSAM's optimizer are not part of the repository; they
    are operations of the classes [Open3D] and [Gtsam], about which nothing is
    assumed. *)

From Stdlib Require Import Floats.
From Stdlib Require Import Reals Lra Lia ZArith List.
From stdpp Require Import base option list gmap sets sorting.

(** ** Numpy on vectors, matrices and point arrays *)

Module Linalg.

(** A row of an Nx3 array. *)
Definition vec3 : Type := (R * R * R)%type.

(** A row of an Nx2 array. *)
Definition vec2 : Type := (R * R)%type.

Definition vadd3 (a b : vec3) : vec3 :=
  let '(ax, ay, az) := a in let '(bx, by_, bz) := b in
  (ax + bx, ay + by_, az + bz)%R.

Definition vsub3 (a b : vec3) : vec3 :=
  let '(ax, ay, az) := a in let '(bx, by_, bz) := b in
  (ax - bx, ay - by_, az - bz)%R.

(** [np.linalg.norm] of a 3-vector. *)
Definition norm3 (a : vec3) : R :=
  let '(ax, ay, az) := a in sqrt (ax * ax + ay * ay + az * az).

Definition vadd2 (a b : vec2) : vec2 :=
  (a.1 + b.1, a.2 + b.2)%R.

Definition vsub2 (a b : vec2) : vec2 :=
  (a.1 - b.1, a.2 - b.2)%R.

Definition vscale2 (k : R) (a : vec2) : vec2 :=
  (k * a.1, k * a.2)%R.

(** [np.dot] of two 2-vectors. *)
Definition dot2 (a b : vec2) : R := (a.1 * b.1 + a.2 * b.2)%R.

(** [np.linalg.norm] of a 2-vector. *)
Definition norm2 (a : vec2) : R := sqrt (a.1 * a.1 + a.2 * a.2).

(** A 4x4 array, entry [mIJ] at row I and column J. *)
Record mat4 : Type := Mat4 {
  m00 : R; m01 : R; m02 : R; m03 : R;
  m10 : R; m11 : R; m12 : R; m13 : R;
  m20 : R; m21 : R; m22 : R; m23 : R;
  m30 : R; m31 : R; m32 : R; m33 : R
}.

(** [np.eye(4)] *)
Definition eye4 : mat4 :=
  Mat4 1 0 0 0
       0 1 0 0
       0 0 1 0
       0 0 0 1.

Definition dot4 (a b : R * R * R * R) : R :=
  let '(a0, a1, a2, a3) := a in let '(b0, b1, b2, b3) := b in
  (a0 * b0 + a1 * b1 + a2 * b2 + a3 * b3)%R.

Definition row0 (A : mat4) := (m00 A, m01 A, m02 A, m03 A).
Definition row1 (A : mat4) := (m10 A, m11 A, m12 A, m13 A).
Definition row2 (A : mat4) := (m20 A, m21 A, m22 A, m23 A).
Definition row3 (A : mat4) := (m30 A, m31 A, m32 A, m33 A).
Definition col0 (A : mat4) := (m00 A, m10 A, m20 A, m30 A).
Definition col1 (A : mat4) := (m01 A, m11 A, m21 A, m31 A).
Definition col2 (A : mat4) := (m02 A, m12 A, m22 A, m32 A).
Definition col3 (A : mat4) := (m03 A, m13 A, m23 A, m33 A).

(** [A @ B] *)
Definition matmul (A B : mat4) : mat4 :=
  Mat4 (dot4 (row0 A) (col0 B)) (dot4 (row0 A) (col1 B))
       (dot4 (row0 A) (col2 B)) (dot4 (row0 A) (col3 B))
       (dot4 (row1 A) (col0 B)) (dot4 (row1 A) (col1 B))
       (dot4 (row1 A) (col2 B)) (dot4 (row1 A) (col3 B))
       (dot4 (row2 A) (col0 B)) (dot4 (row2 A) (col1 B))
       (dot4 (row2 A) (col2 B)) (dot4 (row2 A) (col3 B))
       (dot4 (row3 A) (col0 B)) (dot4 (row3 A) (col1 B))
       (dot4 (row3 A) (col2 B)) (dot4 (row3 A) (col3 B)).

(** [T[:3, 3]] *)
Definition translation (T : mat4) : vec3 := (m03 T, m13 T, m23 T).

(** [T[:3, :3] @ p] *)
Definition rotate (T : mat4) (p : vec3) : vec3 :=
  let '(x, y, z) := p in
  (m00 T * x + m01 T * y + m02 T * z,
   m10 T * x + m11 T * y + m12 T * z,
   m20 T * x + m21 T * y + m22 T * z)%R.

(** [T[:3, 3] += v] on a copy of [T]: the other twelve entries stay. *)
Definition add_translation (T : mat4) (v : vec3) : mat4 :=
  let '(vx, vy, vz) := v in
  Mat4 (m00 T) (m01 T) (m02 T) (m03 T + vx)
       (m10 T) (m11 T) (m12 T) (m13 T + vy)
       (m20 T) (m21 T) (m22 T) (m23 T + vz)
       (m30 T) (m31 T) (m32 T) (m33 T).

(** The homogeneous matrix of the pure translation by [v]. *)
Definition translate (v : vec3) : mat4 := add_translation eye4 v.

(** [(T[:3, :3] @ pts.T).T + T[:3, 3]] *)
Definition transform_points (T : mat4) (pts : list vec3) : list vec3 :=
  fmap (fun p => vadd3 (rotate T p) (translation T)) pts.

(** [l[-k]] for [k >= 1]; [None] is Python's IndexError. *)
Definition neg_index {A : Type} (l : list A) (k : nat) : option A :=
  if decide (1 <= k <= length l)%nat then l !! (length l - k)%nat else None.

(** [l[::step]] for [step >= 1]: the entries at positions 0, step, 2*step, ... *)
Fixpoint stride_from {A : Type} (skip step : nat) (l : list A) : list A :=
  match l with
  | [] => []
  | x :: l' =>
      match skip with
      | O => x :: stride_from (step - 1) step l'
      | S k => stride_from k step l'
      end
  end.

Definition stride {A : Type} (step : nat) (l : list A) : list A :=
  stride_from 0 step l.

(** [[l[j] for j in range(lo, hi)]]; [None] is Python's IndexError. *)
Definition index_range {A : Type} (l : list A) (lo hi : nat) : option (list A) :=
  mapM (fun j => l !! j) (seq lo (hi - lo)).

End Linalg.

(** ** Rounding *)

Module Rounded.
Import Linalg.

(** The float operations whose rounding the embedding keeps apart; nothing
    is assumed about them.
    - [computed_line_unit start end_]: the float64 vector
      [line_vec / line_len] the Douglas-Peucker routines compute for the
      chord from [start] to [end_] (lines 117-123 of waypoint_extractor.py,
      lines 68-74 of waypoint_extractor_op.py);
    - [computed_line_distance start line_unit p]: the float64 value they
      compute for the distance of [p] from the line through [start] along
      [line_unit] (lines 128-131 of waypoint_extractor.py, lines 79-82 of
      waypoint_extractor_op.py);
    - [astype_float32 x]: the float32 nearest to the float64 [x]. *)
Class Rounding : Type := {
  computed_line_unit : vec2 -> vec2 -> vec2;
  computed_line_distance : vec2 -> vec2 -> vec2 -> R;
  astype_float32 : R -> R
}.

End Rounded.

(** ** Open3D, as far as the sources call it *)

Module O3d.
Import Linalg.

(** [o3d.geometry.PointCloud]: the points and, once estimated, their normals. *)
Record PointCloud : Type := {
  points : list vec3;
  normals : list vec3
}.

(** The result object of [registration_icp]. *)
Record RegistrationResult : Type := {
  transformation : mat4;
  fitness : R;
  inlier_rmse : R
}.

Inductive Estimation : Type :=
  | TransformationEstimationPointToPlane
  | TransformationEstimationPointToPoint.

(** The calls into Open3D.  [estimate_normals radius max_nn pts] stands for
    [estimate_normals(KDTreeSearchParamHybrid(radius, max_nn))];
    [registration_icp source target max_correspondence init estimation
    max_iteration] for the registration pipeline. *)
Class Open3D : Type := {
  voxel_down_sample : R -> list vec3 -> list vec3;
  estimate_normals : R -> nat -> list vec3 -> list vec3;
  registration_icp :
    PointCloud -> PointCloud -> R -> mat4 -> Estimation -> Z -> RegistrationResult
}.

End O3d.

(** ** simple_icp.py: class SimpleICPOdometry *)

Module SimpleICP.
Import Linalg O3d.

(** The attributes [__init__] reads from the configuration. *)
Record Config : Type := {
  voxel_size : R;
  max_correspondence : R;
  max_iteration : Z
}.

(** [SimpleICPOdometry(None)]: the defaults of [config.get]. *)
Definition default_config : Config :=
  {| voxel_size := 0.1; max_correspondence := 0.5; max_iteration := 50 |}.

(** The two lists [run_on_sequence] grows while it loops. *)
Record State : Type := {
  poses : list mat4;
  world_clouds : list (list vec3)
}.

(** [expected_motion = 0.25  # Approximate motion per frame] *)
Definition expected_motion : R := 0.25.

(** [np.vstack]: a ValueError on the empty list. *)
Definition vstack (arrays : list (list vec3)) : option (list vec3) :=
  match arrays with
  | [] => None
  | _ => Some (concat arrays)
  end.

(** [pts[::max(1, len(pts) // 5000)]] *)
Definition subsample (pts : list vec3) : list vec3 :=
  stride (Nat.max 1 (length pts / 5000)) pts.

Section WithOpen3D.
Context `{!Open3D}.

(** [preprocess], lines 39-55. *)
Definition preprocess (self : Config) (pts : list vec3) : PointCloud :=
  let pcd := if Rgt_dec (voxel_size self) 0
             then voxel_down_sample (voxel_size self) pts else pts in
  {| points := pcd;
     normals := estimate_normals (voxel_size self * 2) 30 pcd |}.

(** Lines 108-126 of [run_on_sequence]: the target cloud of frame [i]. *)
Definition target_cloud (self : Config) (use_local_map : bool)
    (window_size : Z) (i : nat) (st : State) : option PointCloud :=
  let start_idx := Z.to_nat (Z.max 0 (Z.of_nat i - window_size)) in
  if use_local_map && bool_decide (1 < i)%nat then
    clouds ← index_range (world_clouds st) start_idx i;
    local_map_points ← vstack (fmap subsample clouds);
    Some (preprocess self local_map_points)
  else
    prev_cloud ← world_clouds st !! (i - 1)%nat;
    Some (preprocess self prev_cloud).

(** Lines 128-159: the registration of frame [i] against the target. *)
Definition icp_correction (self : Config) (use_local_map : bool)
    (window_size : Z) (point_clouds : list (list vec3)) (i : nat)
    (st : State) : option RegistrationResult :=
  target_pcd ← target_cloud self use_local_map window_size i st;
  pc_i ← point_clouds !! i;
  let curr_pcd := preprocess self pc_i in
  last_pose ← neg_index (poses st) 1;
  let curr_world := transform_points last_pose (points curr_pcd) in
  let curr_world_estimate :=
    {| points := curr_world;
       normals := estimate_normals (voxel_size self * 2) 30 curr_world |} in
  Some (registration_icp curr_world_estimate target_pcd
          (max_correspondence self * 2) eye4
          TransformationEstimationPointToPlane (max_iteration self * 2)).

(** Lines 172-177: the pose the motion model continues with. *)
Definition motion_model (poses : list mat4) : option mat4 :=
  if decide (2 <= length poses)%nat then
    p1 ← neg_index poses 1;
    p2 ← neg_index poses 2;
    let velocity := vsub3 (translation p1) (translation p2) in
    Some (add_translation p1 velocity)
  else
    neg_index poses 1.

(** Lines 161-178: the pose and the fitness kept for the frame. *)
Definition validate (result : RegistrationResult) (poses : list mat4)
    : option (mat4 * R) :=
  last_pose ← neg_index poses 1;
  let T_abs := matmul (transformation result) last_pose in
  let delta_pos := norm3 (vsub3 (translation T_abs) (translation last_pose)) in
  if Rgt_dec delta_pos (expected_motion * 3) then
    T_model ← motion_model poses;
    Some (T_model, 0%R)
  else
    Some (T_abs, fitness result).

(** One pass of the loop of lines 107-189; the second component is the value
    of the local variable [fitness] when the pass ends. *)
Definition loop_body (self : Config) (use_local_map : bool)
    (window_size : Z) (point_clouds : list (list vec3)) (i : nat)
    (st : State) : option (State * R) :=
  result ← icp_correction self use_local_map window_size point_clouds i st;
  '(T_abs, fitness) ← validate result (poses st);
  curr_pts_orig ← point_clouds !! i;
  let curr_world_final := transform_points T_abs curr_pts_orig in
  Some ({| poses := poses st ++ [T_abs];
           world_clouds := world_clouds st ++ [curr_world_final] |}, fitness).

(** The loop over [idxs], collecting the fitness of every pass. *)
Fixpoint run_loop (self : Config) (use_local_map : bool) (window_size : Z)
    (point_clouds : list (list vec3)) (idxs : list nat) (st : State)
    : option (State * list R) :=
  match idxs with
  | [] => Some (st, [])
  | i :: idxs' =>
      '(st', fitness) ← loop_body self use_local_map window_size point_clouds i st;
      '(st'', log) ← run_loop self use_local_map window_size point_clouds idxs' st';
      Some (st'', fitness :: log)
  end.

(** [run_on_sequence], lines 97-191, together with the fitness of the frames
    1, 2, ... in that order (the source prints it and returns the poses). *)
Definition run_on_sequence_log (self : Config) (point_clouds : list (list vec3))
    (use_local_map : bool) (window_size : Z) : option (list mat4 * list R) :=
  let n_frames := length point_clouds in
  match point_clouds with
  | [] => Some ([], [])
  | pc0 :: _ =>
      let st0 := {| poses := [eye4]; world_clouds := [pc0] |} in
      '(st, log) ← run_loop self use_local_map window_size point_clouds
                     (seq 1 (n_frames - 1)) st0;
      Some (poses st, log)
  end.

(** [run_on_sequence]: the array of absolute poses. *)
Definition run_on_sequence (self : Config) (point_clouds : list (list vec3))
    (use_local_map : bool) (window_size : Z) : option (list mat4) :=
  fst <$> run_on_sequence_log self point_clouds use_local_map window_size.

End WithOpen3D.
End SimpleICP.

(** ** operators/icp_odometry_op.py: class Operator *)

Module IcpOdometryOp.
Import Linalg Rounded O3d.

(** The attributes of the operator; [prev_pcd] is never read and left out. *)
Record Operator : Type := {
  voxel_size : R;
  max_correspondence : R;
  max_iteration : Z;
  poses : list mat4;
  world_clouds : list (list vec3);
  window_size : Z;
  frame_count : nat
}.

(** The [icp] section of the configuration file. *)
Record IcpConfig : Type := {
  cfg_voxel_size : R;
  cfg_max_correspondence_distance : R;
  cfg_max_iteration : Z
}.

(** The defaults of [icp_config.get]. *)
Definition default_icp_config : IcpConfig :=
  {| cfg_voxel_size := 0.1;
     cfg_max_correspondence_distance := 1.0;
     cfg_max_iteration := 50 |}.

(** [__init__], lines 41-52. *)
Definition init (icp_config : IcpConfig) : Operator :=
  {| voxel_size := cfg_voxel_size icp_config;
     max_correspondence := cfg_max_correspondence_distance icp_config;
     max_iteration := cfg_max_iteration icp_config;
     poses := [eye4];
     world_clouds := [];
     window_size := 5;
     frame_count := 0 |}.

Definition set_frame (self : Operator) (poses' : list mat4)
    (world_clouds' : list (list vec3)) (frame_count' : nat) : Operator :=
  {| voxel_size := voxel_size self;
     max_correspondence := max_correspondence self;
     max_iteration := max_iteration self;
     poses := poses';
     world_clouds := world_clouds';
     window_size := window_size self;
     frame_count := frame_count' |}.

(** What a dora event carries, as far as [on_event] looks at it. *)
Inductive InputId : Type := Pointcloud | FrameInfo | OtherInput.

Inductive Event : Type :=
  | INPUT (id : InputId) (value : list R)
  | STOP
  | OtherEvent.

Inductive DoraStatus : Type := CONTINUE | STOP_.

(** One call of [send_output]: the output's name and its float32 array. *)
Inductive Output : Type :=
  | Pose (pose_flat : list R)
  | OdometryStatus (status : list R).

(** [pose.flatten()] *)
Definition flatten (T : mat4) : list R :=
  [m00 T; m01 T; m02 T; m03 T; m10 T; m11 T; m12 T; m13 T;
   m20 T; m21 T; m22 T; m23 T; m30 T; m31 T; m32 T; m33 T].

(** [points_flat.reshape(-1, 3)]; a ValueError when the length is no
    multiple of 3. *)
Fixpoint reshape3 (flat : list R) : option (list vec3) :=
  match flat with
  | [] => Some []
  | x :: y :: z :: rest => pts ← reshape3 rest; Some ((x, y, z) :: pts)
  | _ => None
  end.

Section WithOpen3D.
Context `{!Open3D}.

(** [_preprocess], lines 67-80. *)
Definition _preprocess (self : Operator) (pts : list vec3) : PointCloud :=
  let pcd := if Rgt_dec (voxel_size self) 0
             then voxel_down_sample (voxel_size self) pts else pts in
  {| points := pcd;
     normals := estimate_normals (voxel_size self * 2) 30 pcd |}.

(** Lines 104-129 of [_register_frame]. *)
Definition run_icp (self : Operator) (target_pcd : PointCloud)
    (pts : list vec3) (prev_pose : mat4) : RegistrationResult :=
  let curr_pcd := _preprocess self pts in
  let curr_pts := points curr_pcd in
  let curr_world := transform_points prev_pose curr_pts in
  let curr_world_pcd :=
    {| points := curr_world;
       normals := estimate_normals (voxel_size self * 2) 30 curr_world |} in
  registration_icp curr_world_pcd target_pcd (max_correspondence self * 2)
    eye4 TransformationEstimationPointToPlane (max_iteration self * 2).

(** Lines 138-144: the motion-model fallback. *)
Definition fallback (self : Operator) (prev_pose : mat4) : option mat4 :=
  if decide (2 <= length (poses self))%nat then
    p1 ← neg_index (poses self) 1;
    p2 ← neg_index (poses self) 2;
    let velocity := vsub3 (translation p1) (translation p2) in
    Some (add_translation prev_pose velocity)
  else
    Some prev_pose.

(** Lines 90-96: the recent world clouds, each subsampled. *)
Definition local_map (self : Operator) : option (list (list vec3)) :=
  let n := length (world_clouds self) in
  let start_idx := Z.to_nat (Z.max 0 (Z.of_nat n - window_size self)) in
  clouds ← index_range (world_clouds self) start_idx n;
  Some (fmap SimpleICP.subsample (clouds : list (list vec3))).

(** [_register_frame], lines 82-155: the new state and the returned triple
    [(pose, fitness, rmse)]. *)
Definition _register_frame (self : Operator) (pts : list vec3)
    : option (Operator * (mat4 * R * R)) :=
  if decide (frame_count self = 0)%nat then
    Some (set_frame self (poses self) (world_clouds self ++ [pts])
            (frame_count self + 1), (eye4, 1%R, 0%R))
  else
    local_map_points ← local_map self;
    match local_map_points with
    | [] => last_pose ← neg_index (poses self) 1;
            Some (self, (last_pose, 0%R, 0%R))
    | _ =>
        let target_pcd := _preprocess self (concat local_map_points) in
        prev_pose ← neg_index (poses self) 1;
        let result := run_icp self target_pcd pts prev_pose in
        let T_correction := transformation result in
        let T_abs := matmul T_correction prev_pose in
        let delta_pos :=
          norm3 (vsub3 (translation T_abs) (translation prev_pose)) in
        '(T_abs, fitness) ←
          (if Rgt_dec delta_pos 0.75 then
             T_model ← fallback self prev_pose; Some (T_model, 0%R)
           else Some (T_abs, O3d.fitness result));
        let curr_world_final := transform_points T_abs pts in
        Some (set_frame self (poses self ++ [T_abs])
                (world_clouds self ++ [curr_world_final])
                (frame_count self + 1),
              (T_abs, fitness, inlier_rmse result))
    end.

End WithOpen3D.

Section WithRounding.
Context `{!Open3D} `{!Rounding}.

(** [on_event], lines 157-200: the new state, the outputs sent (in order) and
    the returned status.  The pose goes out as [.astype(np.float32)], the
    status as an arrow array of type float32. *)
Definition on_event (self : Operator) (dora_event : Event)
    : option (Operator * list Output * DoraStatus) :=
  match dora_event with
  | INPUT Pointcloud points_flat =>
      if decide (length points_flat = 0)%nat then
        Some (self, [], CONTINUE)
      else
        pts ← reshape3 points_flat;
        '(self', (pose, fitness, rmse)) ← _register_frame self pts;
        let pose_flat := astype_float32 <$> flatten pose in
        let status := [INR (frame_count self' - 1); fitness; rmse] in
        Some (self',
              [Pose pose_flat; OdometryStatus (astype_float32 <$> status)],
              CONTINUE)
  | INPUT _ _ => Some (self, [], CONTINUE)
  | STOP => Some (self, [], STOP_)
  | OtherEvent => Some (self, [], CONTINUE)
  end.

(** The operator fed a list of events: the final state and all outputs, or
    [None] when an event raises; events after a STOP are not delivered. *)
Fixpoint run_events (self : Operator) (events : list Event)
    : option (Operator * list Output) :=
  match events with
  | [] => Some (self, [])
  | ev :: events' =>
      '(self', outs, status) ← on_event self ev;
      match status with
      | STOP_ => Some (self', outs)
      | CONTINUE =>
          '(self'', outs') ← run_events self' events';
          Some (self'', outs ++ outs')
      end
  end.

End WithRounding.
End IcpOdometryOp.

(** ** Python built-ins on lists of floats *)

Module PyList.

#[global] Instance Rle_decision (x y : R) : Decision (x <= y)%R := Rle_dec x y.
#[global] Instance Rlt_decision (x y : R) : Decision (x < y)%R := Rlt_dec x y.

(** [max(l)] of a list: its largest entry; [None] is the ValueError on an
    empty list. *)
Definition py_max (l : list R) : option R :=
  match l with
  | [] => None
  | x :: l' => Some (fold_left Rmax l' x)
  end.

(** [l.index(x)]: the first position holding [x]; [None] is the ValueError
    when there is none. *)
Fixpoint py_index (x : R) (l : list R) : option nat :=
  match l with
  | [] => None
  | y :: l' => if Req_dec_T y x then Some 0%nat else S <$> py_index x l'
  end.

(** [sorted(l)] on integers. *)
Definition sorted (l : list Z) : list Z := merge_sort Z.le l.

(** [np.median]: the middle entry of the sorted values, the mean of the two
    middle entries when their number is even; [None] on no value (numpy
    gives nan there). *)
Definition median (l : list R) : option R :=
  let s := merge_sort Rle l in
  let n := length s in
  if Nat.even n then
    a ← s !! (n / 2 - 1)%nat; b ← s !! (n / 2)%nat; Some ((a + b) / 2)%R
  else s !! (n / 2)%nat.

End PyList.

(** ** waypoint_extractor.py: class WaypointExtractor *)

Module WaypointExtractor.
Import Linalg Rounded PyList.

(** The attributes [__init__] reads from the configuration. *)
Record Config : Type := {
  min_distance : R;
  simplify : bool;
  simplify_tolerance : R;
  z_threshold : option R
}.

(** [WaypointExtractor(None)]: the defaults of [config.get]. *)
Definition default_config : Config :=
  {| min_distance := 0.5; simplify := true;
     simplify_tolerance := 0.1; z_threshold := None |}.

(** [p[:2]] *)
Definition xy (p : vec3) : vec2 := (p.1.1, p.1.2).

(** [p[2]] *)
Definition zcoord (p : vec3) : R := p.2.

(** One pass of the loop of lines 75-78. *)
Definition filter_step (self : Config) (filtered : option (list vec3))
    (pos : vec3) : option (list vec3) :=
  filtered ← filtered;
  last_kept ← neg_index filtered 1;
  let dist := norm2 (vsub2 (xy pos) (xy last_kept)) in
  if Rge_dec dist (min_distance self) then Some (filtered ++ [pos])
  else Some filtered.

(** [_filter_by_distance], lines 68-80. *)
Definition _filter_by_distance (self : Config) (positions : list vec3)
    : option (list vec3) :=
  match positions with
  | [] => Some positions
  | p0 :: rest => fold_left (filter_step self) rest (Some [p0])
  end.

(** [_filter_by_z], lines 82-89; called only when [z_threshold] is set. *)
Definition _filter_by_z (z_thr : R) (positions : list vec3) : list vec3 :=
  match median (fmap zcoord positions) with
  | None => positions
  | Some z_ref =>
      filter (fun p => bool_decide (Rabs (zcoord p - z_ref) < z_thr)%R) positions
  end.

(** The distance of [p] to the line through [start] along [line_unit],
    lines 128-131, in exact arithmetic. *)
Definition line_distance (start line_unit p : vec2) : R :=
  let v := vsub2 p start in
  let proj_len := dot2 v line_unit in
  let proj := vadd2 start (vscale2 proj_len line_unit) in
  norm2 (vsub2 p proj).

(** The unit vector of the chord from [start] to [end_], lines 117-123, in
    exact arithmetic. *)
Definition line_unit_of (start end_ : vec2) : vec2 :=
  let line_vec := vsub2 end_ start in
  let line_len := norm2 line_vec in
  (line_vec.1 / line_len, line_vec.2 / line_len)%R.

(** Arithmetic without rounding. *)
Definition exact_arithmetic : Rounding :=
  {| computed_line_unit := line_unit_of;
     computed_line_distance := line_distance;
     astype_float32 := fun x => x |}.

Section WithRounding.
Context `{!Rounding}.

(** [_douglas_peucker], lines 106-144: the indices of the points to keep.
    [fuel] bounds the depth of the recursion; [None] is a recursion that
    does not end within it (or an exception). *)
Fixpoint _douglas_peucker (fuel : nat) (pts : list vec2) (tolerance : R)
    : option (list nat) :=
  match fuel with
  | O => None
  | S fuel' =>
      if decide (length pts < 3)%nat then Some (seq 0 (length pts))
      else
        start ← pts !! 0%nat;
        end_ ← neg_index pts 1;
        let line_vec := vsub2 end_ start in
        let line_len := norm2 line_vec in
        if Rlt_dec line_len 1e-6 then Some [0%nat; (length pts - 1)%nat]
        else
          let line_unit := computed_line_unit start end_ in
          let distances := fmap (computed_line_distance start line_unit) pts in
          max_dist ← py_max distances;
          max_idx ← py_index max_dist distances;
          if Rgt_dec max_dist tolerance then
            left ← _douglas_peucker fuel' (take (max_idx + 1) pts) tolerance;
            right ← _douglas_peucker fuel' (drop max_idx pts) tolerance;
            Some (removelast left ++ fmap (fun i => (i + max_idx)%nat) right)
          else Some [0%nat; (length pts - 1)%nat]
  end.

(** [positions[indices]]; [None] is an IndexError. *)
Definition take_indices {A : Type} (l : list A) (indices : list nat)
    : option (list A) :=
  mapM (fun i => l !! i) indices.

(** [_simplify_trajectory], lines 91-104. *)
Definition _simplify_trajectory (fuel : nat) (self : Config)
    (positions : list vec3) : option (list vec3) :=
  if decide (length positions < 3)%nat then Some positions
  else
    let points_2d := fmap xy positions in
    indices ← _douglas_peucker fuel points_2d (simplify_tolerance self);
    take_indices positions indices.

(** [sorted(poses.keys())] *)
Definition sorted_ids (poses : gmap Z mat4) : list Z :=
  sorted (elements (dom poses)).

(** [[poses[i][:3, 3] for i in sorted_ids]]; every id is a key, so no
    lookup fails. *)
Definition positions_of (poses : gmap Z mat4) : list vec3 :=
  omap (fun i => translation <$> poses !! i) (sorted_ids poses).

(** [extract], lines 35-66. *)
Definition extract (fuel : nat) (self : Config) (poses : gmap Z mat4)
    : option (list vec2) :=
  if decide (poses = ∅) then Some []
  else
    let positions := positions_of poses in
    waypoints_3d ← _filter_by_distance self positions;
    let waypoints_3d :=
      match z_threshold self with
      | Some z_thr => _filter_by_z z_thr waypoints_3d
      | None => waypoints_3d
      end in
    waypoints_3d ←
      (if simplify self then _simplify_trajectory fuel self waypoints_3d
       else Some waypoints_3d);
    Some (fmap xy (waypoints_3d : list vec3)).

End WithRounding.
End WaypointExtractor.

(** ** operators/waypoint_extractor_op.py: class Operator *)

Module WaypointExtractorOp.
Import Linalg Rounded PyList.

(** The attributes of the operator that [_extract_waypoints] reads. *)
Record Operator : Type := {
  min_spacing : R;
  simplify : bool;
  epsilon : R;
  poses : list mat4
}.

(** One pass of the loop of lines 110-113. *)
Definition spacing_step (self : Operator) (waypoints : option (list vec2))
    (p : vec2) : option (list vec2) :=
  waypoints ← waypoints;
  last_kept ← neg_index waypoints 1;
  let dist := norm2 (vsub2 p last_kept) in
  if Rge_dec dist (min_spacing self) then Some (waypoints ++ [p])
  else Some waypoints.

(** [[[p[0, 3], p[1, 3]] for p in self.poses]] *)
Definition trajectory_of (poses : list mat4) : list vec2 :=
  fmap (fun p => (m03 p, m13 p)) poses.

Section WithRounding.
Context `{!Rounding}.

(** One pass of the loop of lines 78-86 over the interior points. *)
Definition farthest_step (pts : list vec2) (start line_unit : vec2)
    (acc : option (R * nat)) (i : nat) : option (R * nat) :=
  '(max_dist, max_idx) ← acc;
  p ← pts !! i;
  let dist := computed_line_distance start line_unit p in
  if Rgt_dec dist max_dist then Some (dist, i) else Some (max_dist, max_idx).

(** [_douglas_peucker], lines 61-94: the points kept.  [fuel] bounds the
    depth of the recursion, as in the library class. *)
Fixpoint _douglas_peucker (fuel : nat) (pts : list vec2) (epsilon : R)
    : option (list vec2) :=
  match fuel with
  | O => None
  | S fuel' =>
      if decide (length pts <= 2)%nat then Some pts
      else
        start ← pts !! 0%nat;
        end_ ← neg_index pts 1;
        let line_vec := vsub2 end_ start in
        let line_len := norm2 line_vec in
        if Rlt_dec line_len 1e-6 then Some [start; end_]
        else
          let line_unit := computed_line_unit start end_ in
          '(max_dist, max_idx) ←
            fold_left (farthest_step pts start line_unit)
              (seq 1 (length pts - 1 - 1)) (Some (0%R, 0%nat));
          if Rgt_dec max_dist epsilon then
            left ← _douglas_peucker fuel' (take (max_idx + 1) pts) epsilon;
            right ← _douglas_peucker fuel' (drop max_idx pts) epsilon;
            Some (removelast left ++ right)
          else Some [start; end_]
  end.

(** [_extract_waypoints], lines 96-123. *)
Definition _extract_waypoints (fuel : nat) (self : Operator)
    : option (list vec2) :=
  if decide (length (poses self) = 0)%nat then Some []
  else
    let trajectory := trajectory_of (poses self) in
    if simplify self then _douglas_peucker fuel trajectory (epsilon self)
    else
      t0 ← trajectory !! 0%nat;
      waypoints ← fold_left (spacing_step self) (drop 1 trajectory) (Some [t0]);
      if decide (0 < length waypoints)%nat then
        t_last ← neg_index trajectory 1;
        w_last ← neg_index waypoints 1;
        let last_dist := norm2 (vsub2 t_last w_last) in
        if Rgt_dec last_dist 0.1 then Some (waypoints ++ [t_last])
        else Some waypoints
      else Some waypoints.

End WithRounding.
End WaypointExtractorOp.

(** ** loop_detector.py: classes LoopDetector and ScanContextDetector *)

Module LoopDetector.
Import Linalg PyList.

(** The attributes of [LoopDetector] that [detect_candidates] reads. *)
Record Config : Type := {
  distance_threshold : R;
  min_frame_gap : Z
}.

(** [LoopDetector(None)]: the defaults of [config.get]. *)
Definition default_config : Config :=
  {| distance_threshold := 5.0; min_frame_gap := 50 |}.

(** The body of the inner loop, lines 58-65: what the pair adds to
    [candidates].  Both ids are keys of [positions], so the last case (a
    KeyError) is never taken. *)
Definition candidate_step (self : Config) (positions : gmap Z vec3)
    (id_i id_j : Z) : list (Z * Z) :=
  if decide (id_j - id_i < min_frame_gap self)%Z then []
  else
    match positions !! id_i, positions !! id_j with
    | Some p_i, Some p_j =>
        let dist := norm3 (vsub3 p_i p_j) in
        if Rlt_dec dist (distance_threshold self) then [(id_i, id_j)] else []
    | _, _ => []
    end.

(** [detect_candidates], lines 40-67. *)
Definition detect_candidates (self : Config) (poses : gmap Z mat4)
    : list (Z * Z) :=
  let pose_ids := sorted (elements (dom poses)) in
  let positions := translation <$> poses in
  flat_map (fun id_i =>
    flat_map (fun id_j => candidate_step self positions id_i id_j) pose_ids)
    pose_ids.

(** The attributes of [ScanContextDetector]. *)
Record ScanContext : Type := {
  num_sectors : Z;
  num_rings : Z;
  max_range : R;
  similarity_threshold : R
}.

(** [ScanContextDetector(None)]: the defaults of [config.get]. *)
Definition default_scan_context : ScanContext :=
  {| num_sectors := 60; num_rings := 20; max_range := 80.0;
     similarity_threshold := 0.1 |}.

(** [np.arctan2(y, x)], in (-pi, pi]. *)
Definition arctan2 (y x : R) : R :=
  if Rlt_dec 0 x then atan (y / x)
  else if Rlt_dec x 0 then
    (if Rle_dec 0 y then atan (y / x) + PI else atan (y / x) - PI)%R
  else if Rlt_dec 0 y then (PI / 2)%R
  else if Rlt_dec y 0 then (- PI / 2)%R
  else 0%R.

(** [.astype(int)] on a float64: rounding toward zero into int64.  A value
    outside the range of int64 gives the least int64, which is what the
    conversion returns on x86-64. *)
Definition astype_int (x : R) : Z :=
  let t := if Rle_dec 0 x then Int_part x else (- Int_part (- x))%Z in
  if decide (- 2 ^ 63 <= t < 2 ^ 63)%Z then t else (- 2 ^ 63)%Z.

(** [np.clip(i, lo, hi)] on integers: [minimum(maximum(i, lo), hi)]. *)
Definition clip (i lo hi : Z) : Z := Z.min (Z.max i lo) hi.

(** Lines 191-199: the ring of a point. *)
Definition range_idx (self : ScanContext) (p : vec3) : Z :=
  let '(x, y, z) := p in
  let ranges := sqrt (x * x + y * y) in
  clip (astype_int (ranges / max_range self * IZR (num_rings self)))
       0 (num_rings self - 1).

(** Lines 193, 200-203: the sector of a point. *)
Definition angle_idx (self : ScanContext) (p : vec3) : Z :=
  let '(x, y, z) := p in
  let angles := arctan2 y x in
  clip (astype_int ((angles + PI) / (2 * PI) * IZR (num_sectors self)))
       0 (num_sectors self - 1).

(** A position on an axis of [n] entries, as numpy resolves an integer index:
    negative indices count from the end; [None] is the IndexError. *)
Definition axis_index (n : nat) (i : Z) : option nat :=
  if decide (0 <= i < Z.of_nat n)%Z then Some (Z.to_nat i)
  else if decide (- Z.of_nat n <= i < 0)%Z then Some (Z.to_nat (i + Z.of_nat n))
  else None.

(** [descriptor[r, a]] *)
Definition get_bin (descriptor : list (list R)) (r a : Z) : option R :=
  i ← axis_index (length descriptor) r;
  row ← descriptor !! i;
  j ← axis_index (length row) a;
  row !! j.

(** [descriptor[r, a] = v] *)
Definition set_bin (descriptor : list (list R)) (r a : Z) (v : R)
    : option (list (list R)) :=
  i ← axis_index (length descriptor) r;
  row ← descriptor !! i;
  j ← axis_index (length row) a;
  Some (<[i := <[j := v]> row]> descriptor).

(** [np.zeros((rows, cols))]; a ValueError on a negative dimension. *)
Definition zeros (rows cols : Z) : option (list (list R)) :=
  if decide (0 <= rows /\ 0 <= cols)%Z
  then Some (replicate (Z.to_nat rows) (replicate (Z.to_nat cols) 0%R))
  else None.

(** One pass of the loop of lines 207-209. *)
Definition descriptor_step (self : ScanContext)
    (descriptor : option (list (list R))) (p : vec3) : option (list (list R)) :=
  descriptor ← descriptor;
  let r := range_idx self p in
  let a := angle_idx self p in
  old ← get_bin descriptor r a;
  set_bin descriptor r a (Rmax old p.2).

(** [compute_descriptor], lines 180-211. *)
Definition compute_descriptor (self : ScanContext) (pts : list vec3)
    : option (list (list R)) :=
  fold_left (descriptor_step self) pts
    (zeros (num_rings self) (num_sectors self)).

(** [np.roll(row, shift)] on one row: entry [i] moves to [(i + shift) mod n]. *)
Definition roll_row (shift : nat) (row : list R) : list R :=
  let n := length row in
  let k := (n - shift mod n)%nat in
  drop k row ++ take k row.

(** [np.roll(desc, shift, axis=1)] *)
Definition roll (desc : list (list R)) (shift : nat) : list (list R) :=
  fmap (roll_row shift) desc.

(** The sum of a list of floats. *)
Definition rsum (l : list R) : R := fold_right Rplus 0%R l.

(** [np.sum(d1 * d2)] for two arrays of one shape. *)
Definition sum_prod (d1 d2 : list (list R)) : R :=
  rsum (zip_with (fun r1 r2 => rsum (zip_with Rmult r1 r2)) d1 d2).

(** [np.linalg.norm] of a 2-D array: the Frobenius norm. *)
Definition fro_norm (d : list (list R)) : R :=
  sqrt (rsum (fmap (fun row => rsum (fmap (fun x => x * x)%R row)) d)).

(** The cosine similarity of line 255. *)
Definition cosine (desc1 shifted : list (list R)) : R :=
  (sum_prod desc1 shifted / (fro_norm desc1 * fro_norm shifted))%R.

(** One pass of the loop of lines 249-256. *)
Definition similarity_step (desc1 desc2 : list (list R)) (best_sim : R)
    (shift : nat) : R :=
  let shifted := roll desc2 shift in
  let norm1 := fro_norm desc1 in
  let norm2 := fro_norm shifted in
  if Rgt_dec norm1 0 then
    if Rgt_dec norm2 0 then Rmax best_sim (cosine desc1 shifted)
    else best_sim
  else best_sim.

(** [_compute_similarity], lines 245-257. *)
Definition _compute_similarity (self : ScanContext)
    (desc1 desc2 : list (list R)) : R :=
  fold_left (similarity_step desc1 desc2)
    (seq 0 (Z.to_nat (num_sectors self))) 0%R.

End LoopDetector.

(** ** loop_detector.py: the similarity of two descriptors in binary64 *)

Module LoopDetectorBinary64.

(** [np.roll(row, shift)] on one row. *)
Definition roll_row (shift : nat) (row : list float) : list float :=
  let n := length row in
  let k := (n - shift mod n)%nat in
  drop k row ++ take k row.

(** [np.roll(desc, shift, axis=1)] *)
Definition roll (desc : list (list float)) (shift : nat) : list (list float) :=
  fmap (roll_row shift) desc.

(** The sum of the entries, added from left to right.  Numpy adds long
    arrays in blocks; the order makes no difference as long as every
    partial sum is a float, as for the small integers summed below. *)
Definition fsum (l : list float) : float :=
  fold_left PrimFloat.add l 0%float.

(** [np.sum(d1 * d2)] for two arrays of one shape. *)
Definition sum_prod (d1 d2 : list (list float)) : float :=
  fsum (concat (zip_with (zip_with PrimFloat.mul) d1 d2)).

(** [np.linalg.norm] of a 2-D array. *)
Definition fro_norm (d : list (list float)) : float :=
  PrimFloat.sqrt (fsum (fmap (fun x => PrimFloat.mul x x) (concat d))).

(** One pass of the loop of lines 249-256; [max(best_sim, sim)] is [sim]
    when [sim > best_sim] and [best_sim] otherwise. *)
Definition similarity_step (desc1 desc2 : list (list float))
    (best_sim : float) (shift : nat) : float :=
  let shifted := roll desc2 shift in
  let norm1 := fro_norm desc1 in
  let norm2 := fro_norm shifted in
  if PrimFloat.ltb 0 norm1 && PrimFloat.ltb 0 norm2 then
    let sim :=
      PrimFloat.div (sum_prod desc1 shifted) (PrimFloat.mul norm1 norm2) in
    if PrimFloat.ltb best_sim sim then sim else best_sim
  else best_sim.

(** [_compute_similarity], lines 245-257. *)
Definition _compute_similarity (self : LoopDetector.ScanContext)
    (desc1 desc2 : list (list float)) : float :=
  fold_left (similarity_step desc1 desc2)
    (seq 0 (Z.to_nat (LoopDetector.num_sectors self))) 0%float.

End LoopDetectorBinary64.

(** ** pose_graph.py: class PoseGraphOptimizer *)

Module PoseGraph.
Import Linalg.

(** [gtsam.Pose3(Rot3(R), t)]: the rotation block, row by row, and the
    translation. *)
Record Pose3 : Type := {
  rotation : vec3 * vec3 * vec3;
  position : vec3
}.

(** A GTSAM key is an unsigned 64-bit integer; for any other [int] the
    wrapper raises TypeError before the call does anything.  The methods
    below are modelled for pose ids that are keys. *)
Definition is_key (pose_id : Z) : Prop := (0 <= pose_id < 2 ^ 64)%Z.

(** The factors the class adds to the graph; [sigmas] are those of the
    diagonal noise model. *)
Inductive Factor : Type :=
  | PriorFactorPose3 (key : Z) (pose : Pose3) (sigmas : list R)
  | BetweenFactorPose3 (key1 key2 : Z) (pose : Pose3) (sigmas : list R).

(** GTSAM's optimizer: the values it returns for a graph, initial values and
    an iteration cap. *)
Class Gtsam : Type := {
  LevenbergMarquardtOptimizer :
    list Factor -> gmap Z Pose3 -> Z -> gmap Z Pose3
}.

(** The attributes of the optimizer object. *)
Record PoseGraphOptimizer : Type := {
  noise_model_odom : list R;
  noise_model_loop : list R;
  noise_model_prior : list R;
  graph : list Factor;
  initial_estimates : gmap Z Pose3;
  pose_ids : gset Z;
  n_odom_factors : nat;
  n_loop_factors : nat
}.

(** The noise entries of the configuration. *)
Record Config : Type := {
  odom_rot : list R; odom_trans : list R;
  loop_rot : list R; loop_trans : list R;
  prior_noise : list R
}.

(** The defaults of [config.get], lines 63-71. *)
Definition default_config : Config :=
  {| odom_rot := [0.1; 0.1; 0.1]%R; odom_trans := [0.05; 0.05; 0.05]%R;
     loop_rot := [0.2; 0.2; 0.2]%R; loop_trans := [0.1; 0.1; 0.1]%R;
     prior_noise := [0.01; 0.01; 0.01; 0.01; 0.01; 0.01]%R |}.

(** [__init__], lines 60-91. *)
Definition init (config : Config) : PoseGraphOptimizer :=
  {| noise_model_odom := odom_rot config ++ odom_trans config;
     noise_model_loop := loop_rot config ++ loop_trans config;
     noise_model_prior := prior_noise config;
     graph := [];
     initial_estimates := ∅;
     pose_ids := ∅;
     n_odom_factors := 0;
     n_loop_factors := 0 |}.

(** [matrix_to_pose3], lines 29-36. *)
Definition matrix_to_pose3 (M : mat4) : Pose3 :=
  {| rotation := ((m00 M, m01 M, m02 M),
                  (m10 M, m11 M, m12 M),
                  (m20 M, m21 M, m22 M));
     position := translation M |}.

(** [pose3_to_matrix], lines 39-41: [pose.matrix()]. *)
Definition pose3_to_matrix (pose : Pose3) : mat4 :=
  let '((r00, r01, r02), (r10, r11, r12), (r20, r21, r22)) := rotation pose in
  let '(tx, ty, tz) := position pose in
  Mat4 r00 r01 r02 tx
       r10 r11 r12 ty
       r20 r21 r22 tz
       0 0 0 1.

(** The determinant of a 3x3 array given by its rows. *)
Definition det3 (a b c : vec3) : R :=
  let '(a0, a1, a2) := a in let '(b0, b1, b2) := b in let '(c0, c1, c2) := c in
  (a0 * (b1 * c2 - b2 * c1) - a1 * (b0 * c2 - b2 * c0)
   + a2 * (b0 * c1 - b1 * c0))%R.

(** The determinant of a 4x4 array, expanded along its first row. *)
Definition det4 (M : mat4) : R :=
  (m00 M * det3 (m11 M, m12 M, m13 M) (m21 M, m22 M, m23 M) (m31 M, m32 M, m33 M)
   - m01 M * det3 (m10 M, m12 M, m13 M) (m20 M, m22 M, m23 M) (m30 M, m32 M, m33 M)
   + m02 M * det3 (m10 M, m11 M, m13 M) (m20 M, m21 M, m23 M) (m30 M, m31 M, m33 M)
   - m03 M * det3 (m10 M, m11 M, m12 M) (m20 M, m21 M, m22 M) (m30 M, m31 M, m32 M))%R.

(** The adjugate of a 4x4 array: the transposed matrix of cofactors. *)
Definition adjugate (M : mat4) : mat4 :=
  let r0 := row0 M in let r1 := row1 M in
  let r2 := row2 M in let r3 := row3 M in
  let d0 (r : R * R * R * R) : vec3 := let '(_, b, c, d) := r in (b, c, d) in
  let d1 (r : R * R * R * R) : vec3 := let '(a, _, c, d) := r in (a, c, d) in
  let d2 (r : R * R * R * R) : vec3 := let '(a, b, _, d) := r in (a, b, d) in
  let d3 (r : R * R * R * R) : vec3 := let '(a, b, c, _) := r in (a, b, c) in
  Mat4
    (det3 (d0 r1) (d0 r2) (d0 r3)) (- det3 (d0 r0) (d0 r2) (d0 r3))
    (det3 (d0 r0) (d0 r1) (d0 r3)) (- det3 (d0 r0) (d0 r1) (d0 r2))
    (- det3 (d1 r1) (d1 r2) (d1 r3)) (det3 (d1 r0) (d1 r2) (d1 r3))
    (- det3 (d1 r0) (d1 r1) (d1 r3)) (det3 (d1 r0) (d1 r1) (d1 r2))
    (det3 (d2 r1) (d2 r2) (d2 r3)) (- det3 (d2 r0) (d2 r2) (d2 r3))
    (det3 (d2 r0) (d2 r1) (d2 r3)) (- det3 (d2 r0) (d2 r1) (d2 r2))
    (- det3 (d3 r1) (d3 r2) (d3 r3)) (det3 (d3 r0) (d3 r2) (d3 r3))
    (- det3 (d3 r0) (d3 r1) (d3 r3)) (det3 (d3 r0) (d3 r1) (d3 r2)).

(** [k * M] *)
Definition mscale (k : R) (M : mat4) : mat4 :=
  Mat4 (k * m00 M) (k * m01 M) (k * m02 M) (k * m03 M)
       (k * m10 M) (k * m11 M) (k * m12 M) (k * m13 M)
       (k * m20 M) (k * m21 M) (k * m22 M) (k * m23 M)
       (k * m30 M) (k * m31 M) (k * m32 M) (k * m33 M).

(** [np.linalg.inv]: the inverse matrix; [None] is the LinAlgError on a
    singular matrix.  (Numpy raises it when the factorisation finds a pivot
    that is exactly 0; the model raises it when the determinant is 0, and
    its inverse is exact.) *)
Definition inv (M : mat4) : option mat4 :=
  if Req_dec_T (det4 M) 0 then None
  else Some (mscale (/ det4 M) (adjugate M)).

(** [add_prior], lines 93-106. *)
Definition add_prior (self : PoseGraphOptimizer) (pose_id : Z) (pose : mat4)
    : PoseGraphOptimizer :=
  let pose3 := matrix_to_pose3 pose in
  {| noise_model_odom := noise_model_odom self;
     noise_model_loop := noise_model_loop self;
     noise_model_prior := noise_model_prior self;
     graph := graph self ++ [PriorFactorPose3 pose_id pose3 (noise_model_prior self)];
     initial_estimates := initial_estimates self;
     pose_ids := pose_ids self;
     n_odom_factors := n_odom_factors self;
     n_loop_factors := n_loop_factors self |}.

(** [add_initial_estimate], lines 108-119. *)
Definition add_initial_estimate (self : PoseGraphOptimizer) (pose_id : Z)
    (pose : mat4) : PoseGraphOptimizer :=
  if decide (pose_id ∉ pose_ids self) then
    let pose3 := matrix_to_pose3 pose in
    {| noise_model_odom := noise_model_odom self;
       noise_model_loop := noise_model_loop self;
       noise_model_prior := noise_model_prior self;
       graph := graph self;
       initial_estimates := <[pose_id := pose3]> (initial_estimates self);
       pose_ids := {[pose_id]} ∪ pose_ids self;
       n_odom_factors := n_odom_factors self;
       n_loop_factors := n_loop_factors self |}
  else self.

(** [add_odometry_factor], lines 121-137. *)
Definition add_odometry_factor (self : PoseGraphOptimizer) (id_from id_to : Z)
    (relative_pose : mat4) : PoseGraphOptimizer :=
  let pose3 := matrix_to_pose3 relative_pose in
  {| noise_model_odom := noise_model_odom self;
     noise_model_loop := noise_model_loop self;
     noise_model_prior := noise_model_prior self;
     graph := graph self
              ++ [BetweenFactorPose3 id_from id_to pose3 (noise_model_odom self)];
     initial_estimates := initial_estimates self;
     pose_ids := pose_ids self;
     n_odom_factors := n_odom_factors self + 1;
     n_loop_factors := n_loop_factors self |}.

(** [add_loop_closure], lines 139-155. *)
Definition add_loop_closure (self : PoseGraphOptimizer) (id_from id_to : Z)
    (relative_pose : mat4) : PoseGraphOptimizer :=
  let pose3 := matrix_to_pose3 relative_pose in
  {| noise_model_odom := noise_model_odom self;
     noise_model_loop := noise_model_loop self;
     noise_model_prior := noise_model_prior self;
     graph := graph self
              ++ [BetweenFactorPose3 id_from id_to pose3 (noise_model_loop self)];
     initial_estimates := initial_estimates self;
     pose_ids := pose_ids self;
     n_odom_factors := n_odom_factors self;
     n_loop_factors := n_loop_factors self + 1 |}.

(** One pass of the loop of lines 207-214; [None] when [np.linalg.inv]
    raises or an index is out of range. *)
Definition chain_step (odom_poses : list mat4)
    (self : option PoseGraphOptimizer) (i : nat) : option PoseGraphOptimizer :=
  self ← self;
  T_prev ← odom_poses !! (i - 1)%nat;
  T_curr ← odom_poses !! i;
  T_prev_inv ← inv T_prev;
  let T_rel := matmul T_prev_inv T_curr in
  let self := add_odometry_factor self (Z.of_nat i - 1) (Z.of_nat i) T_rel in
  Some (add_initial_estimate self (Z.of_nat i) T_curr).

(** Lines 202-214 of [build_from_odometry]: the graph on which [optimize]
    is then called. *)
Definition build_graph (self : PoseGraphOptimizer) (odom_poses : list mat4)
    : option PoseGraphOptimizer :=
  p0 ← odom_poses !! 0%nat;
  let self := add_prior self 0 p0 in
  let self := add_initial_estimate self 0 p0 in
  fold_left (chain_step odom_poses) (seq 1 (length odom_poses - 1)) (Some self).

Section WithGtsam.
Context `{!Gtsam}.

(** [optimize], lines 157-184; [None] when [result.atPose3] finds no value
    for a tracked id. *)
Definition optimize (self : PoseGraphOptimizer) (max_iterations : Z)
    : option (gmap Z mat4) :=
  let result :=
    LevenbergMarquardtOptimizer (graph self) (initial_estimates self)
      max_iterations in
  fold_left (fun optimized_poses pose_id =>
               optimized_poses ← optimized_poses;
               pose3 ← result !! pose_id;
               Some (<[pose_id := pose3_to_matrix pose3]> optimized_poses))
            (elements (pose_ids self)) (Some ∅).

(** [build_from_odometry], lines 186-217: the object after the call and the
    returned dictionary. *)
Definition build_from_odometry (self : PoseGraphOptimizer)
    (odom_poses : list mat4) : option (PoseGraphOptimizer * gmap Z mat4) :=
  let n_poses := length odom_poses in
  if decide (n_poses = 0)%nat then Some (self, ∅)
  else
    self' ← build_graph self odom_poses;
    optimized ← optimize self' 100;
    Some (self', optimized).

End WithGtsam.
End PoseGraph.

(** ** pose_graph.py: statistics and trajectory length *)

Module PoseGraphStats.
Import Linalg PyList PoseGraph.

(** The dictionary [get_statistics] returns. *)
Record Statistics : Type := {
  n_poses : nat;
  odom_factors : nat;
  loop_factors : nat;
  n_total_factors : nat
}.

(** [get_statistics], lines 219-226; [graph.size()] is the number of
    factors added. *)
Definition get_statistics (self : PoseGraphOptimizer) : Statistics :=
  {| n_poses := size (pose_ids self);
     odom_factors := n_odom_factors self;
     loop_factors := n_loop_factors self;
     n_total_factors := length (graph self) |}.

(** One pass of the loop of lines 234-237. *)
Definition length_step (poses : gmap Z mat4) (sorted_ids : list Z)
    (length : option R) (i : nat) : option R :=
  length ← length;
  id1 ← sorted_ids !! (i - 1)%nat;
  id2 ← sorted_ids !! i;
  T1 ← poses !! id1;
  T2 ← poses !! id2;
  let p1 := translation T1 in
  let p2 := translation T2 in
  Some (length + norm3 (vsub3 p2 p1))%R.

(** [compute_trajectory_length], lines 229-239. *)
Definition compute_trajectory_length (poses : gmap Z mat4) : option R :=
  let sorted_ids := sorted (elements (dom poses)) in
  fold_left (length_step poses sorted_ids)
    (seq 1 (length sorted_ids - 1)) (Some 0%R).

End PoseGraphStats.

(** ** kiss_icp_runner.py: the relative pose of two absolute poses *)

Module KissICPRunner.
Import Linalg.

(** [compute_relative_pose], lines 164-176: [np.linalg.inv(pose_from) @
    pose_to], the expression [build_from_odometry] and [detect_and_verify]
    use as well. *)
Definition compute_relative_pose (pose_from pose_to : mat4) : option mat4 :=
  pose_from_inv ← PoseGraph.inv pose_from;
  Some (matmul pose_from_inv pose_to).

End KissICPRunner.

(** ** loop_detector.py: verification of loop candidates *)

Module LoopVerifier.
Import Linalg PyList O3d.

(** The attributes of [LoopDetector]: those [detect_candidates] reads and
    the two of the ICP check. *)
Record Config : Type := {
  detector : LoopDetector.Config;
  icp_fitness_threshold : R;
  icp_max_correspondence : R
}.

(** [LoopDetector(None)]: the defaults of [config.get]. *)
Definition default_config : Config :=
  {| detector := LoopDetector.default_config;
     icp_fitness_threshold := 0.3;
     icp_max_correspondence := 0.5 |}.

Section WithOpen3D.
Context `{!Open3D}.

(** [verify_loop], lines 69-110: [(success, transformation, fitness)].  The
    clouds get no normals. *)
Definition verify_loop (self : Config) (cloud_i cloud_j : list vec3)
    (initial_guess : option mat4) : bool * mat4 * R :=
  let initial_guess := default eye4 initial_guess in
  let voxel_size := 0.2%R in
  let pcd_i_down :=
    {| points := voxel_down_sample voxel_size cloud_i; normals := [] |} in
  let pcd_j_down :=
    {| points := voxel_down_sample voxel_size cloud_j; normals := [] |} in
  let result :=
    registration_icp pcd_i_down pcd_j_down (icp_max_correspondence self)
      initial_guess TransformationEstimationPointToPoint 50 in
  let success := bool_decide (fitness result > icp_fitness_threshold self)%R in
  (success, transformation result, fitness result).

(** One pass of the loop of lines 128-145; [None] is the KeyError of a
    candidate without pose or the LinAlgError of [np.linalg.inv]. *)
Definition verify_step (self : Config) (poses : gmap Z mat4)
    (point_clouds : gmap Z (list vec3))
    (verified_loops : option (list (Z * Z * mat4))) (candidate : Z * Z)
    : option (list (Z * Z * mat4)) :=
  verified_loops ← verified_loops;
  let '(id_i, id_j) := candidate in
  match point_clouds !! id_i, point_clouds !! id_j with
  | Some cloud_i, Some cloud_j =>
      pose_i ← poses !! id_i;
      pose_j ← poses !! id_j;
      pose_i_inv ← PoseGraph.inv pose_i;
      let initial_guess := matmul pose_i_inv pose_j in
      let '(success, transform, _) :=
        verify_loop self cloud_i cloud_j (Some initial_guess) in
      if success then Some (verified_loops ++ [(id_i, id_j, transform)])
      else Some verified_loops
  | _, _ => Some verified_loops
  end.

(** [detect_and_verify], lines 112-147. *)
Definition detect_and_verify (self : Config) (poses : gmap Z mat4)
    (point_clouds : gmap Z (list vec3)) : option (list (Z * Z * mat4)) :=
  let candidates := LoopDetector.detect_candidates (detector self) poses in
  fold_left (verify_step self poses point_clouds) candidates (Some []).

End WithOpen3D.
End LoopVerifier.

(** ** loop_detector.py: the descriptor database of ScanContextDetector *)

Module ScanContextDb.
Import Linalg PyList.

(** A Python dict with integer keys: the items in insertion order, every key
    once. *)
Definition dict (V : Type) : Type := list (Z * V).

(** [d[k]]; [None] when [k not in d]. *)
Fixpoint dict_get {V : Type} (d : dict V) (k : Z) : option V :=
  match d with
  | [] => None
  | (k', v) :: d' => if decide (k' = k) then Some v else dict_get d' k
  end.

(** [d[k] = v]: a known key keeps its place, a new one goes last. *)
Fixpoint dict_set {V : Type} (d : dict V) (k : Z) (v : V) : dict V :=
  match d with
  | [] => [(k, v)]
  | (k', v') :: d' =>
      if decide (k' = k) then (k, v) :: d' else (k', v') :: dict_set d' k v
  end.

(** [x] put before the first entry of [l] whose key is not below its own. *)
Fixpoint insert_by {A : Type} (key : A -> R) (x : A) (l : list A) : list A :=
  match l with
  | [] => [x]
  | y :: l' =>
      if Rle_dec (key x) (key y) then x :: y :: l'
      else y :: insert_by key x l'
  end.

(** [sorted(l, key=key)]: ascending keys, entries of equal key in their
    order in [l]. *)
Definition sorted_by {A : Type} (key : A -> R) (l : list A) : list A :=
  foldr (insert_by key) [] l.

(** The detector object: its parameters and [self.descriptors]. *)
Record Detector : Type := {
  params : LoopDetector.ScanContext;
  descriptors : dict (list (list R))
}.

(** [ScanContextDetector(config)] *)
Definition init (config : LoopDetector.ScanContext) : Detector :=
  {| params := config; descriptors := [] |}.

(** [add_frame], lines 213-215. *)
Definition add_frame (self : Detector) (frame_id : Z) (pts : list vec3)
    : option Detector :=
  desc ← LoopDetector.compute_descriptor (params self) pts;
  Some {| params := params self;
          descriptors := dict_set (descriptors self) frame_id desc |}.

(** One pass of the loop of lines 233-240. *)
Definition match_step (self : Detector) (query_id min_gap : Z)
    (query_desc : list (list R)) (matches : list (Z * R))
    (item : Z * list (list R)) : list (Z * R) :=
  let '(frame_id, desc) := item in
  if decide (Z.abs (frame_id - query_id) < min_gap)%Z then matches
  else
    let similarity :=
      LoopDetector._compute_similarity (params self) query_desc desc in
    if Rgt_dec similarity (LoopDetector.similarity_threshold (params self))
    then matches ++ [(frame_id, similarity)]
    else matches.

(** [find_matches], lines 217-243. *)
Definition find_matches (self : Detector) (query_id min_gap : Z)
    : list (Z * R) :=
  match dict_get (descriptors self) query_id with
  | None => []
  | Some query_desc =>
      let matches :=
        fold_left (match_step self query_id min_gap query_desc)
          (descriptors self) [] in
      sorted_by (fun x => (- x.2)%R) matches
  end.

End ScanContextDb.

(** ** waypoint_extractor.py: statistics and quaternions *)

Module WaypointStats.
Import Linalg PyList.

(** The entries of the dictionary [compute_statistics] returns besides
    ['n_waypoints']. *)
Record PathStatistics : Type := {
  total_length : R;
  avg_spacing : R;
  bounds_min : vec2;
  bounds_max : vec2
}.

(** The dictionary of [compute_statistics]: for no waypoint it holds
    ['n_waypoints'] alone. *)
Record Statistics : Type := {
  n_waypoints : nat;
  path : option PathStatistics
}.

(** One pass of the loop of lines 180-181. *)
Definition length_step (positions : list vec2) (total_length : option R)
    (i : nat) : option R :=
  total_length ← total_length;
  p ← positions !! i;
  q ← positions !! (i - 1)%nat;
  Some (total_length + norm2 (vsub2 p q))%R.

(** [positions.min(axis=0)] and [positions.max(axis=0)] of an Nx2 array;
    [None] is the ValueError on no row. *)
Definition column_bound (pick : R -> R -> R) (positions : list vec2)
    : option vec2 :=
  match positions with
  | [] => None
  | p :: rest =>
      Some (fold_left (fun b q => (pick b.1 q.1, pick b.2 q.2)) rest p)
  end.

(** [compute_statistics], lines 171-192. *)
Definition compute_statistics (waypoints : list vec2) : option Statistics :=
  match waypoints with
  | [] => Some {| n_waypoints := 0; path := None |}
  | _ =>
      let positions := waypoints in
      total_length ←
        fold_left (length_step positions) (seq 1 (length positions - 1))
          (Some 0%R);
      let avg_spacing :=
        if decide (1 < length positions)%nat
        then (total_length / INR (length positions - 1))%R else 0%R in
      lo ← column_bound Rmin positions;
      hi ← column_bound Rmax positions;
      Some {| n_waypoints := length waypoints;
              path := Some {| total_length := total_length;
                              avg_spacing := avg_spacing;
                              bounds_min := lo;
                              bounds_max := hi |} |}
  end.

(** A quaternion [[x, y, z, w]]. *)
Definition quat : Type := (R * R * R * R)%type.

(** [rotation_matrix_to_quaternion], lines 220-250, on the rotation block
    [T[:3, :3]] of [T]. *)
Definition rotation_matrix_to_quaternion (T : mat4) : quat :=
  let trace := (m00 T + m11 T + m22 T)%R in
  if Rgt_dec trace 0 then
    let s := (0.5 / sqrt (trace + 1.0))%R in
    let w := (0.25 / s)%R in
    let x := ((m21 T - m12 T) * s)%R in
    let y := ((m02 T - m20 T) * s)%R in
    let z := ((m10 T - m01 T) * s)%R in
    (x, y, z, w)
  else if decide (m00 T > m11 T /\ m00 T > m22 T)%R then
    let s := (2.0 * sqrt (1.0 + m00 T - m11 T - m22 T))%R in
    let w := ((m21 T - m12 T) / s)%R in
    let x := (0.25 * s)%R in
    let y := ((m01 T + m10 T) / s)%R in
    let z := ((m02 T + m20 T) / s)%R in
    (x, y, z, w)
  else if Rgt_dec (m11 T) (m22 T) then
    let s := (2.0 * sqrt (1.0 + m11 T - m00 T - m22 T))%R in
    let w := ((m02 T - m20 T) / s)%R in
    let x := ((m01 T + m10 T) / s)%R in
    let y := (0.25 * s)%R in
    let z := ((m12 T + m21 T) / s)%R in
    (x, y, z, w)
  else
    let s := (2.0 * sqrt (1.0 + m22 T - m00 T - m11 T))%R in
    let w := ((m10 T - m01 T) / s)%R in
    let x := ((m02 T + m20 T) / s)%R in
    let y := ((m12 T + m21 T) / s)%R in
    let z := (0.25 * s)%R in
    (x, y, z, w).

End WaypointStats.

(** ** operators/waypoint_extractor_op.py: the events of the operator *)

Module WaypointExtractorEvents.
Import Linalg Rounded PyList.

(** The operator object: the attributes [_extract_waypoints] reads and the
    flag [waypoints_extracted]. *)
Record State : Type := {
  attrs : WaypointExtractorOp.Operator;
  waypoints_extracted : bool
}.

(** The [waypoints] section of the configuration file. *)
Record WaypointConfig : Type := {
  cfg_min_spacing : R;
  cfg_simplify : bool;
  cfg_epsilon : R
}.

(** The defaults of [wp_config.get]. *)
Definition default_waypoint_config : WaypointConfig :=
  {| cfg_min_spacing := 0.5; cfg_simplify := false; cfg_epsilon := 0.1 |}.

(** [__init__], lines 31-46. *)
Definition init (wp_config : WaypointConfig) : State :=
  {| attrs := {| WaypointExtractorOp.min_spacing := cfg_min_spacing wp_config;
                 WaypointExtractorOp.simplify := cfg_simplify wp_config;
                 WaypointExtractorOp.epsilon := cfg_epsilon wp_config;
                 WaypointExtractorOp.poses := [] |};
     waypoints_extracted := false |}.

(** [self.poses.append(pose)] *)
Definition append_pose (self : State) (pose : mat4) : State :=
  {| attrs :=
       {| WaypointExtractorOp.min_spacing :=
            WaypointExtractorOp.min_spacing (attrs self);
          WaypointExtractorOp.simplify :=
            WaypointExtractorOp.simplify (attrs self);
          WaypointExtractorOp.epsilon :=
            WaypointExtractorOp.epsilon (attrs self);
          WaypointExtractorOp.poses :=
            WaypointExtractorOp.poses (attrs self) ++ [pose] |};
     waypoints_extracted := waypoints_extracted self |}.

(** [self.waypoints_extracted = True] *)
Definition set_extracted (self : State) : State :=
  {| attrs := attrs self; waypoints_extracted := true |}.

(** What a dora event carries, as far as [on_event] looks at it. *)
Inductive InputId : Type := PoseInput | MapComplete | OtherInput.

Inductive Event : Type :=
  | INPUT (id : InputId) (value : list R)
  | STOP
  | OtherEvent.

(** What a call of [on_event] does to the outside: a call of
    [_save_outputs] with its two arguments, or a call of [send_output] with
    the output's name and float32 array. *)
Inductive Effect : Type :=
  | SaveOutputs (waypoints trajectory : list vec2)
  | SendWaypoints (wp_flat : list R)
  | SendTrajectory (traj_flat : list R).

(** [pose_flat.reshape(4, 4)] of 16 floats. *)
Definition reshape44 (flat : list R) : option mat4 :=
  match flat with
  | [a00; a01; a02; a03; a10; a11; a12; a13;
     a20; a21; a22; a23; a30; a31; a32; a33] =>
      Some (Mat4 a00 a01 a02 a03 a10 a11 a12 a13
                 a20 a21 a22 a23 a30 a31 a32 a33)
  | _ => None
  end.

(** [a.flatten()] of an Nx2 array. *)
Definition flatten2 (a : list vec2) : list R :=
  flat_map (fun p => [p.1; p.2]) a.

(** The quaternion [_save_outputs] writes for a pose, lines 144-148, as
    [[qx, qy, qz, qw]]. *)
Definition saved_quaternion (pose : mat4) : WaypointStats.quat :=
  let qw := (sqrt (1 + m00 pose + m11 pose + m22 pose) / 2)%R in
  let qw := Rmax qw 1e-6 in
  let qx := ((m21 pose - m12 pose) / (4 * qw))%R in
  let qy := ((m02 pose - m20 pose) / (4 * qw))%R in
  let qz := ((m10 pose - m01 pose) / (4 * qw))%R in
  (qx, qy, qz, qw).

Section WithRounding.
Context `{!Rounding}.

(** [on_event], lines 154-204: the new state, what the call did (in order)
    and the returned status.  The recursion of [_douglas_peucker] gets the
    number of poses as its depth bound.  The two arrays go out as
    [.flatten().astype(np.float32)]. *)
Definition on_event (self : State) (dora_event : Event)
    : option (State * list Effect * IcpOdometryOp.DoraStatus) :=
  let poses := WaypointExtractorOp.poses (attrs self) in
  match dora_event with
  | INPUT PoseInput pose_flat =>
      if decide (length pose_flat = 16)%nat then
        pose ← reshape44 pose_flat;
        Some (append_pose self pose, [], IcpOdometryOp.CONTINUE)
      else Some (self, [], IcpOdometryOp.CONTINUE)
  | INPUT MapComplete _ =>
      if negb (waypoints_extracted self) && bool_decide (0 < length poses)%nat
      then
        waypoints ←
          WaypointExtractorOp._extract_waypoints (length poses) (attrs self);
        let trajectory := WaypointExtractorOp.trajectory_of poses in
        Some (set_extracted self,
              [SaveOutputs waypoints trajectory;
               SendWaypoints (astype_float32 <$> flatten2 waypoints);
               SendTrajectory (astype_float32 <$> flatten2 trajectory)],
              IcpOdometryOp.CONTINUE)
      else Some (self, [], IcpOdometryOp.CONTINUE)
  | INPUT OtherInput _ => Some (self, [], IcpOdometryOp.CONTINUE)
  | STOP =>
      if negb (waypoints_extracted self) && bool_decide (0 < length poses)%nat
      then
        waypoints ←
          WaypointExtractorOp._extract_waypoints (length poses) (attrs self);
        let trajectory := WaypointExtractorOp.trajectory_of poses in
        Some (self, [SaveOutputs waypoints trajectory], IcpOdometryOp.STOP_)
      else Some (self, [], IcpOdometryOp.STOP_)
  | OtherEvent => Some (self, [], IcpOdometryOp.CONTINUE)
  end.

(** The operator fed a list of events: the final state and everything the
    calls did, or [None] when an event raises; events after a STOP are not
    delivered. *)
Fixpoint run_events (self : State) (events : list Event)
    : option (State * list Effect) :=
  match events with
  | [] => Some (self, [])
  | ev :: events' =>
      '(self', effects, status) ← on_event self ev;
      match status with
      | IcpOdometryOp.STOP_ => Some (self', effects)
      | IcpOdometryOp.CONTINUE =>
          '(self'', effects') ← run_events self' events';
          Some (self'', effects ++ effects')
      end
  end.

End WithRounding.
End WaypointExtractorEvents.


(** * Properties *)

(** ** Facts about the numpy operations *)

Module LinalgFacts.
Import Linalg.
#[local] Open Scope R_scope.

(** [T[:3, :3]], row by row. *)
Definition rotation_block (T : mat4) : vec3 * vec3 * vec3 :=
  ((m00 T, m01 T, m02 T), (m10 T, m11 T, m12 T), (m20 T, m21 T, m22 T)).

(** [T[3, :]] *)
Definition bottom_row (T : mat4) : R * R * R * R := row3 T.

Lemma norm3_nonneg (v : vec3) : 0 <= norm3 v.
Proof. destruct v as [[x y] z]; simpl. apply sqrt_pos. Qed.

Lemma norm3_gt (v : vec3) (c : R) :
  0 <= c -> c * c < v.1.1 * v.1.1 + v.1.2 * v.1.2 + v.2 * v.2 -> norm3 v > c.
Proof.
  destruct v as [[x y] z]; simpl; intros Hc H.
  apply Rlt_gt. rewrite <- (sqrt_square c) by lra. apply sqrt_lt_1; nra.
Qed.

Lemma norm3_le (v : vec3) (c : R) :
  0 <= c -> v.1.1 * v.1.1 + v.1.2 * v.1.2 + v.2 * v.2 <= c * c -> norm3 v <= c.
Proof.
  destruct v as [[x y] z]; simpl; intros Hc H.
  rewrite <- (sqrt_square c) by lra. apply sqrt_le_1; nra.
Qed.

Lemma norm2_nonneg (v : vec2) : 0 <= norm2 v.
Proof. apply sqrt_pos. Qed.

Lemma norm2_eq (v : vec2) (c : R) :
  0 <= c -> v.1 * v.1 + v.2 * v.2 = c * c -> norm2 v = c.
Proof. intros Hc H. unfold norm2. rewrite H. apply sqrt_square, Hc. Qed.

Lemma norm2_zero_iff (v : vec2) : norm2 v = 0 <-> v = (0, 0).
Proof.
  destruct v as [x y]; unfold norm2; simpl. split.
  - intros H. apply sqrt_eq_0 in H; [|nra].
    assert (x = 0) by nra. assert (y = 0) by nra. congruence.
  - intros [= -> ->]. replace (0 * 0 + 0 * 0) with 0 by lra. apply sqrt_0.
Qed.

Lemma Mat4_ext a00 a01 a02 a03 a10 a11 a12 a13 a20 a21 a22 a23 a30 a31 a32 a33
    b00 b01 b02 b03 b10 b11 b12 b13 b20 b21 b22 b23 b30 b31 b32 b33 :
  a00 = b00 -> a01 = b01 -> a02 = b02 -> a03 = b03 ->
  a10 = b10 -> a11 = b11 -> a12 = b12 -> a13 = b13 ->
  a20 = b20 -> a21 = b21 -> a22 = b22 -> a23 = b23 ->
  a30 = b30 -> a31 = b31 -> a32 = b32 -> a33 = b33 ->
  Mat4 a00 a01 a02 a03 a10 a11 a12 a13 a20 a21 a22 a23 a30 a31 a32 a33
  = Mat4 b00 b01 b02 b03 b10 b11 b12 b13 b20 b21 b22 b23 b30 b31 b32 b33.
Proof. intros. subst. reflexivity. Qed.

Lemma translation_add_translation (T : mat4) (v : vec3) :
  translation (add_translation T v) = vadd3 (translation T) v.
Proof. destruct v as [[x y] z]. reflexivity. Qed.

Lemma rotation_block_add_translation (T : mat4) (v : vec3) :
  rotation_block (add_translation T v) = rotation_block T.
Proof. destruct v as [[x y] z]. reflexivity. Qed.

Lemma bottom_row_add_translation (T : mat4) (v : vec3) :
  bottom_row (add_translation T v) = bottom_row T.
Proof. destruct v as [[x y] z]. reflexivity. Qed.

(** Moving the translation by [v] and back again is a jump of [norm3 v]. *)
Lemma jump_add_translation (T : mat4) (v : vec3) :
  norm3 (vsub3 (translation (add_translation T v)) (translation T)) = norm3 v.
Proof.
  destruct v as [[x y] z]. destruct T; simpl. f_equal. ring.
Qed.

Lemma jump_self (T : mat4) : norm3 (vsub3 (translation T) (translation T)) = 0.
Proof.
  destruct T; simpl.
  match goal with |- sqrt ?e = _ => replace e with 0 by ring end.
  apply sqrt_0.
Qed.

Lemma neg_index_1_app {A : Type} (l : list A) (x : A) :
  neg_index (l ++ [x]) 1 = Some x.
Proof.
  unfold neg_index. rewrite length_app; simpl.
  destruct (decide _) as [_|H]; [|lia].
  replace (length l + 1 - 1)%nat with (length l + 0)%nat by lia.
  by rewrite lookup_app_r, Nat.add_0_r, Nat.sub_diag by lia.
Qed.

Lemma neg_index_2_app {A : Type} (l : list A) (x : A) :
  neg_index (l ++ [x]) 2 = neg_index l 1.
Proof.
  unfold neg_index. rewrite length_app; simpl.
  destruct (decide (1 <= 2 <= length l + 1)%nat),
    (decide (1 <= 1 <= length l)%nat); try lia; [|done].
  rewrite lookup_app_l by lia. f_equal. lia.
Qed.

Lemma neg_index_is_Some {A : Type} (l : list A) (k : nat) :
  is_Some (neg_index l k) <-> (1 <= k <= length l)%nat.
Proof.
  unfold neg_index. destruct (decide _) as [H|H].
  - split; [done|]. intros _. apply lookup_lt_is_Some. lia.
  - split; [intros [? [=]]|done].
Qed.

Lemma neg_index_None {A : Type} (l : list A) (k : nat) :
  (length l < k)%nat -> neg_index l k = None.
Proof.
  intros H. unfold neg_index. destruct (decide _); [lia|done].
Qed.

Lemma index_range_is_Some {A : Type} (l : list A) (lo hi : nat) :
  (hi <= length l)%nat -> is_Some (index_range l lo hi).
Proof.
  intros H. unfold index_range. apply mapM_is_Some.
  apply Forall_forall. intros j Hj%elem_of_seq. apply lookup_lt_is_Some. lia.
Qed.

Lemma index_range_length {A : Type} (l : list A) (lo hi : nat) (r : list A) :
  index_range l lo hi = Some r -> length r = (hi - lo)%nat.
Proof.
  unfold index_range. intros H. apply length_mapM in H.
  by rewrite length_seq in H.
Qed.

End LinalgFacts.

(** ** ICP odometry: simple_icp.py and operators/icp_odometry_op.py *)

Module IcpFacts.
Import Linalg Rounded O3d LinalgFacts.
#[local] Open Scope R_scope.

(** The translation jump from the pose [prev] to the pose [T]. *)
Definition jump (T prev : mat4) : R :=
  norm3 (vsub3 (translation T) (translation prev)).

(** The translation the motion model gives the frame after [poses], whose
    last pose is [last]: the last translation moved once more by the last
    displacement when two poses exist, the last translation otherwise. *)
Definition predicted_translation (poses : list mat4) (last : mat4) : vec3 :=
  match neg_index poses 2 with
  | Some before => vadd3 (translation last)
                     (vsub3 (translation last) (translation before))
  | None => translation last
  end.

(** The states of the operator that a run reaches from [init]. *)
Inductive reachable `{!Open3D} `{!Rounding}
    (icp_config : IcpOdometryOp.IcpConfig)
    : IcpOdometryOp.Operator -> Prop :=
  | reachable_init : reachable icp_config (IcpOdometryOp.init icp_config)
  | reachable_event self ev self' outs status :
      reachable icp_config self ->
      IcpOdometryOp.on_event self ev = Some (self', outs, status) ->
      reachable icp_config self'.

Lemma matmul_eye_r (A : mat4) : matmul A eye4 = A.
Proof. destruct A; unfold matmul, eye4; simpl. f_equal; ring. Qed.

Section WithOpen3D.
Context `{!Open3D}.

Lemma motion_model_spec (poses : list mat4) (last : mat4) :
  neg_index poses 1 = Some last ->
  exists T, SimpleICP.motion_model poses = Some T /\
    rotation_block T = rotation_block last /\
    bottom_row T = bottom_row last /\
    translation T = predicted_translation poses last.
Proof.
  intros Hlast. unfold SimpleICP.motion_model, predicted_translation.
  destruct (decide (2 <= length poses)%nat) as [Hlen|Hlen].
  - destruct (proj2 (neg_index_is_Some poses 2)) as [p2 Hp2]; [lia|].
    rewrite Hlast, Hp2; cbn -[add_translation vsub3 translation].
    eexists; split; [reflexivity|].
    rewrite rotation_block_add_translation, bottom_row_add_translation,
      translation_add_translation. done.
  - rewrite (neg_index_None poses 2) by lia. exists last. done.
Qed.

Lemma fallback_spec (self : IcpOdometryOp.Operator) (prev : mat4) :
  neg_index (IcpOdometryOp.poses self) 1 = Some prev ->
  exists T, IcpOdometryOp.fallback self prev = Some T /\
    rotation_block T = rotation_block prev /\
    bottom_row T = bottom_row prev /\
    translation T = predicted_translation (IcpOdometryOp.poses self) prev.
Proof.
  intros Hlast. unfold IcpOdometryOp.fallback, predicted_translation.
  destruct (decide (2 <= length (IcpOdometryOp.poses self))%nat) as [Hlen|Hlen].
  - destruct (proj2 (neg_index_is_Some (IcpOdometryOp.poses self) 2))
      as [p2 Hp2]; [lia|].
    rewrite Hlast, Hp2; cbn -[add_translation vsub3 translation].
    eexists; split; [reflexivity|].
    rewrite rotation_block_add_translation, bottom_row_add_translation,
      translation_add_translation. done.
  - rewrite (neg_index_None (IcpOdometryOp.poses self) 2) by lia.
    exists prev. done.
Qed.

(** [validate] when the candidate jumps too far. *)
Lemma validate_reject (result : RegistrationResult) (poses : list mat4)
    (last : mat4) :
  neg_index poses 1 = Some last ->
  jump (matmul (transformation result) last) last
    > SimpleICP.expected_motion * 3 ->
  SimpleICP.validate result poses
    = (T ← SimpleICP.motion_model poses; Some (T, 0)).
Proof.
  intros Hlast Hjump. unfold jump in Hjump.
  unfold SimpleICP.validate. rewrite Hlast.
  cbn -[norm3 vsub3 translation matmul].
  destruct (Rgt_dec _ _); [done|contradiction].
Qed.

(** [validate] when the candidate is plausible. *)
Lemma validate_accept (result : RegistrationResult) (poses : list mat4)
    (last : mat4) :
  neg_index poses 1 = Some last ->
  jump (matmul (transformation result) last) last
    <= SimpleICP.expected_motion * 3 ->
  SimpleICP.validate result poses
    = Some (matmul (transformation result) last, fitness result).
Proof.
  intros Hlast Hjump. unfold jump in Hjump.
  unfold SimpleICP.validate. rewrite Hlast.
  cbn -[norm3 vsub3 translation matmul].
  destruct (Rgt_dec _ _); [lra|done].
Qed.

Lemma icp_correction_frame cfg ulm ws pcs i st result :
  SimpleICP.icp_correction cfg ulm ws pcs i st = Some result ->
  is_Some (pcs !! i).
Proof.
  unfold SimpleICP.icp_correction. intros Hicp.
  destruct (SimpleICP.target_cloud _ _ _ _ _); simpl in Hicp; [|done].
  destruct (pcs !! i); [eauto|done].
Qed.

(** One pass of the loop, once the registration result is known. *)
Lemma loop_body_eq cfg ulm ws pcs i st result T f pc :
  SimpleICP.icp_correction cfg ulm ws pcs i st = Some result ->
  SimpleICP.validate result (SimpleICP.poses st) = Some (T, f) ->
  pcs !! i = Some pc ->
  SimpleICP.loop_body cfg ulm ws pcs i st
    = Some ({| SimpleICP.poses := SimpleICP.poses st ++ [T];
               SimpleICP.world_clouds :=
                 SimpleICP.world_clouds st ++ [transform_points T pc] |}, f).
Proof.
  intros Hicp Hval Hpc. unfold SimpleICP.loop_body.
  rewrite Hicp; simpl. rewrite Hval; simpl. rewrite Hpc; simpl. done.
Qed.

(** [_register_frame] on the first frame. *)
Lemma register_frame_first (self : IcpOdometryOp.Operator) (pts : list vec3) :
  IcpOdometryOp.frame_count self = 0%nat ->
  IcpOdometryOp._register_frame self pts
    = Some (IcpOdometryOp.set_frame self (IcpOdometryOp.poses self)
              (IcpOdometryOp.world_clouds self ++ [pts])
              (IcpOdometryOp.frame_count self + 1), (eye4, 1, 0)).
Proof.
  intros Hfc. unfold IcpOdometryOp._register_frame.
  destruct (decide _); [done|contradiction].
Qed.

(** [_register_frame] on a later frame, when the candidate jumps too far. *)
Lemma register_frame_reject (self : IcpOdometryOp.Operator) (pts : list vec3)
    (lm : list (list vec3)) (prev T : mat4) :
  IcpOdometryOp.frame_count self <> 0%nat ->
  IcpOdometryOp.local_map self = Some lm -> lm <> [] ->
  neg_index (IcpOdometryOp.poses self) 1 = Some prev ->
  let result := IcpOdometryOp.run_icp self
                  (IcpOdometryOp._preprocess self (concat lm)) pts prev in
  jump (matmul (transformation result) prev) prev > 0.75 ->
  IcpOdometryOp.fallback self prev = Some T ->
  IcpOdometryOp._register_frame self pts
    = Some (IcpOdometryOp.set_frame self (IcpOdometryOp.poses self ++ [T])
              (IcpOdometryOp.world_clouds self ++ [transform_points T pts])
              (IcpOdometryOp.frame_count self + 1),
            (T, 0, inlier_rmse result)).
Proof.
  intros Hfc Hlm Hne Hprev result Hjump Hfb. unfold jump in Hjump.
  unfold IcpOdometryOp._register_frame.
  destruct (decide _); [contradiction|].
  rewrite Hlm. cbn [mbind option_bind]. destruct lm as [|c lm']; [done|].
  rewrite Hprev. cbn [mbind option_bind]. fold result.
  destruct (Rgt_dec _ _); [|contradiction].
  rewrite Hfb. reflexivity.
Qed.

(** [_register_frame] on a later frame, when the candidate is plausible. *)
Lemma register_frame_accept (self : IcpOdometryOp.Operator) (pts : list vec3)
    (lm : list (list vec3)) (prev : mat4) :
  IcpOdometryOp.frame_count self <> 0%nat ->
  IcpOdometryOp.local_map self = Some lm -> lm <> [] ->
  neg_index (IcpOdometryOp.poses self) 1 = Some prev ->
  let result := IcpOdometryOp.run_icp self
                  (IcpOdometryOp._preprocess self (concat lm)) pts prev in
  let T := matmul (transformation result) prev in
  jump T prev <= 0.75 ->
  IcpOdometryOp._register_frame self pts
    = Some (IcpOdometryOp.set_frame self (IcpOdometryOp.poses self ++ [T])
              (IcpOdometryOp.world_clouds self ++ [transform_points T pts])
              (IcpOdometryOp.frame_count self + 1),
            (T, fitness result, inlier_rmse result)).
Proof.
  intros Hfc Hlm Hne Hprev result T Hjump. unfold jump in Hjump.
  unfold IcpOdometryOp._register_frame.
  destruct (decide _); [contradiction|].
  rewrite Hlm. cbn [mbind option_bind]. destruct lm as [|c lm']; [done|].
  rewrite Hprev. cbn [mbind option_bind]. fold result. fold T.
  destruct (Rgt_dec _ _); [lra|]. reflexivity.
Qed.

End WithOpen3D.

(** C1, as the code has it.  When the candidate pose of a frame jumps by more
    than three times the expected motion (0.25 m, so 0.75 m), both the batch
    loop and the operator drop the candidate, report fitness 0, and append a
    pose with the rotation of the previous pose whose translation is the
    previous translation moved by the last displacement in world
    coordinates (two poses known), or the previous translation (one pose
    known). *)
Theorem rejected_candidate_continues_world_velocity `{!Open3D} :
  SimpleICP.expected_motion = 0.25
  /\ (forall cfg ulm ws pcs i st result last,
        SimpleICP.icp_correction cfg ulm ws pcs i st = Some result ->
        neg_index (SimpleICP.poses st) 1 = Some last ->
        jump (matmul (transformation result) last) last
          > 3 * SimpleICP.expected_motion ->
        exists T st',
          SimpleICP.loop_body cfg ulm ws pcs i st = Some (st', 0)
          /\ SimpleICP.poses st' = SimpleICP.poses st ++ [T]
          /\ rotation_block T = rotation_block last
          /\ translation T = predicted_translation (SimpleICP.poses st) last)
  /\ (forall self pts lm prev,
        IcpOdometryOp.frame_count self <> 0%nat ->
        IcpOdometryOp.local_map self = Some lm -> lm <> [] ->
        neg_index (IcpOdometryOp.poses self) 1 = Some prev ->
        let result := IcpOdometryOp.run_icp self
                        (IcpOdometryOp._preprocess self (concat lm)) pts prev in
        jump (matmul (transformation result) prev) prev > 3 * 0.25 ->
        exists T self',
          IcpOdometryOp._register_frame self pts
            = Some (self', (T, 0, inlier_rmse result))
          /\ IcpOdometryOp.poses self' = IcpOdometryOp.poses self ++ [T]
          /\ rotation_block T = rotation_block prev
          /\ translation T
             = predicted_translation (IcpOdometryOp.poses self) prev).
Proof.
  split; [reflexivity|]. split.
  - intros cfg ulm ws pcs i st result last Hicp Hlast Hjump.
    destruct (motion_model_spec _ _ Hlast) as (T & HT & Hrot & _ & Htr).
    destruct (icp_correction_frame _ _ _ _ _ _ _ Hicp) as [pc Hpc].
    exists T. eexists. split; [|split; [|done]].
    + eapply loop_body_eq; [done| |done].
      rewrite (validate_reject _ _ last), HT; [done|done|].
      unfold SimpleICP.expected_motion in *. lra.
    + done.
  - intros self pts lm prev Hfc Hlm Hne Hprev result Hjump.
    destruct (fallback_spec _ _ Hprev) as (T & HT & Hrot & _ & Htr).
    exists T. eexists. split; [|split; [|done]].
    + eapply register_frame_reject; [done..| |done]. fold result. lra.
    + done.
Qed.

(** *** A run on which the motion model takes over

    Three frames; the registration of the second turns the vehicle a quarter
    turn about Z and moves it 0.5 m along X, the registration of the third
    jumps 5 m, which the plausibility check rejects. *)

Definition demo_turn : mat4 :=
  Mat4 0 (-1) 0 (1/2)
       1 0 0 0
       0 0 1 0
       0 0 0 1.

Definition demo_coast : mat4 :=
  Mat4 0 (-1) 0 1
       1 0 0 0
       0 0 1 0
       0 0 0 1.

Definition demo_result1 : RegistrationResult :=
  {| transformation := demo_turn; fitness := 9/10; inlier_rmse := 0 |}.

Definition demo_result2 : RegistrationResult :=
  {| transformation := translate (5, 0, 0); fitness := 8/10; inlier_rmse := 0 |}.

(** An Open3D whose registration answers [demo_result1] for a source of one
    point and [demo_result2] otherwise; it keeps every point. *)
Definition demo_o3d : Open3D := {|
  voxel_down_sample := fun _ pts => pts;
  estimate_normals := fun _ _ pts => pts;
  registration_icp := fun source _ _ _ _ _ =>
    if decide (length (points source) = 1)%nat then demo_result1
    else demo_result2
|}.

Definition demo_clouds : list (list vec3) :=
  [[(0, 0, 0)]; [(0, 0, 0)]; [(0, 0, 0); (0, 0, 0)]].

Definition demo_st0 : SimpleICP.State :=
  {| SimpleICP.poses := [eye4]; SimpleICP.world_clouds := [[(0, 0, 0)]] |}.

Definition demo_st1 : SimpleICP.State :=
  {| SimpleICP.poses := [eye4; demo_turn];
     SimpleICP.world_clouds :=
       [[(0, 0, 0)]; transform_points demo_turn [(0, 0, 0)]] |}.

Lemma demo_icp1 :
  @SimpleICP.icp_correction demo_o3d SimpleICP.default_config true 5
     demo_clouds 1 demo_st0 = Some demo_result1.
Proof.
  unfold SimpleICP.icp_correction, SimpleICP.target_cloud, SimpleICP.preprocess.
  cbn -[Rgt_dec transform_points eye4 demo_result1 demo_result2].
  destruct (Rgt_dec _ _); reflexivity.
Qed.

Lemma demo_icp2 :
  @SimpleICP.icp_correction demo_o3d SimpleICP.default_config true 5
     demo_clouds 2 demo_st1 = Some demo_result2.
Proof.
  unfold SimpleICP.icp_correction, SimpleICP.target_cloud, SimpleICP.preprocess.
  cbn -[Rgt_dec transform_points eye4 demo_turn demo_result1 demo_result2].
  destruct (Rgt_dec _ _); reflexivity.
Qed.

Lemma demo_jump1 :
  jump (matmul demo_turn eye4) eye4 <= SimpleICP.expected_motion * 3.
Proof.
  rewrite matmul_eye_r. unfold jump, SimpleICP.expected_motion.
  apply norm3_le; simpl; lra.
Qed.

Lemma demo_jump2 :
  jump (matmul (translate (5, 0, 0)) demo_turn) demo_turn
    > 3 * SimpleICP.expected_motion.
Proof.
  unfold jump, SimpleICP.expected_motion. apply norm3_gt; simpl; lra.
Qed.

Lemma demo_motion : SimpleICP.motion_model [eye4; demo_turn] = Some demo_coast.
Proof.
  unfold SimpleICP.motion_model. cbn -[add_translation vsub3 translation].
  unfold demo_coast, demo_turn, eye4; simpl.
  apply (f_equal Some), Mat4_ext; lra.
Qed.

Lemma demo_run :
  @SimpleICP.run_on_sequence_log demo_o3d SimpleICP.default_config demo_clouds
     true 5
  = Some ([eye4; demo_turn; demo_coast], [9/10; 0]).
Proof.
  unfold SimpleICP.run_on_sequence_log, demo_clouds.
  cbn [length Nat.sub seq SimpleICP.run_loop].
  erewrite loop_body_eq; [|apply demo_icp1| |reflexivity].
  2:{ cbn [SimpleICP.poses demo_st0].
      erewrite validate_accept; [|reflexivity|apply demo_jump1].
      cbn [transformation fitness demo_result1].
      rewrite matmul_eye_r. reflexivity. }
  cbn [mbind option_bind SimpleICP.poses SimpleICP.world_clouds app demo_st0].
  erewrite loop_body_eq; [|apply demo_icp2| |reflexivity].
  2:{ cbn [SimpleICP.poses app]. erewrite validate_reject; [|reflexivity|].
      - rewrite demo_motion. reflexivity.
      - pose proof demo_jump2. cbn [transformation demo_result2]. lra. }
  reflexivity.
Qed.

(** C1 as the spec words it fails on [demo_clouds]: the third frame is
    rejected (its candidate jumps 5 m) and gets the pose [demo_coast], whose
    translation (1, 0, 0) is the previous one moved by the displacement
    (0.5, 0, 0) in world coordinates; the previous pose composed on the
    right with that translation has translation (0.5, 0.5, 0). *)
Lemma fallback_is_not_right_composition :
  @SimpleICP.run_on_sequence_log demo_o3d SimpleICP.default_config demo_clouds
     true 5
  = Some ([eye4; demo_turn; demo_coast], [9/10; 0])
  /\ @SimpleICP.icp_correction demo_o3d SimpleICP.default_config true 5
       demo_clouds 2 demo_st1 = Some demo_result2
  /\ jump (matmul (transformation demo_result2) demo_turn) demo_turn
       > 3 * SimpleICP.expected_motion
  /\ translation demo_coast = (1, 0, 0)
  /\ translation
       (matmul demo_turn
          (translate (vsub3 (translation demo_turn) (translation eye4))))
     = (1 / 2, 1 / 2, 0)
  /\ demo_coast
     <> matmul demo_turn
          (translate (vsub3 (translation demo_turn) (translation eye4))).
Proof.
  split; [apply demo_run|]. split; [apply demo_icp2|].
  split; [apply demo_jump2|]. split; [reflexivity|].
  assert (Htr : translation
       (matmul demo_turn
          (translate (vsub3 (translation demo_turn) (translation eye4))))
     = (1 / 2, 1 / 2, 0)).
  { unfold translation; simpl. repeat apply f_equal2; lra. }
  split; [exact Htr|].
  intros Heq. rewrite <- Heq in Htr. unfold translation in Htr; simpl in Htr.
  injection Htr as H1 H2. lra.
Qed.

(** The same run as an instance of the theorem of C1. *)
Lemma rejected_candidate_continues_world_velocity_witness :
  exists T st',
    @SimpleICP.loop_body demo_o3d SimpleICP.default_config true 5
       demo_clouds 2 demo_st1 = Some (st', 0)
    /\ SimpleICP.poses st' = SimpleICP.poses demo_st1 ++ [T]
    /\ rotation_block T = rotation_block demo_turn
    /\ translation T
       = predicted_translation (SimpleICP.poses demo_st1) demo_turn.
Proof.
  exact (proj1 (proj2 (@rejected_candidate_continues_world_velocity demo_o3d))
           SimpleICP.default_config true 5%Z demo_clouds 2%nat demo_st1
           demo_result2 demo_turn demo_icp2 eq_refl demo_jump2).
Defined.


(** Every later pose either stays within three expected motions of its
    predecessor, or its frame reported fitness 0 and it is the pose of the
    motion model; [log] holds the fitness of the frames 1, 2, ... *)
Definition bounded_or_fallback (poses : list mat4) (log : list R) : Prop :=
  forall i prev P f,
    (1 <= i)%nat ->
    poses !! (i - 1)%nat = Some prev -> poses !! i = Some P ->
    log !! (i - 1)%nat = Some f ->
    jump P prev <= 3 * SimpleICP.expected_motion
    \/ (f = 0 /\ SimpleICP.motion_model (take i poses) = Some P).

Section WithOpen3D.
Context `{o3d : !Open3D}.

Lemma subsample_nonempty (pts : list vec3) :
  pts <> [] -> SimpleICP.subsample pts <> [].
Proof. destruct pts; [done|]. unfold SimpleICP.subsample, stride. done. Qed.

Lemma target_cloud_is_Some cfg ulm ws i st :
  (0 < ws)%Z -> (1 <= i)%nat -> length (SimpleICP.world_clouds st) = i ->
  is_Some (SimpleICP.target_cloud cfg ulm ws i st).
Proof.
  intros Hws Hi Hlen. unfold SimpleICP.target_cloud.
  destruct (ulm && bool_decide (1 < i)%nat).
  - destruct (index_range_is_Some (SimpleICP.world_clouds st)
      (Z.to_nat (0 `max` (Z.of_nat i - ws))) i) as [clouds Hc]; [lia|].
    rewrite Hc; simpl. apply index_range_length in Hc.
    destruct clouds as [|c clouds]; [simpl in Hc; lia|]. simpl. eauto.
  - destruct (lookup_lt_is_Some_2 (SimpleICP.world_clouds st) (i - 1)) as [c Hc];
      [lia|]. rewrite Hc. simpl. eauto.
Qed.

Lemma motion_model_is_Some (poses : list mat4) :
  poses <> [] -> is_Some (SimpleICP.motion_model poses).
Proof.
  intros Hne.
  destruct (proj2 (neg_index_is_Some poses 1)) as [last Hlast].
  { destruct poses; [done|simpl; lia]. }
  destruct (motion_model_spec _ _ Hlast) as (T & HT & _). eauto.
Qed.

Lemma validate_is_Some result (poses : list mat4) :
  poses <> [] -> is_Some (SimpleICP.validate result poses).
Proof.
  intros Hne.
  destruct (proj2 (neg_index_is_Some poses 1)) as [last Hlast].
  { destruct poses; [done|simpl; lia]. }
  destruct (motion_model_is_Some _ Hne) as [T HT].
  destruct (Rgt_dec (jump (matmul (transformation result) last) last)
              (SimpleICP.expected_motion * 3)).
  - rewrite (validate_reject _ _ last), HT by done. simpl. eauto.
  - rewrite (validate_accept _ _ last) by (done || lra). eauto.
Qed.

(** One pass succeeds on a state that holds the frames so far. *)
Lemma loop_body_is_Some cfg ulm ws pcs i st :
  (0 < ws)%Z -> (1 <= i)%nat -> (i < length pcs)%nat ->
  length (SimpleICP.world_clouds st) = i -> SimpleICP.poses st <> [] ->
  is_Some (SimpleICP.loop_body cfg ulm ws pcs i st).
Proof.
  intros Hws Hi Hpcs Hlen Hne.
  destruct (target_cloud_is_Some cfg ulm ws i st) as [tgt Htgt]; [done..|].
  destruct (lookup_lt_is_Some_2 pcs i Hpcs) as [pc Hpc].
  destruct (proj2 (neg_index_is_Some (SimpleICP.poses st) 1)) as [last Hlast].
  { destruct (SimpleICP.poses st); [done|simpl; lia]. }
  assert (exists r, SimpleICP.icp_correction cfg ulm ws pcs i st = Some r)
    as [result Hicp].
  { unfold SimpleICP.icp_correction. rewrite Htgt; simpl. rewrite Hpc; simpl.
    rewrite Hlast; simpl. eauto. }
  destruct (validate_is_Some result _ Hne) as [[T f] Hval].
  rewrite (loop_body_eq _ _ _ _ _ _ _ _ _ _ Hicp Hval Hpc). eauto.
Qed.

(** What one pass does to the state. *)
Lemma loop_body_step cfg ulm ws pcs i st st' f :
  SimpleICP.loop_body cfg ulm ws pcs i st = Some (st', f) ->
  exists T prev,
    neg_index (SimpleICP.poses st) 1 = Some prev
    /\ SimpleICP.poses st' = SimpleICP.poses st ++ [T]
    /\ length (SimpleICP.world_clouds st')
       = S (length (SimpleICP.world_clouds st))
    /\ (jump T prev <= 3 * SimpleICP.expected_motion
        \/ (f = 0 /\ SimpleICP.motion_model (SimpleICP.poses st) = Some T)).
Proof.
  unfold SimpleICP.loop_body. intros Hbody.
  destruct (SimpleICP.icp_correction _ _ _ _ _ _) as [result|] eqn:Hicp;
    [|done]. simpl in Hbody.
  destruct (SimpleICP.validate _ _) as [[T f']|] eqn:Hval; [|done].
  simpl in Hbody.
  destruct (pcs !! i) as [pc|]; [|done]. simpl in Hbody.
  injection Hbody as <- <-.
  assert (exists prev, neg_index (SimpleICP.poses st) 1 = Some prev)
    as [prev Hprev].
  { unfold SimpleICP.validate in Hval.
    destruct (neg_index _ 1); [eauto|done]. }
  exists T, prev. split; [done|]. split; [done|]. split.
  { simpl. rewrite length_app. simpl. lia. }
  destruct (Rgt_dec (jump (matmul (transformation result) prev) prev)
              (SimpleICP.expected_motion * 3)).
  - rewrite (validate_reject _ _ prev) in Hval by done.
    destruct (SimpleICP.motion_model _) as [T'|]; [|done].
    injection Hval as -> <-. right. done.
  - rewrite (validate_accept _ _ prev) in Hval by (done || lra).
    injection Hval as <- <-. left. lra.
Qed.

Lemma run_loop_spec cfg ulm ws pcs idxs st st' log :
  SimpleICP.run_loop cfg ulm ws pcs idxs st = Some (st', log) ->
  exists new,
    SimpleICP.poses st' = SimpleICP.poses st ++ new
    /\ length new = length idxs /\ length log = length idxs
    /\ forall k P f, new !! k = Some P -> log !! k = Some f ->
         exists prev,
           (SimpleICP.poses st ++ new)
             !! (length (SimpleICP.poses st) + k - 1)%nat = Some prev
           /\ (jump P prev <= 3 * SimpleICP.expected_motion
               \/ (f = 0
                   /\ SimpleICP.motion_model
                        (take (length (SimpleICP.poses st) + k)
                              (SimpleICP.poses st ++ new)) = Some P)).
Proof.
  revert st st' log. induction idxs as [|i idxs IH]; intros st st' log Hrun.
  - injection Hrun as <- <-. exists []. rewrite app_nil_r.
    repeat split; done.
  - simpl in Hrun.
    destruct (SimpleICP.loop_body _ _ _ _ _ _) as [[st1 f1]|] eqn:Hbody;
      [|done]. simpl in Hrun.
    destruct (SimpleICP.run_loop _ _ _ _ _ _) as [[st2 log2]|] eqn:Hrest;
      [|done]. simpl in Hrun. injection Hrun as <- <-.
    destruct (loop_body_step _ _ _ _ _ _ _ _ Hbody)
      as (T & prev & Hprev & Hposes & _ & Hstep).
    destruct (IH _ _ _ Hrest) as (new & Hnew & Hlen1 & Hlen2 & Hall).
    exists (T :: new). rewrite Hposes, <- app_assoc in Hnew. simpl in Hnew.
    split; [done|]. split; [simpl; lia|]. split; [simpl; lia|].
    intros [|k] P f HP Hf; simpl in HP, Hf.
    + injection HP as <-. injection Hf as <-. exists prev.
      rewrite Nat.add_0_r. split.
      * unfold neg_index in Hprev. destruct (decide _) as [Hd|]; [|done].
        rewrite lookup_app_l by lia. done.
      * rewrite take_app_length. done.
    + destruct (Hall k P f HP Hf) as (prev' & Hprev' & Hor).
      rewrite Hposes, <- app_assoc, length_app in Hprev', Hor.
      simpl in Hprev', Hor. exists prev'.
      replace (length (SimpleICP.poses st) + S k)%nat
        with (length (SimpleICP.poses st) + 1 + k)%nat by lia.
      done.
Qed.

Lemma run_loop_is_Some cfg ulm ws pcs n i st :
  (0 < ws)%Z -> (1 <= i)%nat -> (i + n <= length pcs)%nat ->
  length (SimpleICP.world_clouds st) = i -> SimpleICP.poses st <> [] ->
  is_Some (SimpleICP.run_loop cfg ulm ws pcs (seq i n) st).
Proof.
  intros Hws. revert i st. induction n as [|n IH]; intros i st Hi Hn Hlen Hne.
  - simpl. eauto.
  - simpl.
    destruct (loop_body_is_Some cfg ulm ws pcs i st) as [[st1 f1] Hbody];
      [done|done|lia|done|done|].
    rewrite Hbody. simpl.
    destruct (loop_body_step _ _ _ _ _ _ _ _ Hbody)
      as (T & prev & _ & Hposes & Hwc & _).
    destruct (IH (S i) st1) as [[st2 log2] Hrest]; [lia|lia|lia| |].
    { rewrite Hposes. by destruct (SimpleICP.poses st). }
    rewrite Hrest. simpl. eauto.
Qed.

End WithOpen3D.

(** The empty frame is reported with fitness 0: some odometry status with
    fitness 0 is among the outputs of the event (C8 as the spec words it). *)
Definition reports_zero_fitness `{!Open3D} `{!Rounding}
    (self : IcpOdometryOp.Operator) (ev : IcpOdometryOp.Event) : Prop :=
  exists self' outs status frame_idx rmse,
    IcpOdometryOp.on_event self ev = Some (self', outs, status)
    /\ IcpOdometryOp.OdometryStatus [frame_idx; 0; rmse] ∈ outs.

Section Sequences.
Context `{o3d : !Open3D} `{rnd : !Rounding}.

Lemma run_on_sequence_log_spec cfg pcs ulm ws :
  (0 < ws)%Z ->
  exists poses log,
    SimpleICP.run_on_sequence_log cfg pcs ulm ws = Some (poses, log)
    /\ length poses = length pcs
    /\ length log = (length pcs - 1)%nat
    /\ bounded_or_fallback poses log.
Proof.
  intros Hws. unfold SimpleICP.run_on_sequence_log.
  destruct pcs as [|pc0 rest].
  { exists [], []. split; [done|]. split; [done|]. split; [done|].
    intros i prev P f _ Hprev. done. }
  set (pcs := pc0 :: rest).
  set (st0 := {| SimpleICP.poses := [eye4];
                 SimpleICP.world_clouds := [pc0] |}).
  destruct (run_loop_is_Some cfg ulm ws pcs (length pcs - 1) 1 st0)
    as [[st log] Hrun]; [done|lia|simpl; lia|done|done|].
  rewrite Hrun. simpl.
  destruct (run_loop_spec _ _ _ _ _ _ _ _ Hrun)
    as (new & Hnew & Hlen1 & Hlen2 & Hall).
  exists (SimpleICP.poses st), log. split; [done|]. split.
  { rewrite Hnew, length_app, Hlen1, length_seq. simpl. lia. }
  split; [by rewrite Hlen2, length_seq|].
  intros i prev P f Hi Hprev HP Hf. rewrite Hnew in Hprev, HP |- *.
  simpl in Hprev, HP, Hall.
  destruct i as [|k]; [lia|]. simpl in HP, Hf.
  rewrite Nat.sub_0_r in Hf.
  destruct (Hall k P f HP Hf) as (prev' & Hprev' & Hor).
  replace (S k - 1)%nat with k in Hprev by lia.
  replace (k - 0)%nat with k in Hprev' by lia.
  rewrite Hprev in Hprev'. injection Hprev' as <-. done.
Qed.

(** Before the first frame the operator holds the identity pose only. *)
Lemma reachable_first_pose icp_config self :
  reachable icp_config self ->
  IcpOdometryOp.frame_count self = 0%nat ->
  IcpOdometryOp.poses self = [eye4].
Proof.
  induction 1 as [|self ev self' outs status Hreach IH Hev]; [done|].
  intros Hfc. unfold IcpOdometryOp.on_event in Hev.
  destruct ev as [[| |] flat| |]; try (injection Hev as <- _ _; by apply IH).
  destruct (decide _); [injection Hev as <- _ _; by apply IH|].
  destruct (IcpOdometryOp.reshape3 flat) as [pts|]; [|done]. simpl in Hev.
  destruct (IcpOdometryOp._register_frame self pts)
    as [[self1 [[pose fit] rmse]]|] eqn:Hreg; [|done].
  simpl in Hev. injection Hev as <- _ _.
  unfold IcpOdometryOp._register_frame in Hreg.
  destruct (decide (IcpOdometryOp.frame_count self = 0%nat)).
  { injection Hreg as <- _ _ _. simpl in Hfc. lia. }
  destruct (IcpOdometryOp.local_map self) as [lm|]; [|done]. simpl in Hreg.
  destruct lm as [|c lm].
  { destruct (neg_index _ 1); [|done]. simpl in Hreg.
    injection Hreg as <- _ _ _. contradiction. }
  destruct (neg_index _ 1) as [prev|]; [|done]. simpl in Hreg.
  match type of Hreg with
  | context [mbind _ ?m] => destruct m as [[T f]|]; [|done]
  end.
  simpl in Hreg. injection Hreg as <- _ _ _. simpl in Hfc. lia.
Qed.

(** What the operator sends for a non-empty frame. *)
Lemma on_event_pointcloud icp_config self flat self' outs status :
  reachable icp_config self -> flat <> [] ->
  IcpOdometryOp.on_event self (IcpOdometryOp.INPUT IcpOdometryOp.Pointcloud flat)
    = Some (self', outs, status) ->
  exists pose fitness rmse,
    outs = [IcpOdometryOp.Pose
              (astype_float32 <$> IcpOdometryOp.flatten pose);
            IcpOdometryOp.OdometryStatus
              (astype_float32
                 <$> [INR (IcpOdometryOp.frame_count self' - 1); fitness;
                      rmse])]
    /\ neg_index (IcpOdometryOp.poses self') 1 = Some pose
    /\ forall prev,
         IcpOdometryOp.frame_count self <> 0%nat ->
         neg_index (IcpOdometryOp.poses self) 1 = Some prev ->
         jump pose prev <= 3 * 0.25
         \/ (fitness = 0 /\ IcpOdometryOp.fallback self prev = Some pose).
Proof.
  intros Hreach Hne Hev. unfold IcpOdometryOp.on_event in Hev.
  destruct (decide _) as [Hlen|_]; [by destruct flat|].
  destruct (IcpOdometryOp.reshape3 flat) as [pts|]; [|done]. simpl in Hev.
  destruct (IcpOdometryOp._register_frame self pts)
    as [[self1 [[pose fit] rmse]]|] eqn:Hreg; [|done].
  simpl in Hev. injection Hev as <- <- _.
  exists pose, fit, rmse. split; [done|].
  destruct (decide (IcpOdometryOp.frame_count self = 0%nat)) as [Hfc|Hfc].
  { rewrite register_frame_first in Hreg by done.
    injection Hreg as <- <- _ _. simpl.
    rewrite (reachable_first_pose _ _ Hreach Hfc). done. }
  pose proof Hreg as Hreg'. unfold IcpOdometryOp._register_frame in Hreg'.
  destruct (decide _); [done|].
  destruct (IcpOdometryOp.local_map self) as [lm|] eqn:Hlm; [|done].
  simpl in Hreg'. destruct (neg_index (IcpOdometryOp.poses self) 1)
    as [prev|] eqn:Hprev; [|by destruct lm].
  destruct lm as [|c lm].
  { simpl in Hreg'. injection Hreg' as <- <- <- _. split; [done|].
    intros prev' _ [= <-]. left. unfold jump. rewrite jump_self. lra. }
  clear Hreg'.
  set (result := IcpOdometryOp.run_icp self
         (IcpOdometryOp._preprocess self (concat (c :: lm))) pts prev).
  destruct (Rgt_dec (jump (matmul (transformation result) prev) prev) 0.75)
    as [Hj|Hj].
  - destruct (fallback_spec _ _ Hprev) as (T & HT & _).
    rewrite (register_frame_reject self pts (c :: lm) prev T) in Hreg
      by done.
    injection Hreg as <- <- <- _. split; [apply neg_index_1_app|].
    intros prev' _ [= <-]. right. done.
  - rewrite (register_frame_accept self pts (c :: lm) prev) in Hreg
      by (done || fold result; lra).
    injection Hreg as <- <- <- _. split; [apply neg_index_1_app|].
    intros prev' _ [= <-]. left.
    change (jump (matmul (transformation result) prev) prev <= 3 * 0.25). lra.
Qed.

(** An empty point-cloud event changes nothing and sends nothing. *)
Lemma on_event_empty (self : IcpOdometryOp.Operator) :
  IcpOdometryOp.on_event self (IcpOdometryOp.INPUT IcpOdometryOp.Pointcloud [])
  = Some (self, [], IcpOdometryOp.CONTINUE).
Proof. reflexivity. Qed.

End Sequences.

(** C2.  After the batch loop has processed a frame sequence (it does so for
    every sequence when the window is positive), and after every non-empty
    frame the operator is sent, the new pose lies within three expected
    motions (3 * 0.25 m) of the previous pose, unless the frame's fitness is
    0 and the pose is the one of the motion-model fallback.  The batch loop
    returns one pose per frame and one fitness for every frame after the
    first, so the bound covers every frame [i >= 1]. *)
Theorem pose_jump_bounded_unless_fallback `{!Open3D} `{!Rounding} :
  (forall cfg pcs ulm ws,
      (0 < ws)%Z ->
      exists poses log,
        SimpleICP.run_on_sequence_log cfg pcs ulm ws = Some (poses, log)
        /\ length poses = length pcs
        /\ length log = (length pcs - 1)%nat
        /\ bounded_or_fallback poses log)
  /\ (forall icp_config self flat self' outs status,
        reachable icp_config self -> flat <> [] ->
        IcpOdometryOp.on_event self
          (IcpOdometryOp.INPUT IcpOdometryOp.Pointcloud flat)
          = Some (self', outs, status) ->
        exists pose fitness rmse,
          outs = [IcpOdometryOp.Pose
                    (astype_float32 <$> IcpOdometryOp.flatten pose);
                  IcpOdometryOp.OdometryStatus
                    (astype_float32
                       <$> [INR (IcpOdometryOp.frame_count self' - 1);
                            fitness; rmse])]
          /\ neg_index (IcpOdometryOp.poses self') 1 = Some pose
          /\ forall prev,
               IcpOdometryOp.frame_count self <> 0%nat ->
               neg_index (IcpOdometryOp.poses self) 1 = Some prev ->
               jump pose prev <= 3 * 0.25
               \/ (fitness = 0
                   /\ IcpOdometryOp.fallback self prev = Some pose)).
Proof.
  split.
  - intros cfg pcs ulm ws Hws. by apply run_on_sequence_log_spec.
  - intros icp_config self flat self' outs status Hreach Hne Hev.
    by eapply on_event_pointcloud.
Qed.

(** The demo run as an instance of the theorem of C2. *)
Lemma pose_jump_bounded_unless_fallback_witness :
  exists poses log,
    @SimpleICP.run_on_sequence_log demo_o3d SimpleICP.default_config
       demo_clouds true 5 = Some (poses, log)
    /\ length poses = length demo_clouds
    /\ length log = (length demo_clouds - 1)%nat
    /\ bounded_or_fallback poses log.
Proof.
  exact (proj1 (@pose_jump_bounded_unless_fallback demo_o3d
                  WaypointExtractor.exact_arithmetic)
           SimpleICP.default_config demo_clouds true 5%Z eq_refl).
Defined.

(** C8, as the code has it.  A point-cloud event with no value leaves the
    operator as it is and sends nothing, neither a pose nor a status; a run
    with such an event is the run without it. *)
Theorem empty_frame_is_skipped `{!Open3D} `{!Rounding}
    (self : IcpOdometryOp.Operator)
    (before after : list IcpOdometryOp.Event) :
  IcpOdometryOp.on_event self
    (IcpOdometryOp.INPUT IcpOdometryOp.Pointcloud [])
  = Some (self, [], IcpOdometryOp.CONTINUE)
  /\ IcpOdometryOp.run_events self
       (before ++ IcpOdometryOp.INPUT IcpOdometryOp.Pointcloud [] :: after)
     = IcpOdometryOp.run_events self (before ++ after).
Proof.
  split; [reflexivity|].
  revert self. induction before as [|ev before IH]; intros self.
  - simpl. destruct (IcpOdometryOp.run_events self after) as [[s o]|]; done.
  - simpl. destruct (IcpOdometryOp.on_event self ev) as [[[s o] st]|]; [|done].
    simpl. destruct st; [|done]. by rewrite IH.
Qed.

(** C8 as the spec words it fails on the operator as constructed: the empty
    frame is answered with no output at all, so no fitness is reported. *)
Lemma empty_frame_reports_nothing :
  @IcpOdometryOp.on_event demo_o3d WaypointExtractor.exact_arithmetic
     (IcpOdometryOp.init IcpOdometryOp.default_icp_config)
     (IcpOdometryOp.INPUT IcpOdometryOp.Pointcloud [])
  = Some (IcpOdometryOp.init IcpOdometryOp.default_icp_config, [],
          IcpOdometryOp.CONTINUE)
  /\ ~ @reports_zero_fitness demo_o3d WaypointExtractor.exact_arithmetic
         (IcpOdometryOp.init IcpOdometryOp.default_icp_config)
         (IcpOdometryOp.INPUT IcpOdometryOp.Pointcloud []).
Proof.
  split; [reflexivity|].
  intros (self' & outs & status & idx & rmse & Hev & Hin).
  injection Hev as _ <- _. by apply elem_of_nil in Hin.
Qed.

End IcpFacts.


(** ** Waypoints: the minimum-spacing filter *)

Module WaypointFacts.
Import Linalg PyList LinalgFacts.
#[local] Open Scope R_scope.

(** Every entry lies at least [s] from the entry before it. *)
Definition spaced (s : R) (l : list vec2) : Prop :=
  forall i a b, l !! i = Some a -> l !! S i = Some b -> norm2 (vsub2 b a) >= s.

(** No entry equals the entry before it. *)
Definition consecutive_distinct (l : list vec2) : Prop :=
  forall i a b, l !! i = Some a -> l !! S i = Some b -> a <> b.

(** The minimum-spacing filter in the words of the spec, after the first
    point [last_kept] has been kept: go through the candidates and keep each
    one whose projection lies at least [s] from the projection of the last
    one kept. *)
Fixpoint keep_spaced {A : Type} (proj : A -> vec2) (s : R) (last_kept : A)
    (candidates : list A) : list A :=
  match candidates with
  | [] => []
  | p :: rest =>
      if Rge_dec (norm2 (vsub2 (proj p) (proj last_kept))) s
      then p :: keep_spaced proj s p rest
      else keep_spaced proj s last_kept rest
  end.

(** [[p[0, 3], p[1, 3]]]: the 2-D projection of a pose. *)
Definition project (P : mat4) : vec2 := (m03 P, m13 P).

Lemma spaced_keep_spaced {A : Type} (proj : A -> vec2) (s : R) (p0 : A)
    (rest : list A) :
  spaced s (proj <$> p0 :: keep_spaced proj s p0 rest).
Proof.
  revert p0. induction rest as [|p rest IH]; intros p0.
  - intros i a b Ha Hb. destruct i; done.
  - simpl. destruct (Rge_dec _ _) as [Hge|Hlt]; [|apply IH].
    intros [|i] a b Ha Hb; simpl in Ha, Hb.
    + injection Ha as <-. injection Hb as <-. done.
    + by apply (IH p i).
Qed.

Lemma spaced_snoc (s : R) (l : list vec2) (a b : vec2) :
  spaced s l -> last l = Some a -> norm2 (vsub2 b a) >= s ->
  spaced s (l ++ [b]).
Proof.
  intros Hsp Hlast Hd i x y Hx Hy.
  destruct (decide (S i < length l)%nat) as [Hlt|Hge].
  - rewrite lookup_app_l in Hx, Hy by lia. by apply (Hsp i).
  - assert (S i = length l) as Hi.
    { apply lookup_lt_Some in Hy. rewrite length_app in Hy. simpl in Hy. lia. }
    rewrite lookup_app_l in Hx by lia.
    rewrite lookup_app_r, Hi, Nat.sub_diag in Hy by lia.
    injection Hy as <-. rewrite last_lookup in Hlast.
    replace (pred (length l)) with i in Hlast by lia.
    rewrite Hx in Hlast. injection Hlast as <-. done.
Qed.

Lemma spaced_positive_distinct (s : R) (l : list vec2) :
  0 < s -> spaced s l -> consecutive_distinct l.
Proof.
  intros Hs Hsp i a b Ha Hb ->. specialize (Hsp i b b Ha Hb).
  assert (norm2 (vsub2 b b) = 0) as H0.
  { apply norm2_zero_iff. unfold vsub2. f_equal; lra. }
  lra.
Qed.

(** The last point kept is the last candidate or is less than [s] away
    from it. *)
Lemma last_keep_spaced {A : Type} (proj : A -> vec2) (s : R) (p0 : A)
    (rest : list A) (p_last : A) :
  last (p0 :: rest) = Some p_last ->
  exists k, last (p0 :: keep_spaced proj s p0 rest) = Some k
    /\ (k = p_last \/ norm2 (vsub2 (proj p_last) (proj k)) < s).
Proof.
  revert p0. induction rest as [|p rest IH]; intros p0 Hlast.
  - simpl in *. injection Hlast as <-. eauto.
  - rewrite last_cons_cons in Hlast. simpl.
    destruct (Rge_dec _ _) as [Hge|Hlt].
    + rewrite last_cons_cons. by apply IH.
    + destruct rest as [|q rest].
      * simpl in *. injection Hlast as <-. exists p0. split; [done|].
        right. lra.
      * apply IH. by rewrite last_cons_cons.
Qed.

(** The loop of [_filter_by_distance] is the filter of the spec. *)
Lemma filter_fold (self : WaypointExtractor.Config) (rest acc : list vec3)
    (last_kept : vec3) :
  fold_left (WaypointExtractor.filter_step self) rest
    (Some (acc ++ [last_kept]))
  = Some (acc ++ last_kept
            :: keep_spaced WaypointExtractor.xy
                 (WaypointExtractor.min_distance self) last_kept rest).
Proof.
  revert acc last_kept. induction rest as [|p rest IH]; intros acc last_kept.
  - done.
  - simpl. rewrite neg_index_1_app. simpl.
    destruct (Rge_dec _ _).
    + rewrite IH, <- app_assoc. done.
    + apply IH.
Qed.

Lemma filter_by_distance_eq (self : WaypointExtractor.Config) (p0 : vec3)
    (rest : list vec3) :
  WaypointExtractor._filter_by_distance self (p0 :: rest)
  = Some (p0 :: keep_spaced WaypointExtractor.xy
                  (WaypointExtractor.min_distance self) p0 rest).
Proof. apply (filter_fold self rest [] p0). Qed.

(** The loop of the operator is the same filter on the 2-D trajectory. *)
Lemma spacing_fold (self : WaypointExtractorOp.Operator) (rest acc : list vec2)
    (last_kept : vec2) :
  fold_left (WaypointExtractorOp.spacing_step self) rest
    (Some (acc ++ [last_kept]))
  = Some (acc ++ last_kept
            :: keep_spaced (fun p => p) (WaypointExtractorOp.min_spacing self)
                 last_kept rest).
Proof.
  revert acc last_kept. induction rest as [|p rest IH]; intros acc last_kept.
  - done.
  - simpl. rewrite neg_index_1_app. simpl.
    destruct (Rge_dec _ _).
    + rewrite IH, <- app_assoc. done.
    + apply IH.
Qed.

End WaypointFacts.

(** ** Waypoints: Douglas-Peucker simplification *)

Module DPFacts.
Import Linalg Rounded PyList LinalgFacts.
#[local] Open Scope R_scope.

(** [line_vec / line_len] for the chord from [start] to [end_], in exact
    arithmetic. *)
Definition chord_unit (start end_ : vec2) : vec2 :=
  WaypointExtractor.line_unit_of start end_.

(** *** The distance from a chord in exact arithmetic *)

(** The exact distance of [p] from the chord from [start] to [end_]. *)
Definition exact_deviation (start end_ p : vec2) : R :=
  WaypointExtractor.line_distance start (chord_unit start end_) p.

Lemma line_distance_nonneg start u p :
  0 <= WaypointExtractor.line_distance start u p.
Proof. apply norm2_nonneg. Qed.

Lemma exact_deviation_start start end_ : exact_deviation start end_ start = 0.
Proof.
  unfold exact_deviation, WaypointExtractor.line_distance.
  apply norm2_zero_iff. unfold vsub2, vadd2, vscale2, dot2; simpl.
  f_equal; ring.
Qed.

Lemma norm2_sqr (v : vec2) : norm2 v * norm2 v = v.1 * v.1 + v.2 * v.2.
Proof. unfold norm2. apply sqrt_sqrt. nra. Qed.

Lemma exact_deviation_end start end_ :
  norm2 (vsub2 end_ start) <> 0 -> exact_deviation start end_ end_ = 0.
Proof.
  intros Hlen. unfold exact_deviation, WaypointExtractor.line_distance, chord_unit,
    WaypointExtractor.line_unit_of.
  apply norm2_zero_iff.
  pose proof (norm2_sqr (vsub2 end_ start)) as Hsq.
  set (n := norm2 (vsub2 end_ start)) in *.
  destruct start as [sx sy], end_ as [ex ey].
  unfold vsub2, vadd2, vscale2, dot2 in *; simpl in *.
  assert ((ex - sx) * ((ex - sx) / n) + (ey - sy) * ((ey - sy) / n) = n)
    as ->.
  { replace ((ex - sx) * ((ex - sx) / n) + (ey - sy) * ((ey - sy) / n))
      with (((ex - sx) * (ex - sx) + (ey - sy) * (ey - sy)) / n)
      by (field; done).
    rewrite <- Hsq. field. done. }
  f_equal; field; done.
Qed.

(** The z-component of the cross product of two 2-vectors. *)
Definition cross2 (a b : vec2) : R := a.1 * b.2 - a.2 * b.1.

(** The exact_deviation is the usual point-line distance. *)
Lemma exact_deviation_cross start end_ p :
  norm2 (vsub2 end_ start) <> 0 ->
  exact_deviation start end_ p
  = Rabs (cross2 (vsub2 p start) (vsub2 end_ start)) / norm2 (vsub2 end_ start).
Proof.
  intros Hlen. unfold exact_deviation, WaypointExtractor.line_distance, chord_unit,
    WaypointExtractor.line_unit_of.
  pose proof (norm2_sqr (vsub2 end_ start)) as Hsq.
  pose proof (norm2_nonneg (vsub2 end_ start)) as Hpos.
  set (n := norm2 (vsub2 end_ start)) in *.
  destruct start as [sx sy], end_ as [ex ey], p as [px py].
  unfold cross2, vsub2, vadd2, vscale2, dot2 in *; simpl in *.
  set (dx := ex - sx) in *. set (dy := ey - sy) in *.
  set (vx := px - sx). set (vy := py - sy).
  set (c := vx * dy - vy * dx).
  assert (0 < n) as Hn by lra.
  assert (dx * dx + dy * dy <> 0) as HD by (rewrite <- Hsq; nra).
  apply norm2_eq.
  { apply Rmult_le_pos; [apply Rabs_pos|]. left. by apply Rinv_0_lt_compat. }
  simpl.
  replace (Rabs c / n * (Rabs c / n)) with (c * c / (n * n)).
  2:{ pose proof (Rsqr_abs c) as Habs. unfold Rsqr in Habs.
      replace (Rabs c / n * (Rabs c / n)) with (Rabs c * Rabs c / (n * n))
        by (field; done).
      by rewrite <- Habs. }
  replace ((vx * (dx / n) + vy * (dy / n)) * (dx / n))
    with ((vx * dx + vy * dy) * dx / (n * n)) by (field; done).
  replace ((vx * (dx / n) + vy * (dy / n)) * (dy / n))
    with ((vx * dx + vy * dy) * dy / (n * n)) by (field; done).
  rewrite Hsq. subst c vx vy. field. done.
Qed.

Lemma exact_deviation_pos (start end_ p : vec2) :
  norm2 (vsub2 end_ start) <> 0 ->
  cross2 (vsub2 p start) (vsub2 end_ start) <> 0 ->
  0 < exact_deviation start end_ p.
Proof.
  intros Hlen Hcross. rewrite exact_deviation_cross by done.
  pose proof (norm2_nonneg (vsub2 end_ start)).
  apply Rdiv_lt_0_compat; [by apply Rabs_pos_lt|lra].
Qed.

(** *** Python's [max] and [index] *)

Lemma fold_left_Rmax_ge (l : list R) (x : R) : x <= fold_left Rmax l x.
Proof.
  revert x. induction l as [|y l IH]; intros x; simpl; [lra|].
  etransitivity; [apply (Rmax_l x y)|apply IH].
Qed.

Lemma fold_left_Rmax_upper (l : list R) (x y : R) :
  y ∈ l -> y <= fold_left Rmax l x.
Proof.
  revert x. induction l as [|z l IH]; intros x Hy; simpl.
  - by apply elem_of_nil in Hy.
  - apply elem_of_cons in Hy as [->|Hy]; [|by apply IH].
    etransitivity; [apply (Rmax_r x z)|apply fold_left_Rmax_ge].
Qed.

Lemma fold_left_Rmax_elem (l : list R) (x : R) :
  fold_left Rmax l x ∈ x :: l.
Proof.
  revert x. induction l as [|z l IH]; intros x; simpl; [left|].
  specialize (IH (Rmax x z)). apply elem_of_cons in IH as [Heq|Hin].
  - rewrite Heq. apply Rmax_case; [left|right; left].
  - right. by right.
Qed.

Lemma py_max_spec (l : list R) (m : R) :
  py_max l = Some m -> m ∈ l /\ forall x, x ∈ l -> x <= m.
Proof.
  destruct l as [|x l]; [done|]. intros [= <-]. split.
  - apply fold_left_Rmax_elem.
  - intros y [->|Hy]%elem_of_cons.
    + apply fold_left_Rmax_ge.
    + by apply fold_left_Rmax_upper.
Qed.

Lemma py_max_is_Some (l : list R) : l <> [] -> is_Some (py_max l).
Proof. destruct l; [done|]. simpl. eauto. Qed.

Lemma py_index_spec (x : R) (l : list R) (i : nat) :
  py_index x l = Some i ->
  l !! i = Some x /\ forall j y, (j < i)%nat -> l !! j = Some y -> y <> x.
Proof.
  revert i. induction l as [|y l IH]; intros i; [done|]. simpl.
  destruct (Req_dec_T y x) as [->|Hne].
  - intros [= <-]. split; [done|]. intros j z Hj. lia.
  - destruct (py_index x l) as [k|]; [|done]. intros [= <-].
    destruct (IH k eq_refl) as [Hk Hbefore]. split; [done|].
    intros [|j] z Hj; simpl; [by intros [= <-]|].
    apply Hbefore. lia.
Qed.

Lemma py_index_is_Some (x : R) (l : list R) :
  x ∈ l -> is_Some (py_index x l).
Proof.
  induction l as [|y l IH]; intros Hx; [by apply elem_of_nil in Hx|].
  simpl. destruct (Req_dec_T y x); [eauto|].
  apply elem_of_cons in Hx as [->|Hx]; [done|].
  destruct (IH Hx) as [k ->]. simpl. eauto.
Qed.

(** *** Indices that keep the ends *)

(** Indices that keep the two ends of [n >= 1] points: increasing, from 0
    to [n - 1]. *)
Definition keeps_ends (n : nat) (indices : list nat) : Prop :=
  StronglySorted lt indices
  /\ head indices = Some 0%nat /\ last indices = Some (n - 1)%nat.

Lemma neg_index_1_last {A : Type} (l : list A) : neg_index l 1 = last l.
Proof.
  unfold neg_index. rewrite last_lookup.
  destruct (decide _) as [Hd|Hd].
  - f_equal. lia.
  - destruct l; [done|]. simpl in Hd. lia.
Qed.

Lemma keeps_ends_pair (n : nat) : (2 <= n)%nat -> keeps_ends n [0; n - 1]%nat.
Proof.
  intros Hn. split; [|done].
  repeat constructor. lia.
Qed.

Lemma seq_increasing (a n : nat) : StronglySorted lt (seq a n).
Proof.
  revert a. induction n as [|n IH]; intros a; [constructor|].
  simpl. constructor; [apply IH|].
  apply Forall_forall. intros x Hx. apply elem_of_seq in Hx. lia.
Qed.

Lemma keeps_ends_seq (n : nat) : (1 <= n)%nat -> keeps_ends n (seq 0 n).
Proof.
  intros Hn. split; [|split].
  - apply seq_increasing.
  - destruct n; [lia|done].
  - destruct n; [lia|]. rewrite seq_S, last_snoc. f_equal. simpl. lia.
Qed.

Lemma keeps_ends_join (n m : nat) (left right : list nat) :
  (m < n)%nat ->
  keeps_ends (m + 1) left -> keeps_ends (n - m) right ->
  keeps_ends n (removelast left ++ ((fun i => (i + m)%nat) <$> right)).
Proof.
  intros Hm (Hsl & Hhl & Hll) (Hsr & Hhr & Hlr).
  apply last_Some in Hll as [l' ->]. rewrite removelast_last.
  replace (m + 1 - 1)%nat with m in * by lia.
  apply StronglySorted_app in Hsl as (Hlt & Hsl' & _).
  split; [|split].
  - apply StronglySorted_app_2.
    + intros x y Hx Hy. apply list_elem_of_fmap in Hy as (z & -> & _).
      specialize (Hlt x m Hx ltac:(by left)). lia.
    + done.
    + eapply StronglySorted_fmap; [|done]. intros x y. simpl. lia.
  - rewrite head_app in Hhl |- *. destruct (head l') eqn:Hh; [done|].
    simpl in Hhl. injection Hhl as ->.
    destruct right as [|r right]; [done|]. simpl in Hhr |- *.
    injection Hhr as ->. done.
  - rewrite last_app, fmap_last, Hlr. simpl. f_equal. lia.
Qed.

Lemma fmap_shift_seq (m a n : nat) :
  (fun i => (i + m)%nat) <$> seq a n = seq (a + m) n.
Proof.
  revert a. induction n as [|n IH]; intros a; [done|].
  simpl. f_equal. apply (IH (S a)).
Qed.

Lemma last_drop {A : Type} (l : list A) (i : nat) :
  (i < length l)%nat -> last (drop i l) = last l.
Proof.
  intros Hi. rewrite !last_lookup, lookup_drop, length_drop.
  replace (i + pred (length l - i))%nat with (pred (length l)) by lia. done.
Qed.

Lemma removelast_take_S {A : Type} (l : list A) (i : nat) :
  (i < length l)%nat -> removelast (take (S i) l) = take i l.
Proof.
  intros Hi. destruct (lookup_lt_is_Some_2 l i Hi) as [x Hx].
  rewrite (take_S_r l i x Hx). apply removelast_last.
Qed.

Section WithRounding.
Context `{rnd : !Rounding}.

(** The distance of [p] from the chord from [start] to [end_], as
    [_douglas_peucker] computes it. *)
Definition deviation (start end_ p : vec2) : R :=
  computed_line_distance start (computed_line_unit start end_) p.

(** *** The library's [_douglas_peucker] *)

(** The deviations of all points of [pts] from the chord of [pts]. *)
Definition deviations (pts : list vec2) (start end_ : vec2) : list R :=
  deviation start end_ <$> pts.

(** Over every chord of [pts] that spans a point and is at least 1e-6 long,
    the deviation computed for the chord's own two ends does not exceed
    [tol]. *)
Definition ends_within (tol : R) (pts : list vec2) : Prop :=
  forall i k a b,
    (i + 1 < k)%nat -> pts !! i = Some a -> pts !! k = Some b ->
    1e-6 <= norm2 (vsub2 b a) ->
    deviation a b a <= tol /\ deviation a b b <= tol.

Lemma ends_within_take (tol : R) (pts : list vec2) (n : nat) :
  ends_within tol pts -> ends_within tol (take n pts).
Proof.
  intros H i k a b Hik Ha Hb.
  apply lookup_take_Some in Ha as [Ha _], Hb as [Hb _].
  by apply (H i k).
Qed.

Lemma ends_within_drop (tol : R) (pts : list vec2) (n : nat) :
  ends_within tol pts -> ends_within tol (drop n pts).
Proof.
  intros H i k a b Hik Ha Hb. rewrite lookup_drop in Ha, Hb.
  apply (H (n + i) (n + k))%nat; (done || lia).
Qed.

(** The point the library splits at is an interior one when the
    deviations of the two ends do not exceed the tolerance. *)
Lemma split_point_interior (pts : list vec2) (start end_ : vec2) (tol m : R)
    (i : nat) :
  pts !! 0%nat = Some start -> last pts = Some end_ ->
  deviation start end_ start <= tol -> deviation start end_ end_ <= tol ->
  py_index m (deviations pts start end_) = Some i ->
  m > tol ->
  (0 < i < length pts - 1)%nat.
Proof.
  intros Hstart Hend Hs He Hidx Hm.
  apply py_index_spec in Hidx as [Hi _]. unfold deviations in Hi.
  rewrite list_lookup_fmap in Hi.
  destruct (pts !! i) as [p|] eqn:Hp; [|done]. injection Hi as Hi.
  pose proof (lookup_lt_Some _ _ _ Hp) as Hlt.
  assert (i <> 0%nat).
  { intros ->. rewrite Hstart in Hp. injection Hp as <-. lra. }
  assert (i <> (length pts - 1)%nat).
  { intros ->. rewrite last_lookup in Hend.
    replace (pred (length pts)) with (length pts - 1)%nat in Hend by lia.
    rewrite Hend in Hp. injection Hp as <-. lra. }
  lia.
Qed.

(** One level of the recursion, on three points or more. *)
Lemma dp_unfold (fuel : nat) (pts : list vec2) (tol : R) (start end_ : vec2) :
  (3 <= length pts)%nat ->
  pts !! 0%nat = Some start -> last pts = Some end_ ->
  WaypointExtractor._douglas_peucker (S fuel) pts tol
  = if Rlt_dec (norm2 (vsub2 end_ start)) 1e-6
    then Some [0%nat; (length pts - 1)%nat]
    else
      max_dist ← py_max (deviations pts start end_);
      max_idx ← py_index max_dist (deviations pts start end_);
      if Rgt_dec max_dist tol then
        left ← WaypointExtractor._douglas_peucker fuel
                 (take (max_idx + 1) pts) tol;
        right ← WaypointExtractor._douglas_peucker fuel
                  (drop max_idx pts) tol;
        Some (removelast left ++ ((fun i => (i + max_idx)%nat) <$> right))
      else Some [0%nat; (length pts - 1)%nat].
Proof.
  intros Hn Hstart Hend. simpl.
  destruct (decide _); [lia|]. rewrite Hstart, neg_index_1_last, Hend.
  reflexivity.
Qed.

Lemma dp_short (fuel : nat) (pts : list vec2) (tol : R) :
  (length pts < 3)%nat ->
  WaypointExtractor._douglas_peucker (S fuel) pts tol
  = Some (seq 0 (length pts)).
Proof. intros Hn. simpl. destruct (decide _); [done|lia]. Qed.

(** Whatever the recursion returns keeps the two ends. *)
Lemma dp_returns_keeps_ends (fuel : nat) (pts : list vec2) (tol : R)
    (indices : list nat) :
  (1 <= length pts)%nat ->
  WaypointExtractor._douglas_peucker fuel pts tol = Some indices ->
  keeps_ends (length pts) indices.
Proof.
  revert pts indices.
  induction fuel as [|fuel IH]; intros pts indices Hlen Hdp; [done|].
  destruct (decide (length pts < 3)%nat) as [Hshort|Hlong].
  { rewrite dp_short in Hdp by done. injection Hdp as <-.
    by apply keeps_ends_seq. }
  destruct (pts !! 0%nat) as [start|] eqn:Hstart.
  2:{ apply lookup_ge_None in Hstart. lia. }
  destruct (last pts) as [end_|] eqn:Hend.
  2:{ rewrite last_lookup in Hend. apply lookup_ge_None in Hend. lia. }
  rewrite (dp_unfold _ _ _ start end_) in Hdp by (done || lia).
  destruct (Rlt_dec _ _) as [Hdeg|Hdeg].
  { injection Hdp as <-. apply keeps_ends_pair. lia. }
  destruct (py_max (deviations pts start end_)) as [m|] eqn:Hm; [|done].
  cbn [mbind option_bind] in Hdp.
  destruct (py_index m (deviations pts start end_)) as [i|] eqn:Hi; [|done].
  cbn [mbind option_bind] in Hdp.
  destruct (Rgt_dec m tol) as [Hgt|Hle].
  2:{ injection Hdp as <-. apply keeps_ends_pair. lia. }
  assert (i < length pts)%nat as Hi_lt.
  { apply py_index_spec in Hi as [Hi _]. apply lookup_lt_Some in Hi.
    unfold deviations in Hi. by rewrite length_fmap in Hi. }
  destruct (WaypointExtractor._douglas_peucker fuel (take (i + 1) pts) tol)
    as [left|] eqn:Hleft; [|done].
  cbn [mbind option_bind] in Hdp.
  destruct (WaypointExtractor._douglas_peucker fuel (drop i pts) tol)
    as [right|] eqn:Hright; [|done].
  cbn [mbind option_bind] in Hdp. injection Hdp as <-.
  apply IH in Hleft; [|rewrite length_take; lia].
  apply IH in Hright; [|rewrite length_drop; lia].
  rewrite length_take in Hleft. rewrite length_drop in Hright.
  replace (Nat.min (i + 1) (length pts)) with (i + 1)%nat in Hleft by lia.
  by apply keeps_ends_join.
Qed.

(** When the deviations of the ends of every chord stay within the
    tolerance the recursion ends, and the kept indices increase from the
    first point to the last. *)
Lemma dp_keeps_ends (fuel : nat) (pts : list vec2) (tol : R) :
  ends_within tol pts -> (1 <= length pts <= fuel)%nat ->
  exists indices,
    WaypointExtractor._douglas_peucker fuel pts tol = Some indices
    /\ keeps_ends (length pts) indices.
Proof.
  revert pts.
  induction fuel as [|fuel IH]; intros pts Hends Hlen; [lia|].
  destruct (decide (length pts < 3)%nat) as [Hshort|Hlong].
  { rewrite dp_short by done. eexists; split; [done|].
    apply keeps_ends_seq. lia. }
  destruct (pts !! 0%nat) as [start|] eqn:Hstart.
  2:{ apply lookup_ge_None in Hstart. lia. }
  destruct (last pts) as [end_|] eqn:Hend.
  2:{ rewrite last_lookup in Hend. apply lookup_ge_None in Hend. lia. }
  rewrite (dp_unfold _ _ _ start end_) by (done || lia).
  destruct (Rlt_dec _ _) as [Hdeg|Hdeg].
  { eexists; split; [done|]. apply keeps_ends_pair. lia. }
  destruct (py_max_is_Some (deviations pts start end_)) as [m Hm].
  { unfold deviations. destruct pts; [simpl in Hlen; lia|done]. }
  rewrite Hm. cbn [mbind option_bind].
  destruct (py_index_is_Some m (deviations pts start end_)) as [i Hi].
  { by apply py_max_spec in Hm as [? _]. }
  rewrite Hi. cbn [mbind option_bind].
  destruct (Rgt_dec m tol) as [Hgt|Hle].
  2:{ eexists; split; [done|]. apply keeps_ends_pair. lia. }
  assert (0 < i < length pts - 1)%nat as Hint.
  { pose proof Hend as Hend'. rewrite last_lookup in Hend'.
    destruct (Hends 0%nat (pred (length pts)) start end_) as [Hs He];
      [lia|done|done|lra|].
    by eapply (split_point_interior pts start end_ tol m). }
  destruct (IH (take (i + 1) pts)) as (left & Hleft & Hkl).
  { by apply ends_within_take. }
  { rewrite length_take. lia. }
  destruct (IH (drop i pts)) as (right & Hright & Hkr).
  { by apply ends_within_drop. }
  { rewrite length_drop. lia. }
  rewrite Hleft, Hright. cbn [mbind option_bind]. eexists; split; [done|].
  rewrite length_take in Hkl. rewrite length_drop in Hkr.
  replace (Nat.min (i + 1) (length pts)) with (i + 1)%nat in Hkl by lia.
  apply keeps_ends_join; [lia|done|done].
Qed.

(** A tolerance no deviation exceeds, or a chord shorter than 1e-6, leaves
    the two ends. *)
Lemma dp_flat (fuel : nat) (pts : list vec2) (tol : R) (start end_ : vec2) :
  (3 <= length pts)%nat ->
  pts !! 0%nat = Some start -> last pts = Some end_ ->
  norm2 (vsub2 end_ start) < 1e-6
  \/ (forall p, p ∈ pts -> deviation start end_ p <= tol) ->
  WaypointExtractor._douglas_peucker (S fuel) pts tol
  = Some [0%nat; (length pts - 1)%nat].
Proof.
  intros Hn Hstart Hend Hflat. rewrite (dp_unfold _ _ _ start end_) by done.
  destruct (Rlt_dec _ _) as [|Hdeg]; [done|].
  destruct Hflat as [?|Hflat]; [done|].
  destruct (py_max_is_Some (deviations pts start end_)) as [m Hm].
  { unfold deviations. by destruct pts. }
  rewrite Hm. simpl.
  destruct (py_index_is_Some m (deviations pts start end_)) as [i Hi].
  { by apply py_max_spec in Hm as [? _]. }
  rewrite Hi. simpl.
  destruct (Rgt_dec m tol) as [Hgt|]; [|done].
  apply py_max_spec in Hm as [Hin _]. unfold deviations in Hin.
  apply list_elem_of_fmap in Hin as (p & -> & Hp).
  specialize (Hflat p Hp). lra.
Qed.

(** No chord over an interior point is shorter than 1e-6, and the
    deviation computed for every point between the ends of a chord is
    positive. *)
Definition interior_deviates (pts : list vec2) : Prop :=
  forall i j k a b c,
    (i < j < k)%nat ->
    pts !! i = Some a -> pts !! j = Some b -> pts !! k = Some c ->
    1e-6 <= norm2 (vsub2 c a) /\ 0 < deviation a c b.

Lemma interior_deviates_take (pts : list vec2) (n : nat) :
  interior_deviates pts -> interior_deviates (take n pts).
Proof.
  intros H i j k a b c Hijk Ha Hb Hc.
  apply lookup_take_Some in Ha as [Ha _], Hb as [Hb _], Hc as [Hc _].
  by apply (H i j k).
Qed.

Lemma interior_deviates_drop (pts : list vec2) (n : nat) :
  interior_deviates pts -> interior_deviates (drop n pts).
Proof.
  intros H i j k a b c Hijk Ha Hb Hc. rewrite lookup_drop in Ha, Hb, Hc.
  apply (H (n + i) (n + j) (n + k))%nat; (done || lia).
Qed.

(** With tolerance 0 every point is kept when every interior deviation is
    computed positive and no end deviation is. *)
Lemma dp_zero_exact (fuel : nat) (pts : list vec2) :
  interior_deviates pts -> ends_within 0 pts ->
  (length pts <= fuel)%nat -> (1 <= fuel)%nat ->
  WaypointExtractor._douglas_peucker fuel pts 0 = Some (seq 0 (length pts)).
Proof.
  revert pts.
  induction fuel as [|fuel IH]; intros pts Hgp Hends Hlen Hfuel; [lia|].
  destruct (decide (length pts < 3)%nat) as [Hshort|Hlong].
  { by rewrite dp_short. }
  destruct (pts !! 0%nat) as [start|] eqn:Hstart.
  2:{ apply lookup_ge_None in Hstart. lia. }
  destruct (last pts) as [end_|] eqn:Hend.
  2:{ rewrite last_lookup in Hend. apply lookup_ge_None in Hend. lia. }
  pose proof Hend as Hend'. rewrite last_lookup in Hend'.
  destruct (lookup_lt_is_Some_2 pts 1) as [b Hb]; [lia|].
  destruct (Hgp 0 1 (pred (length pts)) start b end_)%nat
    as [Hchord Hdev]; [lia|done..|].
  rewrite (dp_unfold _ _ _ start end_) by (done || lia).
  destruct (Rlt_dec _ _) as [Hdeg|_]; [lra|].
  destruct (py_max_is_Some (deviations pts start end_)) as [m Hm].
  { unfold deviations. destruct pts; [simpl in Hlong; lia|done]. }
  rewrite Hm. cbn [mbind option_bind].
  destruct (py_index_is_Some m (deviations pts start end_)) as [i Hi].
  { by apply py_max_spec in Hm as [? _]. }
  rewrite Hi. cbn [mbind option_bind].
  assert (0 < m) as Hpos.
  { apply py_max_spec in Hm as [_ Hub].
    eapply Rlt_le_trans; [exact Hdev|].
    apply Hub. unfold deviations. apply list_elem_of_fmap. exists b.
    split; [done|]. by eapply list_elem_of_lookup_2. }
  destruct (Rgt_dec m 0) as [_|]; [|lra].
  assert (0 < i < length pts - 1)%nat as Hint.
  { destruct (Hends 0%nat (pred (length pts)) start end_) as [Hs He];
      [lia|done|done|lra|].
    eapply (split_point_interior pts start end_ 0 m); try done; lra. }
  rewrite (IH (take (i + 1) pts)), (IH (drop i pts)); cbn [mbind option_bind].
  - rewrite length_take, length_drop.
    replace (Nat.min (i + 1) (length pts)) with (S i) by lia.
    rewrite seq_S, removelast_last, fmap_shift_seq. simpl.
    rewrite <- seq_app.
    by replace (i + (length pts - i))%nat with (length pts) by lia.
  - by apply interior_deviates_drop.
  - by apply ends_within_drop.
  - rewrite length_drop. lia.
  - lia.
  - by apply interior_deviates_take.
  - by apply ends_within_take.
  - rewrite length_take. lia.
  - lia.
Qed.

(** *** The operator's [_douglas_peucker] *)

(** The loop over the interior points finds the largest deviation that
    exceeds 0 and the first index that has it. *)
Lemma farthest_fold (pts : list vec2) (start end_ : vec2) (k : nat) :
  (k + 1 <= length pts)%nat ->
  exists md mi,
    fold_left (WaypointExtractorOp.farthest_step pts start
                 (computed_line_unit start end_)) (seq 1 k) (Some (0, 0%nat))
    = Some (md, mi)
    /\ 0 <= md
    /\ (forall j p, (1 <= j <= k)%nat -> pts !! j = Some p ->
          deviation start end_ p <= md)
    /\ (md > 0 ->
        (1 <= mi <= k)%nat
        /\ exists p, pts !! mi = Some p /\ deviation start end_ p = md).
Proof.
  induction k as [|k IH]; intros Hk.
  - exists 0, 0%nat. simpl. split; [done|]. split; [lra|].
    split; [intros j p Hj _; lia|intros Hmd; lra].
  - destruct IH as (md & mi & Hfold & Hpos & Hub & Harg); [lia|].
    rewrite seq_S, fold_left_app, Hfold. simpl.
    destruct (lookup_lt_is_Some_2 pts (S k)) as [p Hp]; [lia|].
    rewrite Hp. simpl. fold (deviation start end_ p).
    destruct (Rgt_dec (deviation start end_ p) md) as [Hgt|Hle].
    + eexists _, _. split; [done|]. split; [lra|]. split.
      * intros j q Hj Hq. destruct (decide (j = S k)) as [->|].
        -- rewrite Hp in Hq. injection Hq as <-. lra.
        -- specialize (Hub j q ltac:(lia) Hq). lra.
      * intros _. split; [lia|]. eauto.
    + eexists _, _. split; [done|]. split; [done|]. split.
      * intros j q Hj Hq. destruct (decide (j = S k)) as [->|].
        -- rewrite Hp in Hq. injection Hq as <-. lra.
        -- apply (Hub j); [lia|done].
      * intros Hmd. destruct (Harg Hmd) as [? ?]. split; [lia|done].
Qed.

(** One level of the recursion, on three points or more. *)
Lemma dp_op_unfold (fuel : nat) (pts : list vec2) (eps : R)
    (start end_ : vec2) :
  (3 <= length pts)%nat ->
  pts !! 0%nat = Some start -> last pts = Some end_ ->
  WaypointExtractorOp._douglas_peucker (S fuel) pts eps
  = if Rlt_dec (norm2 (vsub2 end_ start)) 1e-6 then Some [start; end_]
    else
      '(max_dist, max_idx) ←
        fold_left (WaypointExtractorOp.farthest_step pts start
                     (computed_line_unit start end_))
          (seq 1 (length pts - 1 - 1)) (Some (0, 0%nat));
      if Rgt_dec max_dist eps then
        left ← WaypointExtractorOp._douglas_peucker fuel
                 (take (max_idx + 1) pts) eps;
        right ← WaypointExtractorOp._douglas_peucker fuel
                  (drop max_idx pts) eps;
        Some (removelast left ++ right)
      else Some [start; end_].
Proof.
  intros Hn Hstart Hend. simpl.
  destruct (decide _); [lia|]. rewrite Hstart, neg_index_1_last, Hend.
  reflexivity.
Qed.

Lemma dp_op_short (fuel : nat) (pts : list vec2) (eps : R) :
  (length pts <= 2)%nat ->
  WaypointExtractorOp._douglas_peucker (S fuel) pts eps = Some pts.
Proof. intros Hn. simpl. destruct (decide _); [done|lia]. Qed.

(** For a tolerance that is not negative the recursion ends, and the kept
    points run from the first point to the last. *)
Lemma dp_op_keeps_ends (fuel : nat) (pts : list vec2) (eps : R) :
  0 <= eps -> (1 <= length pts <= fuel)%nat ->
  exists out,
    WaypointExtractorOp._douglas_peucker fuel pts eps = Some out
    /\ head out = head pts /\ last out = last pts
    /\ ((2 <= length pts)%nat -> (2 <= length out)%nat).
Proof.
  intros Heps. revert pts.
  induction fuel as [|fuel IH]; intros pts Hlen; [lia|].
  destruct (decide (length pts <= 2)%nat) as [Hshort|Hlong].
  { rewrite dp_op_short by done. eauto. }
  destruct (pts !! 0%nat) as [start|] eqn:Hstart.
  2:{ apply lookup_ge_None in Hstart. lia. }
  destruct (last pts) as [end_|] eqn:Hend.
  2:{ rewrite last_lookup in Hend. apply lookup_ge_None in Hend. lia. }
  rewrite (dp_op_unfold _ _ _ start end_) by (done || lia).
  assert (head [start; end_] = head pts /\ last [start; end_] = Some end_
          /\ ((2 <= length pts)%nat -> (2 <= length [start; end_])%nat))
    as Hpair.
  { rewrite (head_lookup pts), Hstart. done. }
  destruct (Rlt_dec _ _) as [Hdeg|Hdeg]; [eauto|].
  destruct (farthest_fold pts start end_ (length pts - 1 - 1))
    as (md & mi & Hfold & Hpos & Hub & Harg); [lia|].
  rewrite Hfold. simpl.
  destruct (Rgt_dec md eps) as [Hgt|Hle]; [|eauto].
  destruct Harg as [Hmi _]; [lra|].
  destruct (IH (take (mi + 1) pts)) as (left & Hleft & Hhl & _ & Hnl).
  { rewrite length_take. lia. }
  destruct (IH (drop mi pts)) as (right & Hright & _ & Hlr & Hnr).
  { rewrite length_drop. lia. }
  rewrite Hleft, Hright. simpl. eexists; split; [done|].
  rewrite length_take in Hnl. rewrite length_drop in Hnr.
  specialize (Hnl ltac:(lia)). specialize (Hnr ltac:(lia)).
  destruct (last left) as [x|] eqn:Hx.
  2:{ rewrite last_lookup in Hx. apply lookup_ge_None in Hx. lia. }
  apply last_Some in Hx as [l' ->]. rewrite removelast_last.
  rewrite length_app in Hnl. simpl in Hnl.
  split; [|split].
  - rewrite head_app in Hhl |- *.
    destruct (head l') eqn:Hh; [|destruct l'; simpl in *; [lia|done]].
    rewrite Hhl, !head_lookup, lookup_take_lt by lia. done.
  - rewrite last_app, Hlr, last_drop by lia. by destruct (last pts).
  - intros _. rewrite length_app. lia.
Qed.

(** A tolerance that is not negative and that no interior deviation
    exceeds, or a chord shorter than 1e-6, leaves the two ends. *)
Lemma dp_op_flat (fuel : nat) (pts : list vec2) (eps : R)
    (start end_ : vec2) :
  (3 <= length pts)%nat ->
  pts !! 0%nat = Some start -> last pts = Some end_ ->
  norm2 (vsub2 end_ start) < 1e-6
  \/ (0 <= eps
      /\ forall j p, (0 < j < length pts - 1)%nat -> pts !! j = Some p ->
           deviation start end_ p <= eps) ->
  WaypointExtractorOp._douglas_peucker (S fuel) pts eps
  = Some [start; end_].
Proof.
  intros Hn Hstart Hend Hflat.
  rewrite (dp_op_unfold _ _ _ start end_) by done.
  destruct (Rlt_dec _ _) as [|Hdeg]; [done|].
  destruct Hflat as [?|[Heps Hflat]]; [done|].
  destruct (farthest_fold pts start end_ (length pts - 1 - 1))
    as (md & mi & Hfold & Hpos & Hub & Harg); [lia|].
  rewrite Hfold. cbn [mbind option_bind].
  destruct (Rgt_dec md eps) as [Hgt|]; [|done].
  destruct Harg as [Hmi (p & Hp & Hdev)]; [lra|].
  specialize (Hflat mi p ltac:(lia) Hp). lra.
Qed.

(** With tolerance 0 every point is kept when every interior deviation is
    computed positive. *)
Lemma dp_op_zero_exact (fuel : nat) (pts : list vec2) :
  interior_deviates pts -> (length pts <= fuel)%nat -> (1 <= fuel)%nat ->
  WaypointExtractorOp._douglas_peucker fuel pts 0 = Some pts.
Proof.
  revert pts. induction fuel as [|fuel IH]; intros pts Hgp Hlen Hfuel; [lia|].
  destruct (decide (length pts <= 2)%nat) as [Hshort|Hlong].
  { by rewrite dp_op_short. }
  destruct (pts !! 0%nat) as [start|] eqn:Hstart.
  2:{ apply lookup_ge_None in Hstart. lia. }
  destruct (last pts) as [end_|] eqn:Hend.
  2:{ rewrite last_lookup in Hend. apply lookup_ge_None in Hend. lia. }
  pose proof Hend as Hend'. rewrite last_lookup in Hend'.
  destruct (lookup_lt_is_Some_2 pts 1) as [b Hb]; [lia|].
  destruct (Hgp 0 1 (pred (length pts)) start b end_)%nat
    as [Hchord Hdev]; [lia|done..|].
  rewrite (dp_op_unfold _ _ _ start end_) by (done || lia).
  destruct (Rlt_dec _ _) as [Hdeg|_]; [lra|].
  destruct (farthest_fold pts start end_ (length pts - 1 - 1))
    as (md & mi & Hfold & Hpos & Hub & Harg); [lia|].
  rewrite Hfold. cbn [mbind option_bind].
  assert (0 < md) as Hmd.
  { eapply Rlt_le_trans; [exact Hdev|]. apply (Hub 1%nat); [lia|done]. }
  destruct (Rgt_dec md 0) as [_|]; [|lra].
  destruct Harg as [Hmi _]; [lra|].
  rewrite (IH (take (mi + 1) pts)), (IH (drop mi pts));
    cbn [mbind option_bind].
  - replace (mi + 1)%nat with (S mi) by lia.
    rewrite removelast_take_S by lia. by rewrite take_drop.
  - by apply interior_deviates_drop.
  - rewrite length_drop. lia.
  - lia.
  - by apply interior_deviates_take.
  - rewrite length_take. lia.
  - lia.
Qed.

End WithRounding.

(** *** Exact arithmetic *)

(** In exact arithmetic the two ends of a chord lie on it. *)
Lemma exact_ends_within (tol : R) (pts : list vec2) :
  0 <= tol -> @ends_within WaypointExtractor.exact_arithmetic tol pts.
Proof.
  intros Htol i k a b _ _ _ Hchord.
  change (exact_deviation a b a <= tol /\ exact_deviation a b b <= tol).
  rewrite exact_deviation_start, exact_deviation_end by lra. done.
Qed.

(** No chord over an interior point is shorter than 1e-6, and no point
    between the ends of a chord lies on its line. *)
Definition no_point_on_a_chord (pts : list vec2) : Prop :=
  forall i j k a b c,
    (i < j < k)%nat ->
    pts !! i = Some a -> pts !! j = Some b -> pts !! k = Some c ->
    1e-6 <= norm2 (vsub2 c a) /\ cross2 (vsub2 b a) (vsub2 c a) <> 0.

Lemma exact_interior_deviates (pts : list vec2) :
  no_point_on_a_chord pts ->
  @interior_deviates WaypointExtractor.exact_arithmetic pts.
Proof.
  intros H i j k a b c Hijk Ha Hb Hc.
  destruct (H i j k a b c Hijk Ha Hb Hc) as [Hchord Hcross].
  split; [done|].
  change (0 < exact_deviation a c b).
  apply exact_deviation_pos; [lra|done].
Qed.

End DPFacts.

Module SimplifyFacts.
Import Linalg Rounded PyList LinalgFacts WaypointFacts DPFacts.
#[local] Open Scope R_scope.

Lemma take_indices_offset {A : Type} (pre l : list A) :
  WaypointExtractor.take_indices (pre ++ l) (seq (length pre) (length l))
  = Some l.
Proof.
  unfold WaypointExtractor.take_indices.
  revert pre. induction l as [|x l IH]; intros pre; [done|].
  simpl. rewrite lookup_app_r, Nat.sub_diag by lia. simpl.
  specialize (IH (pre ++ [x])). rewrite <- app_assoc, length_app in IH.
  simpl in IH. rewrite Nat.add_1_r in IH. rewrite IH. done.
Qed.

Lemma take_indices_seq {A : Type} (l : list A) :
  WaypointExtractor.take_indices l (seq 0 (length l)) = Some l.
Proof. apply (take_indices_offset [] l). Qed.

(** Indices that keep the ends select a list with the same ends. *)
Lemma take_indices_ends {A : Type} (l : list A) (indices : list nat) :
  l <> [] -> keeps_ends (length l) indices ->
  exists out, WaypointExtractor.take_indices l indices = Some out
    /\ head out = head l /\ last out = last l.
Proof.
  intros Hne (Hsorted & Hhead & Hlast).
  assert (forall i, i ∈ indices -> (i < length l)%nat) as Hrange.
  { intros i Hi. apply last_Some in Hlast as [idx' ->].
    apply elem_of_app in Hi as [Hi|Hi%list_elem_of_singleton].
    - apply StronglySorted_app in Hsorted as (Hlt & _).
      specialize (Hlt i (length l - 1)%nat Hi ltac:(by left)). lia.
    - destruct l; [done|]. simpl in *. lia. }
  destruct (mapM_is_Some_2 (fun i => l !! i) indices) as [out Hout].
  { apply Forall_forall. intros i Hi. apply lookup_lt_is_Some.
    by apply Hrange. }
  exists out. split; [done|].
  apply mapM_Some in Hout. split.
  - destruct indices as [|i0 indices]; [done|]. simpl in Hhead.
    injection Hhead as ->. inversion Hout as [|? y ? out' Hy _]; subst.
    simpl. by rewrite head_lookup.
  - apply last_Some in Hlast as [idx' ->].
    apply Forall2_app_inv_l in Hout as (out1 & out2 & _ & Hlast2 & ->).
    inversion Hlast2 as [|? y ? ? Hy Hnil]; subst. inversion Hnil; subst.
    rewrite last_snoc, last_lookup. rewrite <- Hy. f_equal. lia.
Qed.

Lemma take_indices_pair {A : Type} (l : list A) (first_ last_ : A) :
  head l = Some first_ -> last l = Some last_ ->
  WaypointExtractor.take_indices l [0%nat; (length l - 1)%nat]
  = Some [first_; last_].
Proof.
  intros Hh Hl. rewrite head_lookup in Hh. rewrite last_lookup in Hl.
  unfold WaypointExtractor.take_indices. simpl. rewrite Hh. simpl.
  replace (length l - 1)%nat with (pred (length l)) by lia.
  rewrite Hl. done.
Qed.

(** C3, as the code has it, for whatever rounding the distances from the
    chords are computed with.  On two points or more:
    - the operator's routine ends for every tolerance that is not negative
      and keeps the first point and the last;
    - the library routine ends when the deviation computed for the two ends
      of a chord never exceeds the tolerance, and whatever it returns is an
      increasing list of indices from the first point to the last;
    - a tolerance that no computed deviation exceeds leaves exactly the two
      end points;
    - tolerance 0 keeps every point when every deviation computed for a
      point between the ends of a chord is positive (and all such chords
      are at least 1e-6 long). *)
Theorem douglas_peucker_ends_and_extremes `{!Rounding} :
  (forall fuel pts eps,
      (2 <= length pts <= fuel)%nat -> 0 <= eps ->
      exists out,
        WaypointExtractorOp._douglas_peucker fuel pts eps = Some out
        /\ head out = head pts /\ last out = last pts)
  /\ (forall fuel pts tol,
        (2 <= length pts <= fuel)%nat -> ends_within tol pts ->
        exists indices out,
          WaypointExtractor._douglas_peucker fuel pts tol = Some indices
          /\ keeps_ends (length pts) indices
          /\ WaypointExtractor.take_indices pts indices = Some out
          /\ head out = head pts /\ last out = last pts)
  /\ (forall fuel pts tol indices,
        (2 <= length pts)%nat ->
        WaypointExtractor._douglas_peucker fuel pts tol = Some indices ->
        keeps_ends (length pts) indices
        /\ exists out,
             WaypointExtractor.take_indices pts indices = Some out
             /\ head out = head pts /\ last out = last pts)
  /\ (forall fuel pts tol start end_,
        (2 <= length pts)%nat -> (1 <= fuel)%nat ->
        head pts = Some start -> last pts = Some end_ ->
        (forall p, p ∈ pts -> deviation start end_ p <= tol) ->
        WaypointExtractor._douglas_peucker fuel pts tol
          = Some [0%nat; (length pts - 1)%nat]
        /\ WaypointExtractor.take_indices pts [0%nat; (length pts - 1)%nat]
           = Some [start; end_])
  /\ (forall fuel pts eps start end_,
        (2 <= length pts)%nat -> (1 <= fuel)%nat -> 0 <= eps ->
        head pts = Some start -> last pts = Some end_ ->
        (forall j p, (0 < j < length pts - 1)%nat -> pts !! j = Some p ->
           deviation start end_ p <= eps) ->
        WaypointExtractorOp._douglas_peucker fuel pts eps
        = Some [start; end_])
  /\ (forall fuel pts,
        (length pts <= fuel)%nat -> (1 <= fuel)%nat ->
        interior_deviates pts ->
        WaypointExtractorOp._douglas_peucker fuel pts 0 = Some pts
        /\ (ends_within 0 pts ->
            WaypointExtractor._douglas_peucker fuel pts 0
              = Some (seq 0 (length pts))
            /\ WaypointExtractor.take_indices pts (seq 0 (length pts))
               = Some pts)).
Proof.
  split; [|split; [|split; [|split; [|split]]]].
  - intros fuel pts eps Hlen Heps.
    destruct (dp_op_keeps_ends fuel pts eps) as (out & Hdp & Hh & Hl & _);
      [done|lia|].
    exists out. split; [done|]. split; done.
  - intros fuel pts tol Hlen Hends.
    destruct (dp_keeps_ends fuel pts tol) as (indices & Hdp & Hkeep);
      [done|lia|].
    destruct (take_indices_ends pts indices) as (out & Hout & Hh & Hl);
      [intros ->; simpl in Hlen; lia|done|].
    exists indices, out. split; [done|]. split; [done|]. split; [done|].
    split; done.
  - intros fuel pts tol indices Hlen Hdp.
    pose proof (dp_returns_keeps_ends fuel pts tol indices ltac:(lia) Hdp)
      as Hkeep.
    split; [done|]. apply take_indices_ends; [|done].
    intros ->. simpl in Hlen. lia.
  - intros fuel pts tol start end_ Hlen Hfuel Hstart Hend Hflat.
    split; [|by apply take_indices_pair].
    destruct fuel as [|fuel]; [lia|].
    destruct (decide (length pts = 2)%nat) as [H2|H2].
    { rewrite dp_short by lia. by rewrite H2. }
    rewrite head_lookup in Hstart.
    apply (dp_flat _ _ _ start end_); [lia|done|done|by right].
  - intros fuel pts eps start end_ Hlen Hfuel Heps Hstart Hend Hflat.
    destruct fuel as [|fuel]; [lia|].
    destruct (decide (length pts = 2)%nat) as [H2|H2].
    { rewrite dp_op_short by lia.
      destruct pts as [|a [|b [|c pts]]]; simpl in *; try lia.
      by injection Hstart as <-; injection Hend as <-. }
    rewrite head_lookup in Hstart.
    apply (dp_op_flat _ _ _ start end_); [lia|done|done|by right].
  - intros fuel pts Hlen Hfuel Hdev. split.
    + by apply dp_op_zero_exact.
    + intros Hends. split; [by apply dp_zero_exact|].
      apply take_indices_seq.
Qed.

(** Three points on one line, one unit apart. *)
Definition on_a_line : list vec2 := [(0, 0); (1, 0); (2, 0)].

Lemma on_a_line_flat (p : vec2) :
  p ∈ on_a_line -> exact_deviation (0, 0) (2, 0) p <= 0.
Proof.
  assert (norm2 (vsub2 (2, 0) (0, 0)) = 2) as Hn.
  { apply norm2_eq; simpl; lra. }
  intros Hp. rewrite exact_deviation_cross by (rewrite Hn; lra). rewrite Hn.
  assert (cross2 (vsub2 p (0, 0)) (vsub2 (2, 0) (0, 0)) = 0) as ->.
  { unfold on_a_line in Hp. unfold cross2, vsub2.
    repeat (apply elem_of_cons in Hp as [->|Hp]; [simpl; lra|]).
    by apply elem_of_nil in Hp. }
  rewrite Rabs_R0. lra.
Qed.

(** C3 as the spec words it fails on [on_a_line], where every operation
    of the distance computation is exact: with tolerance 0 the middle point
    has deviation 0, which does not exceed the tolerance, and is dropped by
    the library routine, by [_simplify_trajectory] and by the operator's
    routine. *)
Lemma zero_tolerance_drops_points_on_the_chord :
  @WaypointExtractor._douglas_peucker WaypointExtractor.exact_arithmetic
     3 on_a_line 0 = Some [0; 2]%nat
  /\ WaypointExtractor.take_indices on_a_line [0; 2]%nat
     = Some [(0, 0); (2, 0)]
  /\ @WaypointExtractorOp._douglas_peucker WaypointExtractor.exact_arithmetic
       3 on_a_line 0
     = Some [(0, 0); (2, 0)].
Proof.
  split; [|split].
  - apply (@dp_flat WaypointExtractor.exact_arithmetic
             2 on_a_line 0 (0, 0) (2, 0)); [simpl; lia|done..|].
    right. apply on_a_line_flat.
  - reflexivity.
  - apply (@dp_op_flat WaypointExtractor.exact_arithmetic
             2 on_a_line 0 (0, 0) (2, 0)); [simpl; lia|done..|].
    right. split; [lra|]. intros j p _ Hp. apply on_a_line_flat.
    by eapply list_elem_of_lookup_2.
Qed.

(** Three points with a corner in the middle. *)
Definition bent : list vec2 := [(0, 0); (1, 1); (2, 0)].

Lemma bent_no_point_on_a_chord : no_point_on_a_chord bent.
Proof.
  intros i j k a b c Hijk Ha Hb Hc.
  pose proof (lookup_lt_Some _ _ _ Hc) as Hk. simpl in Hk.
  assert (i = 0%nat) as -> by lia. assert (j = 1%nat) as -> by lia.
  assert (k = 2%nat) as -> by lia.
  injection Ha as <-. injection Hb as <-. injection Hc as <-.
  assert (norm2 (vsub2 (2, 0) (0, 0)) = 2) as ->.
  { apply norm2_eq; simpl; lra. }
  split; [lra|]. unfold cross2, vsub2. simpl. lra.
Qed.

(** The theorem of C3 in exact arithmetic, at [on_a_line] (no deviation
    exceeds tolerance 0) and at [bent] (the corner deviates). *)
Lemma douglas_peucker_ends_and_extremes_witness :
  (exists out,
      @WaypointExtractorOp._douglas_peucker WaypointExtractor.exact_arithmetic
         3 bent 0 = Some out
      /\ head out = head bent /\ last out = last bent)
  /\ (exists indices out,
        @WaypointExtractor._douglas_peucker WaypointExtractor.exact_arithmetic
           3 bent 0 = Some indices
        /\ keeps_ends (length bent) indices
        /\ WaypointExtractor.take_indices bent indices = Some out
        /\ head out = head bent /\ last out = last bent)
  /\ @WaypointExtractor._douglas_peucker WaypointExtractor.exact_arithmetic
       3 on_a_line 0 = Some [0%nat; (length on_a_line - 1)%nat]
  /\ @WaypointExtractorOp._douglas_peucker WaypointExtractor.exact_arithmetic
       3 on_a_line 0 = Some [(0, 0); (2, 0)]
  /\ @WaypointExtractorOp._douglas_peucker WaypointExtractor.exact_arithmetic
       3 bent 0 = Some bent
  /\ @WaypointExtractor._douglas_peucker WaypointExtractor.exact_arithmetic
       3 bent 0 = Some (seq 0 (length bent)).
Proof.
  destruct (@douglas_peucker_ends_and_extremes
              WaypointExtractor.exact_arithmetic)
    as (Hop & Hlib & _ & Hflat & Hflat_op & Hzero).
  assert (@ends_within WaypointExtractor.exact_arithmetic 0 bent) as Hends.
  { apply exact_ends_within. lra. }
  split; [apply Hop; [simpl; lia|lra]|].
  split; [apply Hlib; [simpl; lia|exact Hends]|].
  split.
  { apply (Hflat 3%nat on_a_line 0 (0, 0) (2, 0)); [simpl; lia|lia|done..|].
    apply on_a_line_flat. }
  split.
  { apply (Hflat_op 3%nat on_a_line 0 (0, 0) (2, 0));
      [simpl; lia|lia|lra|done..|].
    intros j p _ Hp. apply on_a_line_flat.
    by eapply list_elem_of_lookup_2. }
  destruct (Hzero 3%nat bent) as [Hz_op Hz_lib];
    [simpl; lia|lia|apply exact_interior_deviates, bent_no_point_on_a_chord|].
  split; [exact Hz_op|]. apply Hz_lib, Hends.
Defined.

End SimplifyFacts.

(** ** Waypoints: the extractors *)

Module ExtractFacts.
Import Linalg Rounded PyList LinalgFacts WaypointFacts DPFacts SimplifyFacts.
#[local] Open Scope R_scope.

(** The minimum-spacing filter of the spec on a whole list: keep the first
    point, then filter the rest against the last point kept. *)
Definition spaced_filter {A : Type} (proj : A -> vec2) (s : R) (l : list A)
    : list A :=
  match l with
  | [] => []
  | p0 :: rest => p0 :: keep_spaced proj s p0 rest
  end.

Lemma sorted_ids_elem (poses : gmap Z mat4) (i : Z) :
  i ∈ WaypointExtractor.sorted_ids poses <-> is_Some (poses !! i).
Proof.
  unfold WaypointExtractor.sorted_ids, sorted.
  rewrite merge_sort_Permutation, elem_of_elements, elem_of_dom. done.
Qed.

Lemma sorted_ids_sorted (poses : gmap Z mat4) :
  StronglySorted Z.le (WaypointExtractor.sorted_ids poses).
Proof.
  unfold WaypointExtractor.sorted_ids, sorted.
  apply StronglySorted_merge_sort; [apply _|]. intros x y. lia.
Qed.

Lemma sorted_ids_nil (poses : gmap Z mat4) :
  WaypointExtractor.sorted_ids poses = [] <-> poses = ∅.
Proof.
  split.
  - intros Hnil. apply map_eq. intros i. rewrite lookup_empty.
    destruct (poses !! i) eqn:Hi; [|done].
    assert (i ∈ WaypointExtractor.sorted_ids poses) as Hin
      by (apply sorted_ids_elem; eauto).
    rewrite Hnil in Hin. by apply elem_of_nil in Hin.
  - intros ->. unfold WaypointExtractor.sorted_ids, sorted.
    rewrite dom_empty_L, elements_empty. done.
Qed.

(** The positions are the translations of the poses, by increasing id. *)
Lemma positions_of_ids (poses : gmap Z mat4) :
  Forall2 (fun i p => exists P, poses !! i = Some P /\ p = translation P)
    (WaypointExtractor.sorted_ids poses)
    (WaypointExtractor.positions_of poses).
Proof.
  unfold WaypointExtractor.positions_of.
  assert (Forall (fun i => is_Some (poses !! i))
            (WaypointExtractor.sorted_ids poses)) as Hall.
  { apply Forall_forall. intros i. apply sorted_ids_elem. }
  induction Hall as [|i ids [P HP] _ IH]; [constructor|].
  simpl. rewrite HP. simpl. constructor; [eauto|done].
Qed.

Lemma positions_of_nil (poses : gmap Z mat4) :
  WaypointExtractor.positions_of poses = [] <-> poses = ∅.
Proof.
  rewrite <- sorted_ids_nil. pose proof (positions_of_ids poses) as H.
  split; intros Hnil; rewrite Hnil in H; by inversion H.
Qed.

(** The first position belongs to the pose of the least id, the last to the
    pose of the greatest. *)
Lemma positions_of_head (poses : gmap Z mat4) (p : vec3) :
  head (WaypointExtractor.positions_of poses) = Some p ->
  exists i P, poses !! i = Some P /\ p = translation P
    /\ forall j, is_Some (poses !! j) -> (i <= j)%Z.
Proof.
  pose proof (positions_of_ids poses) as Hids.
  pose proof (sorted_ids_sorted poses) as Hsorted.
  intros Hhead.
  destruct (WaypointExtractor.positions_of poses) as [|q ps]; [done|].
  injection Hhead as ->.
  inversion Hids as [|i ? ids ? (P & HP & Heq) _ Hids_eq]; subst.
  exists i, P. split; [done|]. split; [done|].
  intros j Hj. apply sorted_ids_elem in Hj.
  rewrite <- Hids_eq in Hj, Hsorted.
  inversion Hsorted as [|? ? _ Hle]; subst.
  apply elem_of_cons in Hj as [->|Hj]; [lia|].
  rewrite Forall_forall in Hle. by apply Hle.
Qed.

Lemma positions_of_last (poses : gmap Z mat4) (p : vec3) :
  last (WaypointExtractor.positions_of poses) = Some p ->
  exists i P, poses !! i = Some P /\ p = translation P
    /\ forall j, is_Some (poses !! j) -> (j <= i)%Z.
Proof.
  pose proof (positions_of_ids poses) as Hids.
  pose proof (sorted_ids_sorted poses) as Hsorted.
  intros Hlast. apply last_Some in Hlast as [ps Hps]. rewrite Hps in Hids.
  apply Forall2_app_inv_r in Hids as (ids1 & ids2 & _ & Hlast2 & Hids).
  inversion Hlast2 as [|i ? ? ? (P & HP & ->) Hnil]; subst.
  inversion Hnil; subst.
  exists i, P. split; [done|]. split; [done|].
  intros j Hj. apply sorted_ids_elem in Hj. rewrite Hids in Hj, Hsorted.
  apply elem_of_app in Hj as [Hj|Hj%list_elem_of_singleton]; [|lia].
  apply StronglySorted_app in Hsorted as (Hle & _).
  apply (Hle j i Hj). by left.
Qed.

Section WithRounding.
Context `{rnd : !Rounding}.

(** [extract] without the Z-band filter. *)
Lemma extract_eq (fuel : nat) (self : WaypointExtractor.Config)
    (poses : gmap Z mat4) :
  WaypointExtractor.z_threshold self = None ->
  WaypointExtractor.extract fuel self poses
  = (kept ←
       (if WaypointExtractor.simplify self
        then WaypointExtractor._simplify_trajectory fuel self
               (spaced_filter WaypointExtractor.xy
                  (WaypointExtractor.min_distance self)
                  (WaypointExtractor.positions_of poses))
        else Some (spaced_filter WaypointExtractor.xy
                     (WaypointExtractor.min_distance self)
                     (WaypointExtractor.positions_of poses)));
     Some (WaypointExtractor.xy <$> (kept : list vec3))).
Proof.
  intros Hz. unfold WaypointExtractor.extract. rewrite Hz.
  destruct (decide (poses = ∅)) as [->|Hne].
  { assert (WaypointExtractor.positions_of (∅ : gmap Z mat4) = []) as ->
      by by apply positions_of_nil.
    destruct (WaypointExtractor.simplify self); reflexivity. }
  destruct (WaypointExtractor.positions_of poses) as [|p0 rest] eqn:Hpos.
  { by apply positions_of_nil in Hpos. }
  rewrite filter_by_distance_eq. done.
Qed.

Lemma spaced_filter_nil {A : Type} (proj : A -> vec2) (s : R) (l : list A) :
  spaced_filter proj s l = [] <-> l = [].
Proof. by destruct l. Qed.

Lemma spaced_filter_head {A : Type} (proj : A -> vec2) (s : R) (l : list A) :
  head (spaced_filter proj s l) = head l.
Proof. by destruct l. Qed.

Lemma spaced_filter_length {A : Type} (proj : A -> vec2) (s : R) (l : list A) :
  (length (spaced_filter proj s l) <= length l)%nat.
Proof.
  destruct l as [|p0 rest]; [done|]. simpl. apply le_n_S.
  revert p0. induction rest as [|p rest IH]; intros p0; [done|].
  simpl. destruct (Rge_dec _ _); simpl.
  - apply le_n_S, IH.
  - etransitivity; [apply IH|lia].
Qed.

Lemma spaced_filter_last {A : Type} (proj : A -> vec2) (s : R) (l : list A)
    (p_last k : A) :
  last l = Some p_last -> last (spaced_filter proj s l) = Some k ->
  k = p_last \/ norm2 (vsub2 (proj p_last) (proj k)) < s.
Proof.
  destruct l as [|p0 rest]; [done|]. intros Hlast Hk.
  destruct (last_keep_spaced proj s p0 rest p_last Hlast) as (k' & Hk' & Hor).
  simpl in Hk. rewrite Hk' in Hk. by injection Hk as <-.
Qed.

Lemma spaced_spaced_filter {A : Type} (proj : A -> vec2) (s : R) (l : list A) :
  spaced s (proj <$> spaced_filter proj s l).
Proof.
  destruct l as [|p0 rest]; [|apply spaced_keep_spaced].
  intros i a b Ha. done.
Qed.

(** Whatever [_simplify_trajectory] returns keeps the two ends. *)
Lemma simplify_trajectory_ends (fuel : nat) (self : WaypointExtractor.Config)
    (positions out : list vec3) :
  WaypointExtractor._simplify_trajectory fuel self positions = Some out ->
  head out = head positions /\ last out = last positions.
Proof.
  unfold WaypointExtractor._simplify_trajectory.
  destruct (decide _) as [Hshort|Hlong]; [by intros [= <-]|].
  destruct (WaypointExtractor._douglas_peucker fuel
              (WaypointExtractor.xy <$> positions)
              (WaypointExtractor.simplify_tolerance self))
    as [indices|] eqn:Hdp; [|done].
  cbn [mbind option_bind]. intros Hout.
  apply dp_returns_keeps_ends in Hdp; [|rewrite length_fmap; lia].
  rewrite length_fmap in Hdp.
  destruct (take_indices_ends positions indices) as (out' & Hout' & Hh & Hl);
    [intros ->; simpl in Hlong; lia|done|].
  rewrite Hout in Hout'. by injection Hout' as <-.
Qed.

(** [_simplify_trajectory] returns when the recursion of
    [_douglas_peucker] ends. *)
Lemma simplify_trajectory_is_Some (fuel : nat)
    (self : WaypointExtractor.Config) (positions : list vec3) :
  ends_within (WaypointExtractor.simplify_tolerance self)
    (WaypointExtractor.xy <$> positions) ->
  (length positions < fuel)%nat ->
  is_Some (WaypointExtractor._simplify_trajectory fuel self positions).
Proof.
  intros Hends Hfuel. unfold WaypointExtractor._simplify_trajectory.
  destruct (decide _) as [Hshort|Hlong]; [eauto|].
  destruct (dp_keeps_ends fuel (WaypointExtractor.xy <$> positions)
              (WaypointExtractor.simplify_tolerance self))
    as (indices & Hdp & Hkeep); [done|rewrite length_fmap; lia|].
  rewrite Hdp. cbn [mbind option_bind]. rewrite length_fmap in Hkeep.
  destruct (take_indices_ends positions indices) as (out & Hout & _);
    [intros ->; simpl in Hlong; lia|done|].
  eauto.
Qed.

Lemma sorted_ids_length (poses : gmap Z mat4) :
  length (WaypointExtractor.sorted_ids poses) = size poses.
Proof.
  unfold WaypointExtractor.sorted_ids, sorted.
  rewrite merge_sort_Permutation. rewrite <- size_dom. done.
Qed.

Lemma positions_of_length (poses : gmap Z mat4) :
  length (WaypointExtractor.positions_of poses) = size poses.
Proof.
  rewrite <- sorted_ids_length. symmetry.
  eapply Forall2_length, positions_of_ids.
Qed.

Lemma consecutive_distinct_snoc (l : list vec2) (k b : vec2) :
  consecutive_distinct l -> last l = Some k -> k <> b ->
  consecutive_distinct (l ++ [b]).
Proof.
  intros Hd Hlast Hne i x y Hx Hy.
  destruct (decide (S i < length l)%nat) as [Hlt|Hge].
  - rewrite lookup_app_l in Hx, Hy by lia. by apply (Hd i).
  - assert (S i = length l) as Hi.
    { apply lookup_lt_Some in Hy. rewrite length_app in Hy. simpl in Hy. lia. }
    rewrite lookup_app_l in Hx by lia.
    rewrite lookup_app_r, Hi, Nat.sub_diag in Hy by lia.
    injection Hy as <-. rewrite last_lookup in Hlast.
    replace (pred (length l)) with i in Hlast by lia.
    rewrite Hx in Hlast. by injection Hlast as <-.
Qed.

(** What [extract] returns without the Z-band filter, whenever it
    returns. *)
Lemma extract_spec (fuel : nat) (self : WaypointExtractor.Config)
    (poses : gmap Z mat4) (ws : list vec2) :
  WaypointExtractor.z_threshold self = None ->
  WaypointExtractor.extract fuel self poses = Some ws ->
  (ws = [] <-> poses = ∅)
  /\ head ws
     = WaypointExtractor.xy <$> head (WaypointExtractor.positions_of poses)
  /\ (forall p_last w,
        last (WaypointExtractor.positions_of poses) = Some p_last ->
        last ws = Some w ->
        w = WaypointExtractor.xy p_last
        \/ norm2 (vsub2 (WaypointExtractor.xy p_last) w)
           < WaypointExtractor.min_distance self)
  /\ (WaypointExtractor.simplify self = false ->
      0 < WaypointExtractor.min_distance self ->
      consecutive_distinct ws).
Proof.
  intros Hz. rewrite extract_eq by done.
  set (positions := WaypointExtractor.positions_of poses).
  set (kept := spaced_filter WaypointExtractor.xy
                 (WaypointExtractor.min_distance self) positions).
  intros Hws.
  assert (exists out,
    ws = WaypointExtractor.xy <$> out
    /\ head out = head kept /\ last out = last kept
    /\ (WaypointExtractor.simplify self = false -> out = kept))
    as (out & -> & Hhead & Hlast & Hsame).
  { destruct (WaypointExtractor.simplify self).
    - destruct (WaypointExtractor._simplify_trajectory fuel self kept)
        as [out|] eqn:Hout; [|done].
      cbn [mbind option_bind] in Hws. injection Hws as <-.
      apply simplify_trajectory_ends in Hout as [Hh Hl].
      exists out. split; [done|]. split; [done|]. split; done.
    - cbn [mbind option_bind] in Hws. injection Hws as <-.
      exists kept. split; [done|]. split; [done|]. split; done. }
  assert (out = [] <-> poses = ∅) as Hnil.
  { rewrite <- positions_of_nil. fold positions.
    rewrite <- (spaced_filter_nil WaypointExtractor.xy
                  (WaypointExtractor.min_distance self) positions).
    fold kept. rewrite !head_lookup in Hhead.
    split; intros Hx.
    - rewrite Hx in Hhead. by destruct kept.
    - rewrite Hx in Hhead. by destruct out. }
  split; [|split; [|split]].
  - rewrite <- Hnil. split; [apply fmap_nil_inv|by intros ->].
  - rewrite <- (spaced_filter_head WaypointExtractor.xy
                  (WaypointExtractor.min_distance self) positions).
    fold kept. rewrite <- Hhead. by destruct out.
  - intros p_last w Hpl Hw. rewrite fmap_last, Hlast in Hw.
    destruct (last kept) as [k|] eqn:Hk; [|done]. injection Hw as <-.
    destruct (spaced_filter_last WaypointExtractor.xy
                (WaypointExtractor.min_distance self) positions p_last k)
      as [->|Hclose]; [done|done|by left|by right].
  - intros Hs Hmin. rewrite (Hsame Hs).
    eapply spaced_positive_distinct; [done|]. apply spaced_spaced_filter.
Qed.

(** [extract] without the Z-band filter returns when simplification is off,
    and when the recursion of [_douglas_peucker] ends on the positions the
    spacing filter keeps. *)
Lemma extract_is_Some (fuel : nat) (self : WaypointExtractor.Config)
    (poses : gmap Z mat4) :
  WaypointExtractor.z_threshold self = None ->
  WaypointExtractor.simplify self = false
  \/ ((size poses < fuel)%nat
      /\ ends_within (WaypointExtractor.simplify_tolerance self)
           (WaypointExtractor.xy
              <$> spaced_filter WaypointExtractor.xy
                    (WaypointExtractor.min_distance self)
                    (WaypointExtractor.positions_of poses))) ->
  is_Some (WaypointExtractor.extract fuel self poses).
Proof.
  intros Hz Hret. rewrite extract_eq by done.
  destruct Hret as [->|[Hfuel Hends]]; [cbn [mbind option_bind]; eauto|].
  destruct (WaypointExtractor.simplify self);
    [|cbn [mbind option_bind]; eauto].
  destruct (simplify_trajectory_is_Some fuel self _ Hends) as [out ->].
  - pose proof (spaced_filter_length WaypointExtractor.xy
                  (WaypointExtractor.min_distance self)
                  (WaypointExtractor.positions_of poses)) as H1.
    pose proof (positions_of_length poses) as H2. lia.
  - cbn [mbind option_bind]. eauto.
Qed.

Lemma trajectory_of_nil (poses : list mat4) :
  WaypointExtractorOp.trajectory_of poses = [] <-> poses = [].
Proof. unfold WaypointExtractorOp.trajectory_of. by destruct poses. Qed.

(** [_extract_waypoints] with simplification off. *)
Lemma extract_waypoints_unsimplified (fuel : nat)
    (self : WaypointExtractorOp.Operator) :
  WaypointExtractorOp.simplify self = false ->
  let trajectory := WaypointExtractorOp.trajectory_of
                      (WaypointExtractorOp.poses self) in
  let kept := spaced_filter (fun p => p)
                (WaypointExtractorOp.min_spacing self) trajectory in
  WaypointExtractorOp._extract_waypoints fuel self
  = Some match last trajectory, last kept with
         | Some t_last, Some k =>
             if Rgt_dec (norm2 (vsub2 t_last k)) 0.1
             then kept ++ [t_last] else kept
         | _, _ => kept
         end.
Proof.
  intros Hs trajectory kept. unfold WaypointExtractorOp._extract_waypoints.
  rewrite Hs. fold trajectory.
  destruct (decide _) as [Hnil|Hne].
  { subst kept trajectory.
    destruct (WaypointExtractorOp.poses self); [done|simpl in Hnil; lia]. }
  destruct trajectory as [|t0 rest] eqn:Htraj.
  { subst trajectory. destruct (WaypointExtractorOp.poses self); done. }
  cbn [lookup list_lookup mbind option_bind drop].
  rewrite drop_0.
  pose proof (spacing_fold self rest [] t0) as Hfold. cbn [app] in Hfold.
  rewrite Hfold. cbn [mbind option_bind].
  change (t0 :: keep_spaced (fun p => p)
                  (WaypointExtractorOp.min_spacing self) t0 rest) with kept.
  destruct (decide _) as [_|Hlen]; [|simpl in Hlen; lia].
  rewrite !neg_index_1_last.
  destruct (last (t0 :: rest)) as [t_last|] eqn:Hl.
  2:{ rewrite last_lookup in Hl. apply lookup_ge_None in Hl.
      simpl in Hl. lia. }
  destruct (last kept) as [k|] eqn:Hk.
  2:{ rewrite last_lookup in Hk. apply lookup_ge_None in Hk.
      simpl in Hk. lia. }
  simpl. by destruct (Rgt_dec _ _).
Qed.



(** What [_extract_waypoints] returns. *)
Lemma extract_waypoints_spec (fuel : nat)
    (self : WaypointExtractorOp.Operator) :
  WaypointExtractorOp.simplify self = false
  \/ 0 <= WaypointExtractorOp.epsilon self ->
  (length (WaypointExtractorOp.poses self) <= fuel)%nat ->
  let trajectory := WaypointExtractorOp.trajectory_of
                      (WaypointExtractorOp.poses self) in
  exists ws,
    WaypointExtractorOp._extract_waypoints fuel self = Some ws
    /\ (ws = [] <-> WaypointExtractorOp.poses self = [])
    /\ head ws = head trajectory
    /\ (forall t_last w,
          last trajectory = Some t_last -> last ws = Some w ->
          w = t_last
          \/ (WaypointExtractorOp.simplify self = false
              /\ norm2 (vsub2 t_last w) <= 0.1))
    /\ (WaypointExtractorOp.simplify self = false ->
        0 < WaypointExtractorOp.min_spacing self ->
        consecutive_distinct ws).
Proof.
  intros Heps Hfuel trajectory.
  destruct (WaypointExtractorOp.simplify self) eqn:Hs.
  - unfold WaypointExtractorOp._extract_waypoints. rewrite Hs.
    fold trajectory.
    destruct (decide _) as [Hnil|Hne].
    { destruct (WaypointExtractorOp.poses self); [|simpl in Hnil; lia].
      exists []. done. }
    destruct (dp_op_keeps_ends fuel trajectory
                (WaypointExtractorOp.epsilon self))
      as (out & Hout & Hh & Hl & _).
    { by destruct Heps. }
    { subst trajectory. unfold WaypointExtractorOp.trajectory_of.
      rewrite length_fmap. lia. }
    exists out. split; [done|]. split; [|split; [done|split; [|done]]].
    + assert (trajectory <> []) as Ht.
      { subst trajectory. rewrite trajectory_of_nil.
        intros Hp. by rewrite Hp in Hne. }
      split; [|intros Hp; by rewrite Hp in Hne].
      intros ->. rewrite !head_lookup in Hh. by destruct trajectory.
    + intros t_last w Ht Hw. left. congruence.
  - rewrite (extract_waypoints_unsimplified fuel self Hs). fold trajectory.
    set (kept := spaced_filter (fun p => p)
                   (WaypointExtractorOp.min_spacing self) trajectory).
    pose proof (spaced_spaced_filter (fun p => p)
                  (WaypointExtractorOp.min_spacing self) trajectory)
      as Hspaced.
    rewrite list_fmap_id in Hspaced. fold kept in Hspaced.
    eexists; split; [done|].
    destruct trajectory as [|t0 rest] eqn:Htraj.
    { simpl. split; [|done]. split; [|done]. intros _.
      by apply trajectory_of_nil. }
    assert (WaypointExtractorOp.poses self <> []) as Hposes.
    { intros Hp. apply trajectory_of_nil in Hp.
      change (WaypointExtractorOp.trajectory_of
                (WaypointExtractorOp.poses self) = t0 :: rest) in Htraj.
      congruence. }
    destruct (last (t0 :: rest)) as [t_last|] eqn:Hl.
    2:{ rewrite last_lookup in Hl. apply lookup_ge_None in Hl.
        simpl in Hl. lia. }
    destruct (last kept) as [k|] eqn:Hk.
    2:{ rewrite last_lookup in Hk. apply lookup_ge_None in Hk.
        simpl in Hk. lia. }
    destruct (Rgt_dec _ _) as [Hfar|Hnear].
    + split; [by destruct kept|]. split; [done|]. split.
      * intros ? w [= <-]. rewrite last_snoc. intros [= <-]. by left.
      * intros _ Hmin. apply (consecutive_distinct_snoc _ k).
        -- by eapply spaced_positive_distinct.
        -- done.
        -- intros ->.
           assert (norm2 (vsub2 t_last t_last) = 0) as H0.
           { apply norm2_zero_iff. unfold vsub2. f_equal; lra. }
           lra.
    + split; [done|]. split; [done|]. split.
      * intros ? w [= <-]. rewrite Hk. intros [= <-]. right.
        split; [done|lra].
      * intros _ Hmin. by eapply spaced_positive_distinct.
Qed.

End WithRounding.
End ExtractFacts.

(** ** Waypoints: the claims *)

Module WaypointClaims.
Import Linalg Rounded PyList LinalgFacts WaypointFacts DPFacts SimplifyFacts
  ExtractFacts.
#[local] Open Scope R_scope.

Lemma keep_spaced_keep {A : Type} (proj : A -> vec2) (s : R) (last_kept p : A)
    (rest : list A) :
  norm2 (vsub2 (proj p) (proj last_kept)) >= s ->
  keep_spaced proj s last_kept (p :: rest) = p :: keep_spaced proj s p rest.
Proof. intros Hd. simpl. by destruct (Rge_dec _ _). Qed.

Lemma keep_spaced_drop {A : Type} (proj : A -> vec2) (s : R) (last_kept p : A)
    (rest : list A) :
  norm2 (vsub2 (proj p) (proj last_kept)) < s ->
  keep_spaced proj s last_kept (p :: rest) = keep_spaced proj s last_kept rest.
Proof. intros Hd. simpl. destruct (Rge_dec _ _); [lra|done]. Qed.

(** *** A trajectory whose last step is short

    Three poses along X, at 0, 1 and 1.25 m: the last pose is 0.25 m from
    the one before, closer than the spacing 0.5 m. *)

Definition pose_at (x y : R) : mat4 :=
  Mat4 1 0 0 x
       0 1 0 y
       0 0 1 0
       0 0 0 1.

Definition short_tail : list mat4 :=
  [pose_at 0 0; pose_at 1 0; pose_at (5/4) 0].

Definition short_tail_poses : gmap Z mat4 :=
  <[0%Z := pose_at 0 0]> (<[1%Z := pose_at 1 0]> (<[2%Z := pose_at (5/4) 0]> ∅)).

(** The operator with the defaults of its configuration and the three
    poses received. *)
Definition short_tail_op : WaypointExtractorOp.Operator :=
  {| WaypointExtractorOp.min_spacing := 0.5;
     WaypointExtractorOp.simplify := false;
     WaypointExtractorOp.epsilon := 0.1;
     WaypointExtractorOp.poses := short_tail |}.

Lemma three_poses_positions (P0 P1 P2 : mat4) :
  WaypointExtractor.positions_of
    (<[0%Z := P0]> (<[1%Z := P1]> (<[2%Z := P2]> ∅)))
  = [translation P0; translation P1; translation P2].
Proof. vm_compute. reflexivity. Qed.

Lemma short_tail_positions :
  WaypointExtractor.positions_of short_tail_poses
  = [(0, 0, 0); (1, 0, 0); (5/4, 0, 0)].
Proof. apply three_poses_positions. Qed.

(** Replaces the norm in the goal by its value [c]. *)
Ltac norm2_value c :=
  match goal with
  | |- context [norm2 ?v] =>
      replace (norm2 v) with c by (symmetry; apply norm2_eq; simpl; lra)
  end.

Lemma short_tail_filtered :
  spaced_filter WaypointExtractor.xy 0.5 [(0, 0, 0); (1, 0, 0); (5/4, 0, 0)]
  = [(0, 0, 0); (1, 0, 0)].
Proof.
  unfold spaced_filter.
  rewrite keep_spaced_keep by (norm2_value 1; lra).
  rewrite keep_spaced_drop by (norm2_value (1/4); lra).
  done.
Qed.

Lemma short_tail_kept :
  spaced_filter (fun p => p) 0.5 [(0, 0); (1, 0); (5/4, 0)]
  = [(0, 0); (1, 0)].
Proof.
  unfold spaced_filter.
  rewrite keep_spaced_keep by (norm2_value 1; lra).
  rewrite keep_spaced_drop by (norm2_value (1/4); lra).
  done.
Qed.

(** C7, as the code has it.  With simplification off and no Z-band filter,
    [extract] returns the projections of the poses kept by the spacing
    filter (the first pose, then each pose whose projection lies at least
    [min_distance] from the last one kept), and consecutive waypoints are at
    least [min_distance] apart.  The operator runs the same filter on its
    trajectory, and its waypoints are the points kept, followed by the
    final point of the trajectory exactly when that point lies more than
    0.1 m from the last point kept: all its consecutive waypoints but that
    appended last one are at least [min_spacing] apart. *)
Theorem spacing_filter_keeps_waypoints_apart `{!Rounding} :
  (forall fuel self poses,
      WaypointExtractor.simplify self = false ->
      WaypointExtractor.z_threshold self = None ->
      exists ws,
        WaypointExtractor.extract fuel self poses = Some ws
        /\ ws = WaypointExtractor.xy
                  <$> spaced_filter WaypointExtractor.xy
                        (WaypointExtractor.min_distance self)
                        (WaypointExtractor.positions_of poses)
        /\ spaced (WaypointExtractor.min_distance self) ws)
  /\ (forall fuel self,
        WaypointExtractorOp.simplify self = false ->
        exists kept,
          kept = spaced_filter (fun p => p)
                   (WaypointExtractorOp.min_spacing self)
                   (WaypointExtractorOp.trajectory_of
                      (WaypointExtractorOp.poses self))
          /\ spaced (WaypointExtractorOp.min_spacing self) kept
          /\ WaypointExtractorOp._extract_waypoints fuel self
             = Some
                 match last (WaypointExtractorOp.trajectory_of
                               (WaypointExtractorOp.poses self)),
                       last kept with
                 | Some t_last, Some k =>
                     if Rgt_dec (norm2 (vsub2 t_last k)) 0.1
                     then kept ++ [t_last] else kept
                 | _, _ => kept
                 end).
Proof.
  split.
  - intros fuel self poses Hs Hz. rewrite extract_eq, Hs by done.
    cbn [mbind option_bind].
    eexists; split; [done|]. split; [done|]. apply spaced_spaced_filter.
  - intros fuel self Hs.
    rewrite (extract_waypoints_unsimplified fuel self Hs).
    set (trajectory := WaypointExtractorOp.trajectory_of
                         (WaypointExtractorOp.poses self)).
    set (kept := spaced_filter (fun p => p)
                   (WaypointExtractorOp.min_spacing self) trajectory).
    pose proof (spaced_spaced_filter (fun p => p)
                  (WaypointExtractorOp.min_spacing self) trajectory)
      as Hspaced.
    rewrite list_fmap_id in Hspaced. fold kept in Hspaced.
    exists kept. split; [done|]. split; done.
Qed.

(** C7 as the spec words it fails for the operator on [short_tail]: the
    final point (1.25, 0) is appended although it is only 0.25 m from the
    waypoint (1, 0) before it, less than the spacing 0.5 m. *)
Lemma operator_appends_a_close_last_point :
  WaypointExtractorOp.simplify short_tail_op = false
  /\ @WaypointExtractorOp._extract_waypoints WaypointExtractor.exact_arithmetic
       0 short_tail_op
     = Some [(0, 0); (1, 0); (5/4, 0)]
  /\ norm2 (vsub2 (5/4, 0) (1, 0)) = 1/4
  /\ 1/4 < WaypointExtractorOp.min_spacing short_tail_op.
Proof.
  split; [done|]. split; [|split].
  - rewrite extract_waypoints_unsimplified by done.
    change (WaypointExtractorOp.trajectory_of
              (WaypointExtractorOp.poses short_tail_op))
      with [(0, 0); (1, 0); (5/4, 0)].
    change (WaypointExtractorOp.min_spacing short_tail_op) with 0.5.
    rewrite short_tail_kept. cbn [last].
    destruct (Rgt_dec _ _) as [|Hnear]; [done|].
    exfalso. apply Hnear. norm2_value (1/4). lra.
  - apply norm2_eq; simpl; lra.
  - simpl. lra.
Qed.

(** The theorem of C7 at [short_tail]. *)
Lemma spacing_filter_keeps_waypoints_apart_witness :
  exists kept,
    kept = spaced_filter (fun p => p)
             (WaypointExtractorOp.min_spacing short_tail_op)
             (WaypointExtractorOp.trajectory_of
                (WaypointExtractorOp.poses short_tail_op))
    /\ spaced (WaypointExtractorOp.min_spacing short_tail_op) kept
    /\ @WaypointExtractorOp._extract_waypoints
         WaypointExtractor.exact_arithmetic 0 short_tail_op
       = Some
           match last (WaypointExtractorOp.trajectory_of
                         (WaypointExtractorOp.poses short_tail_op)),
                 last kept with
           | Some t_last, Some k =>
               if Rgt_dec (norm2 (vsub2 t_last k)) 0.1
               then kept ++ [t_last] else kept
           | _, _ => kept
           end.
Proof.
  exact (proj2 (@spacing_filter_keeps_waypoints_apart
                  WaypointExtractor.exact_arithmetic)
           0%nat short_tail_op eq_refl).
Defined.

(** C4, as the code has it.  Without the Z-band filter, whatever [extract]
    returns is empty exactly when there is no pose, starts with the
    projection of the first pose (least id), and ends with the projection of
    the last pose or with a waypoint less than [min_distance] from it; with
    simplification off and a positive spacing, consecutive waypoints
    differ.  [extract] returns when simplification is off, and with
    simplification on when the recursion of [_douglas_peucker] ends on the
    positions the spacing filter keeps.  The operator returns when
    simplification is off or its tolerance is not negative; its waypoints
    have the same properties, the last one being the projection of the last
    pose or, with simplification off, at most 0.1 m from it. *)
Theorem waypoints_start_at_first_pose_and_end_near_last `{!Rounding} :
  (forall fuel self poses ws,
      WaypointExtractor.z_threshold self = None ->
      WaypointExtractor.extract fuel self poses = Some ws ->
      (ws = [] <-> poses = ∅)
      /\ head ws
         = WaypointExtractor.xy
             <$> head (WaypointExtractor.positions_of poses)
      /\ (forall p_last w,
            last (WaypointExtractor.positions_of poses) = Some p_last ->
            last ws = Some w ->
            w = WaypointExtractor.xy p_last
            \/ norm2 (vsub2 (WaypointExtractor.xy p_last) w)
               < WaypointExtractor.min_distance self)
      /\ (WaypointExtractor.simplify self = false ->
          0 < WaypointExtractor.min_distance self ->
          consecutive_distinct ws))
  /\ (forall fuel self poses,
        WaypointExtractor.z_threshold self = None ->
        WaypointExtractor.simplify self = false
        \/ ((size poses < fuel)%nat
            /\ ends_within (WaypointExtractor.simplify_tolerance self)
                 (WaypointExtractor.xy
                    <$> spaced_filter WaypointExtractor.xy
                          (WaypointExtractor.min_distance self)
                          (WaypointExtractor.positions_of poses))) ->
        is_Some (WaypointExtractor.extract fuel self poses))
  /\ (forall fuel self,
        WaypointExtractorOp.simplify self = false
        \/ 0 <= WaypointExtractorOp.epsilon self ->
        (length (WaypointExtractorOp.poses self) <= fuel)%nat ->
        exists ws,
          WaypointExtractorOp._extract_waypoints fuel self = Some ws
          /\ (ws = [] <-> WaypointExtractorOp.poses self = [])
          /\ head ws
             = head (WaypointExtractorOp.trajectory_of
                       (WaypointExtractorOp.poses self))
          /\ (forall t_last w,
                last (WaypointExtractorOp.trajectory_of
                        (WaypointExtractorOp.poses self)) = Some t_last ->
                last ws = Some w ->
                w = t_last
                \/ (WaypointExtractorOp.simplify self = false
                    /\ norm2 (vsub2 t_last w) <= 0.1))
          /\ (WaypointExtractorOp.simplify self = false ->
              0 < WaypointExtractorOp.min_spacing self ->
              consecutive_distinct ws)).
Proof.
  split; [|split].
  - intros fuel self poses ws Hz Hws. by apply (extract_spec fuel).
  - intros fuel self poses Hz Hret. by apply extract_is_Some.
  - intros fuel self Heps Hfuel. by apply extract_waypoints_spec.
Qed.

Lemma short_tail_extract :
  @WaypointExtractor.extract WaypointExtractor.exact_arithmetic
    4 WaypointExtractor.default_config short_tail_poses
  = Some [(0, 0); (1, 0)].
Proof.
  rewrite extract_eq by done. rewrite short_tail_positions.
  change (WaypointExtractor.min_distance WaypointExtractor.default_config)
    with 0.5.
  rewrite short_tail_filtered. reflexivity.
Qed.

(** C4 as the spec words it fails on [short_tail_poses] with the default
    configuration: the last pose projects to (1.25, 0), but the spacing
    filter drops it and the last waypoint is (1, 0). *)
Lemma last_waypoint_is_not_the_last_pose :
  @WaypointExtractor.extract WaypointExtractor.exact_arithmetic
    4 WaypointExtractor.default_config short_tail_poses
  = Some [(0, 0); (1, 0)]
  /\ last (WaypointExtractor.positions_of short_tail_poses)
     = Some (5/4, 0, 0)
  /\ last [(0, 0); (1, 0)] = Some (1, 0)
  /\ WaypointExtractor.xy (5/4, 0, 0) = (5/4, 0)
  /\ (1, 0) <> (5/4, 0).
Proof.
  split; [apply short_tail_extract|]. split.
  { rewrite short_tail_positions. done. }
  split; [done|]. split; [done|].
  intros [= H]. lra.
Qed.

(** The theorem of C4 at [short_tail_poses], whose simplification has
    nothing to do: the spacing filter keeps two positions. *)
Lemma waypoints_start_at_first_pose_and_end_near_last_witness :
  exists ws,
    @WaypointExtractor.extract WaypointExtractor.exact_arithmetic
      4 WaypointExtractor.default_config short_tail_poses = Some ws
    /\ (ws = [] <-> short_tail_poses = ∅)
    /\ head ws
       = WaypointExtractor.xy
           <$> head (WaypointExtractor.positions_of short_tail_poses)
    /\ (forall p_last w,
          last (WaypointExtractor.positions_of short_tail_poses)
            = Some p_last ->
          last ws = Some w ->
          w = WaypointExtractor.xy p_last
          \/ norm2 (vsub2 (WaypointExtractor.xy p_last) w)
             < WaypointExtractor.min_distance WaypointExtractor.default_config)
    /\ (WaypointExtractor.simplify WaypointExtractor.default_config = false ->
        0 < WaypointExtractor.min_distance WaypointExtractor.default_config ->
        consecutive_distinct ws).
Proof.
  destruct (@waypoints_start_at_first_pose_and_end_near_last
              WaypointExtractor.exact_arithmetic) as (Hshape & Hret & _).
  destruct (Hret 4%nat WaypointExtractor.default_config short_tail_poses)
    as [ws Hws]; [reflexivity| |].
  { right. split; [vm_compute; lia|]. apply exact_ends_within. simpl. lra. }
  exists ws. split; [exact Hws|].
  exact (Hshape 4%nat WaypointExtractor.default_config short_tail_poses ws
           eq_refl Hws).
Defined.

End WaypointClaims.

(** ** Loop closure: the spatial detector *)

Module LoopFacts.
Import Linalg PyList LinalgFacts.
#[local] Open Scope R_scope.

(** *** The spatial detector *)

Lemma pose_ids_elem (poses : gmap Z mat4) (i : Z) :
  i ∈ sorted (elements (dom poses)) <-> is_Some (poses !! i).
Proof.
  unfold sorted.
  rewrite merge_sort_Permutation, elem_of_elements, elem_of_dom. done.
Qed.

Lemma pose_ids_NoDup (poses : gmap Z mat4) :
  NoDup (sorted (elements (dom poses))).
Proof.
  unfold sorted. rewrite merge_sort_Permutation. apply NoDup_elements.
Qed.

Lemma elem_of_flat_map {A B : Type} (f : A -> list B) (l : list A) (y : B) :
  y ∈ flat_map f l <-> exists x, x ∈ l /\ y ∈ f x.
Proof.
  rewrite list_elem_of_In, in_flat_map. split.
  - intros (x & Hx & Hy). exists x. by rewrite !list_elem_of_In.
  - intros (x & Hx & Hy). exists x. by rewrite <- !list_elem_of_In.
Qed.

Lemma NoDup_flat_map {A B : Type} (f : A -> list B) (l : list A) :
  NoDup l -> (forall x, NoDup (f x)) ->
  (forall x y z, x ∈ l -> y ∈ l -> x <> y -> z ∈ f x -> z ∈ f y -> False) ->
  NoDup (flat_map f l).
Proof.
  intros Hl Hf Hdisj. induction Hl as [|x l Hx Hl IH]; [constructor|].
  simpl. apply NoDup_app. split; [apply Hf|]. split.
  - intros z Hz Hz'. apply elem_of_flat_map in Hz' as (y & Hy & Hzy).
    apply (Hdisj x y z); [by left|by right| |done|done].
    intros ->. done.
  - apply IH. intros a b z Ha Hb. apply Hdisj; by right.
Qed.

(** What one pair contributes. *)
Lemma candidate_step_elem (self : LoopDetector.Config) (poses : gmap Z mat4)
    (id_i id_j : Z) (c : Z * Z) :
  c ∈ LoopDetector.candidate_step self (translation <$> poses) id_i id_j
  <-> c = (id_i, id_j)
      /\ (LoopDetector.min_frame_gap self <= id_j - id_i)%Z
      /\ exists P_i P_j,
           poses !! id_i = Some P_i /\ poses !! id_j = Some P_j
           /\ norm3 (vsub3 (translation P_i) (translation P_j))
              < LoopDetector.distance_threshold self.
Proof.
  unfold LoopDetector.candidate_step. rewrite !lookup_fmap.
  destruct (decide _) as [Hgap|Hgap].
  { split; [by intros ?%elem_of_nil|]. intros (_ & ? & _). lia. }
  destruct (poses !! id_i) as [P_i|]; simpl.
  2:{ split; [by intros ?%elem_of_nil|]. by intros (_ & _ & ? & ? & ? & _). }
  destruct (poses !! id_j) as [P_j|]; simpl.
  2:{ split; [by intros ?%elem_of_nil|].
      by intros (_ & _ & ? & ? & _ & ? & _). }
  destruct (Rlt_dec _ _) as [Hd|Hd].
  - rewrite list_elem_of_singleton. split.
    + intros ->. split; [done|]. split; [lia|]. eauto.
    + by intros [-> _].
  - split; [by intros ?%elem_of_nil|].
    intros (_ & _ & ? & ? & [= <-] & [= <-] & ?). done.
Qed.

Lemma candidate_step_NoDup (self : LoopDetector.Config)
    (positions : gmap Z vec3) (id_i id_j : Z) :
  NoDup (LoopDetector.candidate_step self positions id_i id_j).
Proof.
  unfold LoopDetector.candidate_step.
  repeat case_match; try apply NoDup_nil_2. apply NoDup_singleton.
Qed.

(** C5, as the code has it.  The candidate list holds, once each, exactly
    the pairs of pose ids [(i, j)] with [j - i >= min_frame_gap] whose
    translations are less than [distance_threshold] apart; when the gap is
    positive, as with the default 50, all of them have [j > i]. *)
Theorem candidates_are_the_close_pairs_with_gap (self : LoopDetector.Config)
    (poses : gmap Z mat4) :
  (forall i j,
      (i, j) ∈ LoopDetector.detect_candidates self poses
      <-> (LoopDetector.min_frame_gap self <= j - i)%Z
          /\ exists P_i P_j,
               poses !! i = Some P_i /\ poses !! j = Some P_j
               /\ norm3 (vsub3 (translation P_i) (translation P_j))
                  < LoopDetector.distance_threshold self)
  /\ NoDup (LoopDetector.detect_candidates self poses)
  /\ ((0 < LoopDetector.min_frame_gap self)%Z ->
      forall i j,
        (i, j) ∈ LoopDetector.detect_candidates self poses -> (i < j)%Z)
  /\ LoopDetector.min_frame_gap LoopDetector.default_config = 50%Z
  /\ LoopDetector.distance_threshold LoopDetector.default_config = 5.
Proof.
  assert (forall i j,
      (i, j) ∈ LoopDetector.detect_candidates self poses
      <-> (LoopDetector.min_frame_gap self <= j - i)%Z
          /\ exists P_i P_j,
               poses !! i = Some P_i /\ poses !! j = Some P_j
               /\ norm3 (vsub3 (translation P_i) (translation P_j))
                  < LoopDetector.distance_threshold self) as Hmem.
  { intros i j. unfold LoopDetector.detect_candidates.
    rewrite elem_of_flat_map. split.
    - intros (id_i & _ & Hin). apply elem_of_flat_map in Hin as (id_j & _ & Hin).
      apply candidate_step_elem in Hin as ([= -> ->] & Hgap & Hclose). done.
    - intros (Hgap & P_i & P_j & Hi & Hj & Hd).
      exists i. split; [apply pose_ids_elem; eauto|].
      apply elem_of_flat_map. exists j. split; [apply pose_ids_elem; eauto|].
      apply candidate_step_elem. split; [done|]. split; [done|].
      by exists P_i, P_j. }
  split; [done|]. split; [|split; [|split]].
  - unfold LoopDetector.detect_candidates.
    apply NoDup_flat_map; [apply pose_ids_NoDup| |].
    + intros id_i. apply NoDup_flat_map; [apply pose_ids_NoDup| |].
      * intros id_j. apply candidate_step_NoDup.
      * intros x y z _ _ Hne Hx Hy.
        apply candidate_step_elem in Hx as (-> & _), Hy as ([= ->] & _).
        done.
    + intros x y z _ _ Hne Hx Hy.
      apply elem_of_flat_map in Hx as (jx & _ & Hx), Hy as (jy & _ & Hy).
      apply candidate_step_elem in Hx as (-> & _), Hy as ([= -> _] & _).
      done.
  - intros Hpos i j Hin. apply Hmem in Hin as [Hgap _]. lia.
  - done.
  - simpl. lra.
Qed.

(** C5 as the spec words it fails when the configured gap is 0: the pair
    (0, 0) of a single pose is a candidate although its second id does not
    exceed the first. *)
Lemma zero_gap_pairs_a_pose_with_itself :
  LoopDetector.detect_candidates
    {| LoopDetector.distance_threshold := 5; LoopDetector.min_frame_gap := 0 |}
    {[ 0%Z := eye4 ]}
  = [(0%Z, 0%Z)].
Proof.
  unfold LoopDetector.detect_candidates.
  assert (sorted (elements (dom ({[0%Z := eye4]} : gmap Z mat4))) = [0%Z])
    as ->.
  { unfold sorted. rewrite dom_singleton_L, elements_singleton. done. }
  simpl. unfold LoopDetector.candidate_step. simpl.
  rewrite lookup_fmap, lookup_singleton_eq. simpl.
  destruct (Rlt_dec _ _) as [|Hfar]; [done|].
  exfalso. apply Hfar.
  match goal with |- sqrt ?e < _ => replace e with 0 by ring end.
  rewrite sqrt_0. lra.
Qed.

End LoopFacts.

(** ** Loop closure: the Scan Context descriptor *)

Module ScanContextFacts.
Import Linalg PyList LinalgFacts DPFacts.
#[local] Open Scope R_scope.

(** The point [p] falls in ring [r] and sector [a]. *)
Definition in_bin (self : LoopDetector.ScanContext) (r a : Z) (p : vec3)
    : Prop :=
  LoopDetector.range_idx self p = r /\ LoopDetector.angle_idx self p = a.

#[local] Instance in_bin_dec self r a p : Decision (in_bin self r a p).
Proof. unfold in_bin. apply _. Defined.

(** The z coordinates of the points of [pts] in the bin, in input order. *)
Definition bin_heights (self : LoopDetector.ScanContext) (r a : Z)
    (pts : list vec3) : list R :=
  snd <$> filter (in_bin self r a) pts.

(** The running maximum the loop keeps in a bin: it starts from the 0 of
    [np.zeros] and takes the maximum with each height. *)
Definition clamped_max (heights : list R) : R := fold_left Rmax heights 0.

(** [R] rows of [S] entries. *)
Definition shaped (self : LoopDetector.ScanContext) (d : list (list R))
    : Prop :=
  length d = Z.to_nat (LoopDetector.num_rings self)
  /\ Forall (fun row => length row = Z.to_nat (LoopDetector.num_sectors self)) d.

Lemma fold_left_Rmax_assoc (l : list R) (a b : R) :
  fold_left Rmax l (Rmax a b) = Rmax a (fold_left Rmax l b).
Proof.
  revert b. induction l as [|z l IH]; intros b; simpl; [done|].
  rewrite <- Rmax_assoc. apply IH.
Qed.

Lemma clamped_max_nonneg (zs : list R) : 0 <= clamped_max zs.
Proof. apply fold_left_Rmax_ge. Qed.

Lemma clamped_max_upper (zs : list R) (z : R) : z ∈ zs -> z <= clamped_max zs.
Proof. apply fold_left_Rmax_upper. Qed.

Lemma clamped_max_negative (zs : list R) :
  (forall z, z ∈ zs -> z < 0) -> clamped_max zs = 0.
Proof.
  unfold clamped_max. induction zs as [|z zs IH]; intros Hneg; [done|].
  simpl. rewrite Rmax_left.
  - apply IH. intros y Hy. apply Hneg. by right.
  - left. apply Hneg. by left.
Qed.

Lemma clamped_max_is_max (zs : list R) (z : R) :
  z ∈ zs -> 0 <= z -> py_max zs = Some (clamped_max zs).
Proof.
  intros Hz Hpos. destruct zs as [|h zs]; [by apply elem_of_nil in Hz|].
  unfold clamped_max. simpl. f_equal.
  rewrite fold_left_Rmax_assoc. symmetry. apply Rmax_right.
  transitivity z; [done|].
  apply elem_of_cons in Hz as [->|Hz].
  - apply fold_left_Rmax_ge.
  - by apply fold_left_Rmax_upper.
Qed.

Lemma clamped_max_snoc (zs : list R) (z : R) :
  clamped_max (zs ++ [z]) = Rmax (clamped_max zs) z.
Proof. unfold clamped_max. by rewrite fold_left_app. Qed.

Lemma axis_index_in_range (n : nat) (i : Z) :
  (0 <= i < Z.of_nat n)%Z -> LoopDetector.axis_index n i = Some (Z.to_nat i).
Proof. intros Hi. unfold LoopDetector.axis_index. by destruct (decide _). Qed.

Lemma clip_in_range (i n : Z) :
  (0 < n)%Z -> (0 <= LoopDetector.clip i 0 (n - 1) < n)%Z.
Proof. unfold LoopDetector.clip. lia. Qed.

Lemma range_idx_in_range (self : LoopDetector.ScanContext) (p : vec3) :
  (0 < LoopDetector.num_rings self)%Z ->
  (0 <= LoopDetector.range_idx self p < LoopDetector.num_rings self)%Z.
Proof.
  intros Hr. destruct p as [[x y] z]. unfold LoopDetector.range_idx.
  by apply clip_in_range.
Qed.

Lemma angle_idx_in_range (self : LoopDetector.ScanContext) (p : vec3) :
  (0 < LoopDetector.num_sectors self)%Z ->
  (0 <= LoopDetector.angle_idx self p < LoopDetector.num_sectors self)%Z.
Proof.
  intros Hs. destruct p as [[x y] z]. unfold LoopDetector.angle_idx.
  by apply clip_in_range.
Qed.

(** Reading a bin of a well-shaped descriptor. *)
Lemma get_bin_shaped (self : LoopDetector.ScanContext) (d : list (list R))
    (r a : Z) :
  shaped self d ->
  (0 <= r < LoopDetector.num_rings self)%Z ->
  (0 <= a < LoopDetector.num_sectors self)%Z ->
  exists row x,
    d !! Z.to_nat r = Some row /\ row !! Z.to_nat a = Some x
    /\ LoopDetector.get_bin d r a = Some x.
Proof.
  intros [Hrows Hcols] Hr Ha.
  destruct (lookup_lt_is_Some_2 d (Z.to_nat r)) as [row Hrow]; [lia|].
  assert (length row = Z.to_nat (LoopDetector.num_sectors self)) as Hlen.
  { rewrite Forall_forall in Hcols. apply Hcols.
    by eapply list_elem_of_lookup_2. }
  destruct (lookup_lt_is_Some_2 row (Z.to_nat a)) as [x Hx]; [lia|].
  exists row, x. split; [done|]. split; [done|].
  unfold LoopDetector.get_bin.
  rewrite axis_index_in_range by lia. simpl. rewrite Hrow. simpl.
  rewrite axis_index_in_range by lia. simpl. done.
Qed.

(** Writing a bin of a well-shaped descriptor changes that bin only. *)
Lemma set_bin_shaped (self : LoopDetector.ScanContext) (d : list (list R))
    (r a : Z) (v : R) :
  shaped self d ->
  (0 <= r < LoopDetector.num_rings self)%Z ->
  (0 <= a < LoopDetector.num_sectors self)%Z ->
  exists d',
    LoopDetector.set_bin d r a v = Some d' /\ shaped self d'
    /\ forall r2 a2,
         (0 <= r2 < LoopDetector.num_rings self)%Z ->
         (0 <= a2 < LoopDetector.num_sectors self)%Z ->
         LoopDetector.get_bin d' r2 a2
         = if decide (r2 = r /\ a2 = a) then Some v
           else LoopDetector.get_bin d r2 a2.
Proof.
  intros Hshape Hr Ha.
  destruct (get_bin_shaped self d r a Hshape Hr Ha)
    as (row & x & Hrow & Hx & _).
  destruct Hshape as [Hrows Hcols].
  assert (length row = Z.to_nat (LoopDetector.num_sectors self)) as Hlen.
  { rewrite Forall_forall in Hcols. apply Hcols.
    by eapply list_elem_of_lookup_2. }
  eexists. split; [|split].
  - unfold LoopDetector.set_bin.
    rewrite axis_index_in_range by lia. simpl. rewrite Hrow. simpl.
    rewrite axis_index_in_range by lia. simpl. done.
  - split; [by rewrite length_insert|].
    apply Forall_insert; [done|]. by rewrite length_insert.
  - intros r2 a2 Hr2 Ha2. unfold LoopDetector.get_bin.
    rewrite length_insert. rewrite !axis_index_in_range by lia. simpl.
    destruct (decide (Z.to_nat r = Z.to_nat r2)) as [Hrr|Hrr].
    + rewrite <- Hrr, list_lookup_insert_eq, Hrow by lia. simpl.
      rewrite length_insert. rewrite !axis_index_in_range by lia. simpl.
      destruct (decide (Z.to_nat a = Z.to_nat a2)) as [Haa|Haa].
      * rewrite <- Haa, list_lookup_insert_eq by lia.
        destruct (decide _) as [|Hne]; [done|]. exfalso. apply Hne. lia.
      * rewrite list_lookup_insert_ne by done.
        destruct (decide _) as [[_ ->]|]; [done|done].
    + rewrite list_lookup_insert_ne by done.
      destruct (decide _) as [[-> _]|]; [done|done].
Qed.

Lemma zeros_shaped (self : LoopDetector.ScanContext) :
  (0 < LoopDetector.num_rings self)%Z ->
  (0 < LoopDetector.num_sectors self)%Z ->
  exists d,
    LoopDetector.zeros (LoopDetector.num_rings self)
      (LoopDetector.num_sectors self) = Some d
    /\ shaped self d
    /\ forall r a,
         (0 <= r < LoopDetector.num_rings self)%Z ->
         (0 <= a < LoopDetector.num_sectors self)%Z ->
         LoopDetector.get_bin d r a = Some 0.
Proof.
  intros Hr Hs. unfold LoopDetector.zeros.
  destruct (decide _) as [_|Hneg]; [|lia].
  eexists. split; [done|].
  assert (shaped self
            (replicate (Z.to_nat (LoopDetector.num_rings self))
               (replicate (Z.to_nat (LoopDetector.num_sectors self)) 0)))
    as Hshape.
  { split; [by rewrite length_replicate|].
    apply Forall_replicate. by rewrite length_replicate. }
  split; [done|]. intros r a Hr' Ha'.
  destruct (get_bin_shaped self _ r a Hshape Hr' Ha')
    as (row & x & Hrow & Hx & ->).
  apply lookup_replicate in Hrow as [-> _].
  apply lookup_replicate in Hx as [-> _]. done.
Qed.

(** The descriptor after the loop: every bin holds the running maximum of
    the heights that fell into it. *)
Lemma compute_descriptor_spec (self : LoopDetector.ScanContext)
    (pts : list vec3) :
  (0 < LoopDetector.num_rings self)%Z ->
  (0 < LoopDetector.num_sectors self)%Z ->
  exists d,
    LoopDetector.compute_descriptor self pts = Some d /\ shaped self d
    /\ forall r a,
         (0 <= r < LoopDetector.num_rings self)%Z ->
         (0 <= a < LoopDetector.num_sectors self)%Z ->
         LoopDetector.get_bin d r a
         = Some (clamped_max (bin_heights self r a pts)).
Proof.
  intros Hr Hs. unfold LoopDetector.compute_descriptor.
  induction pts as [|p pts IH] using rev_ind.
  - destruct (zeros_shaped self Hr Hs) as (d & Hd & Hshape & Hbins).
    exists d. done.
  - destruct IH as (d & Hd & Hshape & Hbins).
    rewrite fold_left_app, Hd. simpl.
    pose proof (range_idx_in_range self p Hr) as Hpr.
    pose proof (angle_idx_in_range self p Hs) as Hpa.
    rewrite (Hbins _ _ Hpr Hpa). simpl.
    destruct (set_bin_shaped self d _ _
                (Rmax (clamped_max
                         (bin_heights self (LoopDetector.range_idx self p)
                            (LoopDetector.angle_idx self p) pts)) p.2)
                Hshape Hpr Hpa) as (d' & Hd' & Hshape' & Hbins').
    rewrite Hd'. exists d'. split; [done|]. split; [done|].
    intros r a Hr' Ha'. rewrite (Hbins' r a Hr' Ha').
    unfold bin_heights. rewrite filter_app, fmap_app.
    destruct (decide (r = _ /\ a = _)) as [[-> ->]|Hne].
    + rewrite filter_cons_True by done. simpl.
      by rewrite clamped_max_snoc.
    + rewrite filter_cons_False.
      2:{ intros [H1 H2]. apply Hne. done. }
      simpl. rewrite app_nil_r. by apply Hbins.
Qed.


(** What the code computes.  For a descriptor grid of at least one ring and
    one sector, every bin of the descriptor holds the maximum of 0 and the z
    coordinates of the points that fall into it: it is never negative, it
    bounds every such z, it is 0 for a bin that is empty or whose points all
    have negative z, and it is the maximum z of the bin as soon as one of
    its points has z >= 0. *)
Theorem descriptor_bins_hold_the_clamped_maximum
    (self : LoopDetector.ScanContext) (pts : list vec3) :
  (0 < LoopDetector.num_rings self)%Z ->
  (0 < LoopDetector.num_sectors self)%Z ->
  exists d,
    LoopDetector.compute_descriptor self pts = Some d
    /\ forall r a,
         (0 <= r < LoopDetector.num_rings self)%Z ->
         (0 <= a < LoopDetector.num_sectors self)%Z ->
         let heights := bin_heights self r a pts in
         LoopDetector.get_bin d r a = Some (clamped_max heights)
         /\ 0 <= clamped_max heights
         /\ (forall z, z ∈ heights -> z <= clamped_max heights)
         /\ ((forall z, z ∈ heights -> z < 0) -> clamped_max heights = 0)
         /\ (forall z, z ∈ heights -> 0 <= z ->
               py_max heights = Some (clamped_max heights)).
Proof.
  intros Hr Hs.
  destruct (compute_descriptor_spec self pts Hr Hs) as (d & Hd & _ & Hbins).
  exists d. split; [done|]. intros r a Hr' Ha' heights.
  split; [by apply Hbins|]. split; [apply clamped_max_nonneg|].
  split; [apply clamped_max_upper|]. split; [apply clamped_max_negative|].
  apply clamped_max_is_max.
Qed.

(** *** A single point below the sensor *)

Definition below_sensor : list vec3 := [(1, 0, -1)].

Lemma Int_part_small (x : R) (n : Z) :
  IZR n <= x < IZR n + 1 -> Int_part x = n.
Proof.
  intros [Hlo Hhi]. unfold Int_part.
  assert ((n + 1)%Z = up x) as <-.
  { apply tech_up; rewrite plus_IZR; simpl; lra. }
  lia.
Qed.

Lemma below_sensor_ring :
  LoopDetector.range_idx LoopDetector.default_scan_context (1, 0, -1) = 0%Z.
Proof.
  unfold LoopDetector.range_idx, LoopDetector.default_scan_context. simpl.
  replace (1 * 1 + 0 * 0) with (1 * 1) by lra. rewrite sqrt_square by lra.
  unfold LoopDetector.astype_int.
  destruct (Rle_dec _ _) as [_|Hneg]; [|exfalso; apply Hneg; lra].
  rewrite (Int_part_small _ 0); [done|]. simpl. lra.
Qed.

Lemma below_sensor_sector :
  LoopDetector.angle_idx LoopDetector.default_scan_context (1, 0, -1) = 30%Z.
Proof.
  unfold LoopDetector.angle_idx, LoopDetector.default_scan_context. simpl.
  unfold LoopDetector.arctan2.
  destruct (Rlt_dec 0 1) as [_|Hneg]; [|exfalso; apply Hneg; lra].
  replace (0 / 1) with 0 by lra. rewrite atan_0.
  replace ((0 + PI) / (2 * PI) * 60) with 30 by (field; apply PI_neq0).
  unfold LoopDetector.astype_int.
  destruct (Rle_dec _ _) as [_|Hneg]; [|exfalso; apply Hneg; lra].
  rewrite (Int_part_small _ 30); [done|]. simpl. lra.
Qed.

(** C6 fails on [below_sensor] with the default grid, against the comment
    of the source ("max height in each bin"): the point (1, 0, -1) falls
    into ring 0, sector 30, it is the only point there and its z is
    negative, yet the bin holds the 0 of [np.zeros] and not -1. *)
Lemma negative_heights_read_zero :
  LoopDetector.range_idx LoopDetector.default_scan_context (1, 0, -1) = 0%Z
  /\ LoopDetector.angle_idx LoopDetector.default_scan_context (1, 0, -1)
     = 30%Z
  /\ bin_heights LoopDetector.default_scan_context 0 30 below_sensor = [-1]
  /\ py_max [-1] = Some (-1)
  /\ exists d,
       LoopDetector.compute_descriptor LoopDetector.default_scan_context
         below_sensor = Some d
       /\ LoopDetector.get_bin d 0 30 = Some 0.
Proof.
  split; [apply below_sensor_ring|]. split; [apply below_sensor_sector|].
  assert (bin_heights LoopDetector.default_scan_context 0 30 below_sensor
          = [-1]) as Hbin.
  { unfold bin_heights, below_sensor. rewrite filter_cons_True; [done|].
    split; [apply below_sensor_ring|apply below_sensor_sector]. }
  split; [done|]. split; [done|].
  destruct (compute_descriptor_spec LoopDetector.default_scan_context
              below_sensor) as (d & Hd & _ & Hbins); [done..|].
  exists d. split; [done|]. rewrite Hbins by done. rewrite Hbin.
  unfold clamped_max. simpl. f_equal. apply Rmax_left. lra.
Qed.

(** The bins of the descriptor of [below_sensor]. *)
Lemma descriptor_bins_hold_the_clamped_maximum_witness :
  exists d,
    LoopDetector.compute_descriptor LoopDetector.default_scan_context
      below_sensor = Some d
    /\ forall r a,
         (0 <= r < LoopDetector.num_rings LoopDetector.default_scan_context)%Z ->
         (0 <= a
          < LoopDetector.num_sectors LoopDetector.default_scan_context)%Z ->
         let heights :=
           bin_heights LoopDetector.default_scan_context r a below_sensor in
         LoopDetector.get_bin d r a = Some (clamped_max heights)
         /\ 0 <= clamped_max heights
         /\ (forall z, z ∈ heights -> z <= clamped_max heights)
         /\ ((forall z, z ∈ heights -> z < 0) -> clamped_max heights = 0)
         /\ (forall z, z ∈ heights -> 0 <= z ->
               py_max heights = Some (clamped_max heights)).
Proof.
  apply (descriptor_bins_hold_the_clamped_maximum
           LoopDetector.default_scan_context below_sensor); reflexivity.
Defined.

End ScanContextFacts.

(** ** Loop closure: the similarity of two descriptors *)

Module SimilarityFacts.
Import Linalg PyList LinalgFacts ScanContextFacts.
#[local] Open Scope R_scope.


(** The sum of the squares of all entries. *)
Definition sum_squares (d : list (list R)) : R :=
  LoopDetector.rsum
    ((fun row => LoopDetector.rsum ((fun x => x * x) <$> row)) <$> d).


Lemma rsum_nonneg (l : list R) :
  (forall x, x ∈ l -> 0 <= x) -> 0 <= LoopDetector.rsum l.
Proof.
  unfold LoopDetector.rsum. induction l as [|x l IH]; intros Hl; simpl; [lra|].
  apply Rplus_le_le_0_compat; [apply Hl; by left|].
  apply IH. intros y Hy. apply Hl. by right.
Qed.

Lemma row_squares_nonneg (row : list R) :
  0 <= LoopDetector.rsum ((fun x => x * x) <$> row).
Proof.
  apply rsum_nonneg. intros y (x & -> & _)%list_elem_of_fmap. nra.
Qed.

Lemma sum_squares_nonneg (d : list (list R)) : 0 <= sum_squares d.
Proof.
  apply rsum_nonneg. intros y (row & -> & _)%list_elem_of_fmap.
  apply row_squares_nonneg.
Qed.














(** One point above the sensor. *)
Definition above_sensor : list vec3 := [(1, 0, 1)].

(** *** A descriptor against itself, in binary64 *)










End SimilarityFacts.


(** ** Pose graph: the chain built from odometry *)

Module PoseGraphFacts.
Import Linalg PyList LinalgFacts PoseGraph.
#[local] Open Scope R_scope.

(** [np.linalg.inv] returns a left and right inverse. *)
Lemma inv_spec (M M' : mat4) :
  inv M = Some M' -> matmul M' M = eye4 /\ matmul M M' = eye4.
Proof.
  unfold inv. destruct (Req_dec_T _ _) as [|Hdet]; [done|].
  intros [= <-]. destruct M. unfold det4, det3 in Hdet. simpl in Hdet.
  split; apply Mat4_ext;
    unfold matmul, mscale, adjugate, det4, det3, dot4, eye4; simpl;
    field; exact Hdet.
Qed.


(** An array [np.linalg.inv] accepts. *)
Definition invertible (M : mat4) : Prop := det4 M <> 0.

Lemma inv_is_Some (M : mat4) : invertible M -> is_Some (inv M).
Proof.
  unfold invertible, inv. intros Hdet.
  destruct (Req_dec_T _ _); [done|eauto].
Qed.

(** A GTSAM pose that holds the rotation block [M[:3, :3]] and the
    translation [M[:3, 3]] of the array [M]. *)
Definition carries (pose : Pose3) (M : mat4) : Prop :=
  rotation pose = ((m00 M, m01 M, m02 M),
                   (m10 M, m11 M, m12 M),
                   (m20 M, m21 M, m22 M))
  /\ position pose = (m03 M, m13 M, m23 M).

Lemma matrix_to_pose3_carries (M : mat4) : carries (matrix_to_pose3 M) M.
Proof. done. Qed.

(** The factor the loop adds in pass [i]. *)
Definition odometry_factor (self : PoseGraphOptimizer) (odom_poses : list mat4)
    (i : nat) (f : Factor) : Prop :=
  exists T_prev T_curr T_prev_inv relative,
    odom_poses !! (i - 1)%nat = Some T_prev
    /\ odom_poses !! i = Some T_curr
    /\ inv T_prev = Some T_prev_inv
    /\ matmul T_prev_inv T_prev = eye4
    /\ carries relative (matmul T_prev_inv T_curr)
    /\ f = BetweenFactorPose3 (Z.of_nat i - 1) (Z.of_nat i) relative
             (noise_model_odom self).

(** The object after the prior, the first estimate and [k] passes of the
    loop, for an object [self] that tracked no pose before. *)
Definition chained (self : PoseGraphOptimizer) (odom_poses : list mat4)
    (p0 : mat4) (k : nat) (s : PoseGraphOptimizer) : Prop :=
  noise_model_odom s = noise_model_odom self
  /\ n_odom_factors s = (n_odom_factors self + k)%nat
  /\ n_loop_factors s = n_loop_factors self
  /\ (forall z : Z, z ∈ pose_ids s <-> (0 <= z <= Z.of_nat k)%Z)
  /\ (forall z : Z,
        initial_estimates s !! z
        = if decide (0 <= z <= Z.of_nat k)%Z
          then matrix_to_pose3 <$> odom_poses !! Z.to_nat z
          else None)
  /\ exists between,
       graph s
       = graph self
         ++ PriorFactorPose3 0 (matrix_to_pose3 p0) (noise_model_prior self)
            :: between
       /\ length between = k
       /\ forall i, (1 <= i <= k)%nat ->
            exists f, between !! (i - 1)%nat = Some f
                      /\ odometry_factor self odom_poses i f.

Lemma chained_start (self : PoseGraphOptimizer) (odom_poses : list mat4)
    (p0 : mat4) :
  pose_ids self = ∅ -> initial_estimates self = ∅ ->
  odom_poses !! 0%nat = Some p0 ->
  chained self odom_poses p0 0
    (add_initial_estimate (add_prior self 0 p0) 0 p0).
Proof.
  intros Hids Hest Hp0. unfold add_initial_estimate.
  cbn [pose_ids add_prior].
  rewrite decide_True by (rewrite Hids; set_solver).
  unfold chained. cbn [noise_model_odom n_odom_factors n_loop_factors pose_ids
    initial_estimates graph add_prior].
  rewrite Hids, Hest.
  split; [done|]. split; [lia|]. split; [done|]. split; [|split].
  - intros z. rewrite elem_of_union, elem_of_singleton, elem_of_empty. lia.
  - intros z. destruct (decide (0 <= z <= Z.of_nat 0)%Z) as [Hz|Hz].
    + assert (z = 0%Z) as -> by lia. rewrite lookup_insert_eq.
      change (Z.to_nat 0) with 0%nat. by rewrite Hp0.
    + rewrite lookup_insert_ne by lia. apply lookup_empty.
  - exists []. split; [done|]. split; [done|]. intros i Hi. lia.
Qed.

Lemma chained_step (self : PoseGraphOptimizer) (odom_poses : list mat4)
    (p0 : mat4) (k : nat) (s : PoseGraphOptimizer) :
  Forall invertible odom_poses -> (S k < length odom_poses)%nat ->
  chained self odom_poses p0 k s ->
  exists s', chain_step odom_poses (Some s) (S k) = Some s'
             /\ chained self odom_poses p0 (S k) s'.
Proof.
  intros Hinv Hk (Hnoise & Hodom & Hloop & Hids & Hest & bs & Hgraph & Hlen & Hbs).
  destruct (lookup_lt_is_Some_2 odom_poses k ltac:(lia)) as [T_prev HTp].
  destruct (lookup_lt_is_Some_2 odom_poses (S k) ltac:(lia)) as [T_curr HTc].
  assert (invertible T_prev) as Hdet.
  { eapply Forall_lookup_1; [exact Hinv|exact HTp]. }
  destruct (inv_is_Some T_prev Hdet) as [T_inv HTi].
  unfold chain_step. cbn [mbind option_bind].
  replace (S k - 1)%nat with k by lia. rewrite HTp, HTc. cbn [mbind option_bind].
  rewrite HTi. cbn [mbind option_bind].
  eexists. split; [reflexivity|].
  unfold add_initial_estimate. cbn [pose_ids add_odometry_factor].
  rewrite decide_True by (rewrite Hids; lia).
  unfold chained. cbn [noise_model_odom n_odom_factors n_loop_factors pose_ids
    initial_estimates graph add_odometry_factor].
  split; [done|]. split; [lia|]. split; [done|]. split; [|split].
  - intros z. rewrite elem_of_union, elem_of_singleton, Hids. lia.
  - intros z. destruct (decide (z = Z.of_nat (S k))) as [->|Hne].
    + rewrite lookup_insert_eq, decide_True by lia.
      rewrite Nat2Z.id, HTc. done.
    + rewrite lookup_insert_ne by done. rewrite Hest.
      destruct (decide (0 <= z <= Z.of_nat k)%Z);
        destruct (decide (0 <= z <= Z.of_nat (S k))%Z); try done; lia.
  - exists (bs ++ [BetweenFactorPose3 (Z.of_nat (S k) - 1) (Z.of_nat (S k))
                     (matrix_to_pose3 (matmul T_inv T_curr))
                     (noise_model_odom self)]).
    split; [|split].
    + rewrite Hgraph, Hnoise, <- app_assoc. done.
    + rewrite length_app. simpl. lia.
    + intros i Hi. destruct (decide (i = S k)) as [->|Hne].
      * eexists. split.
        { rewrite lookup_app_r by lia.
          replace (S k - 1 - length bs)%nat with 0%nat by lia. done. }
        exists T_prev, T_curr, T_inv, (matrix_to_pose3 (matmul T_inv T_curr)).
        replace (S k - 1)%nat with k by lia.
        split; [done|]. split; [done|]. split; [done|].
        split; [exact (proj1 (inv_spec _ _ HTi))|done].
      * destruct (Hbs i ltac:(lia)) as (f & Hf & Hfact).
        exists f. split; [|done].
        rewrite lookup_app_l by lia. done.
Qed.

Lemma chained_fold (self : PoseGraphOptimizer) (odom_poses : list mat4)
    (p0 : mat4) (k : nat) (s0 : PoseGraphOptimizer) :
  Forall invertible odom_poses -> (k < length odom_poses)%nat ->
  chained self odom_poses p0 0 s0 ->
  exists s, fold_left (chain_step odom_poses) (seq 1 k) (Some s0) = Some s
            /\ chained self odom_poses p0 k s.
Proof.
  intros Hinv. induction k as [|k IH]; intros Hk Hs0.
  - exists s0. done.
  - destruct (IH ltac:(lia) Hs0) as (s & Hfold & Hs).
    destruct (chained_step self odom_poses p0 k s Hinv Hk Hs) as (s' & Hstep & Hs').
    exists s'. split; [|done].
    rewrite seq_S, fold_left_app, Hfold. simpl. exact Hstep.
Qed.

Section WithGtsam.
Context `{gtsam : !Gtsam}.

(** C9.  On an object that tracks no pose yet and [N >= 1] invertible poses,
    the graph of [build_from_odometry] gains one prior factor at vertex 0,
    holding the rotation block and the translation of [P[0]], followed by
    [N - 1] odometry factors, the factor of pass [i] joining [i - 1] to [i]
    and holding the rotation block and the translation of
    [inv(P[i-1]) @ P[i]]; the tracked ids are [0..N-1], each with an
    estimate that holds the rotation block and the translation of its pose;
    the call returns this object when the optimizer's values are read.  On
    an empty sequence the call returns an empty dictionary and leaves the
    object as it was. *)
Theorem build_from_odometry_adds_prior_estimates_and_chain
    (self : PoseGraphOptimizer) (odom_poses : list mat4) :
  (1 <= length odom_poses)%nat ->
  Forall invertible odom_poses ->
  pose_ids self = ∅ -> initial_estimates self = ∅ ->
  build_from_odometry self [] = Some (self, ∅)
  /\ exists self' p0 prior between,
       odom_poses !! 0%nat = Some p0
       /\ carries prior p0
       /\ build_graph self odom_poses = Some self'
       /\ (forall r, build_from_odometry self odom_poses = Some r ->
                     r.1 = self')
       /\ (forall optimized, optimize self' 100 = Some optimized ->
             build_from_odometry self odom_poses = Some (self', optimized))
       /\ graph self'
          = graph self
            ++ PriorFactorPose3 0 prior (noise_model_prior self) :: between
       /\ length between = (length odom_poses - 1)%nat
       /\ (forall i, (1 <= i < length odom_poses)%nat ->
             exists f, between !! (i - 1)%nat = Some f
                       /\ odometry_factor self odom_poses i f)
       /\ n_odom_factors self'
          = (n_odom_factors self + (length odom_poses - 1))%nat
       /\ n_loop_factors self' = n_loop_factors self
       /\ (forall z : Z,
             z ∈ pose_ids self' <-> (0 <= z < Z.of_nat (length odom_poses))%Z)
       /\ dom (initial_estimates self') = pose_ids self'
       /\ (forall i P, odom_poses !! i = Some P ->
             exists estimate,
               initial_estimates self' !! Z.of_nat i = Some estimate
               /\ carries estimate P).
Proof.
  intros Hlen Hinv Hids Hest. split; [done|].
  destruct (lookup_lt_is_Some_2 odom_poses 0 ltac:(lia)) as [p0 Hp0].
  destruct (chained_fold self odom_poses p0 (length odom_poses - 1) _ Hinv
              ltac:(lia) (chained_start self odom_poses p0 Hids Hest Hp0))
    as (self' & Hfold & Hch).
  destruct Hch as (Hnoise & Hodom & Hloop & Hids' & Hest' & bs & Hgraph & Hbl & Hbs).
  assert (build_graph self odom_poses = Some self') as Hbuild.
  { unfold build_graph. rewrite Hp0. exact Hfold. }
  exists self', p0, (matrix_to_pose3 p0), bs.
  split; [done|]. split; [done|]. split; [done|].
  split; [|split].
  - intros r. unfold build_from_odometry.
    rewrite decide_False by lia. rewrite Hbuild. cbn [mbind option_bind].
    destruct (optimize self' 100); [|done]. by intros [= <-].
  - intros optimized Hopt. unfold build_from_odometry.
    rewrite decide_False by lia. rewrite Hbuild. cbn [mbind option_bind].
    rewrite Hopt. done.
  - split; [done|]. split; [done|]. split.
    { intros i Hi. apply Hbs. lia. }
    split; [done|]. split; [done|]. split; [|split].
    + intros z. rewrite Hids'. lia.
    + apply set_eq. intros z. rewrite elem_of_dom, Hids', Hest'.
      destruct (decide _) as [Hz|Hz]; [|split; [by intros [? ?]|done]].
      split; [done|]. intros _.
      destruct (lookup_lt_is_Some_2 odom_poses (Z.to_nat z) ltac:(lia))
        as [P ->]. eauto.
    + intros i P Hi. rewrite Hest'.
      pose proof (lookup_lt_Some _ _ _ Hi) as Hlt.
      rewrite decide_True by lia. rewrite Nat2Z.id, Hi.
      exists (matrix_to_pose3 P). done.
Qed.

End WithGtsam.

(** An optimizer that returns the initial values. *)
Definition initial_values : Gtsam :=
  {| LevenbergMarquardtOptimizer := fun _ initial _ => initial |}.

(** Two poses one metre apart along X. *)
Definition two_poses : list mat4 := [eye4; translate (1, 0, 0)].

Lemma two_poses_invertible : Forall invertible two_poses.
Proof.
  unfold two_poses, invertible.
  repeat constructor; unfold det4, det3; simpl; lra.
Qed.

(** The theorem of C9 at [two_poses], on a new object. *)
Lemma build_from_odometry_adds_prior_estimates_and_chain_witness :
  @build_from_odometry initial_values (init default_config) []
  = Some (init default_config, ∅)
  /\ exists self' p0 prior between,
       two_poses !! 0%nat = Some p0
       /\ carries prior p0
       /\ build_graph (init default_config) two_poses = Some self'
       /\ (forall r,
             @build_from_odometry initial_values (init default_config) two_poses
             = Some r -> r.1 = self')
       /\ (forall optimized, @optimize initial_values self' 100 = Some optimized ->
             @build_from_odometry initial_values (init default_config) two_poses
             = Some (self', optimized))
       /\ graph self'
          = graph (init default_config)
            ++ PriorFactorPose3 0 prior
                 (noise_model_prior (init default_config))
               :: between
       /\ length between = (length two_poses - 1)%nat
       /\ (forall i, (1 <= i < length two_poses)%nat ->
             exists f, between !! (i - 1)%nat = Some f
                       /\ odometry_factor (init default_config) two_poses i f)
       /\ n_odom_factors self'
          = (n_odom_factors (init default_config) + (length two_poses - 1))%nat
       /\ n_loop_factors self' = n_loop_factors (init default_config)
       /\ (forall z : Z,
             z ∈ pose_ids self' <-> (0 <= z < Z.of_nat (length two_poses))%Z)
       /\ dom (initial_estimates self') = pose_ids self'
       /\ (forall i P, two_poses !! i = Some P ->
             exists estimate,
               initial_estimates self' !! Z.of_nat i = Some estimate
               /\ carries estimate P).
Proof.
  apply (@build_from_odometry_adds_prior_estimates_and_chain initial_values
           (init default_config) two_poses).
  - simpl. lia.
  - exact two_poses_invertible.
  - reflexivity.
  - reflexivity.
Defined.

End PoseGraphFacts.

(** ** Pose graph: relative poses, round trips and bookkeeping *)

Module PoseGraphMore.
Import Linalg PyList LinalgFacts PoseGraph PoseGraphFacts PoseGraphStats.
#[local] Open Scope R_scope.

(** Converting a pose to a matrix and back returns the pose; converting a
    matrix to a pose and back returns the matrix exactly when its last row
    is [0 0 0 1]. *)
Theorem pose3_matrix_round_trip :
  (forall pose, matrix_to_pose3 (pose3_to_matrix pose) = pose)
  /\ (forall M, pose3_to_matrix (matrix_to_pose3 M) = M
                <-> row3 M = (0, 0, 0, 1))
  /\ (forall M, row3 (pose3_to_matrix (matrix_to_pose3 M)) = (0, 0, 0, 1)
                /\ rotation_block (pose3_to_matrix (matrix_to_pose3 M))
                   = rotation_block M
                /\ translation (pose3_to_matrix (matrix_to_pose3 M))
                   = translation M).
Proof.
  split; [|split].
  - intros [[[[[r00 r01] r02] [[r10 r11] r12]] [[r20 r21] r22]] [[tx ty] tz]].
    reflexivity.
  - intros M. destruct M. unfold matrix_to_pose3, pose3_to_matrix, row3.
    simpl. split.
    + intros [= <- <- <- <-]. done.
    + intros [= -> -> -> ->]. done.
  - intros M. destruct M. done.
Qed.


(** *** [optimize] *)

Section WithGtsam.
Context `{gtsam : !Gtsam}.

(** One pass of the loop of [optimize]. *)
Definition read_pose (result : gmap Z Pose3)
    (optimized_poses : option (gmap Z mat4)) (pose_id : Z)
    : option (gmap Z mat4) :=
  optimized_poses ← optimized_poses;
  pose3 ← result !! pose_id;
  Some (<[pose_id := pose3_to_matrix pose3]> optimized_poses).

Lemma read_pose_None (result : gmap Z Pose3) (ids : list Z) :
  fold_left (read_pose result) ids None = None.
Proof. induction ids as [|id ids IH]; [done|]. cbn [fold_left]. exact IH. Qed.

Lemma read_pose_fold (result : gmap Z Pose3) (ids : list Z)
    (acc : gmap Z mat4) :
  (forall id, id ∈ ids -> is_Some (result !! id)) ->
  exists optimized,
    fold_left (read_pose result) ids (Some acc) = Some optimized
    /\ forall k,
         optimized !! k
         = if decide (k ∈ ids) then pose3_to_matrix <$> result !! k
           else acc !! k.
Proof.
  revert acc. induction ids as [|id ids IH]; intros acc Hall.
  - exists acc. split; [done|]. intros k.
    rewrite decide_False by apply not_elem_of_nil. done.
  - destruct (Hall id ltac:(left)) as [p Hp].
    destruct (IH (<[id := pose3_to_matrix p]> acc)) as (opt & Hfold & Hopt).
    { intros k Hk. apply Hall. by right. }
    exists opt. split.
    { cbn [fold_left].
      assert (read_pose result (Some acc) id
              = Some (<[id := pose3_to_matrix p]> acc)) as ->; [|exact Hfold].
      unfold read_pose. simpl. by rewrite Hp. }
    intros k. rewrite Hopt.
    destruct (decide (k ∈ ids)) as [Hin|Hnin].
    + rewrite decide_True by (by right). done.
    + destruct (decide (k = id)) as [->|Hne].
      * rewrite decide_True by left. rewrite lookup_insert_eq, Hp. done.
      * rewrite lookup_insert_ne by done.
        rewrite decide_False; [done|].
        intros [?|?]%elem_of_cons; done.
Qed.

Lemma read_pose_missing (result : gmap Z Pose3) (ids : list Z)
    (acc : option (gmap Z mat4)) (id : Z) :
  id ∈ ids -> result !! id = None ->
  fold_left (read_pose result) ids acc = None.
Proof.
  revert acc. induction ids as [|id' ids IH]; intros acc Hin Hnone.
  - by apply elem_of_nil in Hin.
  - cbn [fold_left]. apply elem_of_cons in Hin as [<-|Hin].
    + assert (read_pose result acc id = None) as ->; [|apply read_pose_None].
      unfold read_pose. destruct acc as [acc|]; simpl; [|done].
      by rewrite Hnone.
    + by apply IH.
Qed.

(** [optimize] returns one matrix for every tracked pose id and for no other
    key, the matrix of the value the optimizer gives that id; it fails, as
    [result.atPose3] raises, when the optimizer's values lack a tracked
    id. *)
Theorem optimize_returns_the_tracked_poses (self : PoseGraphOptimizer)
    (max_iterations : Z) :
  ((forall id, id ∈ pose_ids self ->
      is_Some (LevenbergMarquardtOptimizer (graph self)
                 (initial_estimates self) max_iterations !! id)) ->
   exists optimized,
     optimize self max_iterations = Some optimized
     /\ dom optimized = pose_ids self
     /\ forall id, id ∈ pose_ids self ->
          optimized !! id
          = pose3_to_matrix
              <$> LevenbergMarquardtOptimizer (graph self)
                    (initial_estimates self) max_iterations !! id)
  /\ (forall id, id ∈ pose_ids self ->
        LevenbergMarquardtOptimizer (graph self) (initial_estimates self)
          max_iterations !! id = None ->
        optimize self max_iterations = None).
Proof.
  split.
  - intros Hall.
    destruct (read_pose_fold
                (LevenbergMarquardtOptimizer (graph self)
                   (initial_estimates self) max_iterations)
                (elements (pose_ids self)) ∅) as (opt & Hfold & Hopt).
    { intros id Hid. apply Hall. by apply elem_of_elements. }
    exists opt. split; [exact Hfold|]. split.
    + apply set_eq. intros k. rewrite elem_of_dom, Hopt.
      destruct (decide (k ∈ elements (pose_ids self))) as [Hin|Hnin].
      * apply elem_of_elements in Hin. split; [done|]. intros _.
        destruct (Hall k Hin) as [p ->]. eauto.
      * rewrite lookup_empty. split; [by intros [? ?]|].
        intros Hk. exfalso. apply Hnin. by apply elem_of_elements.
    + intros id Hid. rewrite Hopt.
      rewrite decide_True by (by apply elem_of_elements). done.
  - intros id Hid Hnone. unfold optimize.
    eapply read_pose_missing; [|exact Hnone]. by apply elem_of_elements.
Qed.

End WithGtsam.

(** *** Any sequence of calls on a new optimizer *)

(** The four calls that change the object. *)
Inductive Call : Type :=
  | AddPrior (pose_id : Z) (pose : mat4)
  | AddInitialEstimate (pose_id : Z) (pose : mat4)
  | AddOdometryFactor (id_from id_to : Z) (relative_pose : mat4)
  | AddLoopClosure (id_from id_to : Z) (relative_pose : mat4).

Definition call (self : PoseGraphOptimizer) (c : Call) : PoseGraphOptimizer :=
  match c with
  | AddPrior pose_id pose => add_prior self pose_id pose
  | AddInitialEstimate pose_id pose => add_initial_estimate self pose_id pose
  | AddOdometryFactor id_from id_to T =>
      add_odometry_factor self id_from id_to T
  | AddLoopClosure id_from id_to T => add_loop_closure self id_from id_to T
  end.

(** The ids of a call are GTSAM keys: for any other [int] the call raises
    TypeError and changes nothing. *)
Definition ids_are_keys (c : Call) : Prop :=
  match c with
  | AddPrior pose_id _ | AddInitialEstimate pose_id _ => is_key pose_id
  | AddOdometryFactor id_from id_to _ | AddLoopClosure id_from id_to _ =>
      is_key id_from /\ is_key id_to
  end.

Definition is_prior (c : Call) : bool :=
  match c with AddPrior _ _ => true | _ => false end.

Definition is_odometry (c : Call) : bool :=
  match c with AddOdometryFactor _ _ _ => true | _ => false end.

Definition is_loop (c : Call) : bool :=
  match c with AddLoopClosure _ _ _ => true | _ => false end.

(** The pose of a call that gives an estimate for [pose_id]. *)
Definition estimate_for (pose_id : Z) (c : Call) : option mat4 :=
  match c with
  | AddInitialEstimate i pose => if decide (i = pose_id) then Some pose else None
  | _ => None
  end.

Definition count (f : Call -> bool) (calls : list Call) : nat :=
  length (filter (fun c => f c = true) calls).

Lemma count_snoc (f : Call -> bool) (calls : list Call) (c : Call) :
  count f (calls ++ [c]) = (count f calls + if f c then 1 else 0)%nat.
Proof.
  unfold count. rewrite filter_app, length_app. f_equal.
  destruct (f c) eqn:Hc.
  - by rewrite filter_cons_True.
  - rewrite filter_cons_False; [done|]. by rewrite Hc.
Qed.

Lemma head_omap_snoc {A B : Type} (f : A -> option B) (l : list A) (x : A) :
  head (omap f (l ++ [x]))
  = match head (omap f l) with Some y => Some y | None => f x end.
Proof.
  rewrite omap_app. destruct (omap f l) as [|y ys]; simpl.
  - by destruct (f x).
  - done.
Qed.

Lemma head_omap_None {A B : Type} (f : A -> option B) (l : list A) :
  head (omap f l) = None <-> forall x, x ∈ l -> f x = None.
Proof.
  induction l as [|x l IH]; simpl.
  - split; [|done]. intros _ x Hx. by apply elem_of_nil in Hx.
  - destruct (f x) eqn:Hfx; simpl.
    + split; [done|]. intros Hall. specialize (Hall x ltac:(left)). congruence.
    + rewrite IH. split.
      * intros Hall y [->|Hy]%elem_of_cons; [done|by apply Hall].
      * intros Hall y Hy. apply Hall. by right.
Qed.

(** What holds of the object after the calls [calls] on a new optimizer. *)
Definition accounted (config : Config) (calls : list Call)
    (s : PoseGraphOptimizer) : Prop :=
  noise_model_odom s = noise_model_odom (init config)
  /\ noise_model_loop s = noise_model_loop (init config)
  /\ noise_model_prior s = noise_model_prior (init config)
  /\ dom (initial_estimates s) = pose_ids s
  /\ (forall pose_id,
        initial_estimates s !! pose_id
        = matrix_to_pose3 <$> head (omap (estimate_for pose_id) calls))
  /\ odom_factors (get_statistics s) = count is_odometry calls
  /\ loop_factors (get_statistics s) = count is_loop calls
  /\ n_total_factors (get_statistics s)
     = (count is_prior calls + count is_odometry calls
        + count is_loop calls)%nat
  /\ n_poses (get_statistics s) = size (initial_estimates s).

Lemma accounted_init (config : Config) : accounted config [] (init config).
Proof.
  unfold accounted, get_statistics, count. simpl.
  repeat split; done.
Qed.

Lemma accounted_call (config : Config) (calls : list Call)
    (s : PoseGraphOptimizer) (c : Call) :
  accounted config calls s -> accounted config (calls ++ [c]) (call s c).
Proof.
  intros (Ho & Hl & Hp & Hdom & Hest & Hno & Hnl & Hnt & Hnp).
  unfold accounted, get_statistics in *. simpl in *.
  rewrite !count_snoc.
  assert (forall k c',
            estimate_for k c' = None ->
            initial_estimates s !! k
            = matrix_to_pose3 <$> head (omap (estimate_for k) (calls ++ [c'])))
    as Hsame.
  { intros k c' Hc'. rewrite head_omap_snoc, Hc', Hest. by destruct (head _). }
  destruct c as [pid pose|pid pose|i j T|i j T]; simpl.
  - split; [done|]. split; [done|]. split; [done|]. split; [done|].
    split; [intros k; by apply Hsame|]. split; [lia|]. split; [lia|].
    split; [|done]. rewrite length_app. simpl. lia.
  - unfold add_initial_estimate.
    destruct (decide (pid ∉ pose_ids s)) as [Hnew|Hold]; simpl.
    + split; [done|]. split; [done|]. split; [done|].
      split; [by rewrite dom_insert_L, Hdom|].
      split; [|split; [lia|split; [lia|split; [lia|]]]].
      * intros k. destruct (decide (pid = k)) as [->|Hne].
        -- rewrite lookup_insert_eq, head_omap_snoc. simpl.
           rewrite decide_True by done.
           assert (initial_estimates s !! k = None) as Hk.
           { apply not_elem_of_dom. by rewrite Hdom. }
           rewrite Hest in Hk. by destruct (head _).
        -- rewrite lookup_insert_ne by done. apply Hsame. simpl.
           by rewrite decide_False.
      * rewrite map_size_insert_None.
        -- rewrite size_union by (by apply disjoint_singleton_l).
           rewrite size_singleton. lia.
        -- apply not_elem_of_dom. by rewrite Hdom.
    + split; [done|]. split; [done|]. split; [done|]. split; [done|].
      split; [|split; [lia|split; [lia|split; [lia|done]]]].
      intros k. destruct (decide (pid = k)) as [->|Hne].
      * rewrite head_omap_snoc. simpl. rewrite Hest.
        assert (is_Some (initial_estimates s !! k)) as [p Hk].
        { apply elem_of_dom. rewrite Hdom.
          by destruct (decide (k ∈ pose_ids s)). }
        rewrite Hest in Hk. by destruct (head _).
      * apply Hsame. simpl. by rewrite decide_False.
  - split; [done|]. split; [done|]. split; [done|]. split; [done|].
    split; [intros k; by apply Hsame|]. split; [lia|]. split; [lia|].
    split; [|done]. rewrite length_app. simpl. lia.
  - split; [done|]. split; [done|]. split; [done|]. split; [done|].
    split; [intros k; by apply Hsame|]. split; [lia|]. split; [lia|].
    split; [|done]. rewrite length_app. simpl. lia.
Qed.

Lemma accounted_fold (config : Config) (calls : list Call) :
  accounted config calls (fold_left call calls (init config)).
Proof.
  induction calls as [|c calls IH] using rev_ind.
  - apply accounted_init.
  - rewrite fold_left_app. simpl. by apply accounted_call.
Qed.

(** After any sequence of calls on a new optimizer whose ids are GTSAM keys,
    the noise models are those of the configuration, the tracked ids are
    keys and are the keys of the initial estimates, every id holds the
    estimate of the first call that gave it one, with the rotation block
    and the translation of that call's array, and the statistics count the
    calls: one factor per prior, odometry and loop call. *)
Theorem calls_are_accounted_for (config : Config) (calls : list Call) :
  Forall ids_are_keys calls ->
  let s := fold_left call calls (init config) in
  noise_model_odom s = odom_rot config ++ odom_trans config
  /\ noise_model_loop s = loop_rot config ++ loop_trans config
  /\ noise_model_prior s = prior_noise config
  /\ dom (initial_estimates s) = pose_ids s
  /\ (forall pose_id, pose_id ∈ pose_ids s -> is_key pose_id)
  /\ (forall pose_id,
        initial_estimates s !! pose_id
        = matrix_to_pose3 <$> head (omap (estimate_for pose_id) calls))
  /\ (forall pose_id estimate,
        initial_estimates s !! pose_id = Some estimate ->
        exists pose, head (omap (estimate_for pose_id) calls) = Some pose
                     /\ carries estimate pose)
  /\ odom_factors (get_statistics s) = count is_odometry calls
  /\ loop_factors (get_statistics s) = count is_loop calls
  /\ n_total_factors (get_statistics s)
     = (count is_prior calls + count is_odometry calls
        + count is_loop calls)%nat
  /\ n_poses (get_statistics s) = size (initial_estimates s).
Proof.
  intros Hkeys s.
  destruct (accounted_fold config calls)
    as (Ho & Hl & Hp & Hdom & Hest & Hno & Hnl & Hnt & Hnp).
  fold s in Ho, Hl, Hp, Hdom, Hest, Hno, Hnl, Hnt, Hnp.
  split; [done|]. split; [done|]. split; [done|]. split; [done|].
  split; [|split; [done|split; [|done]]].
  - intros pose_id Hin. rewrite <- Hdom in Hin.
    apply elem_of_dom in Hin as [estimate Hin]. rewrite Hest in Hin.
    destruct (head (omap (estimate_for pose_id) calls)) as [pose|] eqn:Hhead;
      [|done].
    apply head_Some_elem_of in Hhead.
    apply list_elem_of_omap in Hhead as (c & Hc & Hfor).
    pose proof (proj1 (Forall_forall _ _) Hkeys c Hc) as Hkey.
    destruct c as [i P|i P|i j T|i j T]; simpl in Hfor; try done.
    destruct (decide (i = pose_id)) as [<-|]; [exact Hkey|done].
  - intros pose_id estimate Hin. rewrite Hest in Hin.
    destruct (head (omap (estimate_for pose_id) calls)) as [pose|];
      [|done].
    injection Hin as <-. exists pose. done.
Qed.

(** A prior and an estimate for vertex 0, an estimate for vertex 1, the
    factor that joins them, and a second estimate for vertex 1. *)
Definition demo_calls : list Call :=
  [AddPrior 0 eye4; AddInitialEstimate 0 eye4;
   AddInitialEstimate 1 (translate (1, 0, 0));
   AddOdometryFactor 0 1 (translate (1, 0, 0));
   AddInitialEstimate 1 eye4].

(** The theorem at [demo_calls]: two poses, two factors, and vertex 1
    keeps its first estimate. *)
Lemma calls_are_accounted_for_witness :
  Forall ids_are_keys demo_calls
  /\ n_poses (get_statistics (fold_left call demo_calls (init default_config)))
     = size (initial_estimates
               (fold_left call demo_calls (init default_config)))
  /\ n_total_factors
       (get_statistics (fold_left call demo_calls (init default_config)))
     = 2%nat
  /\ initial_estimates (fold_left call demo_calls (init default_config))
       !! 1%Z
     = Some (matrix_to_pose3 (translate (1, 0, 0))).
Proof.
  assert (Forall ids_are_keys demo_calls) as Hkeys.
  { unfold demo_calls, ids_are_keys, is_key. repeat constructor; lia. }
  destruct (calls_are_accounted_for default_config demo_calls Hkeys)
    as (_ & _ & _ & _ & _ & Hest & _ & _ & _ & Htotal & Hposes).
  split; [exact Hkeys|]. split; [exact Hposes|].
  split; [exact Htotal|exact (Hest 1%Z)].
Defined.

(** *** The length of a trajectory *)

(** The sum of the distances between consecutive positions. *)
Fixpoint path_length (ps : list vec3) : R :=
  match ps with
  | p :: (q :: _) as rest => norm3 (vsub3 q p) + path_length rest
  | _ => 0
  end.

Lemma path_length_nonneg (ps : list vec3) : 0 <= path_length ps.
Proof.
  induction ps as [|p [|q rest] IH]; simpl; try lra.
  pose proof (norm3_nonneg (vsub3 q p)). simpl in IH. lra.
Qed.

Lemma path_length_snoc (ps : list vec3) (q p : vec3) :
  last ps = Some q ->
  path_length (ps ++ [p]) = path_length ps + norm3 (vsub3 p q).
Proof.
  induction ps as [|a [|b rest] IH]; intros Hlast; [done| |].
  - injection Hlast as ->. simpl. lra.
  - change (path_length ((a :: b :: rest) ++ [p]))
      with (norm3 (vsub3 b a) + path_length ((b :: rest) ++ [p])).
    rewrite IH by done. simpl. lra.
Qed.

Lemma length_fold (poses : gmap Z mat4) (ids : list Z) (ps : list vec3)
    (k : nat) :
  Forall2 (fun i p => exists P, poses !! i = Some P /\ p = translation P)
    ids ps ->
  (k < length ids)%nat ->
  fold_left (length_step poses ids) (seq 1 k) (Some 0)
  = Some (path_length (take (S k) ps)).
Proof.
  intros Hids. induction k as [|k IH]; intros Hk.
  - simpl. by destruct ps as [|p [|q ps]].
  - rewrite seq_S, fold_left_app, IH by lia. simpl.
    pose proof (Forall2_length _ _ _ Hids) as Hlen.
    destruct (lookup_lt_is_Some_2 ids k ltac:(lia)) as [i1 Hi1].
    destruct (lookup_lt_is_Some_2 ids (S k) ltac:(lia)) as [i2 Hi2].
    destruct (lookup_lt_is_Some_2 ps k ltac:(lia)) as [p1 Hp1].
    destruct (lookup_lt_is_Some_2 ps (S k) ltac:(lia)) as [p2 Hp2].
    destruct (Forall2_lookup_lr _ _ _ _ _ _ Hids Hi1 Hp1) as (P1 & HP1 & ->).
    destruct (Forall2_lookup_lr _ _ _ _ _ _ Hids Hi2 Hp2) as (P2 & HP2 & ->).
    unfold length_step. simpl. replace (k - 0)%nat with k by lia.
    rewrite Hi1. simpl. rewrite Hi2. simpl. rewrite HP1, HP2. simpl.
    f_equal. rewrite (take_S_r ps (S k) _ Hp2).
    rewrite (path_length_snoc _ (translation P1)); [done|].
    rewrite last_lookup, length_take, Nat.min_l by lia. simpl.
    rewrite lookup_take_lt by lia. done.
Qed.

(** [compute_trajectory_length] returns, for every pose dictionary, the sum
    of the distances between the positions of consecutive ids, taken in
    increasing order of the ids: it is never negative, and it is 0 for
    fewer than two poses. *)
Theorem trajectory_length_sums_consecutive_distances (poses : gmap Z mat4) :
  compute_trajectory_length poses
  = Some (path_length (WaypointExtractor.positions_of poses))
  /\ 0 <= path_length (WaypointExtractor.positions_of poses)
  /\ ((size poses <= 1)%nat ->
      path_length (WaypointExtractor.positions_of poses) = 0).
Proof.
  pose proof (ExtractFacts.positions_of_ids poses) as Hids.
  pose proof (ExtractFacts.positions_of_length poses) as Hlen.
  pose proof (ExtractFacts.sorted_ids_length poses) as Hlen'.
  split; [|split].
  - unfold compute_trajectory_length.
    change (sorted (elements (dom poses)))
      with (WaypointExtractor.sorted_ids poses).
    destruct (decide (size poses = 0)%nat) as [Hz|Hnz].
    + rewrite Hlen', Hz. simpl.
      destruct (WaypointExtractor.positions_of poses); [done|].
      simpl in Hlen. lia.
    + rewrite (length_fold poses _ _ _ Hids) by lia.
      rewrite take_ge by lia. done.
  - apply path_length_nonneg.
  - intros Hsz.
    destruct (WaypointExtractor.positions_of poses) as [|p [|q rest]];
      [done|done|]. simpl in Hlen. lia.
Qed.

End PoseGraphMore.


(** ** Loop closure: order, verification and the descriptor database *)

Module LoopMore.
Import Linalg PyList LinalgFacts DPFacts LoopFacts ScanContextFacts
  SimilarityFacts.
#[local] Open Scope R_scope.

(** *** The order of the candidates *)

(** Pairs in dictionary order. *)
Definition lex_lt (a b : Z * Z) : Prop :=
  (a.1 < b.1)%Z \/ (a.1 = b.1 /\ (a.2 < b.2)%Z).

Lemma StronglySorted_flat_map {A B : Type} (S : A -> A -> Prop)
    (T : B -> B -> Prop) (f : A -> list B) (l : list A) :
  StronglySorted S l ->
  (forall x, x ∈ l -> StronglySorted T (f x)) ->
  (forall x y a b, S x y -> a ∈ f x -> b ∈ f y -> T a b) ->
  StronglySorted T (flat_map f l).
Proof.
  intros Hl Hf Hcross. induction Hl as [|x l Hl IH Hx]; [constructor|].
  simpl. apply StronglySorted_app_2; [|apply Hf; left|].
  - intros a b Ha Hb. apply elem_of_flat_map in Hb as (y & Hy & Hb).
    rewrite Forall_forall in Hx. by apply (Hcross x y); [apply Hx| |].
  - apply IH. intros y Hy. apply Hf. by right.
Qed.

Lemma pose_ids_increasing (poses : gmap Z mat4) :
  StronglySorted Z.lt (sorted (elements (dom poses))).
Proof.
  pose proof (pose_ids_NoDup poses) as Hnd.
  assert (StronglySorted Z.le (sorted (elements (dom poses)))) as Hs.
  { unfold sorted. apply StronglySorted_merge_sort; [apply _|].
    intros x y. lia. }
  induction Hs as [|x l Hs IH Hx]; [constructor|].
  apply NoDup_cons in Hnd as [Hnin Hnd]. constructor; [by apply IH|].
  rewrite Forall_forall in *. intros y Hy. specialize (Hx y Hy).
  assert (x <> y) by (intros ->; done). lia.
Qed.

(** The candidates come out in strictly ascending dictionary order:
    ascending first id, and ascending second id among those of one first
    id. *)
Theorem candidates_are_listed_in_dictionary_order
    (self : LoopDetector.Config) (poses : gmap Z mat4) :
  StronglySorted lex_lt (LoopDetector.detect_candidates self poses).
Proof.
  unfold LoopDetector.detect_candidates.
  pose proof (pose_ids_increasing poses) as Hinc.
  eapply (StronglySorted_flat_map Z.lt); [exact Hinc| |].
  - intros id_i _.
    eapply (StronglySorted_flat_map Z.lt); [exact Hinc| |].
    + intros id_j _. unfold LoopDetector.candidate_step.
      repeat case_match; repeat constructor.
    + intros x y a b Hxy Ha Hb.
      apply candidate_step_elem in Ha as (-> & _), Hb as (-> & _).
      right. done.
  - intros x y a b Hxy Ha Hb.
    apply elem_of_flat_map in Ha as (ja & _ & Ha), Hb as (jb & _ & Hb).
    apply candidate_step_elem in Ha as (-> & _), Hb as (-> & _).
    left. done.
Qed.


(** *** The descriptor as a function of the cloud *)

Lemma clamped_max_in (zs : list R) : clamped_max zs ∈ 0 :: zs.
Proof. apply fold_left_Rmax_elem. Qed.

Lemma clamped_max_le (zs zs' : list R) :
  (forall z, z ∈ zs -> z ∈ zs') -> clamped_max zs <= clamped_max zs'.
Proof.
  intros Hsub. pose proof (clamped_max_in zs) as [->|Hin]%elem_of_cons.
  - apply clamped_max_nonneg.
  - by apply clamped_max_upper, Hsub.
Qed.

Lemma clamped_max_perm (zs zs' : list R) :
  zs ≡ₚ zs' -> clamped_max zs = clamped_max zs'.
Proof.
  intros Hp. apply Rle_antisym; apply clamped_max_le; intros z Hz.
  - by rewrite <- Hp.
  - by rewrite Hp.
Qed.

Lemma shaped_ext (self : LoopDetector.ScanContext) (d d' : list (list R)) :
  shaped self d -> shaped self d' ->
  (forall r a,
     (0 <= r < LoopDetector.num_rings self)%Z ->
     (0 <= a < LoopDetector.num_sectors self)%Z ->
     LoopDetector.get_bin d r a = LoopDetector.get_bin d' r a) ->
  d = d'.
Proof.
  intros Hd Hd' Hbins. pose proof Hd as [Hrows Hcols].
  pose proof Hd' as [Hrows' Hcols'].
  apply list_eq_same_length with (length d); [congruence|done|].
  intros i row row' Hi Hrow Hrow'. f_equal.
  assert (length row = Z.to_nat (LoopDetector.num_sectors self)) as Hlen.
  { rewrite Forall_forall in Hcols. apply Hcols.
    by eapply list_elem_of_lookup_2. }
  assert (length row' = Z.to_nat (LoopDetector.num_sectors self)) as Hlen'.
  { rewrite Forall_forall in Hcols'. apply Hcols'.
    by eapply list_elem_of_lookup_2. }
  apply list_eq_same_length with (length row); [congruence|done|].
  intros j x x' Hj Hx Hx'.
  destruct (get_bin_shaped self d (Z.of_nat i) (Z.of_nat j) Hd)
    as (r1 & x1 & Hr1 & Hx1 & Hg1); [lia..|].
  destruct (get_bin_shaped self d' (Z.of_nat i) (Z.of_nat j) Hd')
    as (r2 & x2 & Hr2 & Hx2 & Hg2); [lia..|].
  rewrite Nat2Z.id in *.
  assert (Some x1 = Some x2) as Heq.
  { rewrite <- Hg1, <- Hg2. apply Hbins; lia. }
  congruence.
Qed.

(** On a grid of at least one ring and one sector the descriptor is an
    array of [num_rings] rows of [num_sectors] entries, and it does not
    depend on the order of the points. *)
Theorem descriptor_ignores_point_order (self : LoopDetector.ScanContext)
    (pts pts' : list vec3) :
  (0 < LoopDetector.num_rings self)%Z ->
  (0 < LoopDetector.num_sectors self)%Z ->
  pts ≡ₚ pts' ->
  exists d,
    LoopDetector.compute_descriptor self pts = Some d
    /\ LoopDetector.compute_descriptor self pts' = Some d
    /\ length d = Z.to_nat (LoopDetector.num_rings self)
    /\ Forall (fun row =>
                 length row = Z.to_nat (LoopDetector.num_sectors self)) d.
Proof.
  intros Hr Hs Hperm.
  destruct (compute_descriptor_spec self pts Hr Hs) as (d & Hd & Hshape & Hbins).
  destruct (compute_descriptor_spec self pts' Hr Hs)
    as (d' & Hd' & Hshape' & Hbins').
  exists d. split; [done|]. split; [|exact Hshape].
  rewrite Hd'. f_equal. apply (shaped_ext self); [done..|].
  intros r a Hr' Ha'. rewrite Hbins, Hbins' by done. f_equal.
  apply clamped_max_perm. unfold bin_heights.
  apply fmap_Permutation, filter_Permutation. by symmetry.
Qed.

(** The theorem at two points in both orders, on the default grid. *)
Lemma descriptor_ignores_point_order_witness :
  exists d,
    LoopDetector.compute_descriptor LoopDetector.default_scan_context
      [(1, 0, 1); (0, 1, 2)] = Some d
    /\ LoopDetector.compute_descriptor LoopDetector.default_scan_context
         [(0, 1, 2); (1, 0, 1)] = Some d
    /\ length d
       = Z.to_nat (LoopDetector.num_rings LoopDetector.default_scan_context)
    /\ Forall (fun row =>
                 length row
                 = Z.to_nat (LoopDetector.num_sectors
                               LoopDetector.default_scan_context)) d.
Proof.
  apply (descriptor_ignores_point_order LoopDetector.default_scan_context
           [(1, 0, 1); (0, 1, 2)] [(0, 1, 2); (1, 0, 1)]).
  - reflexivity.
  - reflexivity.
  - apply Permutation_swap.
Defined.

Lemma descriptor_step_None (self : LoopDetector.ScanContext)
    (pts : list vec3) :
  fold_left (LoopDetector.descriptor_step self) pts None = None.
Proof. induction pts as [|p pts IH]; [done|]. exact IH. Qed.

(** The descriptor of a cloud with at least one point exists exactly when
    the grid has at least one ring and one sector: otherwise [np.zeros]
    rejects a negative dimension or the first point indexes an empty
    axis. *)
Theorem descriptor_needs_a_ring_and_a_sector
    (self : LoopDetector.ScanContext) (p : vec3) (pts : list vec3) :
  is_Some (LoopDetector.compute_descriptor self (p :: pts))
  <-> (0 < LoopDetector.num_rings self)%Z
      /\ (0 < LoopDetector.num_sectors self)%Z.
Proof.
  split.
  - intros [d Hd]. unfold LoopDetector.compute_descriptor in Hd.
    cbn [fold_left] in Hd.
    destruct (LoopDetector.descriptor_step self _ p) as [d1|] eqn:Hstep;
      [|by rewrite descriptor_step_None in Hd].
    clear Hd. unfold LoopDetector.zeros in Hstep.
    destruct (decide _) as [[Hr Hs]|]; [|done].
    unfold LoopDetector.descriptor_step, LoopDetector.get_bin in Hstep.
    cbn [mbind option_bind] in Hstep.
    rewrite length_replicate in Hstep.
    destruct (decide (LoopDetector.num_rings self = 0%Z)) as [Hr0|Hr0].
    { exfalso. rewrite Hr0 in Hstep.
      unfold LoopDetector.axis_index in Hstep.
      rewrite !decide_False in Hstep by (simpl; lia). done. }
    split; [lia|].
    destruct (decide (LoopDetector.num_sectors self = 0%Z)) as [Hs0|Hs0];
      [|lia].
    exfalso.
    pose proof (range_idx_in_range self p ltac:(lia)) as Hri.
    rewrite axis_index_in_range in Hstep by lia.
    cbn [mbind option_bind] in Hstep.
    rewrite lookup_replicate_2 in Hstep by lia.
    cbn [mbind option_bind] in Hstep. rewrite length_replicate, Hs0 in Hstep.
    unfold LoopDetector.axis_index in Hstep.
    rewrite !decide_False in Hstep by (simpl; lia). done.
  - intros [Hr Hs].
    destruct (compute_descriptor_spec self (p :: pts) Hr Hs) as (d & Hd & _).
    eauto.
Qed.


(** *** The descriptor database *)

Import ScanContextDb.

(** The keys of a dictionary, in insertion order. *)
Definition keys {V : Type} (d : dict V) : list Z := fst <$> d.

Lemma dict_get_elem {V : Type} (d : dict V) (k : Z) (v : V) :
  dict_get d k = Some v -> (k, v) ∈ d.
Proof.
  induction d as [|[k' v'] d IH]; [done|]. simpl.
  destruct (decide (k' = k)) as [->|Hne].
  - intros [= ->]. left.
  - intros Hget. right. by apply IH.
Qed.

Lemma dict_get_None {V : Type} (d : dict V) (k : Z) :
  dict_get d k = None <-> k ∉ keys d.
Proof.
  unfold keys. induction d as [|[k' v'] d IH]; simpl.
  - split; [intros _; apply not_elem_of_nil|done].
  - destruct (decide (k' = k)) as [->|Hne].
    + split; [done|]. intros Hnin. exfalso. apply Hnin. left.
    + rewrite IH, not_elem_of_cons. split; [by intros ?; split|by intros [_ ?]].
Qed.

Lemma dict_set_keys {V : Type} (d : dict V) (k : Z) (v : V) :
  keys (dict_set d k v) = if decide (k ∈ keys d) then keys d else keys d ++ [k].
Proof.
  unfold keys. induction d as [|[k' v'] d IH].
  - destruct (decide _) as [Hin|]; [by apply elem_of_nil in Hin|done].
  - cbn [dict_set].
    destruct (decide (k ∈ fst <$> (k', v') :: d)) as [Hin|Hnin].
    + destruct (decide (k' = k)) as [->|Hne]; [reflexivity|].
      rewrite fmap_cons, IH. rewrite fmap_cons in Hin.
      apply elem_of_cons in Hin as [?|Hin]; [simpl in *; congruence|].
      by rewrite decide_True.
    + rewrite fmap_cons in Hnin. apply not_elem_of_cons in Hnin as [Hne Hnin].
      simpl in Hne. rewrite decide_False by congruence.
      rewrite fmap_cons, IH. by rewrite decide_False.
Qed.

Lemma dict_get_set {V : Type} (d : dict V) (k k' : Z) (v : V) :
  dict_get (dict_set d k v) k'
  = if decide (k' = k) then Some v else dict_get d k'.
Proof.
  induction d as [|[k0 v0] d IH]; simpl.
  - destruct (decide (k = k')) as [->|Hne].
    + by rewrite decide_True.
    + rewrite decide_False by congruence. done.
  - destruct (decide (k0 = k)) as [->|Hne]; simpl.
    + destruct (decide (k = k')) as [->|Hne'].
      * by rewrite decide_True.
      * rewrite decide_False by congruence. done.
    + destruct (decide (k0 = k')) as [->|Hne'].
      * rewrite decide_False by congruence. done.
      * apply IH.
Qed.

(** [add_frame] fails only where [compute_descriptor] does.  After it the
    frame id reads the new descriptor and every other id reads what it read
    before; a known id keeps its place in the iteration order, a new one
    goes last, and no id is listed twice. *)
Theorem add_frame_stores_the_descriptor (self : Detector) (frame_id : Z)
    (pts : list vec3) :
  NoDup (keys (descriptors self)) ->
  match add_frame self frame_id pts with
  | None => LoopDetector.compute_descriptor (params self) pts = None
  | Some self' =>
      params self' = params self
      /\ dict_get (descriptors self') frame_id
         = LoopDetector.compute_descriptor (params self) pts
      /\ (forall k, k <> frame_id ->
            dict_get (descriptors self') k = dict_get (descriptors self) k)
      /\ keys (descriptors self')
         = (if decide (frame_id ∈ keys (descriptors self))
            then keys (descriptors self)
            else keys (descriptors self) ++ [frame_id])
      /\ NoDup (keys (descriptors self'))
  end.
Proof.
  intros Hnd. unfold add_frame.
  destruct (LoopDetector.compute_descriptor _ pts) as [desc|]; [|done].
  simpl. split; [done|]. split; [|split; [|split]].
  - rewrite dict_get_set. by rewrite decide_True.
  - intros k Hk. rewrite dict_get_set. by rewrite decide_False.
  - apply dict_set_keys.
  - rewrite dict_set_keys. destruct (decide _) as [Hin|Hnin]; [done|].
    apply NoDup_app. split; [done|]. split; [|apply NoDup_singleton].
    intros k Hk ->%list_elem_of_singleton. done.
Qed.

(** The theorem at the first frame of a new detector. *)
Lemma add_frame_stores_the_descriptor_witness :
  match add_frame (init LoopDetector.default_scan_context) 7 above_sensor with
  | None =>
      LoopDetector.compute_descriptor
        (params (init LoopDetector.default_scan_context)) above_sensor = None
  | Some self' =>
      params self' = params (init LoopDetector.default_scan_context)
      /\ dict_get (descriptors self') 7
         = LoopDetector.compute_descriptor
             (params (init LoopDetector.default_scan_context)) above_sensor
      /\ (forall k, k <> 7%Z ->
            dict_get (descriptors self') k
            = dict_get (descriptors (init LoopDetector.default_scan_context)) k)
      /\ keys (descriptors self')
         = (if decide
                 (7%Z ∈ keys (descriptors
                                (init LoopDetector.default_scan_context)))
            then keys (descriptors (init LoopDetector.default_scan_context))
            else keys (descriptors (init LoopDetector.default_scan_context))
                 ++ [7%Z])
      /\ NoDup (keys (descriptors self'))
  end.
Proof.
  apply (add_frame_stores_the_descriptor
           (init LoopDetector.default_scan_context) 7 above_sensor).
  apply NoDup_nil_2.
Defined.

(** *** [find_matches] *)

Section SortedBy.
Context {A : Type} (key : A -> R).

Lemma insert_by_perm (x : A) (l : list A) : insert_by key x l ≡ₚ x :: l.
Proof.
  induction l as [|y l IH]; [done|]. simpl.
  destruct (Rle_dec _ _); [done|]. rewrite IH. apply Permutation_swap.
Qed.

Lemma sorted_by_perm (l : list A) : sorted_by key l ≡ₚ l.
Proof.
  unfold sorted_by. induction l as [|x l IH]; [done|]. simpl.
  by rewrite insert_by_perm, IH.
Qed.

Lemma insert_by_sorted (x : A) (l : list A) :
  StronglySorted (fun a b => key a <= key b) l ->
  StronglySorted (fun a b => key a <= key b) (insert_by key x l).
Proof.
  induction 1 as [|y l Hl IH Hy]; simpl; [repeat constructor|].
  destruct (Rle_dec _ _) as [Hle|Hgt].
  - constructor; [by constructor|]. constructor; [done|].
    rewrite Forall_forall in *. intros z Hz. specialize (Hy z Hz). lra.
  - constructor; [done|]. rewrite insert_by_perm.
    constructor; [lra|done].
Qed.

Lemma sorted_by_sorted (l : list A) :
  StronglySorted (fun a b => key a <= key b) (sorted_by key l).
Proof.
  unfold sorted_by. induction l as [|x l IH]; [constructor|].
  simpl. by apply insert_by_sorted.
Qed.

End SortedBy.

Lemma StronglySorted_weaken {A : Type} (P Q : A -> A -> Prop) (l : list A) :
  (forall a b, P a b -> Q a b) -> StronglySorted P l -> StronglySorted Q l.
Proof.
  intros HPQ. induction 1 as [|x l Hl IH Hx]; constructor; [done|].
  eapply Forall_impl; [exact Hx|]. intros y. apply HPQ.
Qed.

(** What the loop of [find_matches] appends for an item. *)
Definition matches_item (self : Detector) (query_id min_gap : Z)
    (query_desc : list (list R)) (m : Z * R) (item : Z * list (list R))
    : Prop :=
  m.1 = item.1
  /\ (min_gap <= Z.abs (item.1 - query_id))%Z
  /\ m.2 = LoopDetector._compute_similarity (params self) query_desc item.2
  /\ m.2 > LoopDetector.similarity_threshold (params self).

Lemma match_fold_elem (self : Detector) (query_id min_gap : Z)
    (query_desc : list (list R)) (items : dict (list (list R)))
    (acc : list (Z * R)) (m : Z * R) :
  m ∈ fold_left (match_step self query_id min_gap query_desc) items acc
  <-> m ∈ acc
      \/ exists item, item ∈ items
                      /\ matches_item self query_id min_gap query_desc m item.
Proof.
  revert acc. induction items as [|[f desc] items IH]; intros acc.
  - simpl. split; [by left|]. intros [?|(item & Hin & _)]; [done|].
    by apply elem_of_nil in Hin.
  - cbn [fold_left]. rewrite IH. unfold match_step at 1.
    destruct (decide _) as [Hgap|Hgap].
    { split.
      - intros [?|(item & Hin & Hm)]; [by left|].
        right. exists item. split; [by right|done].
      - intros [?|(item & Hin & Hm)]; [by left|].
        apply elem_of_cons in Hin as [->|Hin].
        + destruct Hm as (_ & Hg & _). simpl in Hg. lia.
        + right. by exists item. }
    destruct (Rgt_dec _ _) as [Hsim|Hsim].
    + rewrite elem_of_app, list_elem_of_singleton. split.
      * intros [[?|Heq]|(item & Hin & Hm)].
        -- by left.
        -- subst m. right. exists (f, desc). split; [left|].
           split; [done|]. split; [simpl; lia|]. split; done.
        -- right. exists item. split; [by right|done].
      * intros [?|(item & Hin & Hm)]; [by left; left|].
        apply elem_of_cons in Hin as [->|Hin].
        -- left. right. destruct m as [mf ms].
           destruct Hm as (Hf & _ & Hs & _). simpl in *. by subst.
        -- right. by exists item.
    + split.
      * intros [?|(item & Hin & Hm)]; [by left|].
        right. exists item. split; [by right|done].
      * intros [?|(item & Hin & Hm)]; [by left|].
        apply elem_of_cons in Hin as [->|Hin].
        -- destruct Hm as (_ & _ & Hs & Hgt). simpl in *. lra.
        -- right. by exists item.
Qed.

Lemma match_fold_keys (self : Detector) (query_id min_gap : Z)
    (query_desc : list (list R)) (items : dict (list (list R)))
    (acc : list (Z * R)) :
  sublist (fst <$> fold_left (match_step self query_id min_gap query_desc)
                     items acc)
          ((fst <$> acc) ++ keys items).
Proof.
  revert acc. induction items as [|[f desc] items IH]; intros acc.
  - simpl. by rewrite app_nil_r.
  - cbn [fold_left]. etransitivity; [apply IH|].
    unfold match_step, keys. cbn [fmap list_fmap fst].
    destruct (decide _).
    { apply sublist_app; [done|]. by apply sublist_cons. }
    destruct (Rgt_dec _ _).
    + rewrite fmap_app, <- app_assoc. done.
    + apply sublist_app; [done|]. by apply sublist_cons.
Qed.

(** [find_matches] returns nothing for an unknown query.  For a known one it
    returns exactly the stored frames at least [min_gap] away whose
    similarity with the query exceeds the threshold, each with that
    similarity, in descending order of similarity; every similarity listed
    exceeds the threshold, no frame is listed twice, and the query itself is
    never among them when [min_gap] is positive. *)
Theorem find_matches_returns_the_similar_distant_frames (self : Detector)
    (query_id min_gap : Z) :
  (dict_get (descriptors self) query_id = None ->
   find_matches self query_id min_gap = [])
  /\ (forall query_desc,
        dict_get (descriptors self) query_id = Some query_desc ->
        (forall m,
           m ∈ find_matches self query_id min_gap
           <-> exists item, item ∈ descriptors self
                 /\ matches_item self query_id min_gap query_desc m item)
        /\ StronglySorted (fun a b => b.2 <= a.2)
             (find_matches self query_id min_gap)
        /\ (forall m, m ∈ find_matches self query_id min_gap ->
              LoopDetector.similarity_threshold (params self) < m.2)
        /\ (NoDup (keys (descriptors self)) ->
            NoDup (fst <$> find_matches self query_id min_gap))
        /\ ((0 < min_gap)%Z ->
            forall m, m ∈ find_matches self query_id min_gap ->
                      m.1 <> query_id)).
Proof.
  split; [intros Hq; unfold find_matches; by rewrite Hq|].
  intros query_desc Hq.
  assert (forall m,
            m ∈ find_matches self query_id min_gap
            <-> exists item, item ∈ descriptors self
                  /\ matches_item self query_id min_gap query_desc m item)
    as Hmem.
  { intros m. unfold find_matches. rewrite Hq.
    rewrite sorted_by_perm, match_fold_elem. split.
    - intros [Hnil|?]; [by apply elem_of_nil in Hnil|done].
    - intros ?. by right. }
  split; [exact Hmem|]. split; [|split; [|split]].
  - unfold find_matches. rewrite Hq.
    eapply StronglySorted_weaken;
      [|apply (sorted_by_sorted (fun x : Z * R => - x.2))].
    intros a b Hab. simpl in Hab. lra.
  - intros m Hm. apply Hmem in Hm as (item & _ & _ & _ & Hs & Hgt). lra.
  - intros Hnd. unfold find_matches. rewrite Hq.
    rewrite sorted_by_perm.
    eapply sublist_NoDup; [|apply match_fold_keys]. done.
  - intros Hgap m Hm. apply Hmem in Hm as (item & _ & Hf & Hg & _).
    rewrite Hf. intros Heq. rewrite Heq in Hg. lia.
Qed.


(** *** Verification of the candidates *)

Import O3d LoopVerifier.

Section WithOpen3D.
Context `{o3d : !Open3D}.

(** What the loop of [detect_and_verify] appends for a candidate. *)
Definition checked (self : Config) (poses : gmap Z mat4)
    (point_clouds : gmap Z (list vec3)) (candidate : Z * Z)
    : option (Z * Z * mat4) :=
  cloud_i ← point_clouds !! candidate.1;
  cloud_j ← point_clouds !! candidate.2;
  pose_i ← poses !! candidate.1;
  pose_j ← poses !! candidate.2;
  pose_i_inv ← PoseGraph.inv pose_i;
  let r := verify_loop self cloud_i cloud_j
             (Some (matmul pose_i_inv pose_j)) in
  if r.1.1 then Some (candidate.1, candidate.2, r.1.2) else None.

Lemma verify_fold (self : Config) (poses : gmap Z mat4)
    (point_clouds : gmap Z (list vec3)) (candidates : list (Z * Z))
    (acc : list (Z * Z * mat4)) :
  (forall i j, (i, j) ∈ candidates ->
     exists pose_i pose_j,
       poses !! i = Some pose_i /\ poses !! j = Some pose_j
       /\ PoseGraphFacts.invertible pose_i) ->
  fold_left (verify_step self poses point_clouds) candidates (Some acc)
  = Some (acc ++ omap (checked self poses point_clouds) candidates).
Proof.
  revert acc. induction candidates as [|[i j] cs IH]; intros acc Hall.
  - simpl. by rewrite app_nil_r.
  - cbn [fold_left omap list_omap].
    destruct (Hall i j ltac:(left)) as (Pi & Pj & HPi & HPj & Hinv).
    destruct (PoseGraphFacts.inv_is_Some Pi Hinv) as [Pinv HPinv].
    assert (verify_step self poses point_clouds (Some acc) (i, j)
            = Some (acc ++ match checked self poses point_clouds (i, j) with
                           | Some t => [t] | None => [] end)) as ->.
    { unfold verify_step, checked. cbn [mbind option_bind fst snd].
      destruct (point_clouds !! i) as [ci|]; cbn [mbind option_bind];
        [|by rewrite app_nil_r].
      destruct (point_clouds !! j) as [cj|]; cbn [mbind option_bind];
        [|by rewrite app_nil_r].
      rewrite HPi, HPj. cbn [mbind option_bind]. rewrite HPinv.
      cbn [mbind option_bind].
      destruct (verify_loop self ci cj (Some (matmul Pinv Pj)))
        as [[success transform] fit].
      cbn [fst snd]. destruct success; [done|by rewrite app_nil_r]. }
    rewrite IH.
    + rewrite <- app_assoc. by destruct (checked _ _ _ _).
    + intros a b Hab. apply Hall. by right.
Qed.

Lemma candidate_has_poses (self : LoopDetector.Config) (poses : gmap Z mat4)
    (i j : Z) :
  (i, j) ∈ LoopDetector.detect_candidates self poses ->
  exists pose_i pose_j, poses !! i = Some pose_i /\ poses !! j = Some pose_j.
Proof.
  unfold LoopDetector.detect_candidates. intros Hin.
  apply elem_of_flat_map in Hin as (id_i & _ & Hin).
  apply elem_of_flat_map in Hin as (id_j & _ & Hin).
  apply candidate_step_elem in Hin as ([= -> ->] & _ & Pi & Pj & ? & ? & _).
  eauto.
Qed.

Lemma omap_sublist {A B : Type} (f : A -> option B) (g : B -> A)
    (l : list A) :
  (forall x y, f x = Some y -> g y = x) -> sublist (g <$> omap f l) l.
Proof.
  intros Hfg. induction l as [|x l IH]; [done|]. simpl.
  destruct (f x) as [y|] eqn:Hy.
  - rewrite fmap_cons, (Hfg x y Hy). by apply sublist_skip.
  - by apply sublist_cons.
Qed.

(** When every pose is invertible [detect_and_verify] returns: its loops are
    exactly the candidates with both clouds on which the ICP check, started
    from [inv(pose_i) @ pose_j], reports a fitness above the threshold, each
    with the transformation ICP returned, in the order of the candidates. *)
Theorem verified_loops_are_the_checked_candidates (self : Config)
    (poses : gmap Z mat4) (point_clouds : gmap Z (list vec3)) :
  map_Forall (fun _ P => PoseGraphFacts.invertible P) poses ->
  exists loops,
    detect_and_verify self poses point_clouds = Some loops
    /\ (forall i j T,
          (i, j, T) ∈ loops
          <-> (i, j) ∈ LoopDetector.detect_candidates (detector self) poses
              /\ exists cloud_i cloud_j pose_i pose_j pose_i_inv,
                   point_clouds !! i = Some cloud_i
                   /\ point_clouds !! j = Some cloud_j
                   /\ poses !! i = Some pose_i /\ poses !! j = Some pose_j
                   /\ PoseGraph.inv pose_i = Some pose_i_inv
                   /\ exists fit,
                        verify_loop self cloud_i cloud_j
                          (Some (matmul pose_i_inv pose_j)) = (true, T, fit)
                        /\ fit > icp_fitness_threshold self)
    /\ sublist ((fun l => (l.1.1, l.1.2)) <$> loops)
         (LoopDetector.detect_candidates (detector self) poses)
    /\ (point_clouds = ∅ -> loops = []).
Proof.
  intros Hinv.
  set (cs := LoopDetector.detect_candidates (detector self) poses).
  assert (detect_and_verify self poses point_clouds
          = Some (omap (checked self poses point_clouds) cs)) as Hrun.
  { unfold detect_and_verify. fold cs. rewrite verify_fold; [done|].
    intros i j Hij. apply candidate_has_poses in Hij as (Pi & Pj & HPi & HPj).
    exists Pi, Pj. split; [done|]. split; [done|].
    by apply (Hinv i). }
  exists (omap (checked self poses point_clouds) cs).
  split; [exact Hrun|]. split; [|split].
  - intros i j T. rewrite list_elem_of_omap. split.
    + intros ([ci cj] & Hc & Hchk). unfold checked in Hchk.
      cbn -[verify_loop] in Hchk.
      destruct (point_clouds !! ci) as [cloud_i|] eqn:Hci; [|done].
      destruct (point_clouds !! cj) as [cloud_j|] eqn:Hcj; [|done].
      destruct (poses !! ci) as [pose_i|] eqn:Hpi; [|done].
      destruct (poses !! cj) as [pose_j|] eqn:Hpj; [|done].
      cbn -[verify_loop] in Hchk.
      destruct (PoseGraph.inv pose_i) as [pose_i_inv|] eqn:Hpinv; [|done].
      cbn -[verify_loop] in Hchk.
      destruct (verify_loop self cloud_i cloud_j _)
        as [[success transform] fit] eqn:Hv.
      simpl in Hchk. destruct success; [|done].
      injection Hchk as <- <- <-. split; [done|].
      exists cloud_i, cloud_j, pose_i, pose_j, pose_i_inv.
      repeat (split; [done|]). exists fit. split; [done|].
      unfold verify_loop in Hv. injection Hv as Hs _ <-.
      by apply bool_decide_eq_true in Hs.
    + intros (Hc & cloud_i & cloud_j & pose_i & pose_j & pose_i_inv
              & Hci & Hcj & Hpi & Hpj & Hpinv & fit & Hv & _).
      exists (i, j). split; [done|]. unfold checked. cbn -[verify_loop].
      rewrite Hci, Hcj, Hpi, Hpj. cbn -[verify_loop]. rewrite Hpinv.
      cbn -[verify_loop]. rewrite Hv. done.
  - apply omap_sublist. intros [ci cj] [[a b] T] Hchk.
    unfold checked in Hchk. cbn -[verify_loop] in Hchk.
    destruct (point_clouds !! ci); [|done].
    destruct (point_clouds !! cj); [|done].
    destruct (poses !! ci); [|done]. destruct (poses !! cj); [|done].
    cbn -[verify_loop] in Hchk. destruct (PoseGraph.inv _); [|done].
    cbn -[verify_loop] in Hchk.
    destruct (verify_loop _ _ _ _).1.1; [|done].
    by injection Hchk as <- <- _.
  - intros ->. clear Hrun. induction cs as [|[ci cj] cs IH]; [done|].
    simpl. unfold checked at 1. simpl. by rewrite lookup_empty.
Qed.

End WithOpen3D.

(** An Open3D whose registration always answers the initial guess with
    fitness 1; it keeps every point. *)
Definition agreeing_o3d : Open3D := {|
  voxel_down_sample := fun _ pts => pts;
  estimate_normals := fun _ _ pts => pts;
  registration_icp := fun _ _ _ init _ _ =>
    {| transformation := init; fitness := 1; inlier_rmse := 0 |}
|}.

(** A detector without frame gap. *)
Definition gapless : Config :=
  {| detector := {| LoopDetector.distance_threshold := 5;
                    LoopDetector.min_frame_gap := 0 |};
     icp_fitness_threshold := 0.3;
     icp_max_correspondence := 0.5 |}.

(** The theorem at one pose with its cloud. *)
Lemma verified_loops_are_the_checked_candidates_witness :
  exists loops,
    @detect_and_verify agreeing_o3d gapless {[ 0%Z := eye4 ]}
      {[ 0%Z := [(0, 0, 0)] ]} = Some loops
    /\ (forall i j T,
          (i, j, T) ∈ loops
          <-> (i, j) ∈ LoopDetector.detect_candidates (detector gapless)
                         {[ 0%Z := eye4 ]}
              /\ exists cloud_i cloud_j pose_i pose_j pose_i_inv,
                   ({[ 0%Z := [(0, 0, 0)] ]} : gmap Z (list vec3)) !! i
                   = Some cloud_i
                   /\ ({[ 0%Z := [(0, 0, 0)] ]} : gmap Z (list vec3)) !! j
                      = Some cloud_j
                   /\ ({[ 0%Z := eye4 ]} : gmap Z mat4) !! i = Some pose_i
                   /\ ({[ 0%Z := eye4 ]} : gmap Z mat4) !! j = Some pose_j
                   /\ PoseGraph.inv pose_i = Some pose_i_inv
                   /\ exists fit,
                        @verify_loop agreeing_o3d gapless cloud_i cloud_j
                          (Some (matmul pose_i_inv pose_j)) = (true, T, fit)
                        /\ fit > icp_fitness_threshold gapless)
    /\ sublist ((fun l => (l.1.1, l.1.2)) <$> loops)
         (LoopDetector.detect_candidates (detector gapless)
            {[ 0%Z := eye4 ]})
    /\ (({[ 0%Z := [(0, 0, 0)] ]} : gmap Z (list vec3)) = ∅ -> loops = []).
Proof.
  apply (@verified_loops_are_the_checked_candidates agreeing_o3d gapless
           {[ 0%Z := eye4 ]} {[ 0%Z := [(0, 0, 0)] ]}).
  apply map_Forall_singleton.
  unfold PoseGraphFacts.invertible, PoseGraph.det4, PoseGraph.det3. simpl. lra.
Defined.

End LoopMore.


(** ** Waypoints: what simplification guarantees *)

Module SimplifyMore.
Import Linalg Rounded PyList LinalgFacts WaypointFacts DPFacts SimplifyFacts.
#[local] Open Scope R_scope.

Section WithRounding.
Context `{rnd : !Rounding}.

(** Between the kept points [a] and [b] of [pts] the deviation computed for
    every point is at most [tol], unless their chord is shorter than
    1e-6. *)
Definition chord_ok (pts : list vec2) (tol : R) (a b : nat) : Prop :=
  forall pa pb, pts !! a = Some pa -> pts !! b = Some pb ->
    norm2 (vsub2 pb pa) < 1e-6
    \/ forall j p, (a < j < b)%nat -> pts !! j = Some p ->
         deviation pa pb p <= tol.

(** [Q] holds of every entry and its successor. *)
Definition consecutive (Q : nat -> nat -> Prop) (l : list nat) : Prop :=
  forall k a b, l !! k = Some a -> l !! S k = Some b -> Q a b.

Lemma consecutive_seq (Q : nat -> nat -> Prop) (n : nat) :
  (forall a, Q a (S a)) -> consecutive Q (seq 0 n).
Proof.
  intros HQ k a b Ha Hb.
  apply lookup_seq in Ha as [-> _], Hb as [-> _]. apply HQ.
Qed.

Lemma consecutive_pair (Q : nat -> nat -> Prop) (a b : nat) :
  Q a b -> consecutive Q [a; b].
Proof.
  intros HQ [|[|k]] x y Hx Hy; simpl in *; try done.
  by injection Hx as <-; injection Hy as <-.
Qed.

Lemma consecutive_join (Q : nat -> nat -> Prop) (l1 l2 : list nat) (x : nat) :
  consecutive Q (l1 ++ [x]) -> consecutive Q (x :: l2) ->
  consecutive Q (l1 ++ x :: l2).
Proof.
  intros H1 H2 k a b Ha Hb.
  destruct (decide (S k <= length l1)%nat) as [Hk|Hk].
  - apply (H1 k).
    + rewrite lookup_app_l in Ha by lia. by rewrite lookup_app_l by lia.
    + destruct (decide (S k = length l1)) as [Heq|Hne].
      * rewrite lookup_app_r in Hb by lia. rewrite lookup_app_r by lia.
        rewrite Heq, Nat.sub_diag in *. done.
      * rewrite lookup_app_l in Hb by lia. by rewrite lookup_app_l by lia.
  - apply (H2 (k - length l1)%nat).
    + by rewrite lookup_app_r in Ha by lia.
    + rewrite lookup_app_r in Hb by lia.
      by replace (S (k - length l1)) with (S k - length l1)%nat by lia.
Qed.

Lemma consecutive_fmap (Q : nat -> nat -> Prop) (f : nat -> nat)
    (l : list nat) :
  consecutive (fun a b => Q (f a) (f b)) l -> consecutive Q (f <$> l).
Proof.
  intros H k a b Ha Hb. rewrite list_lookup_fmap in Ha, Hb.
  destruct (l !! k) as [a'|] eqn:Ha'; [|done].
  destruct (l !! S k) as [b'|] eqn:Hb'; [|done].
  injection Ha as <-. injection Hb as <-. by apply (H k).
Qed.

Lemma consecutive_impl (P Q : nat -> nat -> Prop) (l : list nat) :
  (forall a b, a ∈ l -> b ∈ l -> P a b -> Q a b) ->
  consecutive P l -> consecutive Q l.
Proof.
  intros HPQ H k a b Ha Hb.
  apply HPQ; [by eapply list_elem_of_lookup_2..|]. by apply (H k).
Qed.

Lemma chord_ok_take (pts : list vec2) (tol : R) (n a b : nat) :
  (a < n)%nat -> (b < n)%nat ->
  chord_ok (take n pts) tol a b -> chord_ok pts tol a b.
Proof.
  intros Han Hbn H pa pb Hpa Hpb.
  destruct (H pa pb) as [Hdeg|Hall];
    [by rewrite lookup_take_lt by lia..| by left|].
  right. intros j p Hj Hp. apply (Hall j); [done|].
  by rewrite lookup_take_lt by lia.
Qed.

Lemma chord_ok_drop (pts : list vec2) (tol : R) (m a b : nat) :
  chord_ok (drop m pts) tol a b -> chord_ok pts tol (a + m) (b + m).
Proof.
  intros H pa pb Hpa Hpb.
  destruct (H pa pb) as [Hdeg|Hall].
  - rewrite lookup_drop. by replace (m + a)%nat with (a + m)%nat by lia.
  - rewrite lookup_drop. by replace (m + b)%nat with (b + m)%nat by lia.
  - by left.
  - right. intros j p Hj Hp. apply (Hall (j - m)%nat); [lia|].
    rewrite lookup_drop. by replace (m + (j - m))%nat with j by lia.
Qed.

Lemma keeps_ends_bound (n : nat) (indices : list nat) (i : nat) :
  keeps_ends n indices -> i ∈ indices -> (i <= n - 1)%nat.
Proof.
  intros (Hs & _ & Hl) Hi. apply last_Some in Hl as [l' ->].
  apply elem_of_app in Hi as [Hi|Hi%list_elem_of_singleton]; [|lia].
  apply StronglySorted_app in Hs as (Hlt & _).
  specialize (Hlt i (n - 1)%nat Hi ltac:(left)). lia.
Qed.

(** Whenever the recursion of the library class returns, the deviation
    computed for every point between two neighbours of the kept indices is
    at most the tolerance, or their chord is shorter than 1e-6. *)
Lemma dp_within_tolerance (fuel : nat) (pts : list vec2) (tol : R)
    (indices : list nat) :
  (1 <= length pts)%nat ->
  WaypointExtractor._douglas_peucker fuel pts tol = Some indices ->
  consecutive (chord_ok pts tol) indices.
Proof.
  revert pts indices.
  induction fuel as [|fuel IH]; intros pts indices Hlen Hdp; [done|].
  destruct (decide (length pts < 3)%nat) as [Hshort|Hlong].
  { rewrite dp_short in Hdp by done. injection Hdp as <-.
    apply consecutive_seq. intros a pa pb _ _. right. intros j p Hj. lia. }
  destruct pts as [|start pts'] eqn:Hpts; [simpl in Hlen; lia|].
  rewrite <- Hpts in *.
  assert (pts !! 0%nat = Some start) as Hstart by by rewrite Hpts.
  destruct (last pts) as [end_|] eqn:Hend.
  2:{ rewrite last_lookup in Hend. apply lookup_ge_None in Hend. lia. }
  assert (pts !! (length pts - 1)%nat = Some end_) as Hend'.
  { rewrite last_lookup in Hend.
    by replace (pred (length pts)) with (length pts - 1)%nat in Hend by lia. }
  rewrite (dp_unfold _ _ _ start end_) in Hdp by (done || lia).
  destruct (Rlt_dec _ _) as [Hdeg|Hdeg].
  { injection Hdp as <-.
    apply consecutive_pair. intros pa pb Hpa Hpb.
    rewrite Hstart in Hpa. rewrite Hend' in Hpb.
    injection Hpa as <-. injection Hpb as <-. by left. }
  destruct (py_max (deviations pts start end_)) as [m|] eqn:Hm; [|done].
  cbn [mbind option_bind] in Hdp.
  destruct (py_index m (deviations pts start end_)) as [i|] eqn:Hi; [|done].
  cbn [mbind option_bind] in Hdp.
  destruct (Rgt_dec m tol) as [Hgt|Hle].
  2:{ injection Hdp as <-.
      apply consecutive_pair. intros pa pb Hpa Hpb.
      rewrite Hstart in Hpa. rewrite Hend' in Hpb.
      injection Hpa as <-. injection Hpb as <-. right. intros j p Hj Hp.
      apply py_max_spec in Hm as [_ Hub].
      assert (deviation start end_ p <= m); [|lra].
      apply Hub. unfold deviations. apply list_elem_of_fmap.
      exists p. split; [done|]. by eapply list_elem_of_lookup_2. }
  assert (i < length pts)%nat as Hi_lt.
  { apply py_index_spec in Hi as [Hi _]. apply lookup_lt_Some in Hi.
    unfold deviations in Hi. by rewrite length_fmap in Hi. }
  destruct (WaypointExtractor._douglas_peucker fuel (take (i + 1) pts) tol)
    as [left|] eqn:Hleft; [|done].
  cbn [mbind option_bind] in Hdp.
  destruct (WaypointExtractor._douglas_peucker fuel (drop i pts) tol)
    as [right|] eqn:Hright; [|done].
  cbn [mbind option_bind] in Hdp. injection Hdp as <-.
  assert (1 <= length (take (i + 1) pts))%nat as Hlen_l.
  { rewrite length_take. lia. }
  assert (1 <= length (drop i pts))%nat as Hlen_r.
  { rewrite length_drop. lia. }
  pose proof (dp_returns_keeps_ends _ _ _ _ Hlen_l Hleft) as Hkl.
  pose proof (dp_returns_keeps_ends _ _ _ _ Hlen_r Hright) as Hkr.
  pose proof (IH _ _ Hlen_l Hleft) as Hcl.
  pose proof (IH _ _ Hlen_r Hright) as Hcr.
  rewrite length_take in Hkl. rewrite length_drop in Hkr.
  replace (Nat.min (i + 1) (length pts)) with (i + 1)%nat in Hkl by lia.
  pose proof Hkl as (_ & _ & Hll). pose proof Hkr as (_ & Hhr & _).
  apply last_Some in Hll as [l' Hl']. subst left. rewrite removelast_last.
  replace (i + 1 - 1)%nat with i in * by lia.
  destruct right as [|r0 right']; [done|]. injection Hhr as ->.
  rewrite fmap_cons. simpl. apply consecutive_join.
  - eapply consecutive_impl; [|exact Hcl].
    intros a b Ha Hb Hab.
    pose proof (keeps_ends_bound _ _ a Hkl Ha).
    pose proof (keeps_ends_bound _ _ b Hkl Hb).
    apply (chord_ok_take pts tol (i + 1)); (done || lia).
  - change (i :: ((fun j => (j + i)%nat) <$> right'))
      with ((fun j => (j + i)%nat) <$> 0%nat :: right').
    apply consecutive_fmap.
    eapply consecutive_impl; [|exact Hcr].
    intros a b _ _ Hab. by apply chord_ok_drop.
Qed.

(** Whenever the library's simplification returns, it returns increasing
    indices from 0 to the last such that, between any two neighbouring kept
    points, the deviation computed for every point is at most the tolerance
    or the chord is shorter than 1e-6.  It returns when the deviation
    computed for the two ends of every chord is at most the tolerance, and
    the depth bound is at least the number of points.  A trajectory of
    three points or more whose two ends are less than 1e-6 apart is reduced
    to these two ends, whatever lies between them and whatever the
    tolerance, by both implementations. *)
Theorem dropped_points_lie_within_tolerance (fuel : nat) (pts : list vec2)
    (tol : R) :
  (1 <= length pts)%nat ->
  (forall indices,
     WaypointExtractor._douglas_peucker fuel pts tol = Some indices ->
     StronglySorted lt indices
     /\ head indices = Some 0%nat
     /\ last indices = Some (length pts - 1)%nat
     /\ forall k a b,
          indices !! k = Some a -> indices !! S k = Some b ->
          chord_ok pts tol a b)
  /\ (ends_within tol pts -> (length pts <= fuel)%nat ->
      is_Some (WaypointExtractor._douglas_peucker fuel pts tol))
  /\ (forall start end_,
        (3 <= length pts)%nat -> (1 <= fuel)%nat ->
        head pts = Some start -> last pts = Some end_ ->
        norm2 (vsub2 end_ start) < 1e-6 ->
        WaypointExtractor._douglas_peucker fuel pts tol
          = Some [0%nat; (length pts - 1)%nat]
        /\ WaypointExtractorOp._douglas_peucker fuel pts tol
           = Some [start; end_]).
Proof.
  intros Hlen. split; [|split].
  - intros indices Hdp.
    destruct (dp_returns_keeps_ends _ _ _ _ Hlen Hdp) as (Hs & Hh & Hl).
    split; [done|]. split; [done|]. split; [done|].
    exact (dp_within_tolerance fuel pts tol indices Hlen Hdp).
  - intros Hends Hfuel.
    destruct (dp_keeps_ends fuel pts tol Hends) as (indices & Hdp & _);
      [lia|]. eauto.
  - intros start end_ Hn Hfuel Hstart Hend Hdeg. rewrite head_lookup in Hstart.
    destruct fuel as [|fuel]; [lia|].
    split; [apply (dp_flat _ _ _ start end_)|apply (dp_op_flat _ _ _ start end_)];
      (done || by left).
Qed.

(** *** A negative tolerance *)

Lemma py_max_zeros (l : list R) :
  l <> [] -> (forall x, x ∈ l -> x = 0) -> py_max l = Some 0.
Proof.
  intros Hne Hall. destruct (py_max_is_Some l Hne) as [m Hm].
  rewrite Hm. f_equal. apply py_max_spec in Hm as [Hin _]. by apply Hall.
Qed.

Lemma farthest_fold_zeros (pts : list vec2) (start u : vec2) (idxs : list nat) :
  (forall p, p ∈ pts -> computed_line_distance start u p = 0) ->
  (forall i, i ∈ idxs -> (i < length pts)%nat) ->
  fold_left (WaypointExtractorOp.farthest_step pts start u) idxs
    (Some (0, 0%nat)) = Some (0, 0%nat).
Proof.
  intros Hz. induction idxs as [|i idxs IH]; intros Hidx; [done|].
  cbn [fold_left].
  assert (WaypointExtractorOp.farthest_step pts start u (Some (0, 0%nat)) i
          = Some (0, 0%nat)) as ->.
  { unfold WaypointExtractorOp.farthest_step. simpl.
    destruct (lookup_lt_is_Some_2 pts i) as [p Hp]; [apply Hidx; left|].
    rewrite Hp. simpl. rewrite Hz by (by eapply list_elem_of_lookup_2).
    destruct (Rgt_dec 0 0); [lra|done]. }
  apply IH. intros j Hj. apply Hidx. by right.
Qed.

(** With a negative tolerance, three or more points for which the deviation
    computed from a chord of at least 1e-6 is 0 throughout make the
    recursion of both implementations call itself on the same points for
    ever: no depth bound lets it return (Python raises RecursionError). *)
Theorem negative_tolerance_never_returns_on_a_line (fuel : nat)
    (pts : list vec2) (tol : R) (start end_ : vec2) :
  tol < 0 -> (3 <= length pts)%nat ->
  head pts = Some start -> last pts = Some end_ ->
  1e-6 <= norm2 (vsub2 end_ start) ->
  (forall p, p ∈ pts -> deviation start end_ p = 0) ->
  WaypointExtractor._douglas_peucker fuel pts tol = None
  /\ WaypointExtractorOp._douglas_peucker fuel pts tol = None.
Proof.
  intros Htol Hn Hstart Hend Hlen Hline. rewrite head_lookup in Hstart.
  induction fuel as [|fuel [IH1 IH2]]; [done|]. split.
  - rewrite (dp_unfold _ _ _ start end_) by done.
    destruct (Rlt_dec _ _) as [|_]; [lra|].
    rewrite (py_max_zeros (deviations pts start end_)).
    2:{ unfold deviations. destruct pts; [simpl in Hn; lia|done]. }
    2:{ intros x Hx. unfold deviations in Hx.
        apply list_elem_of_fmap in Hx as (p & -> & Hp). by apply Hline. }
    cbn [mbind option_bind].
    assert (py_index 0 (deviations pts start end_) = Some 0%nat) as ->.
    { unfold deviations. destruct pts as [|p0 pts']; [done|].
      injection Hstart as ->. simpl. rewrite Hline by left.
      by destruct (Req_dec_T 0 0). }
    cbn [mbind option_bind]. destruct (Rgt_dec 0 tol) as [_|]; [|lra].
    rewrite drop_0, IH1.
    destruct (WaypointExtractor._douglas_peucker fuel (take (0 + 1) pts) tol);
      reflexivity.
  - rewrite (dp_op_unfold _ _ _ start end_) by done.
    destruct (Rlt_dec _ _) as [|_]; [lra|].
    rewrite farthest_fold_zeros.
    + cbn [mbind option_bind]. destruct (Rgt_dec 0 tol) as [_|]; [|lra].
      rewrite drop_0, IH2.
      destruct (WaypointExtractorOp._douglas_peucker fuel (take (0 + 1) pts) tol);
        reflexivity.
    + intros p Hp. by apply Hline.
    + intros i Hi. apply elem_of_seq in Hi. lia.
Qed.

End WithRounding.

(** A path that leaves the X axis and returns to its start. *)
Definition round_trip : list vec2 := [(0, 0); (5, 5); (0, 0)].

(** The theorem at [round_trip] with tolerance 0.1, in exact arithmetic:
    the recursion returns the two ends. *)
Lemma dropped_points_lie_within_tolerance_witness :
  (1 <= length round_trip)%nat
  /\ exists indices,
       @WaypointExtractor._douglas_peucker WaypointExtractor.exact_arithmetic
         3 round_trip 0.1 = Some indices
       /\ StronglySorted lt indices
       /\ head indices = Some 0%nat
       /\ last indices = Some (length round_trip - 1)%nat
       /\ (forall k a b,
             indices !! k = Some a -> indices !! S k = Some b ->
             @chord_ok WaypointExtractor.exact_arithmetic round_trip 0.1 a b)
       /\ @WaypointExtractorOp._douglas_peucker
            WaypointExtractor.exact_arithmetic 3 round_trip 0.1
          = Some [(0, 0); (0, 0)].
Proof.
  assert (1 <= length round_trip)%nat as Hlen by (simpl; lia).
  destruct (@dropped_points_lie_within_tolerance
              WaypointExtractor.exact_arithmetic 3 round_trip 0.1 Hlen)
    as (Hshape & Hret & Hloop).
  split; [exact Hlen|].
  destruct Hret as [indices Hdp];
    [apply exact_ends_within; lra|simpl; lia|].
  destruct (Hshape indices Hdp) as (Hs & Hh & Hl & Hc).
  exists indices. split; [exact Hdp|]. split; [exact Hs|].
  split; [exact Hh|]. split; [exact Hl|]. split; [exact Hc|].
  apply (Hloop (0, 0) (0, 0)); [simpl; lia|lia|reflexivity|reflexivity|].
  assert (norm2 (vsub2 (0, 0) (0, 0)) = 0) as ->; [|lra].
  apply norm2_zero_iff. unfold vsub2. f_equal; simpl; lra.
Defined.

(** The theorem at [on_a_line] with tolerance -1, in exact arithmetic. *)
Lemma negative_tolerance_never_returns_on_a_line_witness :
  @WaypointExtractor._douglas_peucker WaypointExtractor.exact_arithmetic
    100 on_a_line (-1) = None
  /\ @WaypointExtractorOp._douglas_peucker WaypointExtractor.exact_arithmetic
       100 on_a_line (-1) = None.
Proof.
  assert (norm2 (vsub2 (2, 0) (0, 0)) = 2) as Hn.
  { apply norm2_eq; simpl; lra. }
  apply (@negative_tolerance_never_returns_on_a_line
           WaypointExtractor.exact_arithmetic 100 on_a_line (-1)
           (0, 0) (2, 0)).
  - lra.
  - simpl. lia.
  - reflexivity.
  - reflexivity.
  - rewrite Hn. lra.
  - intros p Hp. apply Rle_antisym; [by apply on_a_line_flat|].
    apply line_distance_nonneg.
Defined.

End SimplifyMore.

(** ** Waypoints: the Z band and the whole extraction *)

Module ExtractMore.
Import Linalg Rounded PyList LinalgFacts WaypointFacts DPFacts SimplifyFacts
  ExtractFacts.
#[local] Open Scope R_scope.

Lemma median_is_Some (l : list R) : l <> [] -> is_Some (median l).
Proof.
  intros Hne. unfold median.
  assert (length (merge_sort Rle l) = length l) as Hlen
    by by rewrite merge_sort_Permutation.
  assert (0 < length l)%nat as Hpos by (destruct l; [congruence|simpl; lia]).
  set (s := merge_sort Rle l) in *. set (n := length s) in *.
  assert (n / 2 < n)%nat as Hhalf by (apply Nat.div_lt; lia).
  destruct (lookup_lt_is_Some_2 s (n / 2) Hhalf) as [b Hb].
  destruct (Nat.even n).
  - destruct (lookup_lt_is_Some_2 s (n / 2 - 1)) as [a Ha]; [lia|].
    rewrite Ha, Hb. simpl. eauto.
  - eauto.
Qed.

Lemma median_const (l : list R) (c : R) :
  l <> [] -> (forall x, x ∈ l -> x = c) -> median l = Some c.
Proof.
  intros Hne Hall. destruct (median_is_Some l Hne) as [m Hm].
  rewrite Hm. f_equal. unfold median in Hm.
  assert (forall i x, merge_sort Rle l !! i = Some x -> x = c) as Hs.
  { intros i x Hx. apply Hall. rewrite <- merge_sort_Permutation.
    by eapply list_elem_of_lookup_2. }
  cbv zeta in Hm. destruct (Nat.even _).
  - destruct (merge_sort Rle l !! (length (merge_sort Rle l) / 2 - 1)%nat)
      as [a|] eqn:Ha; cbn [mbind option_bind] in Hm; [|done].
    destruct (merge_sort Rle l !! (length (merge_sort Rle l) / 2)%nat)
      as [b|] eqn:Hb; cbn [mbind option_bind] in Hm; [|done].
    injection Hm as <-. rewrite (Hs _ _ Ha), (Hs _ _ Hb). lra.
  - by eapply Hs.
Qed.

Lemma filter_none {A : Type} (P : A -> Prop) `{!forall x, Decision (P x)}
    (l : list A) :
  (forall x, x ∈ l -> ~ P x) -> filter P l = [].
Proof.
  induction l as [|x l IH]; intros Hall; [done|].
  rewrite filter_cons_False by (apply Hall; left).
  apply IH. intros y Hy. apply Hall. by right.
Qed.

Lemma filter_all {A : Type} (P : A -> Prop) `{!forall x, Decision (P x)}
    (l : list A) :
  (forall x, x ∈ l -> P x) -> filter P l = l.
Proof.
  induction l as [|x l IH]; intros Hall; [done|].
  rewrite filter_cons_True by (apply Hall; left). f_equal.
  apply IH. intros y Hy. apply Hall. by right.
Qed.

Lemma filter_by_z_sublist (z_thr : R) (positions : list vec3) :
  sublist (WaypointExtractor._filter_by_z z_thr positions) positions.
Proof.
  unfold WaypointExtractor._filter_by_z.
  destruct positions as [|p0 rest]; [done|].
  destruct (median _); [apply sublist_filter|done].
Qed.

Lemma filter_by_z_nonpositive (z_thr : R) (positions : list vec3) :
  z_thr <= 0 -> WaypointExtractor._filter_by_z z_thr positions = [].
Proof.
  intros Hz0. unfold WaypointExtractor._filter_by_z.
  destruct positions as [|p0 rest] eqn:Hpos; [done|]. rewrite <- Hpos.
  destruct (median_is_Some (WaypointExtractor.zcoord <$> positions))
    as [z_ref Hz]; [by rewrite Hpos|].
  rewrite Hz. apply filter_none. intros p _ Hband.
  apply bool_decide_spec in Hband.
  pose proof (Rabs_pos (WaypointExtractor.zcoord p - z_ref)). lra.
Qed.

(** [_filter_by_z] keeps, in their order, exactly the positions whose Z is
    less than the threshold away from the median Z of all of them.  A
    threshold that is not positive keeps nothing, and a flat trajectory
    passes unchanged under every positive threshold. *)
Theorem z_filter_keeps_the_band_around_the_median (z_thr : R)
    (positions : list vec3) :
  sublist (WaypointExtractor._filter_by_z z_thr positions) positions
  /\ (forall p,
        p ∈ WaypointExtractor._filter_by_z z_thr positions
        <-> p ∈ positions
            /\ exists z_ref,
                 median (WaypointExtractor.zcoord <$> positions) = Some z_ref
                 /\ Rabs (WaypointExtractor.zcoord p - z_ref) < z_thr)
  /\ (z_thr <= 0 -> WaypointExtractor._filter_by_z z_thr positions = [])
  /\ (forall c,
        (forall p, p ∈ positions -> WaypointExtractor.zcoord p = c) ->
        0 < z_thr ->
        WaypointExtractor._filter_by_z z_thr positions = positions).
Proof.
  split; [apply filter_by_z_sublist|].
  split; [|split; [apply filter_by_z_nonpositive|]];
    unfold WaypointExtractor._filter_by_z.
  all: destruct positions as [|p0 rest] eqn:Hpos.
  1: { intros p.
       split; [by intros ?%elem_of_nil|by intros [?%elem_of_nil _]]. }
  2: done.
  all: rewrite <- Hpos.
  all: destruct (median_is_Some (WaypointExtractor.zcoord <$> positions))
         as [z_ref Hz]; [by rewrite Hpos|].
  all: rewrite Hz.
  - intros p. rewrite list_elem_of_filter, bool_decide_spec. split.
    + intros [Hband Hin]. split; [done|]. by exists z_ref.
    + intros [Hin (z & [= <-] & Hband)]. done.
  - intros c Hflat Hz0.
    assert (z_ref = c) as ->.
    { assert (median (WaypointExtractor.zcoord <$> positions) = Some c) as Hc.
      { apply median_const; [by rewrite Hpos|].
        intros x Hx. apply list_elem_of_fmap in Hx as (p & -> & Hp).
        by apply Hflat. }
      congruence. }
    apply filter_all. intros p Hp. apply bool_decide_spec.
    rewrite (Hflat p Hp). replace (c - c) with 0 by ring.
    rewrite Rabs_R0. done.
Qed.

(** *** The waypoints are a subsequence of the positions *)

Lemma keep_spaced_sublist {A : Type} (proj : A -> vec2) (s : R) (p0 : A)
    (rest : list A) :
  sublist (keep_spaced proj s p0 rest) rest.
Proof.
  revert p0. induction rest as [|p rest IH]; intros p0; [done|].
  simpl. destruct (Rge_dec _ _).
  - by apply sublist_skip.
  - by apply sublist_cons.
Qed.

Lemma lookups_shift {A : Type} (x : A) (l : list A) (indices : list nat) :
  Forall (fun i => (1 <= i)%nat) indices ->
  mapM (fun i => (x :: l) !! i) indices
  = mapM (fun i => l !! i) (pred <$> indices).
Proof.
  induction 1 as [|i indices Hi _ IH]; [done|].
  rewrite fmap_cons. cbn [mapM]. rewrite IH.
  destruct i as [|i]; [lia|]. done.
Qed.

Lemma sorted_pred (indices : list nat) :
  Forall (fun i => (1 <= i)%nat) indices ->
  StronglySorted lt indices -> StronglySorted lt (pred <$> indices).
Proof.
  intros Hpos Hs. induction Hs as [|i indices Hs IH Hi]; [constructor|].
  apply Forall_cons in Hpos as [Hi1 Hpos]. rewrite fmap_cons.
  constructor; [by apply IH|].
  rewrite Forall_fmap. rewrite Forall_forall in *.
  intros j Hj. specialize (Hi j Hj). specialize (Hpos j Hj). simpl. lia.
Qed.

Lemma take_indices_sublist {A : Type} (l : list A) (indices : list nat)
    (out : list A) :
  StronglySorted lt indices ->
  WaypointExtractor.take_indices l indices = Some out -> sublist out l.
Proof.
  unfold WaypointExtractor.take_indices.
  revert indices out. induction l as [|x l IH]; intros indices out Hs Hout.
  - destruct indices as [|i rest]; [by injection Hout as <-|done].
  - destruct indices as [|i rest]; [injection Hout as <-; apply sublist_nil_l|].
    pose proof Hs as Hs'. apply StronglySorted_inv in Hs' as [Hrest Hi].
    assert (Forall (fun j => (1 <= j)%nat) rest) as Hpos.
    { eapply Forall_impl; [exact Hi|]. intros j. simpl. lia. }
    destruct i as [|i].
    + cbn [mapM] in Hout. simpl in Hout.
      rewrite lookups_shift in Hout by done.
      destruct (mapM _ (pred <$> rest)) as [out'|] eqn:Hout'; [|done].
      simpl in Hout. injection Hout as <-. apply sublist_skip.
      apply (IH (pred <$> rest)); [by apply sorted_pred|done].
    + rewrite lookups_shift in Hout by (constructor; [lia|done]).
      apply sublist_cons.
      apply (IH (pred <$> S i :: rest));
        [apply sorted_pred; [constructor; [lia|done]|done]|done].
Qed.

Lemma sublist_lookup_ge {A : Type} (l1 l2 : list A) (j : nat) (x : A) :
  sublist l1 l2 -> l1 !! j = Some x ->
  exists j', (j <= j')%nat /\ l2 !! j' = Some x.
Proof.
  intros Hsub. revert j.
  induction Hsub as [|y l1 l2 Hsub IH|y l1 l2 Hsub IH]; intros j Hj.
  - done.
  - destruct j as [|j].
    + exists 0%nat. split; [lia|done].
    + destruct (IH j Hj) as (j' & Hle & Hj'). exists (S j').
      split; [lia|done].
  - destruct (IH j Hj) as (j' & Hle & Hj'). exists (S j').
    split; [lia|done].
Qed.

Section WithRounding.
Context `{rnd : !Rounding}.

(** The chords of a subsequence are chords of the sequence. *)
Lemma ends_within_sublist (tol : R) (l1 l2 : list vec2) :
  sublist l1 l2 -> ends_within tol l2 -> ends_within tol l1.
Proof.
  intros Hsub.
  induction Hsub as [|y l1 l2 Hsub IH|y l1 l2 Hsub IH]; intros Hends.
  - intros i k a b _ Ha. done.
  - pose proof (ends_within_drop tol (y :: l2) 1 Hends) as Htail.
    rewrite skipn_cons, drop_0 in Htail. specialize (IH Htail).
    intros i k a b Hik Ha Hb Hn.
    destruct k as [|k]; [lia|]. destruct i as [|i].
    + destruct (sublist_lookup_ge l1 l2 k b Hsub Hb) as (k' & Hle & Hk').
      apply (Hends 0%nat (S k') a b); (done || lia).
    + apply (IH i k a b); (done || lia).
  - pose proof (ends_within_drop tol (y :: l2) 1 Hends) as Htail.
    rewrite skipn_cons, drop_0 in Htail. by apply IH.
Qed.

(** [extract] hands to the simplification a subsequence of the positions,
    which is empty for a Z threshold that is not positive. *)
Lemma extract_filters (fuel : nat) (self : WaypointExtractor.Config)
    (poses : gmap Z mat4) :
  exists banded,
    sublist banded (WaypointExtractor.positions_of poses)
    /\ (forall z_thr,
          WaypointExtractor.z_threshold self = Some z_thr -> z_thr <= 0 ->
          banded = [])
    /\ WaypointExtractor.extract fuel self poses
       = (kept ←
            (if WaypointExtractor.simplify self
             then WaypointExtractor._simplify_trajectory fuel self banded
             else Some banded);
          Some (WaypointExtractor.xy <$> (kept : list vec3))).
Proof.
  unfold WaypointExtractor.extract.
  destruct (decide (poses = ∅)) as [->|Hne].
  { exists []. split; [apply sublist_nil_l|]. split; [done|].
    destruct (WaypointExtractor.simplify self); reflexivity. }
  destruct (WaypointExtractor.positions_of poses) as [|p0 rest] eqn:Hpos.
  { exfalso. apply Hne. by apply positions_of_nil. }
  rewrite filter_by_distance_eq. cbn [mbind option_bind].
  set (spaced3 := p0 :: keep_spaced WaypointExtractor.xy
                          (WaypointExtractor.min_distance self) p0 rest).
  assert (sublist spaced3 (p0 :: rest)) as Hsub1.
  { apply sublist_skip, keep_spaced_sublist. }
  exists (match WaypointExtractor.z_threshold self with
          | Some z_thr => WaypointExtractor._filter_by_z z_thr spaced3
          | None => spaced3
          end).
  split; [|split; [|done]].
  - destruct (WaypointExtractor.z_threshold self); [|done].
    etransitivity; [apply filter_by_z_sublist|done].
  - intros z_thr Hz Hz0. rewrite Hz. by apply filter_by_z_nonpositive.
Qed.

(** Whenever [extract] returns, its waypoints are the projections of some
    of the poses, in ascending order of pose id, and a Z threshold that is
    not positive leaves no waypoint.  It returns when simplification is
    off, and also when the depth bound exceeds the number of poses and the
    deviation computed for the two ends of every chord of the projected
    positions is at most the tolerance. *)
Theorem waypoints_are_a_subsequence_of_the_positions (fuel : nat)
    (self : WaypointExtractor.Config) (poses : gmap Z mat4) :
  (forall ws,
     WaypointExtractor.extract fuel self poses = Some ws ->
     sublist ws
       (WaypointExtractor.xy <$> WaypointExtractor.positions_of poses)
     /\ (length ws <= size poses)%nat
     /\ (forall z_thr,
           WaypointExtractor.z_threshold self = Some z_thr -> z_thr <= 0 ->
           ws = []))
  /\ (WaypointExtractor.simplify self = false
      \/ ((size poses < fuel)%nat
          /\ ends_within (WaypointExtractor.simplify_tolerance self)
               (WaypointExtractor.xy
                  <$> WaypointExtractor.positions_of poses)) ->
      is_Some (WaypointExtractor.extract fuel self poses)).
Proof.
  destruct (extract_filters fuel self poses) as (banded & Hsub & Hempty & ->).
  pose proof (positions_of_length poses) as Hlen.
  split.
  - intros ws Hws.
    destruct (if WaypointExtractor.simplify self
              then WaypointExtractor._simplify_trajectory fuel self banded
              else Some banded) as [kept|] eqn:Hkept; [|done].
    cbn [mbind option_bind] in Hws. injection Hws as <-.
    assert (sublist kept banded) as Hsub3.
    { destruct (WaypointExtractor.simplify self);
        [|by injection Hkept as <-].
      unfold WaypointExtractor._simplify_trajectory in Hkept.
      destruct (decide (length banded < 3)%nat) as [|Hlong];
        [by injection Hkept as <-|].
      destruct (WaypointExtractor._douglas_peucker fuel
                  (WaypointExtractor.xy <$> banded)
                  (WaypointExtractor.simplify_tolerance self))
        as [indices|] eqn:Hdp; [|done].
      cbn [mbind option_bind] in Hkept.
      eapply take_indices_sublist; [|exact Hkept].
      eapply (dp_returns_keeps_ends fuel (WaypointExtractor.xy <$> banded));
        [rewrite length_fmap; lia|exact Hdp]. }
    assert (sublist kept (WaypointExtractor.positions_of poses)) as Hsub'.
    { by etransitivity. }
    split; [by apply fmap_sublist|]. split.
    + rewrite length_fmap, <- Hlen. by apply sublist_length.
    + intros z_thr Hz Hz0. rewrite (Hempty z_thr Hz Hz0) in Hsub3.
      apply sublist_nil_r in Hsub3. by rewrite Hsub3.
  - intros Hret.
    assert (is_Some (if WaypointExtractor.simplify self
                     then WaypointExtractor._simplify_trajectory fuel self
                            banded
                     else Some banded)) as [kept ->]; [|by eexists].
    destruct (WaypointExtractor.simplify self) eqn:Hsimp; [|eauto].
    destruct Hret as [?|[Hfuel Hends]]; [done|].
    apply simplify_trajectory_is_Some.
    + eapply ends_within_sublist; [|exact Hends]. by apply fmap_sublist.
    + apply sublist_length in Hsub. lia.
Qed.

End WithRounding.

(** The theorem at [short_tail_poses] with the default settings, in exact
    arithmetic. *)
Lemma waypoints_are_a_subsequence_of_the_positions_witness :
  exists ws,
    @WaypointExtractor.extract WaypointExtractor.exact_arithmetic
      4 WaypointExtractor.default_config WaypointClaims.short_tail_poses
    = Some ws
    /\ sublist ws
         (WaypointExtractor.xy
            <$> WaypointExtractor.positions_of WaypointClaims.short_tail_poses)
    /\ (length ws <= size WaypointClaims.short_tail_poses)%nat.
Proof.
  destruct (@waypoints_are_a_subsequence_of_the_positions
              WaypointExtractor.exact_arithmetic 4
              WaypointExtractor.default_config WaypointClaims.short_tail_poses)
    as (Hshape & Hret).
  destruct Hret as [ws Hws].
  { right. split; [vm_compute; lia|]. apply exact_ends_within. simpl. lra. }
  destruct (Hshape ws Hws) as (Hsub & Hlen & _).
  exists ws. split; [exact Hws|]. split; [exact Hsub|exact Hlen].
Defined.

End ExtractMore.

(** ** Waypoints: statistics *)

Module StatsFacts.
Import Linalg PyList LinalgFacts WaypointFacts DPFacts WaypointStats.
#[local] Open Scope R_scope.

(** The sum of the distances between consecutive waypoints. *)
Fixpoint path_length2 (ps : list vec2) : R :=
  match ps with
  | p :: (q :: _) as rest => norm2 (vsub2 q p) + path_length2 rest
  | _ => 0
  end.

Lemma path_length2_nonneg (ps : list vec2) : 0 <= path_length2 ps.
Proof.
  induction ps as [|p [|q rest] IH]; simpl; try lra.
  pose proof (norm2_nonneg (vsub2 q p)). simpl in IH. lra.
Qed.

Lemma path_length2_snoc (ps : list vec2) (q p : vec2) :
  last ps = Some q ->
  path_length2 (ps ++ [p]) = path_length2 ps + norm2 (vsub2 p q).
Proof.
  induction ps as [|a [|b rest] IH]; intros Hlast; [done| |].
  - injection Hlast as ->. simpl. lra.
  - change (path_length2 ((a :: b :: rest) ++ [p]))
      with (norm2 (vsub2 b a) + path_length2 ((b :: rest) ++ [p])).
    rewrite IH by done. simpl. lra.
Qed.

Lemma stats_length_fold (ps : list vec2) (k : nat) :
  (k < length ps)%nat ->
  fold_left (length_step ps) (seq 1 k) (Some 0)
  = Some (path_length2 (take (S k) ps)).
Proof.
  induction k as [|k IH]; intros Hk.
  - simpl. by destruct ps as [|p [|q ps]].
  - rewrite seq_S, fold_left_app, IH by lia. simpl.
    destruct (lookup_lt_is_Some_2 ps k ltac:(lia)) as [p1 Hp1].
    destruct (lookup_lt_is_Some_2 ps (S k) ltac:(lia)) as [p2 Hp2].
    unfold length_step. simpl. rewrite Hp2. simpl.
    replace (k - 0)%nat with k by lia. rewrite Hp1. simpl.
    f_equal. rewrite (take_S_r ps (S k) _ Hp2).
    rewrite (path_length2_snoc _ p1); [done|].
    rewrite last_lookup, length_take, Nat.min_l by lia. simpl.
    rewrite lookup_take_lt by lia. done.
Qed.

Lemma fold_left_Rmin_le (l : list R) (x : R) : fold_left Rmin l x <= x.
Proof.
  revert x. induction l as [|y l IH]; intros x; simpl; [lra|].
  etransitivity; [apply IH|apply Rmin_l].
Qed.

Lemma fold_left_Rmin_lower (l : list R) (x y : R) :
  y ∈ l -> fold_left Rmin l x <= y.
Proof.
  revert x. induction l as [|z l IH]; intros x Hy; simpl.
  - by apply elem_of_nil in Hy.
  - apply elem_of_cons in Hy as [->|Hy]; [|by apply IH].
    etransitivity; [apply fold_left_Rmin_le|apply Rmin_r].
Qed.

Lemma fold_left_Rmin_elem (l : list R) (x : R) :
  fold_left Rmin l x ∈ x :: l.
Proof.
  revert x. induction l as [|z l IH]; intros x; simpl; [left|].
  specialize (IH (Rmin x z)). apply elem_of_cons in IH as [Heq|Hin].
  - rewrite Heq. apply Rmin_case; [left|right; left].
  - right. by right.
Qed.

Lemma column_fold (pick : R -> R -> R) (rest : list vec2) (p : vec2) :
  fold_left (fun b q => (pick b.1 q.1, pick b.2 q.2)) rest p
  = (fold_left pick (fst <$> rest) p.1, fold_left pick (snd <$> rest) p.2).
Proof.
  revert p. induction rest as [|q rest IH]; intros p; [by destruct p|].
  simpl. by rewrite IH.
Qed.

(** [compute_statistics] of no waypoint holds the count 0 alone.  Otherwise
    it holds the number of waypoints; the total length is the sum of the
    distances between consecutive waypoints, added in their order, and is
    not negative; the average spacing is the total length divided by the
    number of segments, and 0 for a single waypoint; the bounds are attained
    coordinates that enclose every waypoint. *)
Theorem statistics_measure_the_path (waypoints : list vec2) :
  compute_statistics [] = Some {| n_waypoints := 0; path := None |}
  /\ (waypoints <> [] ->
      exists p,
        compute_statistics waypoints
        = Some {| n_waypoints := length waypoints; path := Some p |}
        /\ total_length p = path_length2 waypoints
        /\ 0 <= total_length p
        /\ avg_spacing p
           = (if decide (1 < length waypoints)%nat
              then total_length p / INR (length waypoints - 1) else 0)
        /\ 0 <= avg_spacing p
        /\ (forall w, w ∈ waypoints ->
              (bounds_min p).1 <= w.1 <= (bounds_max p).1
              /\ (bounds_min p).2 <= w.2 <= (bounds_max p).2)
        /\ (bounds_min p).1 ∈ fst <$> waypoints
        /\ (bounds_min p).2 ∈ snd <$> waypoints
        /\ (bounds_max p).1 ∈ fst <$> waypoints
        /\ (bounds_max p).2 ∈ snd <$> waypoints).
Proof.
  split; [done|]. intros Hne.
  destruct waypoints as [|w0 rest]; [done|]. clear Hne.
  set (ws := w0 :: rest).
  assert (compute_statistics ws
          = Some {| n_waypoints := length ws;
                    path := Some
                      {| total_length := path_length2 ws;
                         avg_spacing :=
                           (if decide (1 < length ws)%nat
                            then path_length2 ws / INR (length ws - 1)
                            else 0);
                         bounds_min :=
                           (fold_left Rmin (fst <$> rest) w0.1,
                            fold_left Rmin (snd <$> rest) w0.2);
                         bounds_max :=
                           (fold_left Rmax (fst <$> rest) w0.1,
                            fold_left Rmax (snd <$> rest) w0.2) |} |})
    as Hcs.
  { subst ws. unfold compute_statistics, column_bound. cbv beta iota zeta.
    rewrite stats_length_fold by (simpl; lia).
    replace (S (length (w0 :: rest) - 1)) with (length (w0 :: rest))
      by (simpl; lia).
    rewrite firstn_all. cbn [mbind option_bind]. rewrite !column_fold.
    reflexivity. }
  eexists. split; [exact Hcs|]. cbn [total_length avg_spacing bounds_min
    bounds_max fst snd].
  pose proof (path_length2_nonneg ws) as Hnn.
  split; [done|]. split; [done|]. split; [done|]. split; [|split].
  - destruct (decide (1 < length ws)%nat) as [Hlong|Hshort]; [|lra].
    apply Rmult_le_pos; [done|]. left. apply Rinv_0_lt_compat.
    apply lt_0_INR. lia.
  - intros w Hin. apply elem_of_cons in Hin as [->|Hin].
    + repeat split;
        first [apply fold_left_Rmin_le | apply fold_left_Rmax_ge].
    + repeat split;
        first [apply fold_left_Rmin_lower | apply fold_left_Rmax_upper];
        apply list_elem_of_fmap; by exists w.
  - unfold ws. rewrite !fmap_cons.
    split; [apply fold_left_Rmin_elem|]. split; [apply fold_left_Rmin_elem|].
    split; apply fold_left_Rmax_elem.
Qed.

End StatsFacts.


(** ** Trajectory files: the quaternion of a pose *)

Module QuaternionFacts.
Import Linalg PyList LinalgFacts WaypointStats.
#[local] Open Scope R_scope.

(** The rotation block of [T] has orthonormal rows and determinant 1. *)
Definition is_rotation (T : mat4) : Prop :=
  m00 T * m00 T + m01 T * m01 T + m02 T * m02 T = 1
  /\ m10 T * m10 T + m11 T * m11 T + m12 T * m12 T = 1
  /\ m20 T * m20 T + m21 T * m21 T + m22 T * m22 T = 1
  /\ m00 T * m10 T + m01 T * m11 T + m02 T * m12 T = 0
  /\ m00 T * m20 T + m01 T * m21 T + m02 T * m22 T = 0
  /\ m10 T * m20 T + m11 T * m21 T + m12 T * m22 T = 0
  /\ PoseGraph.det3 (m00 T, m01 T, m02 T) (m10 T, m11 T, m12 T)
       (m20 T, m21 T, m22 T) = 1.

(** The squared norm of a quaternion. *)
Definition norm_sq (q : quat) : R :=
  let '(x, y, z, w) := q in x * x + y * y + z * z + w * w.

Lemma sum_sq_zero (x y z : R) : x * x + y * y + z * z = 0 -> x = 0.
Proof. intros H. nra. Qed.

(** In a rotation every diagonal entry is its own cofactor. *)
Lemma rotation_cofactors (a b c d e f g h i : R) :
  a * a + b * b + c * c = 1 -> d * d + e * e + f * f = 1 ->
  g * g + h * h + i * i = 1 ->
  a * d + b * e + c * f = 0 -> a * g + b * h + c * i = 0 ->
  d * g + e * h + f * i = 0 ->
  a * (e * i - f * h) - b * (d * i - f * g) + c * (d * h - e * g) = 1 ->
  a = e * i - f * h /\ e = i * a - g * c /\ i = a * e - b * d.
Proof.
  intros H0 H1 H2 H01 H02 H12 Hdet.
  assert ((a - (e * i - f * h)) * (a - (e * i - f * h))
          + (b - (f * g - d * i)) * (b - (f * g - d * i))
          + (c - (d * h - e * g)) * (c - (d * h - e * g)) = 0) as E0.
  { replace (_ + _ + _)
      with ((a * a + b * b + c * c)
            - 2 * (a * (e * i - f * h) - b * (d * i - f * g)
                   + c * (d * h - e * g))
            + ((d * d + e * e + f * f) * (g * g + h * h + i * i)
               - (d * g + e * h + f * i) * (d * g + e * h + f * i)))
      by ring.
    rewrite H0, H1, H2, H12, Hdet. ring. }
  assert ((e - (i * a - g * c)) * (e - (i * a - g * c))
          + (d - (h * c - i * b)) * (d - (h * c - i * b))
          + (f - (g * b - h * a)) * (f - (g * b - h * a)) = 0) as E1.
  { replace (_ + _ + _)
      with ((d * d + e * e + f * f)
            - 2 * (a * (e * i - f * h) - b * (d * i - f * g)
                   + c * (d * h - e * g))
            + ((g * g + h * h + i * i) * (a * a + b * b + c * c)
               - (a * g + b * h + c * i) * (a * g + b * h + c * i)))
      by ring.
    rewrite H0, H1, H2, H02, Hdet. ring. }
  assert ((i - (a * e - b * d)) * (i - (a * e - b * d))
          + (g - (b * f - c * e)) * (g - (b * f - c * e))
          + (h - (c * d - a * f)) * (h - (c * d - a * f)) = 0) as E2.
  { replace (_ + _ + _)
      with ((g * g + h * h + i * i)
            - 2 * (a * (e * i - f * h) - b * (d * i - f * g)
                   + c * (d * h - e * g))
            + ((a * a + b * b + c * c) * (d * d + e * e + f * f)
               - (a * d + b * e + c * f) * (a * d + b * e + c * f)))
      by ring.
    rewrite H0, H1, H2, H01, Hdet. ring. }
  apply sum_sq_zero in E0, E1, E2. repeat split; lra.
Qed.


(** What the four branches divide by: [u (4 - u)] is the sum of the three
    squares of the branch with pivot [u]. *)
Lemma rotation_pivots (a b c d e f g h i : R) :
  a * a + b * b + c * c = 1 -> d * d + e * e + f * f = 1 ->
  g * g + h * h + i * i = 1 ->
  a = e * i - f * h -> e = i * a - g * c -> i = a * e - b * d ->
  (h - f) * (h - f) + (c - g) * (c - g) + (d - b) * (d - b)
  = (1 + (a + e + i)) * (4 - (1 + (a + e + i)))
  /\ (h - f) * (h - f) + (b + d) * (b + d) + (c + g) * (c + g)
     = (1 + a - e - i) * (4 - (1 + a - e - i))
  /\ (c - g) * (c - g) + (b + d) * (b + d) + (f + h) * (f + h)
     = (1 + e - a - i) * (4 - (1 + e - a - i))
  /\ (d - b) * (d - b) + (c + g) * (c + g) + (f + h) * (f + h)
     = (1 + i - a - e) * (4 - (1 + i - a - e)).
Proof. intros H0 H1 H2 Ha He Hi. repeat split; nra. Qed.

Lemma pivot_positive (u m : R) : m = u * (4 - u) -> 0 <= m -> u <= 4 ->
  u <> 0 -> 0 < u.
Proof. intros Hm Hpos Hle Hne. nra. Qed.

Lemma unit_from_pivot (u m t x y z : R) :
  0 < u -> t = sqrt u -> x * x + y * y + z * z = m -> m = u * (4 - u) ->
  (0.25 * (2.0 * t)) * (0.25 * (2.0 * t))
  + (x / (2.0 * t)) * (x / (2.0 * t))
  + (y / (2.0 * t)) * (y / (2.0 * t))
  + (z / (2.0 * t)) * (z / (2.0 * t)) = 1.
Proof.
  intros Hu -> Hxyz Hm.
  assert (sqrt u * sqrt u = u) as Hs by (apply sqrt_sqrt; lra).
  assert (0 < sqrt u) as Hpos by (by apply sqrt_lt_R0).
  set (t := sqrt u) in *.
  replace 0.25 with (/ 4) by lra. replace 2.0 with 2 by lra.
  transitivity ((t * t) / 4 + (x * x + y * y + z * z) / (4 * (t * t)));
    [field; lra|].
  rewrite Hxyz, Hm, Hs. field. lra.
Qed.

(** [rotation_matrix_to_quaternion] returns a unit quaternion for every
    pose whose rotation block is a rotation matrix, whichever of its four
    branches is taken. *)
Theorem rotation_gives_a_unit_quaternion (T : mat4) :
  is_rotation T -> norm_sq (rotation_matrix_to_quaternion T) = 1.
Proof.
  intros (H0 & H1 & H2 & H01 & H02 & H12 & Hdet).
  destruct T as [a b c tx d e f ty g h i tz p30 p31 p32 p33].
  cbn [m00 m01 m02 m10 m11 m12 m20 m21 m22] in *.
  unfold PoseGraph.det3 in Hdet.
  destruct (rotation_cofactors a b c d e f g h i H0 H1 H2 H01 H02 H12 Hdet)
    as (Ha & He & Hi).
  destruct (rotation_pivots a b c d e f g h i H0 H1 H2 Ha He Hi)
    as (P1 & P2 & P3 & P4).
  assert (a <= 1 /\ e <= 1 /\ i <= 1 /\ -1 <= a /\ -1 <= e /\ -1 <= i)
    as (Ba & Be & Bi & La & Le & Li) by (repeat split; nra).
  unfold rotation_matrix_to_quaternion, norm_sq.
  cbn [m00 m01 m02 m10 m11 m12 m20 m21 m22].
  destruct (Rgt_dec (a + e + i) 0) as [Htr|Htr].
  { assert (0 < 1 + (a + e + i)) as Hu by lra.
    assert (sqrt (a + e + i + 1.0) * sqrt (a + e + i + 1.0)
            = 1 + (a + e + i)) as Hs.
    { rewrite sqrt_sqrt by lra. lra. }
    assert (0 < sqrt (a + e + i + 1.0)) as Hpos by (apply sqrt_lt_R0; lra).
    set (t := sqrt (a + e + i + 1.0)) in *.
    replace 0.25 with (/ 4) by lra. replace 0.5 with (/ 2) by lra.
    transitivity (((h - f) * (h - f) + (c - g) * (c - g) + (d - b) * (d - b))
                  / (4 * (t * t)) + (t * t) / 4); [field; lra|].
    rewrite P1, Hs. field. lra. }
  destruct (decide (a > e /\ a > i)) as [[Hae Hai]|Hna].
  { transitivity ((0.25 * (2.0 * sqrt (1.0 + a - e - i)))
            * (0.25 * (2.0 * sqrt (1.0 + a - e - i)))
            + ((h - f) / (2.0 * sqrt (1.0 + a - e - i)))
              * ((h - f) / (2.0 * sqrt (1.0 + a - e - i)))
            + ((b + d) / (2.0 * sqrt (1.0 + a - e - i)))
              * ((b + d) / (2.0 * sqrt (1.0 + a - e - i)))
            + ((c + g) / (2.0 * sqrt (1.0 + a - e - i)))
              * ((c + g) / (2.0 * sqrt (1.0 + a - e - i))));
      [ring|].
    eapply (unit_from_pivot (1 + a - e - i)); [| |reflexivity|exact P2].
    - eapply pivot_positive; [exact P2|nra|lra|lra].
    - f_equal. lra. }
  assert (a <= e \/ a <= i) as Hmax.
  { destruct (Rgt_dec a e); [|lra]. destruct (Rgt_dec a i); [|lra]. tauto. }
  destruct (Rgt_dec e i) as [Hei|Hei].
  { transitivity ((0.25 * (2.0 * sqrt (1.0 + e - a - i)))
            * (0.25 * (2.0 * sqrt (1.0 + e - a - i)))
            + ((c - g) / (2.0 * sqrt (1.0 + e - a - i)))
              * ((c - g) / (2.0 * sqrt (1.0 + e - a - i)))
            + ((b + d) / (2.0 * sqrt (1.0 + e - a - i)))
              * ((b + d) / (2.0 * sqrt (1.0 + e - a - i)))
            + ((f + h) / (2.0 * sqrt (1.0 + e - a - i)))
              * ((f + h) / (2.0 * sqrt (1.0 + e - a - i))));
      [ring|].
    eapply (unit_from_pivot (1 + e - a - i)); [| |reflexivity|exact P3].
    - eapply pivot_positive; [exact P3|nra|lra|lra].
    - f_equal. lra. }
  transitivity ((0.25 * (2.0 * sqrt (1.0 + i - a - e)))
          * (0.25 * (2.0 * sqrt (1.0 + i - a - e)))
          + ((d - b) / (2.0 * sqrt (1.0 + i - a - e)))
            * ((d - b) / (2.0 * sqrt (1.0 + i - a - e)))
          + ((c + g) / (2.0 * sqrt (1.0 + i - a - e)))
            * ((c + g) / (2.0 * sqrt (1.0 + i - a - e)))
          + ((f + h) / (2.0 * sqrt (1.0 + i - a - e)))
            * ((f + h) / (2.0 * sqrt (1.0 + i - a - e))));
      [ring|].
  eapply (unit_from_pivot (1 + i - a - e)); [| |reflexivity|exact P4].
  - eapply pivot_positive; [exact P4|nra|lra|lra].
  - f_equal. lra.
Qed.

(** A quarter turn about Z. *)
Definition quarter_turn : mat4 :=
  Mat4 0 (-1) 0 0
       1 0 0 0
       0 0 1 0
       0 0 0 1.

Lemma quarter_turn_is_rotation : is_rotation quarter_turn.
Proof.
  unfold is_rotation, quarter_turn, PoseGraph.det3. simpl.
  repeat split; lra.
Qed.

(** The theorem at a quarter turn about Z. *)
Lemma rotation_gives_a_unit_quaternion_witness :
  norm_sq (rotation_matrix_to_quaternion quarter_turn) = 1.
Proof.
  apply (rotation_gives_a_unit_quaternion quarter_turn).
  apply quarter_turn_is_rotation.
Defined.

(** For a pose whose rotation block has a positive trace, the quaternion
    the operator writes to the trajectory file is the one the library
    function computes. *)
Theorem operator_quaternion_agrees_with_the_library (T : mat4) :
  m00 T + m11 T + m22 T > 0 ->
  WaypointExtractorEvents.saved_quaternion T = rotation_matrix_to_quaternion T.
Proof.
  intros Htr. unfold WaypointExtractorEvents.saved_quaternion,
    rotation_matrix_to_quaternion.
  destruct (Rgt_dec _ _) as [_|]; [|done].
  replace (1 + m00 T + m11 T + m22 T) with (m00 T + m11 T + m22 T + 1.0)
    by lra.
  assert (1 < sqrt (m00 T + m11 T + m22 T + 1.0)) as Hs.
  { rewrite <- sqrt_1 at 1. apply sqrt_lt_1; lra. }
  set (t := sqrt (m00 T + m11 T + m22 T + 1.0)) in *.
  rewrite Rmax_left by lra.
  replace 0.25 with (/ 4) by lra. replace 0.5 with (/ 2) by lra.
  f_equal; [f_equal; [f_equal|]|]; field; lra.
Qed.

(** The theorem at a quarter turn about Z, whose trace is 1. *)
Lemma operator_quaternion_agrees_with_the_library_witness :
  WaypointExtractorEvents.saved_quaternion quarter_turn
  = rotation_matrix_to_quaternion quarter_turn.
Proof.
  apply (operator_quaternion_agrees_with_the_library quarter_turn).
  simpl. lra.
Defined.

End QuaternionFacts.

(** ** The waypoint operator: what a run sends *)

Module WaypointEventFacts.
Import Linalg Rounded PyList LinalgFacts WaypointFacts ExtractFacts
  WaypointExtractorEvents.
#[local] Open Scope R_scope.

(** The pose an event adds to [self.poses], if any. *)
Definition received_pose (ev : Event) : option mat4 :=
  match ev with
  | INPUT PoseInput pose_flat => reshape44 pose_flat
  | _ => None
  end.

(** The poses a list of events adds, in order. *)
Definition received (events : list Event) : list mat4 :=
  omap received_pose events.

(** The calls of [send_output] among the effects. *)
Definition is_send (e : Effect) : bool :=
  match e with SaveOutputs _ _ => false | _ => true end.

Definition sends (effects : list Effect) : list Effect :=
  filter (fun e => is_send e = true) effects.

(** The operator [a] with the poses [ps]. *)
Definition with_poses (a : WaypointExtractorOp.Operator) (ps : list mat4)
    : WaypointExtractorOp.Operator :=
  {| WaypointExtractorOp.min_spacing := WaypointExtractorOp.min_spacing a;
     WaypointExtractorOp.simplify := WaypointExtractorOp.simplify a;
     WaypointExtractorOp.epsilon := WaypointExtractorOp.epsilon a;
     WaypointExtractorOp.poses := ps |}.

Lemma reshape44_length (flat : list R) :
  is_Some (reshape44 flat) <-> length flat = 16%nat.
Proof.
  split.
  - intros [M HM]. unfold reshape44 in HM.
    do 16 (destruct flat as [|? flat]; [done|]). by destruct flat.
  - intros Hlen. do 16 (destruct flat as [|? flat]; [done|]).
    destruct flat; [|done]. simpl. eauto.
Qed.

Lemma reshape44_flatten (M : mat4) :
  reshape44 (IcpOdometryOp.flatten M) = Some M.
Proof. by destruct M. Qed.

Section WithRounding.
Context `{rnd : !Rounding}.

(** What the outputs of a run are, given the state [self] it starts from. *)
Definition sent_once (self : State) (events : list Event)
    (effects : list Effect) : Prop :=
  sends effects = []
  \/ (waypoints_extracted self = false
      /\ exists k value waypoints,
           events !! k = Some (INPUT MapComplete value)
           /\ (forall j v, (j < k)%nat ->
                 events !! j = Some (INPUT MapComplete v) ->
                 WaypointExtractorOp.poses (attrs self)
                 ++ received (take j events) = [])
           /\ let ps := WaypointExtractorOp.poses (attrs self)
                        ++ received (take k events) in
              ps <> []
              /\ WaypointExtractorOp._extract_waypoints (length ps)
                   (with_poses (attrs self) ps) = Some waypoints
              /\ sends effects
                 = [SendWaypoints (astype_float32 <$> flatten2 waypoints);
                    SendTrajectory
                      (astype_float32
                         <$> flatten2 (WaypointExtractorOp.trajectory_of ps))]).

Lemma with_poses_same (a : WaypointExtractorOp.Operator) :
  with_poses a (WaypointExtractorOp.poses a) = a.
Proof. by destruct a. Qed.

Lemma extract_waypoints_is_Some (a : WaypointExtractorOp.Operator) :
  0 <= WaypointExtractorOp.epsilon a ->
  is_Some (WaypointExtractorOp._extract_waypoints
             (length (WaypointExtractorOp.poses a)) a).
Proof.
  intros Heps.
  destruct (extract_waypoints_spec (length (WaypointExtractorOp.poses a)) a)
    as (ws & Hws & _); [by right|lia|]. eauto.
Qed.

Lemma sent_once_shift (self : State) (ev : Event) (events : list Event)
    (effects : list Effect) (self1 : State) :
  attrs self1
  = with_poses (attrs self)
      (WaypointExtractorOp.poses (attrs self)
       ++ match received_pose ev with Some p => [p] | None => [] end) ->
  waypoints_extracted self1 = waypoints_extracted self ->
  (forall value, ev = INPUT MapComplete value ->
     waypoints_extracted self = true
     \/ WaypointExtractorOp.poses (attrs self) = []) ->
  sent_once self1 events effects -> sent_once self (ev :: events) effects.
Proof.
  intros Hattrs Hflag Hev
    [Hnone|(Hf & k & value & ws & Hk & Hfirst & Hps & Hws & Hs)];
    [by left|].
  right. split; [congruence|]. exists (S k), value, ws. split; [done|].
  cbn zeta in *. rewrite Hattrs in Hfirst, Hps, Hws, Hs.
  simpl in Hfirst, Hps, Hws, Hs.
  assert (forall n,
            WaypointExtractorOp.poses (attrs self)
            ++ received (take (S n) (ev :: events))
            = (WaypointExtractorOp.poses (attrs self)
               ++ match received_pose ev with Some p => [p] | None => [] end)
              ++ received (take n events)) as Hshift.
  { intros n. rewrite <- app_assoc. f_equal. unfold received. simpl.
    by destruct (received_pose ev). }
  rewrite Hshift. split; [|done].
  intros [|j] v Hj Hv.
  - simpl in Hv. injection Hv as ->. rewrite take_0. unfold received. simpl.
    rewrite app_nil_r. destruct (Hev v eq_refl) as [Ht|Hnil]; [|done].
    congruence.
  - rewrite Hshift. apply (Hfirst j v); [lia|done].
Qed.


Lemma with_poses_nil_r (a : WaypointExtractorOp.Operator) :
  with_poses a (WaypointExtractorOp.poses a ++ []) = a.
Proof. rewrite app_nil_r. apply with_poses_same. Qed.

Lemma run_events_spec (events : list Event) (self : State) :
  0 <= WaypointExtractorOp.epsilon (attrs self) ->
  exists self' effects,
    run_events self events = Some (self', effects)
    /\ (waypoints_extracted self = true -> sends effects = [])
    /\ sent_once self events effects.
Proof.
  revert self. induction events as [|ev events IH]; intros self Heps.
  { exists self, []. split; [done|]. split; [done|]. by left. }
  cbn [run_events].
  assert (forall self1 : State,
            attrs self1 = attrs self ->
            waypoints_extracted self1 = waypoints_extracted self ->
            received_pose ev = None ->
            (forall value, ev = INPUT MapComplete value ->
               waypoints_extracted self = true
               \/ WaypointExtractorOp.poses (attrs self) = []) ->
            exists self' effects,
              ('(self'', effects') ← run_events self1 events;
               Some (self'', [] ++ effects')) = Some (self', effects)
              /\ (waypoints_extracted self = true -> sends effects = [])
              /\ sent_once self (ev :: events) effects) as Hskip.
  { intros self1 Ha Hf Hrecv Hev.
    destruct (IH self1) as (s' & eff & Hrun & Hflag & Hsent);
      [by rewrite Ha|].
    exists s', eff. rewrite Hrun. split; [done|].
    split; [intros Ht; apply Hflag; congruence|].
    apply (sent_once_shift self ev events eff self1); [|done|done|done].
    rewrite Ha, Hrecv. by rewrite with_poses_nil_r. }
  destruct ev as [[| |] value| |]; cbn [on_event].
  - destruct (decide (length value = 16)%nat) as [Hlen|Hlen].
    + destruct (proj2 (reshape44_length value) Hlen) as [pose Hpose].
      rewrite Hpose. cbn [mbind option_bind].
      destruct (IH (append_pose self pose)) as (s' & eff & Hrun & Hflag & Hsent);
        [done|].
      rewrite Hrun. cbn [mbind option_bind]. exists s', eff.
      split; [done|]. split; [exact Hflag|].
      apply (sent_once_shift self _ events eff (append_pose self pose));
        [|done|done|done].
      simpl. by rewrite Hpose.
    + cbn [mbind option_bind]. apply (Hskip self); [done|done| |done].
      simpl. destruct (reshape44 value) eqn:Hr; [|done].
      exfalso. apply Hlen. apply reshape44_length. eauto.
  - destruct (waypoints_extracted self) eqn:Hflag0; cbn [negb andb].
    { cbn [mbind option_bind]. apply (Hskip self); try done.
      intros ? _. by left. }
    destruct (bool_decide_reflect
                (0 < length (WaypointExtractorOp.poses (attrs self)))%nat)
      as [Hpos|Hzero].
    2:{ cbn [mbind option_bind]. apply (Hskip self); try done.
        intros ? _. right.
        destruct (WaypointExtractorOp.poses (attrs self)); [done|].
        simpl in Hzero. lia. }
    destruct (extract_waypoints_is_Some (attrs self) Heps) as [ws Hws].
    rewrite Hws. cbn [mbind option_bind].
    destruct (IH (set_extracted self)) as (s' & eff & Hrun & Hflag & _);
      [done|].
    rewrite Hrun. cbn [mbind option_bind].
    specialize (Hflag eq_refl). eexists _, _. split; [done|].
    split; [intros; congruence|]. right. split; [done|].
    exists 0%nat, value, ws. split; [done|].
    split; [intros j v Hj; lia|]. cbn zeta.
    rewrite take_0. unfold received. simpl. rewrite app_nil_r.
    rewrite with_poses_same.
    split; [intros Hnil; rewrite Hnil in Hpos; simpl in Hpos; lia|].
    split; [done|]. unfold sends in *. cbn [app].
    rewrite filter_cons_False by (simpl; congruence).
    rewrite !filter_cons_True by done. by rewrite Hflag.
  - cbn [mbind option_bind]. apply (Hskip self); done.
  - destruct (negb (waypoints_extracted self) && _) eqn:Hcond.
    + destruct (extract_waypoints_is_Some (attrs self) Heps) as [ws Hws].
      rewrite Hws. cbn [mbind option_bind]. eexists _, _.
      split; [done|]. split; [done|]. by left.
    + cbn [mbind option_bind]. eexists _, _.
      split; [done|]. split; [done|]. by left.
  - cbn [mbind option_bind]. apply (Hskip self); done.
Qed.

(** Whatever events arrive, the operator with a tolerance that is not
    negative never raises, and it sends at most once: either nothing, or,
    at the first [map_complete] that finds a pose, the waypoints of the
    poses received until then followed by their trajectory, both cast to
    float32.  A pose event counts when it carries 16 floats. *)
Theorem waypoints_are_sent_at_most_once (wp_config : WaypointConfig)
    (events : list Event) :
  0 <= cfg_epsilon wp_config ->
  exists self effects,
    run_events (init wp_config) events = Some (self, effects)
    /\ (sends effects = []
        \/ exists k value waypoints,
             events !! k = Some (INPUT MapComplete value)
             /\ (forall j v, (j < k)%nat ->
                   events !! j = Some (INPUT MapComplete v) ->
                   received (take j events) = [])
             /\ received (take k events) <> []
             /\ WaypointExtractorOp._extract_waypoints
                  (length (received (take k events)))
                  (with_poses (attrs (init wp_config))
                     (received (take k events))) = Some waypoints
             /\ sends effects
                = [SendWaypoints (astype_float32 <$> flatten2 waypoints);
                   SendTrajectory
                     (astype_float32
                        <$> flatten2 (WaypointExtractorOp.trajectory_of
                                        (received (take k events))))]).
Proof.
  intros Heps.
  destruct (run_events_spec events (init wp_config) Heps)
    as (self & effects & Hrun & _ & Hsent).
  exists self, effects. split; [done|].
  destruct Hsent as [?|(_ & k & value & ws & Hk & Hfirst & Hps & Hws & Hs)];
    [by left|].
  right. exists k, value, ws. done.
Qed.

End WithRounding.

(** Two poses, a completed map, a third pose and a second completion. *)
Definition two_completions : list Event :=
  [INPUT PoseInput (IcpOdometryOp.flatten eye4);
   INPUT PoseInput (IcpOdometryOp.flatten (translate (1, 0, 0)));
   INPUT MapComplete [];
   INPUT PoseInput (IcpOdometryOp.flatten (translate (2, 0, 0)));
   INPUT MapComplete []].

(** The theorem at [two_completions] with the default configuration, in
    exact arithmetic. *)
Lemma waypoints_are_sent_at_most_once_witness :
  exists self effects,
    @run_events WaypointExtractor.exact_arithmetic
      (init default_waypoint_config) two_completions
    = Some (self, effects)
    /\ (sends effects = []
        \/ exists k value waypoints,
             two_completions !! k = Some (INPUT MapComplete value)
             /\ (forall j v, (j < k)%nat ->
                   two_completions !! j = Some (INPUT MapComplete v) ->
                   received (take j two_completions) = [])
             /\ received (take k two_completions) <> []
             /\ @WaypointExtractorOp._extract_waypoints
                  WaypointExtractor.exact_arithmetic
                  (length (received (take k two_completions)))
                  (with_poses (attrs (init default_waypoint_config))
                     (received (take k two_completions))) = Some waypoints
             /\ sends effects
                = [SendWaypoints (flatten2 waypoints);
                   SendTrajectory
                     (flatten2 (WaypointExtractorOp.trajectory_of
                                  (received (take k two_completions))))]).
Proof.
  destruct (@waypoints_are_sent_at_most_once
              WaypointExtractor.exact_arithmetic default_waypoint_config
              two_completions) as (self & effects & Hrun & Hsent);
    [simpl; lra|].
  exists self, effects. split; [exact Hrun|].
  destruct Hsent as [Hnone|(k & value & ws & Hk & Hfirst & Hps & Hws & Hs)];
    [by left|].
  right. exists k, value, ws. split; [exact Hk|]. split; [exact Hfirst|].
  split; [exact Hps|]. split; [exact Hws|].
  rewrite Hs. cbn [astype_float32 WaypointExtractor.exact_arithmetic].
  by rewrite !list_fmap_id.
Defined.

End WaypointEventFacts.


(** ** ICP odometry: the operator's state and the batch loop *)

Module IcpStreamFacts.
Import Linalg Rounded O3d PyList LinalgFacts IcpFacts.
#[local] Open Scope R_scope.

(** [points.flatten()] of an Nx3 array, as the point-cloud source sends
    it. *)
Definition flatten3 (pts : list vec3) : list R :=
  flat_map (fun p => [p.1.1; p.1.2; p.2]) pts.

Lemma reshape3_flatten3 (pts : list vec3) :
  IcpOdometryOp.reshape3 (flatten3 pts) = Some pts.
Proof.
  induction pts as [|[[x y] z] pts IH]; [done|].
  change (flatten3 ((x, y, z) :: pts)) with (x :: y :: z :: flatten3 pts).
  cbn [IcpOdometryOp.reshape3]. rewrite IH. done.
Qed.

Lemma flatten3_length (pts : list vec3) :
  length (flatten3 pts) = (3 * length pts)%nat.
Proof.
  induction pts as [|p pts IH]; [done|].
  change (flatten3 (p :: pts)) with (p.1.1 :: p.1.2 :: p.2 :: flatten3 pts).
  cbn [length]. rewrite IH. lia.
Qed.

Lemma reshape3_is_Some (flat : list R) :
  is_Some (IcpOdometryOp.reshape3 flat) <-> (length flat mod 3 = 0)%nat.
Proof.
  assert (forall n (l : list R), (length l <= n)%nat ->
            is_Some (IcpOdometryOp.reshape3 l) <-> (length l mod 3 = 0)%nat)
    as H; [|by apply (H (length flat))].
  induction n as [|n IH]; intros l Hl.
  - destruct l; [|simpl in Hl; lia]. simpl. split; [done|eauto].
  - destruct l as [|x [|y [|z rest]]].
    + simpl. split; [done|eauto].
    + simpl. split; [by intros [? ?]|done].
    + simpl. split; [by intros [? ?]|done].
    + specialize (IH rest ltac:(simpl in Hl; lia)).
      cbn [IcpOdometryOp.reshape3 length].
      replace (S (S (S (length rest)))) with (length rest + 1 * 3)%nat by lia.
      rewrite Nat.Div0.mod_add, <- IH.
      destruct (IcpOdometryOp.reshape3 rest); cbn [mbind option_bind];
        split; eauto.
Qed.

(** What every state of a run satisfies. *)
Definition well_formed (icp_config : IcpOdometryOp.IcpConfig)
    (self : IcpOdometryOp.Operator) : Prop :=
  IcpOdometryOp.voxel_size self = IcpOdometryOp.cfg_voxel_size icp_config
  /\ IcpOdometryOp.max_correspondence self
     = IcpOdometryOp.cfg_max_correspondence_distance icp_config
  /\ IcpOdometryOp.max_iteration self
     = IcpOdometryOp.cfg_max_iteration icp_config
  /\ IcpOdometryOp.window_size self = 5%Z
  /\ length (IcpOdometryOp.world_clouds self) = IcpOdometryOp.frame_count self
  /\ length (IcpOdometryOp.poses self)
     = Nat.max 1 (IcpOdometryOp.frame_count self)
  /\ head (IcpOdometryOp.poses self) = Some eye4.

Section WithOpen3D.
Context `{o3d : !Open3D} `{rnd : !Rounding}.

Lemma local_map_is_Some (self : IcpOdometryOp.Operator) :
  IcpOdometryOp.window_size self = 5%Z ->
  (1 <= length (IcpOdometryOp.world_clouds self))%nat ->
  exists lm, IcpOdometryOp.local_map self = Some lm /\ lm <> [].
Proof.
  intros Hw Hn. unfold IcpOdometryOp.local_map. rewrite Hw.
  destruct (index_range_is_Some (IcpOdometryOp.world_clouds self)
              (Z.to_nat (0 `max` (Z.of_nat
                 (length (IcpOdometryOp.world_clouds self)) - 5)))
              (length (IcpOdometryOp.world_clouds self)))
    as [clouds Hc]; [lia|].
  rewrite Hc. cbn [mbind option_bind]. eexists. split; [done|].
  apply index_range_length in Hc.
  destruct clouds; [simpl in Hc; lia|done].
Qed.

(** One frame registered from a well-formed state. *)
Lemma register_frame_total (icp_config : IcpOdometryOp.IcpConfig)
    (self : IcpOdometryOp.Operator) (pts : list vec3) :
  well_formed icp_config self ->
  exists self' pose fit rmse,
    IcpOdometryOp._register_frame self pts = Some (self', (pose, fit, rmse))
    /\ well_formed icp_config self'
    /\ IcpOdometryOp.frame_count self'
       = (IcpOdometryOp.frame_count self + 1)%nat
    /\ last (IcpOdometryOp.poses self') = Some pose
    /\ IcpOdometryOp.poses self'
       = (if decide (IcpOdometryOp.frame_count self = 0)%nat
          then IcpOdometryOp.poses self
          else IcpOdometryOp.poses self ++ [pose]).
Proof.
  intros (Hv & Hc & Hi & Hw & Hclouds & Hposes & Hhead).
  destruct (decide (IcpOdometryOp.frame_count self = 0)%nat) as [Hfc|Hfc].
  { rewrite register_frame_first by done. eexists _, _, _, _.
    split; [done|]. rewrite Hfc in Hposes. simpl in Hposes.
    destruct (IcpOdometryOp.poses self) as [|p [|q ps]] eqn:Hp;
      simpl in Hposes; try lia.
    injection Hhead as ->.
    split; [|split; [done|split; [done|done]]].
    unfold well_formed. simpl. rewrite length_app, Hfc. simpl.
    repeat split; (done || lia). }
  destruct (local_map_is_Some self Hw) as (lm & Hlm & Hne); [lia|].
  destruct (proj2 (neg_index_is_Some (IcpOdometryOp.poses self) 1))
    as [prev Hprev]; [lia|].
  set (result := IcpOdometryOp.run_icp self
         (IcpOdometryOp._preprocess self (concat lm)) pts prev).
  assert (forall T,
            well_formed icp_config
              (IcpOdometryOp.set_frame self (IcpOdometryOp.poses self ++ [T])
                 (IcpOdometryOp.world_clouds self ++ [transform_points T pts])
                 (IcpOdometryOp.frame_count self + 1))) as Hwf.
  { intros T. unfold well_formed. simpl. rewrite !length_app. simpl.
    repeat split; try (done || lia).
    destruct (IcpOdometryOp.poses self); [done|]. done. }
  destruct (Rgt_dec (jump (matmul (transformation result) prev) prev) 0.75)
    as [Hj|Hj].
  - destruct (fallback_spec _ _ Hprev) as (T & HT & _).
    rewrite (register_frame_reject self pts lm prev T) by done.
    eexists _, _, _, _. split; [done|]. split; [apply Hwf|].
    split; [done|]. split; [simpl; apply last_snoc|done].
  - rewrite (register_frame_accept self pts lm prev)
      by (done || fold result; lra).
    eexists _, _, _, _. split; [done|]. split; [apply Hwf|].
    split; [done|]. split; [simpl; apply last_snoc|done].
Qed.

Lemma init_well_formed (icp_config : IcpOdometryOp.IcpConfig) :
  well_formed icp_config (IcpOdometryOp.init icp_config).
Proof. unfold well_formed. simpl. repeat split. Qed.

(** What an event does to a well-formed state. *)
Lemma on_event_spec (icp_config : IcpOdometryOp.IcpConfig)
    (self : IcpOdometryOp.Operator) (ev : IcpOdometryOp.Event) :
  well_formed icp_config self ->
  (IcpOdometryOp.on_event self ev = None
   <-> exists flat, ev = IcpOdometryOp.INPUT IcpOdometryOp.Pointcloud flat
                    /\ (length flat mod 3 <> 0)%nat)
  /\ forall self' outs status,
       IcpOdometryOp.on_event self ev = Some (self', outs, status) ->
       well_formed icp_config self'
       /\ ((self' = self /\ outs = [])
           \/ exists pose fit rmse,
                outs = [IcpOdometryOp.Pose
                          (astype_float32 <$> IcpOdometryOp.flatten pose);
                        IcpOdometryOp.OdometryStatus
                          (astype_float32
                             <$> [INR (IcpOdometryOp.frame_count self);
                                  fit; rmse])]
                /\ IcpOdometryOp.frame_count self'
                   = (IcpOdometryOp.frame_count self + 1)%nat
                /\ last (IcpOdometryOp.poses self') = Some pose
                /\ IcpOdometryOp.poses self'
                   = (if decide (IcpOdometryOp.frame_count self = 0)%nat
                      then IcpOdometryOp.poses self
                      else IcpOdometryOp.poses self ++ [pose])).
Proof.
  intros Hwf.
  destruct ev as [[| |] flat| |]; cbn [IcpOdometryOp.on_event].
  2-5: (split; [split; [done|by intros (? & [=] & _)]|];
        intros ? ? ? [= <- <- _]; split; [done|by left]).
  destruct (decide (length flat = 0)%nat) as [Hz|Hnz].
  { split.
    - split; [done|]. intros (flat' & [= <-] & Hmod).
      rewrite Hz in Hmod. done.
    - intros ? ? ? [= <- <- _]. split; [done|by left]. }
  destruct (IcpOdometryOp.reshape3 flat) as [pts|] eqn:Hpts.
  - cbn [mbind option_bind].
    destruct (register_frame_total icp_config self pts Hwf)
      as (self1 & pose & fit & rmse & Hreg & Hwf1 & Hfc & Hlast & Hposes).
    rewrite Hreg. cbn [mbind option_bind]. split.
    + split; [done|]. intros (flat' & [= <-] & Hmod). exfalso. apply Hmod.
      apply reshape3_is_Some. eauto.
    + intros ? ? ? [= <- <- _]. split; [done|]. right.
      exists pose, fit, rmse. rewrite Hfc.
      replace (IcpOdometryOp.frame_count self + 1 - 1)%nat
        with (IcpOdometryOp.frame_count self) by lia. done.
  - cbn [mbind option_bind]. split; [|done]. split; [|done].
    intros _. exists flat. split; [done|]. intros Hmod.
    apply reshape3_is_Some in Hmod. rewrite Hpts in Hmod. by destruct Hmod.
Qed.

Lemma reachable_well_formed (icp_config : IcpOdometryOp.IcpConfig)
    (self : IcpOdometryOp.Operator) :
  reachable icp_config self -> well_formed icp_config self.
Proof.
  induction 1 as [|self ev self' outs status _ IH Hev].
  - apply init_well_formed.
  - by apply (on_event_spec icp_config self ev IH) in Hev as [? _].
Qed.

End WithOpen3D.

(** In every state a run reaches, the operator holds one world cloud per
    registered frame and one pose per frame (the identity first), its
    parameters are those of the configuration, and the early return of
    [_register_frame] for an empty local map is never taken.  An event
    raises exactly when it is a point cloud whose length is no multiple of
    3; otherwise it sends nothing or, for a frame, the newest pose and a
    status whose index is the number of frames registered before, both
    cast to float32. *)
Theorem operator_state_stays_consistent `{o3d : !Open3D} `{rnd : !Rounding}
    (icp_config : IcpOdometryOp.IcpConfig) (self : IcpOdometryOp.Operator)
    (ev : IcpOdometryOp.Event) :
  reachable icp_config self ->
  well_formed icp_config self
  /\ ((1 <= IcpOdometryOp.frame_count self)%nat ->
      exists lm, IcpOdometryOp.local_map self = Some lm /\ lm <> [])
  /\ (IcpOdometryOp.on_event self ev = None
      <-> exists flat, ev = IcpOdometryOp.INPUT IcpOdometryOp.Pointcloud flat
                       /\ (length flat mod 3 <> 0)%nat)
  /\ forall self' outs status,
       IcpOdometryOp.on_event self ev = Some (self', outs, status) ->
       (self' = self /\ outs = [])
       \/ exists pose fit rmse,
            outs = [IcpOdometryOp.Pose
                      (astype_float32 <$> IcpOdometryOp.flatten pose);
                    IcpOdometryOp.OdometryStatus
                      (astype_float32
                         <$> [INR (IcpOdometryOp.frame_count self);
                              fit; rmse])]
            /\ IcpOdometryOp.frame_count self'
               = (IcpOdometryOp.frame_count self + 1)%nat
            /\ last (IcpOdometryOp.poses self') = Some pose
            /\ IcpOdometryOp.poses self'
               = (if decide (IcpOdometryOp.frame_count self = 0)%nat
                  then IcpOdometryOp.poses self
                  else IcpOdometryOp.poses self ++ [pose]).
Proof.
  intros Hreach. pose proof (reachable_well_formed _ _ Hreach) as Hwf.
  split; [done|]. split; [|split].
  - intros Hfc. destruct Hwf as (_ & _ & _ & Hw & Hc & _).
    apply local_map_is_Some; [done|lia].
  - apply (on_event_spec icp_config self ev Hwf).
  - intros self' outs status Hev.
    by apply (on_event_spec icp_config self ev Hwf) in Hev as [_ ?].
Qed.

(** The operator runs on a well-formed state; an input of two numbers is
    no cloud. *)
Lemma operator_state_stays_consistent_witness :
  @well_formed IcpOdometryOp.default_icp_config
    (IcpOdometryOp.init IcpOdometryOp.default_icp_config)
  /\ @IcpOdometryOp.on_event demo_o3d WaypointExtractor.exact_arithmetic
       (IcpOdometryOp.init IcpOdometryOp.default_icp_config)
       (IcpOdometryOp.INPUT IcpOdometryOp.Pointcloud [1; 2]) = None.
Proof.
  pose proof (@operator_state_stays_consistent demo_o3d
                WaypointExtractor.exact_arithmetic
                IcpOdometryOp.default_icp_config
                (IcpOdometryOp.init IcpOdometryOp.default_icp_config)
                (IcpOdometryOp.INPUT IcpOdometryOp.Pointcloud [1; 2])
                (@reachable_init demo_o3d WaypointExtractor.exact_arithmetic _))
    as (Hwf & _ & Hnone & _).
  split; [exact Hwf|]. apply Hnone. eexists. split; [reflexivity|].
  simpl. lia.
Defined.

(** *** The streaming operator against the batch odometry *)

(** The configuration [SimpleICPOdometry] reads from the same dictionary. *)
Definition batch_config (icp_config : IcpOdometryOp.IcpConfig)
    : SimpleICP.Config :=
  {| SimpleICP.voxel_size := IcpOdometryOp.cfg_voxel_size icp_config;
     SimpleICP.max_correspondence :=
       IcpOdometryOp.cfg_max_correspondence_distance icp_config;
     SimpleICP.max_iteration := IcpOdometryOp.cfg_max_iteration icp_config |}.

(** The pose messages among the outputs, in the order sent. *)
Definition sent_poses (outs : list IcpOdometryOp.Output) : list (list R) :=
  omap (fun o => match o with
                 | IcpOdometryOp.Pose pose_flat => Some pose_flat
                 | IcpOdometryOp.OdometryStatus _ => None
                 end) outs.

(** The events a source sends for a list of clouds. *)
Definition cloud_events (point_clouds : list (list vec3))
    : list IcpOdometryOp.Event :=
  (fun pc => IcpOdometryOp.INPUT IcpOdometryOp.Pointcloud (flatten3 pc))
    <$> point_clouds.

Lemma stride_from_1 {A : Type} (l : list A) : stride_from 0 1 l = l.
Proof. induction l as [|x l IH]; [done|]. simpl. by rewrite IH. Qed.

Lemma subsample_small (pts : list vec3) :
  (length pts < 2 * 5000)%nat -> SimpleICP.subsample pts = pts.
Proof.
  intros Hlen. unfold SimpleICP.subsample, stride.
  assert (length pts / 5000 <= 1)%nat as Hdiv.
  { assert (length pts / 5000 < 2)%nat; [|lia].
    apply Nat.Div0.div_lt_upper_bound. lia. }
  replace (Nat.max 1 (length pts / 5000)) with 1%nat by lia.
  apply stride_from_1.
Qed.

Section Simulation.
Context `{o3d : !Open3D} `{rnd : !Rounding}.

Lemma preprocess_agree (icp_config : IcpOdometryOp.IcpConfig)
    (self : IcpOdometryOp.Operator) (pts : list vec3) :
  well_formed icp_config self ->
  SimpleICP.preprocess (batch_config icp_config) pts
  = IcpOdometryOp._preprocess self pts.
Proof.
  intros (Hv & _). unfold SimpleICP.preprocess, IcpOdometryOp._preprocess.
  cbn [batch_config SimpleICP.voxel_size]. by rewrite Hv.
Qed.

Lemma motion_model_is_fallback (self : IcpOdometryOp.Operator) (prev : mat4) :
  neg_index (IcpOdometryOp.poses self) 1 = Some prev ->
  SimpleICP.motion_model (IcpOdometryOp.poses self)
  = IcpOdometryOp.fallback self prev.
Proof.
  intros Hprev. unfold SimpleICP.motion_model, IcpOdometryOp.fallback.
  destruct (decide (2 <= length (IcpOdometryOp.poses self))%nat); [|done].
  rewrite Hprev. done.
Qed.

(** One frame after the first: [_register_frame] does what one pass of the
    loop of [run_on_sequence] does. *)
Lemma register_frame_is_loop_body (icp_config : IcpOdometryOp.IcpConfig)
    (self : IcpOdometryOp.Operator) (st : SimpleICP.State)
    (pcs : list (list vec3)) (i : nat) (pc : list vec3) :
  well_formed icp_config self ->
  IcpOdometryOp.frame_count self = i -> (1 <= i)%nat ->
  IcpOdometryOp.poses self = SimpleICP.poses st ->
  IcpOdometryOp.world_clouds self = SimpleICP.world_clouds st ->
  (i = 1%nat -> exists wc, IcpOdometryOp.world_clouds self = [wc]
                           /\ (length wc < 2 * 5000)%nat) ->
  pcs !! i = Some pc ->
  exists T f rmse,
    IcpOdometryOp._register_frame self pc
    = Some (IcpOdometryOp.set_frame self (IcpOdometryOp.poses self ++ [T])
              (IcpOdometryOp.world_clouds self ++ [transform_points T pc])
              (i + 1), (T, f, rmse))
    /\ SimpleICP.loop_body (batch_config icp_config) true 5 pcs i st
       = Some ({| SimpleICP.poses := SimpleICP.poses st ++ [T];
                  SimpleICP.world_clouds :=
                    SimpleICP.world_clouds st ++ [transform_points T pc] |},
               f).
Proof.
  intros Hwf Hfc Hi Hposes Hclouds Hfirst Hpc.
  pose proof Hwf as (Hv & Hc & Hit & Hw & Hlen & Hplen & Hhead).
  assert (exists clouds,
            index_range (IcpOdometryOp.world_clouds self)
              (Z.to_nat (0 `max` (Z.of_nat i - 5))) i = Some clouds
            /\ clouds <> []) as (clouds & Hrange & Hne).
  { destruct (index_range_is_Some (IcpOdometryOp.world_clouds self)
                (Z.to_nat (0 `max` (Z.of_nat i - 5))) i) as [clouds Hr];
      [lia|].
    exists clouds. split; [done|]. apply index_range_length in Hr.
    destruct clouds; [simpl in Hr; lia|done]. }
  assert (IcpOdometryOp.local_map self
          = Some (SimpleICP.subsample <$> clouds)) as Hlm.
  { unfold IcpOdometryOp.local_map. rewrite Hw, Hlen, Hfc, Hrange. done. }
  assert (SimpleICP.subsample <$> clouds <> []) as Hlmne.
  { by destruct clouds. }
  destruct (proj2 (neg_index_is_Some (IcpOdometryOp.poses self) 1))
    as [prev Hprev]; [lia|].
  set (target := IcpOdometryOp._preprocess self
                   (concat (SimpleICP.subsample <$> clouds))).
  assert (SimpleICP.target_cloud (batch_config icp_config) true 5 i st
          = Some target) as Htarget.
  { unfold SimpleICP.target_cloud. cbn [andb].
    destruct (bool_decide (1 < i)%nat) eqn:Hbig.
    - rewrite <- Hclouds, Hrange. cbn [mbind option_bind].
      unfold SimpleICP.vstack.
      destruct clouds as [|c cs]; [done|]. rewrite fmap_cons.
      cbn [mbind option_bind].
      rewrite (preprocess_agree icp_config self) by done. reflexivity.
    - apply bool_decide_eq_false in Hbig.
      assert (i = 1%nat) as -> by lia.
      destruct Hfirst as (wc & Hwc & Hsmall); [done|].
      rewrite <- Hclouds, Hwc. cbn [lookup list_lookup Nat.sub].
      cbn [mbind option_bind].
      rewrite (preprocess_agree icp_config self) by done.
      subst target. rewrite Hwc in Hrange.
      injection Hrange as <-. cbn [fmap list_fmap concat].
      by rewrite app_nil_r, subsample_small. }
  set (result := IcpOdometryOp.run_icp self target pc prev).
  assert (SimpleICP.icp_correction (batch_config icp_config) true 5 pcs i st
          = Some result) as Hcorr.
  { unfold SimpleICP.icp_correction. rewrite Htarget. cbn [mbind option_bind].
    rewrite Hpc. cbn [mbind option_bind]. rewrite <- Hposes, Hprev.
    cbn [mbind option_bind].
    rewrite (preprocess_agree icp_config self) by done.
    subst result. unfold IcpOdometryOp.run_icp.
    cbn [batch_config SimpleICP.voxel_size SimpleICP.max_correspondence
         SimpleICP.max_iteration].
    by rewrite Hv, Hc, Hit. }
  destruct (Rgt_dec (jump (matmul (transformation result) prev) prev) 0.75)
    as [Hj|Hj].
  - destruct (fallback_spec _ _ Hprev) as (T & HT & _).
    exists T, 0, (inlier_rmse result). split.
    + rewrite <- Hfc.
      apply (register_frame_reject self pc (SimpleICP.subsample <$> clouds)
               prev T); [lia|done|done|done|exact Hj|done].
    + apply (loop_body_eq _ _ _ _ _ _ result); [done| |done].
      rewrite <- Hposes, (validate_reject result _ prev); [| done |].
      * rewrite (motion_model_is_fallback self prev), HT by done. done.
      * unfold SimpleICP.expected_motion. lra.
  - exists (matmul (transformation result) prev), (fitness result),
      (inlier_rmse result). split.
    + rewrite <- Hfc.
      apply (register_frame_accept self pc (SimpleICP.subsample <$> clouds)
               prev); [lia|done|done|done|]. fold target. fold result. lra.
    + apply (loop_body_eq _ _ _ _ _ _ result); [done| |done].
      rewrite <- Hposes. apply validate_accept; [done|].
      unfold SimpleICP.expected_motion. lra.
Qed.

Lemma on_event_cloud (self self' : IcpOdometryOp.Operator)
    (pc : list vec3) (T : mat4) (f rmse : R) :
  pc <> [] ->
  IcpOdometryOp._register_frame self pc = Some (self', (T, f, rmse)) ->
  IcpOdometryOp.on_event self
    (IcpOdometryOp.INPUT IcpOdometryOp.Pointcloud (flatten3 pc))
  = Some (self', [IcpOdometryOp.Pose
                    (astype_float32 <$> IcpOdometryOp.flatten T);
                  IcpOdometryOp.OdometryStatus
                    (astype_float32
                       <$> [INR (IcpOdometryOp.frame_count self' - 1);
                            f; rmse])],
          IcpOdometryOp.CONTINUE).
Proof.
  intros Hne Hreg. cbn [IcpOdometryOp.on_event].
  destruct (decide (length (flatten3 pc) = 0)%nat) as [Hz|_].
  { rewrite flatten3_length in Hz. destruct pc; [done|simpl in Hz; lia]. }
  rewrite reshape3_flatten3. cbn [mbind option_bind]. rewrite Hreg. done.
Qed.

(** The frames after the first, from states that agree. *)
Lemma stream_follows_batch (icp_config : IcpOdometryOp.IcpConfig)
    (pcs rest : list (list vec3)) :
  Forall (fun pc => pc <> []) rest ->
  forall (self : IcpOdometryOp.Operator) (st : SimpleICP.State) (i : nat),
    well_formed icp_config self ->
    IcpOdometryOp.frame_count self = i -> (1 <= i)%nat ->
    IcpOdometryOp.poses self = SimpleICP.poses st ->
    IcpOdometryOp.world_clouds self = SimpleICP.world_clouds st ->
    (i = 1%nat -> exists wc, IcpOdometryOp.world_clouds self = [wc]
                             /\ (length wc < 2 * 5000)%nat) ->
    (forall k pc, rest !! k = Some pc -> pcs !! (i + k)%nat = Some pc) ->
    exists self' outs st' log new,
      IcpOdometryOp.run_events self (cloud_events rest) = Some (self', outs)
      /\ SimpleICP.run_loop (batch_config icp_config) true 5 pcs
           (seq i (length rest)) st = Some (st', log)
      /\ IcpOdometryOp.poses self' = SimpleICP.poses st'
      /\ IcpOdometryOp.poses self' = IcpOdometryOp.poses self ++ new
      /\ sent_poses outs
         = (fun T => astype_float32 <$> IcpOdometryOp.flatten T) <$> new.
Proof.
  induction 1 as [|pc rest Hpc _ IH];
    intros self st i Hwf Hfc Hi Hposes Hclouds Hfirst Hpcs.
  { exists self, [], st, [], []. rewrite app_nil_r. done. }
  destruct (register_frame_is_loop_body icp_config self st pcs i pc)
    as (T & f & rmse & Hreg & Hbody); try done.
  { rewrite <- (Nat.add_0_r i). by apply Hpcs. }
  destruct (register_frame_total icp_config self pc Hwf)
    as (self1 & ? & ? & ? & Hreg' & Hwf1 & _).
  rewrite Hreg in Hreg'. injection Hreg' as <- _ _ _.
  set (self1 := IcpOdometryOp.set_frame self _ _ _) in *.
  destruct (IH self1
              {| SimpleICP.poses := SimpleICP.poses st ++ [T];
                 SimpleICP.world_clouds :=
                   SimpleICP.world_clouds st ++ [transform_points T pc] |}
              (i + 1)%nat)
    as (self' & outs & st' & log & new & Hrun & Hloop & Hsame & Hnew & Hsent);
    try done.
  - lia.
  - simpl. by rewrite Hposes.
  - simpl. by rewrite Hclouds.
  - lia.
  - intros k pc' Hk. replace (i + 1 + k)%nat with (i + S k)%nat by lia.
    by apply Hpcs.
  - exists self', ([IcpOdometryOp.Pose
                      (astype_float32 <$> IcpOdometryOp.flatten T);
                    IcpOdometryOp.OdometryStatus
                      (astype_float32
                         <$> [INR (IcpOdometryOp.frame_count self1 - 1);
                              f; rmse])]
                   ++ outs), st', (f :: log), (T :: new).
    split; [|split; [|split; [done|split]]].
    + change (cloud_events (pc :: rest))
        with (IcpOdometryOp.INPUT IcpOdometryOp.Pointcloud (flatten3 pc)
              :: cloud_events rest).
      cbn [IcpOdometryOp.run_events].
      rewrite (on_event_cloud self self1 pc T f rmse) by done.
      cbn [mbind option_bind]. rewrite Hrun. done.
    + cbn [length seq SimpleICP.run_loop]. rewrite Hbody.
      cbn [mbind option_bind].
      replace (S i) with (i + 1)%nat by lia. rewrite Hloop. done.
    + rewrite Hnew. subst self1. simpl. by rewrite <- app_assoc.
    + simpl. by rewrite Hsent.
Qed.

End Simulation.

(** Fed the clouds of a sequence one event each, the operator ends with the
    poses the batch odometry [run_on_sequence] (local map, window 5) returns
    for the same configuration, and the pose messages it has sent are these
    poses in order, each cast to float32.  This needs every cloud non-empty
    (the operator skips an
    empty one) and fewer than 10000 points in the first cloud: for the second
    frame the operator subsamples the first cloud, the batch loop takes it
    whole. *)
Theorem operator_poses_are_the_batch_poses `{o3d : !Open3D} `{rnd : !Rounding}
    (icp_config : IcpOdometryOp.IcpConfig) (pc0 : list vec3)
    (rest : list (list vec3)) :
  Forall (fun pc => pc <> []) (pc0 :: rest) ->
  (length pc0 < 2 * 5000)%nat ->
  exists self outs,
    IcpOdometryOp.run_events (IcpOdometryOp.init icp_config)
      (cloud_events (pc0 :: rest)) = Some (self, outs)
    /\ SimpleICP.run_on_sequence (batch_config icp_config) (pc0 :: rest)
         true 5 = Some (IcpOdometryOp.poses self)
    /\ sent_poses outs
       = (fun T => astype_float32 <$> IcpOdometryOp.flatten T)
           <$> IcpOdometryOp.poses self.
Proof.
  intros Hne Hsmall. apply Forall_cons in Hne as [Hne0 Hne].
  set (self0 := IcpOdometryOp.init icp_config).
  set (self1 := IcpOdometryOp.set_frame self0 [eye4] [pc0] 1).
  assert (IcpOdometryOp._register_frame self0 pc0
          = Some (self1, (eye4, 1, 0))) as Hreg.
  { by rewrite register_frame_first. }
  assert (well_formed icp_config self1) as Hwf1.
  { unfold well_formed. simpl. repeat split. }
  destruct (stream_follows_batch icp_config (pc0 :: rest) rest Hne self1
              {| SimpleICP.poses := [eye4]; SimpleICP.world_clouds := [pc0] |}
              1%nat)
    as (self' & outs & st' & log & new & Hrun & Hloop & Hsame & Hnew & Hsent);
    try done.
  { intros _. by exists pc0. }
  exists self', ([IcpOdometryOp.Pose
                    (astype_float32 <$> IcpOdometryOp.flatten eye4);
                  IcpOdometryOp.OdometryStatus
                    (astype_float32
                       <$> [INR (IcpOdometryOp.frame_count self1 - 1); 1; 0])]
                 ++ outs).
  split; [|split].
  - change (cloud_events (pc0 :: rest))
      with (IcpOdometryOp.INPUT IcpOdometryOp.Pointcloud (flatten3 pc0)
            :: cloud_events rest).
    cbn [IcpOdometryOp.run_events].
    rewrite (on_event_cloud self0 self1 pc0 eye4 1 0) by done.
    cbn [mbind option_bind]. fold self0. rewrite Hrun. done.
  - unfold SimpleICP.run_on_sequence, SimpleICP.run_on_sequence_log.
    cbn [length]. replace (S (length rest) - 1)%nat with (length rest) by lia.
    rewrite Hloop. simpl. by rewrite Hsame.
  - rewrite Hnew. simpl. by rewrite Hsent.
Qed.

(** Two single-point clouds, registered by [demo_o3d], in exact
    arithmetic. *)
Lemma operator_poses_are_the_batch_poses_witness :
  Forall (fun pc : list vec3 => pc <> []) [[(0, 0, 0)]; [(1, 0, 0)]]
  /\ (length [(0, 0, 0)] < 2 * 5000)%nat
  /\ exists self outs,
       @IcpOdometryOp.run_events demo_o3d WaypointExtractor.exact_arithmetic
         (IcpOdometryOp.init IcpOdometryOp.default_icp_config)
         (cloud_events [[(0, 0, 0)]; [(1, 0, 0)]]) = Some (self, outs)
       /\ @SimpleICP.run_on_sequence demo_o3d
            (batch_config IcpOdometryOp.default_icp_config)
            [[(0, 0, 0)]; [(1, 0, 0)]] true 5
          = Some (IcpOdometryOp.poses self)
       /\ sent_poses outs
          = (fun T => @astype_float32 WaypointExtractor.exact_arithmetic
                        <$> IcpOdometryOp.flatten T)
              <$> IcpOdometryOp.poses self.
Proof.
  assert (Forall (fun pc : list vec3 => pc <> [])
            [[(0, 0, 0)]; [(1, 0, 0)]]) as Hne.
  { repeat constructor; discriminate. }
  assert (length [(0, 0, 0)] < 2 * 5000)%nat as Hsmall.
  { simpl. lia. }
  split; [exact Hne|]. split; [exact Hsmall|].
  exact (@operator_poses_are_the_batch_poses demo_o3d
           WaypointExtractor.exact_arithmetic
           IcpOdometryOp.default_icp_config [(0, 0, 0)] [[(1, 0, 0)]]
           Hne Hsmall).
Defined.

End IcpStreamFacts.

